(** * WarpX particle-to-grid coupling: charge deposition and PEC boundary kernels

    A shallow embedding of
      - Source/BoundaryConditions/WarpX_PEC.H        (namespace PEC, and
        the parts of MultiParticleContainer and of the MUSCL-Hancock
        fluid utilities the file carries),
      - Source/Particles/Deposition/ChargeDeposition.H,
      - Source/Particles/Sorting/SortingUtils.cpp,
    over exact real arithmetic.  [amrex::Real] is read as [R], [int] and
    [long] as [Z] (loop counters as [nat]); an access outside an array's
    extent is undefined behaviour in the source and a [Fault] here. *)

From Stdlib Require Import Reals ZArith List Bool Lra Lia Permutation.
From Stdlib Require String.
Import ListNotations.

Local Open Scope Z_scope.

(* ================================================================== *)
(** * Faults and the result monad *)
(* ================================================================== *)

Inductive Fault : Type :=
| OutOfRange      (* read or write outside an array's extent *)
| DivideByZero    (* a quotient whose divisor is zero *)
| TileTooBig.     (* "Tile size too big for GPU shared memory charge deposition" *)

Inductive Result (A : Type) : Type :=
| Ok  (a : A)
| Err (f : Fault).

Arguments Ok {A} a.
Arguments Err {A} f.

Definition bind {A B : Type} (m : Result A) (k : A -> Result B) : Result B :=
  match m with
  | Ok a => k a
  | Err f => Err f
  end.

Notation "x <- m ;; k" := (bind m (fun x => k))
  (at level 61, m at next level, right associativity).

(** [for (i = 0; i < n; ++i) body], threading the state through the
    iterations and stopping at the first fault. *)
Fixpoint for_loop_from {St : Type} (start n : nat)
         (body : nat -> St -> Result St) (s : St) : Result St :=
  match n with
  | O => Ok s
  | S n' => s' <- body start s ;; for_loop_from (S start) n' body s'
  end.

Definition for_loop {St : Type} (n : nat) (body : nat -> St -> Result St)
           (s : St) : Result St :=
  for_loop_from 0 n body s.

(** The same loop for a body that cannot fault. *)
Fixpoint pure_loop_from {St : Type} (start n : nat)
         (body : nat -> St -> St) (s : St) : St :=
  match n with
  | O => s
  | S n' => pure_loop_from (S start) n' body (body start s)
  end.

Definition pure_loop {St : Type} (n : nat) (body : nat -> St -> St) (s : St)
  : St :=
  pure_loop_from 0 n body s.

(** ** Loops as folds over the list of their iterations *)

Fixpoint for_each {X St : Type} (l : list X) (body : X -> St -> Result St)
         (s : St) : Result St :=
  match l with
  | [] => Ok s
  | x :: l' => s' <- body x s ;; for_each l' body s'
  end.

Fixpoint pure_each {X St : Type} (l : list X) (body : X -> St -> St) (s : St)
  : St :=
  match l with
  | [] => s
  | x :: l' => pure_each l' body (body x s)
  end.

(** The iterations of [for idim < d { for iside < 2 { ... } }], in order. *)
Definition sides (d : nat) : list (nat * nat) :=
  flat_map (fun idim => [(idim, 0%nat); (idim, 1%nat)]) (seq 0 d).


(* ================================================================== *)
(** * AMReX data: geometry, IntVect, Box, Array4 *)
(* ================================================================== *)

(** The compile-time dimensionality (WARPX_DIM_1D_Z, WARPX_DIM_XZ,
    WARPX_DIM_RZ, WARPX_DIM_3D). *)
Inductive Geometry : Type := DIM_1D_Z | DIM_XZ | DIM_RZ | DIM_3D.

Definition AMREX_SPACEDIM (g : Geometry) : nat :=
  match g with
  | DIM_1D_Z => 1
  | DIM_XZ | DIM_RZ => 2
  | DIM_3D => 3
  end.

(** [amrex::IntVect]: AMREX_SPACEDIM integers. *)
Definition IntVect : Type := list Z.

Definition iv_get (iv : IntVect) (d : nat) : Z := nth d iv 0.

Fixpoint iv_set (iv : IntVect) (d : nat) (v : Z) : IntVect :=
  match iv, d with
  | [], _ => []
  | _ :: r, O => v :: r
  | x :: r, S d' => x :: iv_set r d' v
  end.

Fixpoint IntVect_eqb (a b : IntVect) : bool :=
  match a, b with
  | [], [] => true
  | x :: a', y :: b' => (x =? y) && IntVect_eqb a' b'
  | _, _ => false
  end.

(** [amrex::GpuArray<T, N>]: a fixed-size array, read at indices below N. *)
Definition GpuArray (T : Type) : Type := nat -> T.

(** [amrex::Box]: the inclusive index range [smallEnd .. bigEnd]. *)
Record Box : Type := mkBox { smallEnd : IntVect; bigEnd : IntVect }.

Definition Box_contains (g : Geometry) (b : Box) (iv : IntVect) : bool :=
  forallb (fun d => (iv_get (smallEnd b) d <=? iv_get iv d)
                    && (iv_get iv d <=? iv_get (bigEnd b) d))
          (seq 0 (AMREX_SPACEDIM g)).

Record Dim3 : Type := mkDim3 { d3x : Z; d3y : Z; d3z : Z }.

(** [amrex::Array4<Real>]: a view of [a_ncomp] components over the cells
    [a_begin <= (i,j,k) < a_end] (the end is exclusive). *)
Record Array4 : Type := mkArray4 {
  a_begin : Dim3;
  a_end   : Dim3;
  a_ncomp : Z;
  a_data  : Z -> Z -> Z -> Z -> R
}.

Definition Array4_contains (a : Array4) (i j k n : Z) : bool :=
  (d3x (a_begin a) <=? i) && (i <? d3x (a_end a))
  && (d3y (a_begin a) <=? j) && (j <? d3y (a_end a))
  && (d3z (a_begin a) <=? k) && (k <? d3z (a_end a))
  && (0 <=? n) && (n <? a_ncomp a).

Definition same_cell (i j k n i' j' k' n' : Z) : bool :=
  (i =? i') && (j =? j') && (k =? k') && (n =? n').

Definition Array4_update (a : Array4) (i j k n : Z) (v : R) : Array4 :=
  mkArray4 (a_begin a) (a_end a) (a_ncomp a)
           (fun i' j' k' n' =>
              if same_cell i j k n i' j' k' n' then v else a_data a i' j' k' n').

(** [a(i,j,k,n)] as an rvalue. *)
Definition Array4_read (a : Array4) (i j k n : Z) : Result R :=
  if Array4_contains a i j k n then Ok (a_data a i j k n) else Err OutOfRange.

(** [a(i,j,k,n) = v]. *)
Definition Array4_write (a : Array4) (i j k n : Z) (v : R) : Result Array4 :=
  if Array4_contains a i j k n then Ok (Array4_update a i j k n v)
  else Err OutOfRange.

(** [amrex::Gpu::Atomic::AddNoRet(&a(i,j,k,n), v)]: an indivisible
    read-modify-write, so a sequence of them in any order is a sequence
    of additions. *)
Definition AddNoRet (a : Array4) (i j k n : Z) (v : R) : Result Array4 :=
  if Array4_contains a i j k n
  then Ok (Array4_update a i j k n (a_data a i j k n + v)%R)
  else Err OutOfRange.

(** [a(iv, n)]: AMReX passes the IntVect's components as (i, j, k) and 0
    for the dimensions the build does not have. *)
Definition iv_i (iv : IntVect) : Z := iv_get iv 0.
Definition iv_j (iv : IntVect) : Z := iv_get iv 1.
Definition iv_k (iv : IntVect) : Z := iv_get iv 2.

Definition Array4_read_iv (a : Array4) (iv : IntVect) (n : Z) : Result R :=
  Array4_read a (iv_i iv) (iv_j iv) (iv_k iv) n.

Definition Array4_write_iv (a : Array4) (iv : IntVect) (n : Z) (v : R)
  : Result Array4 :=
  Array4_write a (iv_i iv) (iv_j iv) (iv_k iv) n v.

(** The value stored at [(iv, n)], whatever the extent. *)
Definition Array4_at (a : Array4) (iv : IntVect) (n : Z) : R :=
  a_data a (iv_i iv) (iv_j iv) (iv_k iv) n.

(* ================================================================== *)
(** * Source/BoundaryConditions/WarpX_PEC.H *)
(* ================================================================== *)

Module PEC.

(** Modelled from the spec: the enumeration FieldBoundaryType
    (Utils/WarpXAlgorithmSelection.H) is not among the sources; the
    spec's boundary-type table is a per-axis, per-side enum "PEC | other". *)
Inductive FieldBoundaryType : Type :=
| FieldBoundaryType_PEC
| FieldBoundaryType_other.

Definition is_boundary_PEC (fboundary : GpuArray FieldBoundaryType) (dir : nat)
  : bool :=
  match fboundary dir with
  | FieldBoundaryType_PEC => true
  | FieldBoundaryType_other => false
  end.

(** Number of grid points the index is past the domain boundary. *)
Definition get_cell_count_to_boundary
           (dom_lo dom_hi ijk_vec is_nodal : IntVect) (idim iside : nat) : Z :=
  if (iside =? 0)%nat
  then iv_get dom_lo idim - iv_get ijk_vec idim
  else iv_get ijk_vec idim - (iv_get dom_hi idim + iv_get is_nodal idim).

(** The locals of SetEfieldOnPEC / SetBfieldOnPEC that the two loops
    over dimensions and sides update. *)
Record MirrorState : Type := mkMirrorState {
  ijk_mirror    : IntVect;
  OnPECBoundary : bool;
  GuardCell     : bool;
  sign          : R
}.

(** [is_tangent_to_PEC] of SetEfieldOnPEC, per dimensionality. *)
Definition is_tangent_to_PEC (g : Geometry) (icomp : Z) (idim : nat) : bool :=
  match g with
  | DIM_XZ | DIM_RZ => negb (icomp =? Z.of_nat (AMREX_SPACEDIM g * idim))
  | DIM_1D_Z => negb (icomp =? Z.of_nat (idim + 2))
  | DIM_3D => negb (icomp =? Z.of_nat idim)
  end.

(** [is_normal_to_PEC] of SetBfieldOnPEC, per dimensionality. *)
Definition is_normal_to_PEC (g : Geometry) (icomp : Z) (idim : nat) : bool :=
  match g with
  | DIM_XZ | DIM_RZ => icomp =? Z.of_nat (AMREX_SPACEDIM g * idim)
  | DIM_1D_Z => icomp =? Z.of_nat (idim + 2)
  | DIM_3D => icomp =? Z.of_nat idim
  end.

(** One iteration (idim, iside) of the loops of SetEfieldOnPEC. *)
Definition SetEfieldOnPEC_side (g : Geometry) (icomp : Z)
           (dom_lo dom_hi ijk_vec is_nodal : IntVect)
           (fbndry_lo fbndry_hi : GpuArray FieldBoundaryType)
           (idim iside : nat) (st : MirrorState) : MirrorState :=
  let isPECBoundary :=
      if (iside =? 0)%nat then is_boundary_PEC fbndry_lo idim
      else is_boundary_PEC fbndry_hi idim in
  let tangent := is_tangent_to_PEC g icomp idim in
  if isPECBoundary then
    let ig := get_cell_count_to_boundary dom_lo dom_hi ijk_vec is_nodal idim iside in
    if ig =? 0 then
      if tangent && (iv_get is_nodal idim =? 1)
      then mkMirrorState (ijk_mirror st) true (GuardCell st) (sign st)
      else st
    else if 0 <? ig then
      let ijk_mirror' :=
          iv_set (ijk_mirror st) idim
                 (if (iside =? 0)%nat
                  then iv_get dom_lo idim + ig - (1 - iv_get is_nodal idim)
                  else iv_get dom_hi idim + 1 - ig) in
      let sign1 := if tangent then (sign st * -1)%R else sign st in
      let sign2 :=
          match g with
          | DIM_RZ =>
            if (icomp =? 0) && (idim =? 0)%nat && (iside =? 1)%nat then
              let rguard := (IZR (iv_get ijk_vec idim)
                             + 0.5 * (1 - IZR (iv_get is_nodal idim)))%R in
              let rmirror := (IZR (iv_get ijk_mirror' idim)
                              + 0.5 * (1 - IZR (iv_get is_nodal idim)))%R in
              (sign1 * (rmirror / rguard))%R
            else sign1
          | _ => sign1
          end in
      mkMirrorState ijk_mirror' (OnPECBoundary st) true sign2
    else st
  else st.

(** One iteration (idim, iside) of the loops of SetBfieldOnPEC. *)
Definition SetBfieldOnPEC_side (g : Geometry) (icomp : Z)
           (dom_lo dom_hi ijk_vec is_nodal : IntVect)
           (fbndry_lo fbndry_hi : GpuArray FieldBoundaryType)
           (idim iside : nat) (st : MirrorState) : MirrorState :=
  let isPECBoundary :=
      if (iside =? 0)%nat then is_boundary_PEC fbndry_lo idim
      else is_boundary_PEC fbndry_hi idim in
  if isPECBoundary then
    let normal := is_normal_to_PEC g icomp idim in
    let ig := get_cell_count_to_boundary dom_lo dom_hi ijk_vec is_nodal idim iside in
    if ig =? 0 then
      if normal && (iv_get is_nodal idim =? 1)
      then mkMirrorState (ijk_mirror st) true (GuardCell st) (sign st)
      else st
    else if 0 <? ig then
      let ijk_mirror' :=
          iv_set (ijk_mirror st) idim
                 (if (iside =? 0)%nat
                  then iv_get dom_lo idim + ig - (1 - iv_get is_nodal idim)
                  else iv_get dom_hi idim + 1 - ig) in
      let sign1 := if normal then (sign st * -1)%R else sign st in
      let sign2 :=
          match g with
          | DIM_RZ =>
            if (icomp =? 0) && (idim =? 0)%nat && (iside =? 1)%nat then
              let rguard := (IZR (iv_get ijk_vec idim)
                             + 0.5 * (1 - IZR (iv_get is_nodal idim)))%R in
              let rmirror := (IZR (iv_get ijk_mirror' idim)
                              + 0.5 * (1 - IZR (iv_get is_nodal idim)))%R in
              (sign1 * (rmirror / rguard))%R
            else sign1
          | _ => sign1
          end in
      mkMirrorState ijk_mirror' (OnPECBoundary st) true sign2
    else st
  else st.

(** The final assignment shared by SetEfieldOnPEC and SetBfieldOnPEC. *)
Definition apply_mirror (ijk_vec : IntVect) (n : Z) (field : Array4)
           (st : MirrorState) : Result Array4 :=
  if OnPECBoundary st then
    Array4_write_iv field ijk_vec n 0%R
  else if GuardCell st then
    v <- Array4_read_iv field (ijk_mirror st) n ;;
    Array4_write_iv field ijk_vec n (sign st * v)%R
  else Ok field.

Definition SetEfieldOnPEC (g : Geometry) (icomp : Z)
           (dom_lo dom_hi ijk_vec : IntVect) (n : Z) (Efield : Array4)
           (is_nodal : IntVect)
           (fbndry_lo fbndry_hi : GpuArray FieldBoundaryType) : Result Array4 :=
  let st :=
      pure_loop (AMREX_SPACEDIM g)
        (fun idim => pure_loop 2
           (fun iside =>
              SetEfieldOnPEC_side g icomp dom_lo dom_hi ijk_vec is_nodal
                                  fbndry_lo fbndry_hi idim iside))
        (mkMirrorState ijk_vec false false 1%R) in
  apply_mirror ijk_vec n Efield st.

Definition SetBfieldOnPEC (g : Geometry) (icomp : Z)
           (dom_lo dom_hi ijk_vec : IntVect) (n : Z) (Bfield : Array4)
           (is_nodal : IntVect)
           (fbndry_lo fbndry_hi : GpuArray FieldBoundaryType) : Result Array4 :=
  let st :=
      pure_loop (AMREX_SPACEDIM g)
        (fun idim => pure_loop 2
           (fun iside =>
              SetBfieldOnPEC_side g icomp dom_lo dom_hi ijk_vec is_nodal
                                  fbndry_lo fbndry_hi idim iside))
        (mkMirrorState ijk_vec false false 1%R) in
  apply_mirror ijk_vec n Bfield st.

(** The mirror guard cell index of SetRhoOrJfieldFromPEC and
    SetNeumannOnPEC: [iv_mirror[idim] = mirrorfac[idim][iside] - ijk_vec[idim]]. *)
Definition mirror_of (ijk_vec : IntVect) (mirrorfac : GpuArray (GpuArray Z))
           (idim iside : nat) : IntVect :=
  iv_set ijk_vec idim (mirrorfac idim iside - iv_get ijk_vec idim).

(** Step 1, one (idim, iside): the cell is updated from its mirror. *)
Definition RhoOrJ_fold_side (g : Geometry) (n : Z) (ijk_vec : IntVect)
           (mirrorfac : GpuArray (GpuArray Z)) (psign : GpuArray (GpuArray R))
           (is_pec : GpuArray (GpuArray bool)) (fabbox : Box)
           (idim iside : nat) (field : Array4) : Result Array4 :=
  if negb (is_pec idim iside) then Ok field
  else
    let iv_mirror := mirror_of ijk_vec mirrorfac idim iside in
    if IntVect_eqb ijk_vec iv_mirror then
      Array4_write_iv field ijk_vec n 0%R
    else if Box_contains g fabbox iv_mirror then
      a <- Array4_read_iv field ijk_vec n ;;
      b <- Array4_read_iv field iv_mirror n ;;
      Array4_write_iv field ijk_vec n (a + psign idim iside * b)%R
    else Ok field.

(** Step 2, one (idim, iside): the mirror cell receives the image value. *)
Definition RhoOrJ_image_side (g : Geometry) (n : Z) (ijk_vec : IntVect)
           (mirrorfac : GpuArray (GpuArray Z))
           (is_pec : GpuArray (GpuArray bool)) (tangent_to_bndy : GpuArray bool)
           (fabbox : Box)
           (idim iside : nat) (field : Array4) : Result Array4 :=
  if negb (is_pec idim iside) then Ok field
  else
    let iv_mirror := mirror_of ijk_vec mirrorfac idim iside in
    if negb (IntVect_eqb ijk_vec iv_mirror) && Box_contains g fabbox iv_mirror then
      v <- Array4_read_iv field ijk_vec n ;;
      if tangent_to_bndy idim
      then Array4_write_iv field iv_mirror n (- v)%R
      else Array4_write_iv field iv_mirror n v
    else Ok field.

Definition SetRhoOrJfieldFromPEC (g : Geometry) (n : Z) (ijk_vec : IntVect)
           (field : Array4)
           (mirrorfac : GpuArray (GpuArray Z)) (psign : GpuArray (GpuArray R))
           (is_pec : GpuArray (GpuArray bool)) (tangent_to_bndy : GpuArray bool)
           (fabbox : Box) : Result Array4 :=
  (* 1) the cells internal to the domain *)
  field1 <- for_loop (AMREX_SPACEDIM g)
              (fun idim => for_loop 2
                 (fun iside =>
                    RhoOrJ_fold_side g n ijk_vec mirrorfac psign is_pec fabbox
                                     idim iside))
              field ;;
  (* 2) the guard cells *)
  for_loop (AMREX_SPACEDIM g)
    (fun idim => for_loop 2
       (fun iside =>
          RhoOrJ_image_side g n ijk_vec mirrorfac is_pec tangent_to_bndy fabbox
                            idim iside))
    field1.

(** One (idim, iside) of SetNeumannOnPEC. *)
Definition SetNeumannOnPEC_side (g : Geometry) (n : Z) (ijk_vec : IntVect)
           (mirrorfac : GpuArray (GpuArray Z))
           (is_pec : GpuArray (GpuArray bool)) (fabbox : Box)
           (idim iside : nat) (field : Array4) : Result Array4 :=
  if negb (is_pec idim iside) then Ok field
  else
    let iv_mirror := mirror_of ijk_vec mirrorfac idim iside in
    if IntVect_eqb ijk_vec iv_mirror then
      let iv_mirror' :=
          iv_set iv_mirror idim
                 (iv_get iv_mirror idim + (if (iside =? 0)%nat then 1 else -1)) in
      if Box_contains g fabbox iv_mirror' then
        v <- Array4_read_iv field iv_mirror' n ;;
        Array4_write_iv field ijk_vec n v
      else Ok field
    else if Box_contains g fabbox iv_mirror then
      v <- Array4_read_iv field ijk_vec n ;;
      Array4_write_iv field iv_mirror n v
    else Ok field.

Definition SetNeumannOnPEC (g : Geometry) (n : Z) (ijk_vec : IntVect)
           (field : Array4)
           (mirrorfac : GpuArray (GpuArray Z))
           (is_pec : GpuArray (GpuArray bool)) (fabbox : Box) : Result Array4 :=
  for_loop (AMREX_SPACEDIM g)
    (fun idim => for_loop 2
       (fun iside =>
          SetNeumannOnPEC_side g n ijk_vec mirrorfac is_pec fabbox idim iside))
    field.

(** ** Vocabulary of the statements about the PEC kernels *)

(** Whether the boundary of axis [idim] on side [iside] (0 low, 1 high)
    is PEC: the [isPECBoundary] of the kernels. *)
Definition side_is_PEC (fbndry_lo fbndry_hi : GpuArray FieldBoundaryType)
           (idim iside : nat) : bool :=
  if (iside =? 0)%nat then is_boundary_PEC fbndry_lo idim
  else is_boundary_PEC fbndry_hi idim.

(** The interior mirror index of a guard cell at depth [ig]:
    [dom_lo + ig - (1 - is_nodal)] on the low side, [dom_hi + 1 - ig] on
    the high side. *)
Definition mirror_index (dom_lo dom_hi is_nodal : IntVect)
           (idim iside : nat) (ig : Z) : Z :=
  if (iside =? 0)%nat
  then iv_get dom_lo idim + ig - (1 - iv_get is_nodal idim)
  else iv_get dom_hi idim + 1 - ig.

(** The radial scale [rmirror / rguard] of the RZ build. *)
Definition radial_scale (ijk_vec ijk_mirror is_nodal : IntVect) (idim : nat) : R :=
  ((IZR (iv_get ijk_mirror idim) + 0.5 * (1 - IZR (iv_get is_nodal idim)))
   / (IZR (iv_get ijk_vec idim) + 0.5 * (1 - IZR (iv_get is_nodal idim))))%R.

(** The RZ build scales the radial component (icomp = 0) beyond the high
    radial boundary (idim = 0, iside = 1). *)
Definition is_radial_high (g : Geometry) (icomp : Z) (idim iside : nat) : bool :=
  match g with
  | DIM_RZ => (icomp =? 0) && (idim =? 0)%nat && (iside =? 1)%nat
  | _ => false
  end.

(** The cell is a guard cell past the PEC boundary of this axis and side. *)
Definition beyond_PEC (dom_lo dom_hi ijk_vec is_nodal : IntVect)
           (fbndry_lo fbndry_hi : GpuArray FieldBoundaryType)
           (idim iside : nat) : bool :=
  side_is_PEC fbndry_lo fbndry_hi idim iside
  && (0 <? get_cell_count_to_boundary dom_lo dom_hi ijk_vec is_nodal idim iside).

(** The cell is exactly on the PEC boundary of this axis and side, on a
    node-staggered axis, for a component of the class that is zeroed there
    ([zeroed] is [is_tangent_to_PEC] for E and [is_normal_to_PEC] for B). *)
Definition on_PEC (zeroed : nat -> bool)
           (dom_lo dom_hi ijk_vec is_nodal : IntVect)
           (fbndry_lo fbndry_hi : GpuArray FieldBoundaryType)
           (idim iside : nat) : bool :=
  side_is_PEC fbndry_lo fbndry_hi idim iside
  && (get_cell_count_to_boundary dom_lo dom_hi ijk_vec is_nodal idim iside =? 0)
  && zeroed idim && (iv_get is_nodal idim =? 1).

(** The sign of the mirror rule for one boundary: -1 for the class of
    components that is inverted across it, +1 otherwise, times the radial
    scale where the RZ build applies it. *)
Definition mirror_sign (g : Geometry) (icomp : Z) (inverted : bool)
           (ijk_vec ijk_mirror is_nodal : IntVect) (idim iside : nat) : R :=
  ((if inverted then -1 else 1)
   * (if is_radial_high g icomp idim iside
      then radial_scale ijk_vec ijk_mirror is_nodal idim else 1))%R.

(** The value step 1 of SetRhoOrJfieldFromPEC leaves in the cell after
    one (idim, iside), from the values [field0] held before the call:
    0 on the boundary, the running value plus psign * (guard value) when
    the mirror guard cell exists. *)
Definition fold_side_value (g : Geometry) (n : Z) (ijk_vec : IntVect)
           (mirrorfac : GpuArray (GpuArray Z)) (psign : GpuArray (GpuArray R))
           (is_pec : GpuArray (GpuArray bool)) (fabbox : Box) (field0 : Array4)
           (idim iside : nat) (acc : R) : R :=
  if negb (is_pec idim iside) then acc
  else
    let iv_mirror := mirror_of ijk_vec mirrorfac idim iside in
    if IntVect_eqb ijk_vec iv_mirror then 0%R
    else if Box_contains g fabbox iv_mirror
         then (acc + psign idim iside * Array4_at field0 iv_mirror n)%R
         else acc.

Definition folded_value (g : Geometry) (n : Z) (ijk_vec : IntVect)
           (mirrorfac : GpuArray (GpuArray Z)) (psign : GpuArray (GpuArray R))
           (is_pec : GpuArray (GpuArray bool)) (fabbox : Box) (field0 : Array4)
  : R :=
  pure_loop (AMREX_SPACEDIM g)
    (fun idim => pure_loop 2
       (fun iside => fold_side_value g n ijk_vec mirrorfac psign is_pec fabbox
                                     field0 idim iside))
    (Array4_at field0 ijk_vec n).

(** [is_pec] with one axis and side switched off. *)
Definition clear_side (is_pec : GpuArray (GpuArray bool)) (idim0 iside0 : nat)
  : GpuArray (GpuArray bool) :=
  fun idim iside =>
    if (idim =? idim0)%nat && (iside =? iside0)%nat then false
    else is_pec idim iside.

(** The index SetNeumannOnPEC tests against the fab box for one axis and
    side: the adjacent interior cell when the cell is its own mirror, the
    mirror guard cell otherwise. *)
Definition Neumann_partner (ijk_vec : IntVect)
           (mirrorfac : GpuArray (GpuArray Z)) (idim iside : nat) : IntVect :=
  let iv_mirror := mirror_of ijk_vec mirrorfac idim iside in
  if IntVect_eqb ijk_vec iv_mirror
  then iv_set iv_mirror idim
              (iv_get iv_mirror idim + (if (iside =? 0)%nat then 1 else -1))
  else iv_mirror.

(** The sign as the claim words it: -1 for the inverted class, +1 otherwise. *)
Definition sign_as_claimed (inverted : bool) : R :=
  if inverted then (-1)%R else 1%R.

(** The mirror cell of a guard cell at depth 1 beyond the boundary
    [(idim0, iside0)]. *)
Definition guard_mirror (dom_lo dom_hi ijk_vec is_nodal : IntVect)
           (idim0 iside0 : nat) : IntVect :=
  iv_set ijk_vec idim0 (mirror_index dom_lo dom_hi is_nodal idim0 iside0 1).

End PEC.

(** The cell [(iv, n)] lies within the extent of the array. *)
Definition in_extent (a : Array4) (iv : IntVect) (n : Z) : Prop :=
  Array4_contains a (iv_i iv) (iv_j iv) (iv_k iv) n = true.

(** The array covers the box: every cell of [b] is within its extent. *)
Definition covers (g : Geometry) (a : Array4) (b : Box) (n : Z) : Prop :=
  forall iv, length iv = AMREX_SPACEDIM g ->
             Box_contains g b iv = true -> in_extent a iv n.

Definition same_extent (a b : Array4) : Prop :=
  a_begin a = a_begin b /\ a_end a = a_end b /\ a_ncomp a = a_ncomp b.

(** The state of the folding loop of SetRhoOrJfieldFromPEC at the cell
    [ijk_vec]: the extent and every other cell are those of [field0], and
    the cell holds [acc]. *)
Definition fold_invariant (n : Z) (ijk_vec : IntVect) (field0 f : Array4)
           (acc : R) : Prop :=
  same_extent f field0
  /\ (forall i j k m,
         same_cell (iv_i ijk_vec) (iv_j ijk_vec) (iv_k ijk_vec) n i j k m = false ->
         a_data f i j k m = a_data field0 i j k m)
  /\ Array4_at f ijk_vec n = acc.

(** The state of its imaging loop: the extent is that of [field0] and the
    cell holds [V]. *)
Definition image_invariant (n : Z) (ijk_vec : IntVect) (field0 : Array4)
           (V : R) (f : Array4) : Prop :=
  same_extent f field0 /\ Array4_at f ijk_vec n = V.

(** The image written to the mirror of one axis. *)
Definition image_value (tangent_to_bndy : GpuArray bool) (V : R) (idim : nat)
  : R :=
  if tangent_to_bndy idim then (- V)%R else V.

(** Two arrays with the same extent and the same values. *)
Definition Array4_equiv (a b : Array4) : Prop :=
  a_begin a = a_begin b /\ a_end a = a_end b /\ a_ncomp a = a_ncomp b
  /\ forall i j k n, a_data a i j k n = a_data b i j k n.


(* ================================================================== *)
(** * Source/Particles/Deposition/ChargeDeposition.H *)
(* ================================================================== *)

Local Open Scope R_scope.

(** [std::array<amrex::Real, 3>]. *)
Definition Real3 : Type := nat -> R.

(** [amrex::IndexType::NODE] and [amrex::IndexType::CELL]. *)
Definition NODE : Z := 1%Z.
Definition CELL : Z := 0%Z.

Definition WARPX_ZINDEX (g : Geometry) : nat := (AMREX_SPACEDIM g - 1)%nat.

(** [amrex::Math::floor] followed by the conversion to [int]. *)
Definition floor (x : R) : Z := Int_part x.

(** The quotients of the deposition kernels are checked: in exact
    arithmetic a quotient by zero has no value. *)
Definition checked_div (a b : R) : Result R :=
  if Req_dec_T b 0 then Err DivideByZero else Ok (a / b).

(** [Complex] of Utils/WarpX_Complex.H: real and imaginary part. *)
Definition Complex : Type := (R * R)%type.

Definition Cmul (a b : Complex) : Complex :=
  (fst a * fst b - snd a * snd b, fst a * snd b + snd a * fst b).

(** Modelled from the spec: Compute_shape_factor (Particles/ShapeFactors.H)
    is not among the sources.  The spec asks for the standard B-spline
    family: order 0 the top-hat on one point, order 1 linear on two
    points, order 2 the quadratic B-spline on three points, order 3 the
    cubic B-spline on four points; the result is the index of the lowest
    grid point touched and the [order + 1] weights.  For an order the
    family does not have, the caller's zero-initialised weights and index
    are left as they are. *)
Definition Compute_shape_factor (depos_order : nat) (xmid : R) : Z * list R :=
  match depos_order with
  | 0%nat =>
    let j := floor (xmid + 0.5) in
    (j, [1])
  | 1%nat =>
    let j := floor xmid in
    let xint := xmid - IZR j in
    (j, [1 - xint; xint])
  | 2%nat =>
    let j := floor (xmid + 0.5) in
    let xint := xmid - IZR j in
    ((j - 1)%Z,
     [0.5 * (0.5 - xint) * (0.5 - xint);
      0.75 - xint * xint;
      0.5 * (0.5 + xint) * (0.5 + xint)])
  | 3%nat =>
    let j := floor xmid in
    let xint := xmid - IZR j in
    ((j - 1)%Z,
     [1 / 6 * (1 - xint) * (1 - xint) * (1 - xint);
      2 / 3 - xint * xint * (1 - xint / 2);
      2 / 3 - (1 - xint) * (1 - xint) * (1 - 0.5 * (1 - xint));
      1 / 6 * xint * xint * xint])
  | _ => (0%Z, repeat 0 (S depos_order))
  end.

(** The shape factor along one axis: the weights start as zeros and the
    index as 0; a nodal axis evaluates at [x], a cell-centred one at
    [x - 0.5]. *)
Definition shape_along (depos_order : nat) (staggering : Z) (x : R)
  : Z * list R :=
  if (staggering =? NODE)%Z then Compute_shape_factor depos_order x
  else if (staggering =? CELL)%Z then Compute_shape_factor depos_order (x - 0.5)
  else (0%Z, repeat 0 (S depos_order)).

(** [dxi], [dyi], [dzi] and [invvol]; a build without an axis does not
    compute its inverse, which is 0 here and never read. *)
Record InverseCell : Type := mkInverseCell {
  dxi : R; dyi : R; dzi : R; invvol : R
}.

Definition inverse_cell_size (g : Geometry) (dx : Real3) : Result InverseCell :=
  dzi <- checked_div 1 (dx 2%nat) ;;
  match g with
  | DIM_1D_Z => Ok (mkInverseCell 0 0 dzi dzi)
  | DIM_XZ | DIM_RZ =>
    dxi <- checked_div 1 (dx 0%nat) ;;
    Ok (mkInverseCell dxi 0 dzi (dxi * dzi))
  | DIM_3D =>
    dxi <- checked_div 1 (dx 0%nat) ;;
    dyi <- checked_div 1 (dx 1%nat) ;;
    Ok (mkInverseCell dxi dyi dzi (dxi * dyi * dzi))
  end.

(** The unit direction of the particle in the (x, y) plane, lines 120-130
    and 417-427: [costheta] and [sintheta]. *)
Definition rz_direction (xp yp : R) : Result Complex :=
  let rp := sqrt (xp * xp + yp * yp) in
  if Rlt_dec 0 rp then
    costheta <- checked_div xp rp ;;
    sintheta <- checked_div yp rp ;;
    Ok (costheta, sintheta)
  else Ok (1, 0).

(** The loop over the azimuthal modes 1 .. n_rz_azimuthal_modes - 1 at one
    stencil cell, lines 182-188; [xy] takes the value e^{i m theta}. *)
Definition deposit_modes (n_rz_azimuthal_modes : Z) (i j : Z)
           (sx_ix sz_iz wq : R) (xy0 : Complex) (buf : Array4) : Result Array4 :=
  r <- for_loop_from 1 (Z.to_nat (n_rz_azimuthal_modes - 1))
         (fun imode (st : Array4 * Complex) =>
            let (b, xy) := st in
            b1 <- AddNoRet b i j 0 (2 * Z.of_nat imode - 1)
                           (2 * sx_ix * sz_iz * wq * fst xy) ;;
            b2 <- AddNoRet b1 i j 0 (2 * Z.of_nat imode)
                           (2 * sx_ix * sz_iz * wq * snd xy) ;;
            Ok (b2, Cmul xy xy0))
         (buf, xy0) ;;
  Ok (fst r).

(** The body of the particle loop, lines 105-202 (written a second time,
    with [buf] for [rho_arr], at lines 402-499): the deposit of particle
    [ip] into [buf]. *)
Definition deposit_particle (g : Geometry) (depos_order : nat)
           (GetPosition : nat -> R * R * R) (wp : nat -> R)
           (ion_lev : option (nat -> Z)) (rho_type : IntVect)
           (inv : InverseCell) (xyzmin : Real3) (lo : Dim3) (q : R)
           (n_rz_azimuthal_modes : Z) (ip : nat) (buf : Array4)
  : Result Array4 :=
  let wq0 := q * wp ip * invvol inv in
  let wq := match ion_lev with
            | Some lev => wq0 * IZR (lev ip)
            | None => wq0
            end in
  let '(xp, yp, zp) := GetPosition ip in
  let xmin := xyzmin 0%nat in
  let ymin := xyzmin 1%nat in
  let zmin := xyzmin 2%nat in
  match g with
  | DIM_1D_Z =>
    let z := (zp - zmin) * dzi inv in
    let (k, sz) := shape_along depos_order (iv_get rho_type (WARPX_ZINDEX g)) z in
    for_loop (S depos_order)
      (fun iz b =>
         AddNoRet b (d3x lo + k + Z.of_nat iz) 0 0 0 (nth iz sz 0 * wq))
      buf
  | DIM_XZ =>
    let x := (xp - xmin) * dxi inv in
    let (i, sx) := shape_along depos_order (iv_get rho_type 0) x in
    let z := (zp - zmin) * dzi inv in
    let (k, sz) := shape_along depos_order (iv_get rho_type (WARPX_ZINDEX g)) z in
    for_loop (S depos_order)
      (fun iz => for_loop (S depos_order)
         (fun ix b =>
            AddNoRet b (d3x lo + i + Z.of_nat ix) (d3y lo + k + Z.of_nat iz) 0 0
                     (nth ix sx 0 * nth iz sz 0 * wq)))
      buf
  | DIM_RZ =>
    let rp := sqrt (xp * xp + yp * yp) in
    xy0 <- rz_direction xp yp ;;
    let x := (rp - xmin) * dxi inv in
    let (i, sx) := shape_along depos_order (iv_get rho_type 0) x in
    let z := (zp - zmin) * dzi inv in
    let (k, sz) := shape_along depos_order (iv_get rho_type (WARPX_ZINDEX g)) z in
    for_loop (S depos_order)
      (fun iz => for_loop (S depos_order)
         (fun ix b =>
            b0 <- AddNoRet b (d3x lo + i + Z.of_nat ix) (d3y lo + k + Z.of_nat iz)
                           0 0 (nth ix sx 0 * nth iz sz 0 * wq) ;;
            deposit_modes n_rz_azimuthal_modes
                          (d3x lo + i + Z.of_nat ix) (d3y lo + k + Z.of_nat iz)
                          (nth ix sx 0) (nth iz sz 0) wq xy0 b0))
      buf
  | DIM_3D =>
    let x := (xp - xmin) * dxi inv in
    let (i, sx) := shape_along depos_order (iv_get rho_type 0) x in
    let y := (yp - ymin) * dyi inv in
    let (j, sy) := shape_along depos_order (iv_get rho_type 1) y in
    let z := (zp - zmin) * dzi inv in
    let (k, sz) := shape_along depos_order (iv_get rho_type (WARPX_ZINDEX g)) z in
    for_loop (S depos_order)
      (fun iz => for_loop (S depos_order)
         (fun iy => for_loop (S depos_order)
            (fun ix b =>
               AddNoRet b (d3x lo + i + Z.of_nat ix) (d3y lo + j + Z.of_nat iy)
                        (d3z lo + k + Z.of_nat iz) 0
                        (nth ix sx 0 * nth iy sy 0 * nth iz sz 0 * wq))))
      buf
  end.

(** [doChargeDepositionShapeN<depos_order>], lines 39-216.  [rho_arr] and
    [rho_type] are [rho_fab.array()] and [rho_fab.box().type()]; the
    result is the content of the array after the call.  The parallel loop
    over the particles is run in index order: every write is an atomic
    addition.  The load-balance cost, which the deposit does not read, is
    left out. *)
Definition doChargeDepositionShapeN (g : Geometry) (depos_order : nat)
           (GetPosition : nat -> R * R * R) (wp : nat -> R)
           (ion_lev : option (nat -> Z))
           (rho_arr : Array4) (rho_type : IntVect)
           (np_to_deposit : Z) (dx xyzmin : Real3) (lo : Dim3) (q : R)
           (n_rz_azimuthal_modes : Z) : Result Array4 :=
  inv <- inverse_cell_size g dx ;;
  for_loop (Z.to_nat np_to_deposit)
    (fun ip rho =>
       deposit_particle g depos_order GetPosition wp ion_lev rho_type inv
                        xyzmin lo q n_rz_azimuthal_modes ip rho)
    rho_arr.

(** ** The tiled kernel *)

(** [amrex::DenseBins]: the permutation of the particle indices sorted
    by tile and the offsets of the tiles in it. *)
Record DenseBins : Type := mkDenseBins {
  permutationPtr : nat -> nat;
  offsetsPtr     : nat -> nat;
  numBins        : nat
}.

(** What the kernel reads of [amrex::Geometry]. *)
Record AmrexGeometry : Type := mkAmrexGeometry {
  InvCellSizeArray : nat -> R;
  ProbLoArray      : nat -> R;
  Domain_smallEnd  : IntVect
}.

Definition Box_numPts (g : Geometry) (b : Box) : Z :=
  fold_right Z.mul 1%Z
             (map (fun d => (iv_get (bigEnd b) d - iv_get (smallEnd b) d + 1)%Z)
                  (seq 0 (AMREX_SPACEDIM g))).

(** [amrex::convert(b, typ)] of a cell-centred box: a nodal axis gains
    one point at its high end. *)
Definition Box_convert (b : Box) (typ : IntVect) : Box :=
  mkBox (smallEnd b)
        (map (fun p => (fst p + (if (snd p =? 0)%Z then 0 else 1))%Z)
             (combine (bigEnd b) typ)).

(** [b.grow(n)]. *)
Definition Box_grow (b : Box) (n : Z) : Box :=
  mkBox (map (fun x => (x - n)%Z) (smallEnd b))
        (map (fun x => (x + n)%Z) (bigEnd b)).

(** [amrex::begin(b)] and [amrex::end(b)]. *)
Definition Box_begin (b : Box) : Dim3 :=
  mkDim3 (iv_i (smallEnd b)) (iv_j (smallEnd b)) (iv_k (smallEnd b)).

Definition Box_end (b : Box) : Dim3 :=
  mkDim3 (iv_i (bigEnd b) + 1) (iv_j (bigEnd b) + 1) (iv_k (bigEnd b) + 1).

(** The cell of a particle, lines 357-368. *)
Definition particle_cell (g : Geometry) (geom : AmrexGeometry) (p : R * R * R)
  : IntVect :=
  let '(xp, yp, zp) := p in
  let plo := ProbLoArray geom in
  let dxiarr := InvCellSizeArray geom in
  let iv :=
      match g with
      | DIM_3D => [floor ((xp - plo 0%nat) * dxiarr 0%nat);
                   floor ((yp - plo 1%nat) * dxiarr 1%nat);
                   floor ((zp - plo 2%nat) * dxiarr 2%nat)]
      | DIM_XZ | DIM_RZ => [floor ((xp - plo 0%nat) * dxiarr 0%nat);
                            floor ((zp - plo 1%nat) * dxiarr 1%nat)]
      | DIM_1D_Z => [floor ((zp - plo 0%nat) * dxiarr 0%nat)]
      end in
  map (fun p => (fst p + snd p)%Z) (combine iv (Domain_smallEnd geom)).

(** [for (t = lo; t < hi; ++t) body]. *)
Definition for_range {St : Type} (lo hi : Z) (body : Z -> St -> Result St)
           (s : St) : Result St :=
  for_loop (Z.to_nat (hi - lo)) (fun t => body (lo + Z.of_nat t)%Z) s.

(** Modelled from the spec: addLocalToGlobal
    (Particles/Deposition/SharedDepositionUtils.H) is not among the
    sources.  The spec: "merge the private buffer into the shared
    destination array with one additional atomic add per buffer cell
    (buffer cells outside the valid merge range are skipped)". *)
Definition addLocalToGlobal (bx : Box) (global local : Array4) : Result Array4 :=
  for_range (d3z (Box_begin bx)) (d3z (Box_end bx))
    (fun k => for_range (d3y (Box_begin bx)) (d3y (Box_end bx))
       (fun j => for_range (d3x (Box_begin bx)) (d3x (Box_end bx))
          (fun i glob =>
             if Array4_contains glob i j k 0
             then v <- Array4_read local i j k 0 ;; AddNoRet glob i j k 0 v
             else Ok glob)))
    global.

(** The box of the tile buffer of tile [bin_id], lines 353-373: the tile
    of the first particle of the bin, converted to the staggering
    [ix_type] and grown by the order.  [getTileIndex] is AMReX's routine,
    taken as a parameter: the tile box of a cell. *)
Definition tile_box (getTileIndex : IntVect -> Box -> bool -> IntVect -> Box)
           (g : Geometry) (depos_order : nat) (GetPosition : nat -> R * R * R)
           (ix_type : IntVect) (a_bins : DenseBins) (box : Box)
           (geom : AmrexGeometry) (bin_size : IntVect) (bin_id : nat) : Box :=
  let bin_start := offsetsPtr a_bins bin_id in
  let iv := particle_cell g geom (GetPosition (permutationPtr a_bins bin_start)) in
  let buffer_box := getTileIndex iv box true bin_size in
  Box_grow (Box_convert buffer_box ix_type) (Z.of_nat depos_order).

(** The tile buffer in shared memory, lines 375-385: one component over
    the tile box, zero-initialised. *)
Definition tile_buffer (tbx : Box) : Array4 :=
  mkArray4 (Box_begin tbx) (Box_end tbx) 1 (fun _ _ _ _ => 0).

(** One block of the CUDA/HIP launch, lines 346-506: the tile [bin_id].
    The threads of the block are run one after the other; every write to
    the buffer is an atomic addition. *)
Definition deposit_tile (getTileIndex : IntVect -> Box -> bool -> IntVect -> Box)
           (g : Geometry) (depos_order : nat)
           (GetPosition : nat -> R * R * R) (wp : nat -> R)
           (ion_lev : option (nat -> Z)) (rho_type ix_type : IntVect)
           (inv : InverseCell) (xyzmin : Real3) (lo : Dim3) (q : R)
           (n_rz_azimuthal_modes : Z) (a_bins : DenseBins) (box : Box)
           (geom : AmrexGeometry) (bin_size : IntVect)
           (bin_id : nat) (rho_arr : Array4) : Result Array4 :=
  let bin_start := offsetsPtr a_bins bin_id in
  let bin_stop := offsetsPtr a_bins (S bin_id) in
  if (bin_start =? bin_stop)%nat then Ok rho_arr
  else
    let tbx := tile_box getTileIndex g depos_order GetPosition ix_type a_bins
                        box geom bin_size bin_id in
    buf <- for_loop_from bin_start (bin_stop - bin_start)
             (fun ip_orig b =>
                deposit_particle g depos_order GetPosition wp ion_lev rho_type
                                 inv xyzmin lo q n_rz_azimuthal_modes
                                 (permutationPtr a_bins ip_orig) b)
             (tile_buffer tbx) ;;
    addLocalToGlobal tbx rho_arr buf.

(** [doChargeDepositionSharedShapeN<depos_order>], lines 241-520.
    [use_shared] is the build flag AMREX_USE_CUDA || AMREX_USE_HIP;
    [max_shared_mem_bytes] is the device's shared memory per block and
    [sizeof_Real] the size of [amrex::Real]. *)
Definition doChargeDepositionSharedShapeN
           (use_shared : bool)
           (getTileIndex : IntVect -> Box -> bool -> IntVect -> Box)
           (max_shared_mem_bytes sizeof_Real : Z)
           (g : Geometry) (depos_order : nat)
           (GetPosition : nat -> R * R * R) (wp : nat -> R)
           (ion_lev : option (nat -> Z))
           (rho_arr : Array4) (rho_type ix_type : IntVect)
           (np_to_deposit : Z) (dx xyzmin : Real3) (lo : Dim3) (q : R)
           (n_rz_azimuthal_modes : Z) (a_bins : DenseBins) (box : Box)
           (geom : AmrexGeometry) (a_tbox_max_size bin_size : IntVect)
  : Result Array4 :=
  inv <- inverse_cell_size g dx ;;
  if use_shared then
    let sample_tbox :=
        mkBox (repeat 0%Z (AMREX_SPACEDIM g))
              (map (fun x => (x - 1)%Z) a_tbox_max_size) in
    let sample_tbox_x :=
        Box_grow (Box_convert sample_tbox ix_type) (Z.of_nat depos_order) in
    let npts := Box_numPts g sample_tbox_x in
    let shared_mem_bytes := (npts * sizeof_Real)%Z in
    if (shared_mem_bytes <=? max_shared_mem_bytes)%Z then
      for_loop (numBins a_bins)
        (fun bin_id rho =>
           deposit_tile getTileIndex g depos_order GetPosition wp ion_lev
                        rho_type ix_type inv xyzmin lo q n_rz_azimuthal_modes
                        a_bins box geom bin_size bin_id rho)
        rho_arr
    else Err TileTooBig
  else
    for_loop (Z.to_nat np_to_deposit)
      (fun ip_orig rho =>
         deposit_particle g depos_order GetPosition wp ion_lev rho_type inv
                          xyzmin lo q n_rz_azimuthal_modes
                          (permutationPtr a_bins ip_orig) rho)
      rho_arr.

(** ** The deposit of a particle as the list of its atomic additions *)

(** One [AddNoRet]: the cell, the component and the value added. *)
Record Deposit : Type := mkDeposit {
  dep_i : Z; dep_j : Z; dep_k : Z; dep_n : Z; dep_v : R
}.

Definition scatter (l : list Deposit) (buf : Array4) : Result Array4 :=
  for_each l
    (fun d b => AddNoRet b (dep_i d) (dep_j d) (dep_k d) (dep_n d) (dep_v d))
    buf.

(** [xy0] to the power [m], computed as the mode loop does. *)
Fixpoint Cpow (xy0 : Complex) (m : nat) : Complex :=
  match m with
  | O => (1, 0)
  | S m' => match m' with
            | O => xy0
            | S _ => Cmul (Cpow xy0 m') xy0
            end
  end.

Definition mode_deposits (n_rz_azimuthal_modes : Z) (i j : Z)
           (sx_ix sz_iz wq : R) (xy0 : Complex) : list Deposit :=
  flat_map
    (fun imode =>
       [mkDeposit i j 0 (2 * Z.of_nat imode - 1)
                  (2 * sx_ix * sz_iz * wq * fst (Cpow xy0 imode));
        mkDeposit i j 0 (2 * Z.of_nat imode)
                  (2 * sx_ix * sz_iz * wq * snd (Cpow xy0 imode))])
    (seq 1 (Z.to_nat (n_rz_azimuthal_modes - 1))).

(** The additions of particle [ip], in program order. *)
Definition particle_deposits (g : Geometry) (depos_order : nat)
           (GetPosition : nat -> R * R * R) (wp : nat -> R)
           (ion_lev : option (nat -> Z)) (rho_type : IntVect)
           (inv : InverseCell) (xyzmin : Real3) (lo : Dim3) (q : R)
           (n_rz_azimuthal_modes : Z) (ip : nat) : Result (list Deposit) :=
  let wq0 := q * wp ip * invvol inv in
  let wq := match ion_lev with
            | Some lev => wq0 * IZR (lev ip)
            | None => wq0
            end in
  let '(xp, yp, zp) := GetPosition ip in
  let xmin := xyzmin 0%nat in
  let ymin := xyzmin 1%nat in
  let zmin := xyzmin 2%nat in
  let stencil := seq 0 (S depos_order) in
  match g with
  | DIM_1D_Z =>
    let z := (zp - zmin) * dzi inv in
    let (k, sz) := shape_along depos_order (iv_get rho_type (WARPX_ZINDEX g)) z in
    Ok (map (fun iz => mkDeposit (d3x lo + k + Z.of_nat iz) 0 0 0
                                 (nth iz sz 0 * wq)) stencil)
  | DIM_XZ =>
    let x := (xp - xmin) * dxi inv in
    let (i, sx) := shape_along depos_order (iv_get rho_type 0) x in
    let z := (zp - zmin) * dzi inv in
    let (k, sz) := shape_along depos_order (iv_get rho_type (WARPX_ZINDEX g)) z in
    Ok (flat_map
          (fun iz => map
             (fun ix => mkDeposit (d3x lo + i + Z.of_nat ix)
                                  (d3y lo + k + Z.of_nat iz) 0 0
                                  (nth ix sx 0 * nth iz sz 0 * wq)) stencil)
          stencil)
  | DIM_RZ =>
    let rp := sqrt (xp * xp + yp * yp) in
    xy0 <- rz_direction xp yp ;;
    let x := (rp - xmin) * dxi inv in
    let (i, sx) := shape_along depos_order (iv_get rho_type 0) x in
    let z := (zp - zmin) * dzi inv in
    let (k, sz) := shape_along depos_order (iv_get rho_type (WARPX_ZINDEX g)) z in
    Ok (flat_map
          (fun iz => flat_map
             (fun ix =>
                mkDeposit (d3x lo + i + Z.of_nat ix) (d3y lo + k + Z.of_nat iz)
                          0 0 (nth ix sx 0 * nth iz sz 0 * wq)
                :: mode_deposits n_rz_azimuthal_modes
                                 (d3x lo + i + Z.of_nat ix)
                                 (d3y lo + k + Z.of_nat iz)
                                 (nth ix sx 0) (nth iz sz 0) wq xy0) stencil)
          stencil)
  | DIM_3D =>
    let x := (xp - xmin) * dxi inv in
    let (i, sx) := shape_along depos_order (iv_get rho_type 0) x in
    let y := (yp - ymin) * dyi inv in
    let (j, sy) := shape_along depos_order (iv_get rho_type 1) y in
    let z := (zp - zmin) * dzi inv in
    let (k, sz) := shape_along depos_order (iv_get rho_type (WARPX_ZINDEX g)) z in
    Ok (flat_map
          (fun iz => flat_map
             (fun iy => map
                (fun ix => mkDeposit (d3x lo + i + Z.of_nat ix)
                                     (d3y lo + j + Z.of_nat iy)
                                     (d3z lo + k + Z.of_nat iz) 0
                                     (nth ix sx 0 * nth iy sy 0 * nth iz sz 0 * wq))
                stencil) stencil)
          stencil)
  end.

Definition deposit_in (a : Array4) (d : Deposit) : bool :=
  Array4_contains a (dep_i d) (dep_j d) (dep_k d) (dep_n d).

(** What a list of additions adds to the cell [(i, j, k, n)]. *)
Definition added (l : list Deposit) (i j k n : Z) : R :=
  fold_right
    (fun d acc =>
       (if same_cell (dep_i d) (dep_j d) (dep_k d) (dep_n d) i j k n
        then dep_v d else 0) + acc)
    0 l.

(** Sums over index ranges and the sum of a component over all cells. *)
Definition Rsum (l : list R) : R := fold_right Rplus 0 l.

Definition Zrange (lo hi : Z) : list Z :=
  map (fun t => (lo + Z.of_nat t)%Z) (seq 0 (Z.to_nat (hi - lo))).

Definition Array4_total (a : Array4) (n : Z) : R :=
  Rsum (map (fun k =>
     Rsum (map (fun j =>
        Rsum (map (fun i => a_data a i j k n)
                  (Zrange (d3x (a_begin a)) (d3x (a_end a)))))
               (Zrange (d3y (a_begin a)) (d3y (a_end a)))))
            (Zrange (d3z (a_begin a)) (d3z (a_end a)))).

(** The sum of [f] over the cells [b <= (i, j, k) < e]. *)
Definition total_of (b e : Dim3) (f : Z -> Z -> Z -> R) : R :=
  Rsum (map (fun k =>
     Rsum (map (fun j =>
        Rsum (map (fun i => f i j k) (Zrange (d3x b) (d3x e))))
               (Zrange (d3y b) (d3y e))))
            (Zrange (d3z b) (d3z e))).


(** The additions of particle [ip]; a particle whose list does not exist
    adds nothing. *)
Definition deposits_of (g : Geometry) (depos_order : nat)
           (GetPosition : nat -> R * R * R) (wp : nat -> R)
           (ion_lev : option (nat -> Z)) (rho_type : IntVect)
           (inv : InverseCell) (xyzmin : Real3) (lo : Dim3) (q : R)
           (n_modes : Z) (ip : nat) : list Deposit :=
  match particle_deposits g depos_order GetPosition wp ion_lev rho_type inv
                          xyzmin lo q n_modes ip with
  | Ok l => l
  | Err _ => []
  end.


(** Every cell particle [ip] writes lies within the array: the particle
    is in range. *)
Definition stencil_in_range (g : Geometry) (depos_order : nat)
           (GetPosition : nat -> R * R * R) (wp : nat -> R)
           (ion_lev : option (nat -> Z)) (rho_arr : Array4) (rho_type : IntVect)
           (dx xyzmin : Real3) (lo : Dim3) (q : R)
           (n_rz_azimuthal_modes : Z) (ip : nat) : Prop :=
  forall inv l,
    inverse_cell_size g dx = Ok inv ->
    particle_deposits g depos_order GetPosition wp ion_lev rho_type inv xyzmin
                      lo q n_rz_azimuthal_modes ip = Ok l ->
    forallb (deposit_in rho_arr) l = true.

(** The deposited weight of particle [ip]: [wq] of the kernels. *)
Definition deposited_weight (wp : nat -> R) (ion_lev : option (nat -> Z))
           (inv : InverseCell) (q : R) (ip : nat) : R :=
  match ion_lev with
  | Some lev => q * wp ip * invvol inv * IZR (lev ip)
  | None => q * wp ip * invvol inv
  end.

(** The charge particle [ip] carries: [q * wp[ip]], times its ionization
    level when the levels are given (lines 106-109). *)
Definition particle_charge (q : R) (wp : nat -> R)
           (ion_lev : option (nat -> Z)) (ip : nat) : R :=
  match ion_lev with
  | Some lev => q * wp ip * IZR (lev ip)
  | None => q * wp ip
  end.

(** The part of a list of additions that goes to component [n]. *)
Definition to_component (n : Z) (d : Deposit) : R :=
  if (dep_n d =? n)%Z then dep_v d else 0.

(** The volume of a cell: dz, dx dz or dx dy dz. *)
Definition cell_volume (g : Geometry) (dx : Real3) : R :=
  match g with
  | DIM_1D_Z => dx 2%nat
  | DIM_XZ | DIM_RZ => dx 0%nat * dx 2%nat
  | DIM_3D => dx 0%nat * dx 1%nat * dx 2%nat
  end.

(* ================================================================== *)
(** * Source/Particles/Sorting/SortingUtils.cpp *)
(* ================================================================== *)

(** [data[i] = x]; a write past the end is undefined in the source and
    leaves the vector as it is here. *)
Fixpoint vector_set {A : Type} (v : list A) (i : nat) (x : A) : list A :=
  match v, i with
  | [], _ => []
  | _ :: r, O => x :: r
  | y :: r, S i' => y :: vector_set r i' x
  end.

(** [fillWithConsecutiveIntegers], the loop of the GPU build
    ([data[i] = i] for i < v.size()); the CPU build's std::iota assigns
    the same values in the same order. *)
Definition fillWithConsecutiveIntegers (v : list Z) : list Z :=
  pure_loop (length v) (fun i data => vector_set data i (Z.of_nat i)) v.

(** [fillWithConsecutiveReal], the GPU build: [data] is a copy of
    [begin], and the loop body [data + i*increment;] is an expression
    statement whose value is dropped; nothing is stored into [v].  (The
    CPU build's [std::iota(begin, N, 0L)] passes a Real and an int where
    iterators are required and does not compile.) *)
Definition fillWithConsecutiveReal (v : list R) (begin increment : R) (N : Z)
  : list R :=
  let data := begin in
  pure_loop (Z.to_nat N)
            (fun i v' => let _ := data + INR i * increment in v')
            v.

Local Close Scope R_scope.

(* ================================================================== *)
(** * The mirror rule shared by SetEfieldOnPEC and SetBfieldOnPEC *)
(* ================================================================== *)

Module PEC_mirror.

Import PEC.

(** One iteration (idim, iside) of the loops of SetEfieldOnPEC (lines
    159-207) and of SetBfieldOnPEC (lines 294-343).  The two differ in
    the class of components that is zeroed on a boundary and changes
    sign across it: [inverted] is [is_tangent_to_PEC] for E and
    [is_normal_to_PEC] for B. *)
Definition mirror_side (inverted : nat -> bool) (g : Geometry) (icomp : Z)
           (dom_lo dom_hi ijk_vec is_nodal : IntVect)
           (fbndry_lo fbndry_hi : GpuArray FieldBoundaryType)
           (idim iside : nat) (st : MirrorState) : MirrorState :=
  if side_is_PEC fbndry_lo fbndry_hi idim iside then
    let ig := get_cell_count_to_boundary dom_lo dom_hi ijk_vec is_nodal idim iside in
    if ig =? 0 then
      if inverted idim && (iv_get is_nodal idim =? 1)
      then mkMirrorState (ijk_mirror st) true (GuardCell st) (sign st)
      else st
    else if 0 <? ig then
      let ijk_mirror' :=
          iv_set (ijk_mirror st) idim
                 (mirror_index dom_lo dom_hi is_nodal idim iside ig) in
      let sign1 := if inverted idim then (sign st * -1)%R else sign st in
      let sign2 :=
          if is_radial_high g icomp idim iside
          then (sign1 * radial_scale ijk_vec ijk_mirror' is_nodal idim)%R
          else sign1 in
      mkMirrorState ijk_mirror' (OnPECBoundary st) true sign2
    else st
  else st.

(** The locals after the two loops. *)
Definition mirror_state (inverted : nat -> bool) (g : Geometry) (icomp : Z)
           (dom_lo dom_hi ijk_vec is_nodal : IntVect)
           (fbndry_lo fbndry_hi : GpuArray FieldBoundaryType) : MirrorState :=
  pure_each (sides (AMREX_SPACEDIM g))
            (fun p => mirror_side inverted g icomp dom_lo dom_hi ijk_vec is_nodal
                                  fbndry_lo fbndry_hi (fst p) (snd p))
            (mkMirrorState ijk_vec false false 1%R).

(** The depth of a cell beyond a boundary as the depth of its mirror
    cell within the domain: [1 - ig - is_nodal]. *)
Definition mirror_depth (is_nodal : IntVect) (idim : nat) (ig : Z) : Z :=
  1 - ig - iv_get is_nodal idim.

End PEC_mirror.

(* ================================================================== *)
(** * The fluid utilities carried by WarpX_PEC.H, lines 1166-1684
      (MusclHancockUtils): momentum sources, slope limiters, edge
      values, Rusanov fluxes *)
(* ================================================================== *)

Module Muscl.

Local Open Scope R_scope.

(** [a < b] of two [amrex::Real]. *)
Definition Rltb (a b : R) : bool := if Rlt_dec a b then true else false.

(** [std::min(a, b)] is [(b < a) ? b : a]; [std::max(a, b)] is
    [(a < b) ? b : a]. *)
Definition std_min (a b : R) : R := if Rltb b a then b else a.
Definition std_max (a b : R) : R := if Rltb a b then b else a.



(** Velocity at the half step, lines 1200-1207.  Over [R] the sum
    [1 + u2c2] is exact; in [amrex::Real] it rounds, to [u2c2] itself
    once [u2c2] is large enough. *)
Definition V_calc (U : Array4) (i j k comp : Z) (c : R) : Result R :=
  u1 <- Array4_read U i j k 1 ;;
  u2 <- Array4_read U i j k 2 ;;
  u3 <- Array4_read U i j k 3 ;;
  u2c2 <- checked_div (u1 * u1 + u2 * u2 + u3 * u3) (c * c) ;;
  let gamma := sqrt (1 + u2c2) in
  u <- Array4_read U i j k (comp + 1) ;;
  checked_div u gamma.

(** Lines 1209-1221. *)
Definition minmod (a b : R) : R :=
  if Rltb 0 a && Rltb 0 b then std_min a b
  else if Rltb a 0 && Rltb b 0 then std_max a b
  else 0.

(** Lines 1222-1233. *)
Definition min3 (a b c : R) : R := std_min a (std_min b c).
Definition max3 (a b c : R) : R := std_max a (std_max b c).

(** Lines 1234-1246. *)
Definition minmod3 (a b c : R) : R :=
  if Rltb 0 a && Rltb 0 b && Rltb 0 c then min3 a b c
  else if Rltb a 0 && Rltb b 0 && Rltb c 0 then max3 a b c
  else 0.

(** Lines 1247-1259. *)
Definition maxmod (a b : R) : R :=
  if Rltb 0 a && Rltb 0 b then std_max a b
  else if Rltb a 0 && Rltb b 0 then std_min a b
  else 0.

(** Rusanov flux of the density, lines 1260-1268. *)
Definition flux_N (Um Up : Array4) (i j k : Z) (Vm Vp : R) : Result R :=
  let c := std_max (Rabs Vm) (Rabs Vp) in
  um0 <- Array4_read Um i j k 0 ;;
  up0 <- Array4_read Up i j k 0 ;;
  Ok (0.5 * (Vm * um0 + Vp * up0) - (0.5 * c) * (up0 - um0)).

(** Rusanov flux of the momentum density along x, y, z (component
    [d] = 1, 2, 3 of the state), lines 1269-1298. *)
Definition flux_NU (d : Z) (Um Up : Array4) (i j k : Z) (Vm Vp : R)
  : Result R :=
  let c := std_max (Rabs Vm) (Rabs Vp) in
  um0 <- Array4_read Um i j k 0 ;;
  umd <- Array4_read Um i j k d ;;
  up0 <- Array4_read Up i j k 0 ;;
  upd <- Array4_read Up i j k d ;;
  Ok (0.5 * (Vm * um0 * umd + Vp * up0 * upd)
      - (0.5 * c) * (up0 * upd - um0 * umd)).

Definition flux_NUx := flux_NU 1.
Definition flux_NUy := flux_NU 2.
Definition flux_NUz := flux_NU 3.

(** [sigma] of ave_adjustable_diff, 2.0 * 0.732050807568877, and of
    ave_stage2, 0.732050807568877. *)
Definition sigma_adjustable : R := 2.0 * 0.732050807568877.
Definition sigma_stage2 : R := 0.732050807568877.

(** Lines 1299-1310.  The test [a*b > 0] of this limiter and of the two
    below is taken over [R], where it says that the two slopes have one
    sign; in [amrex::Real] the product of two tiny slopes of one sign can
    underflow to 0, and the limiter then takes its second branch. *)
Definition ave_adjustable_diff (a b : R) : R :=
  if Rltb 0 (a * b)
  then minmod3 ((a + b) / 2.0) (sigma_adjustable * a) (sigma_adjustable * b)
  else 0.

(** Lines 1311-1321. *)
Definition ave (a b : R) : R :=
  if Rltb 0 (a * b) then minmod3 ((a + b) / 2.0) (2.0 * a) (2.0 * b) else 0.

(** Lines 1322-1332. *)
Definition ave_superbee (a b : R) : R :=
  if Rltb 0 (a * b) then minmod (maxmod a b) (minmod (2.0 * a) (2.0 * b))
  else 0.

(** Stage-2 slope limiting, lines 1333-1341. *)
Definition ave_stage2 (dQ a b c : R) : Result R :=
  let dq_min := 2.0 * std_min (b - min3 a b c) (max3 a b c - b) in
  direction <- checked_div (Rabs dQ) dQ ;;
  Ok (direction * std_min (Rabs dQ) (sigma_stage2 * Rabs dq_min)).

(** The offsets of the "plus" grid, lines 1343-1366.  [ip], [jp], [kp]
    are passed by reference and keep the value they had when [comp] is
    not an axis of the build. *)
Definition plus_index_offsets (g : Geometry) (i j k : Z) (ijkp : Z * Z * Z)
           (comp : Z) : Z * Z * Z :=
  match g with
  | DIM_3D =>
    if (comp =? 0)%Z then ((i - 1)%Z, j, k)
    else if (comp =? 1)%Z then (i, (j - 1)%Z, k)
    else if (comp =? 2)%Z then (i, j, (k - 1)%Z)
    else ijkp
  | DIM_RZ | DIM_XZ =>
    if (comp =? 0)%Z then ((i - 1)%Z, j, k)
    else if (comp =? 2)%Z then (i, (j - 1)%Z, k)
    else ijkp
  | DIM_1D_Z =>
    if (comp =? 2)%Z then ((i - 1)%Z, j, k) else ijkp
  end.

(** [U(i,j,k,0..3) = v0, v1, v2, v3]. *)
Definition write_state (U : Array4) (i j k : Z) (v0 v1 v2 v3 : R)
  : Result Array4 :=
  U0 <- Array4_write U i j k 0 v0 ;;
  U1 <- Array4_write U0 i j k 1 v1 ;;
  U2 <- Array4_write U1 i j k 2 v2 ;;
  Array4_write U2 i j k 3 v3.


(** Lines 1393-1415. *)
Definition set_U_edges_to_zero (g : Geometry) (Um Up : Array4) (i j k : Z)
           (box : Box) (comp : Z) (ijkp : Z * Z * Z)
  : Result (Array4 * Array4) :=
  let '(ip, jp, kp) := plus_index_offsets g i j k ijkp comp in
  Um' <- (if Box_contains g box [i; j; k]
          then write_state Um i j k 0 0 0 0 else Ok Um) ;;
  Up' <- (if Box_contains g box [ip; jp; kp]
          then write_state Up ip jp kp 0 0 0 0 else Ok Up) ;;
  Ok (Um', Up').

(** The positivity limiter, lines 1417-1459.  The result is the pair
    (U_edge_plus, U_edge_minus). *)
Definition positivity_limiter (g : Geometry)
           (U_edge_plus U_edge_minus N_arr : Array4) (i j k : Z) (box : Box)
           (Ux Uy Uz : R) (comp : Z) (ijkp : Z * Z * Z)
  : Result (Array4 * Array4) :=
  let '(ip, jp, kp) := plus_index_offsets g i j k ijkp comp in
  let reset_minus (Um : Array4) :=
      n <- Array4_read N_arr i j k 0 ;; write_state Um i j k n Ux Uy Uz in
  let reset_plus (Up : Array4) :=
      n <- Array4_read N_arr i j k 0 ;; write_state Up ip jp kp n Ux Uy Uz in
  if Box_contains g box [i; j; k] && Box_contains g box [ip; jp; kp] then
    m <- Array4_read U_edge_minus i j k 0 ;;
    negative <- (if Rltb m 0 then Ok true
                 else p <- Array4_read U_edge_plus ip jp kp 0 ;; Ok (Rltb p 0)) ;;
    if negative : bool then
      Um' <- reset_minus U_edge_minus ;;
      Up' <- reset_plus U_edge_plus ;;
      Ok (Up', Um')
    else Ok (U_edge_plus, U_edge_minus)
  else if Box_contains g box [i; j; k]
          && negb (Box_contains g box [ip; jp; kp]) then
    m <- Array4_read U_edge_minus i j k 0 ;;
    if Rltb m 0 then
      Um' <- reset_minus U_edge_minus ;; Ok (U_edge_plus, Um')
    else Ok (U_edge_plus, U_edge_minus)
  else if negb (Box_contains g box [i; j; k])
          && Box_contains g box [ip; jp; kp] then
    p <- Array4_read U_edge_plus ip jp kp 0 ;;
    if Rltb p 0 then
      Up' <- reset_plus U_edge_plus ;; Ok (Up', U_edge_minus)
    else Ok (U_edge_plus, U_edge_minus)
  else Ok (U_edge_plus, U_edge_minus).

(** The differences of N, lines 1461-1541. *)
Definition difference (N : Array4) (i j k i' j' k' : Z) : Result R :=
  a <- Array4_read N i j k 0 ;;
  b <- Array4_read N i' j' k' 0 ;;
  Ok (a - b).

Definition DownDx_N (g : Geometry) (N : Array4) (i j k : Z) : Result R :=
  match g with
  | DIM_3D | DIM_RZ | DIM_XZ => difference N i j k (i - 1) j k
  | DIM_1D_Z => Ok 0
  end.

Definition UpDx_N (g : Geometry) (N : Array4) (i j k : Z) : Result R :=
  match g with
  | DIM_3D | DIM_RZ | DIM_XZ => difference N (i + 1) j k i j k
  | DIM_1D_Z => Ok 0
  end.

Definition DownDy_N (g : Geometry) (N : Array4) (i j k : Z) : Result R :=
  match g with
  | DIM_3D => difference N i j k i (j - 1) k
  | _ => Ok 0
  end.

Definition UpDy_N (g : Geometry) (N : Array4) (i j k : Z) : Result R :=
  match g with
  | DIM_3D => difference N i (j + 1) k i j k
  | _ => Ok 0
  end.



(** The velocity of the neighbouring cell [(i', j', k')]: 0 unless its
    density is positive. *)
Definition neighbour_U (N NU : Array4) (i' j' k' : Z) : Result R :=
  n <- Array4_read N i' j' k' 0 ;;
  if Rltb 0 n then
    nu <- Array4_read NU i' j' k' 0 ;;
    n' <- Array4_read N i' j' k' 0 ;;
    checked_div nu n'
  else Ok 0.

(** The differences of U, lines 1544-1655. *)
Definition DownDx_U (g : Geometry) (N NU : Array4) (U : R) (i j k : Z)
  : Result R :=
  match g with
  | DIM_3D | DIM_RZ | DIM_XZ =>
    U_m <- neighbour_U N NU (i - 1) j k ;; Ok (U - U_m)
  | DIM_1D_Z => Ok 0
  end.

Definition UpDx_U (g : Geometry) (N NU : Array4) (U : R) (i j k : Z)
  : Result R :=
  match g with
  | DIM_3D | DIM_RZ | DIM_XZ =>
    U_p <- neighbour_U N NU (i + 1) j k ;; Ok (U_p - U)
  | DIM_1D_Z => Ok 0
  end.

Definition DownDy_U (g : Geometry) (N NU : Array4) (U : R) (i j k : Z)
  : Result R :=
  match g with
  | DIM_3D => U_m <- neighbour_U N NU i (j - 1) k ;; Ok (U - U_m)
  | _ => Ok 0
  end.

Definition UpDy_U (g : Geometry) (N NU : Array4) (U : R) (i j k : Z)
  : Result R :=
  match g with
  | DIM_3D => U_p <- neighbour_U N NU i (j + 1) k ;; Ok (U_p - U)
  | _ => Ok 0
  end.

Definition DownDz_U (g : Geometry) (N NU : Array4) (U : R) (i j k : Z)
  : Result R :=
  U_m <- match g with
         | DIM_3D => neighbour_U N NU i j (k - 1)
         | DIM_RZ | DIM_XZ => neighbour_U N NU i (j - 1) k
         | DIM_1D_Z => neighbour_U N NU (i - 1) j k
         end ;;
  Ok (U - U_m).

Definition UpDz_U (g : Geometry) (N NU : Array4) (U : R) (i j k : Z)
  : Result R :=
  U_p <- match g with
         | DIM_3D => neighbour_U N NU i j (k + 1)
         | DIM_RZ | DIM_XZ => neighbour_U N NU i (j + 1) k
         | DIM_1D_Z => neighbour_U N NU (i + 1) j k
         end ;;
  Ok (U_p - U).

(** The flux difference, lines 1658-1684. *)
Definition dF (g : Geometry) (U_minus U_plus : Array4) (i j k : Z) (clight : R)
           (comp dir : Z) (ijkp : Z * Z * Z) : Result R :=
  let '(ip, jp, kp) := plus_index_offsets g i j k ijkp dir in
  V_L_minus <- V_calc U_minus ip jp kp dir clight ;;
  V_I_minus <- V_calc U_minus i j k dir clight ;;
  V_L_plus <- V_calc U_plus ip jp kp dir clight ;;
  V_I_plus <- V_calc U_plus i j k dir clight ;;
  let flux := if (comp =? 0)%Z then flux_N
              else if (comp =? 1)%Z then flux_NUx
              else if (comp =? 2)%Z then flux_NUy
              else flux_NUz in
  F_I <- flux U_minus U_plus i j k V_I_minus V_I_plus ;;
  F_L <- flux U_minus U_plus ip jp kp V_L_minus V_L_plus ;;
  Ok (F_I - F_L).

End Muscl.

(* ================================================================== *)
(** * The species bookkeeping carried by WarpX_PEC.H, lines 543-1164
      (MultiParticleContainer) *)
(* ================================================================== *)

Module MultiParticleContainer.

(** What ends a run early: a failed AMREX_ALWAYS_ASSERT_WITH_MESSAGE, or
    an index outside a vector. *)
Inductive Abort : Type :=
| SpeciesNotFound       (* "ERROR: could not find product species ID for
                            ionization. Wrong name?" *)
| ProductIsSource       (* "ERROR: ionization product cannot be the same
                            species" *)
| IndexOutOfBounds.

Inductive Run (A : Type) : Type :=
| Done (a : A)
| Aborted (e : Abort).

Arguments Done {A} a.
Arguments Aborted {A} e.

Definition run_bind {A B : Type} (m : Run A) (k : A -> Run B) : Run B :=
  match m with
  | Done a => k a
  | Aborted e => Aborted e
  end.

(** [for (i = start; i < start + n; ++i) body]. *)
Fixpoint run_loop_from {St : Type} (start n : nat)
         (body : nat -> St -> Run St) (s : St) : Run St :=
  match n with
  | O => Done s
  | S n' => run_bind (body start s) (run_loop_from (S start) n' body)
  end.

(** [v[i]]. *)
Definition at_index {A : Type} (v : list A) (i : nat) : Run A :=
  match nth_error v i with
  | Some a => Done a
  | None => Aborted IndexOutOfBounds
  end.

(** [v[i] = x], for an index of the vector. *)
Fixpoint set_index {A : Type} (v : list A) (i : nat) (x : A) : Run (list A) :=
  match v, i with
  | [], _ => Aborted IndexOutOfBounds
  | _ :: r, O => Done (x :: r)
  | y :: r, S i' => run_bind (set_index r i' x) (fun r' => Done (y :: r'))
  end.

(** What these functions read and write of a WarpXParticleContainer. *)
Record WarpXParticleContainer : Type := mkContainer {
  do_field_ionization     : bool;
  ionization_product_name : String.string;
  ionization_product      : nat;
  do_continuous_injection : bool;
  do_boosted_frame_diags  : bool
}.

Definition set_ionization_product (pc : WarpXParticleContainer) (p : nat)
  : WarpXParticleContainer :=
  mkContainer (do_field_ionization pc) (ionization_product_name pc) p
              (do_continuous_injection pc) (do_boosted_frame_diags pc).

(** [getSpeciesID], lines 1052-1070.  The state of the loop is [found]
    and [i_product]; [i_product] starts uninitialised and is returned
    only after the assertion on [found]. *)
Definition getSpeciesID (nspecies : nat) (species_names : list String.string)
           (product_str : String.string) : Run nat :=
  run_bind
    (run_loop_from 0 nspecies
       (fun i (st : bool * option nat) =>
          run_bind (at_index species_names i)
                   (fun name =>
                      if String.eqb name product_str
                      then Done (true, Some i)
                      else Done st))
       (false, None))
    (fun st =>
       match st with
       | (true, Some i_product) => Done i_product
       | _ => Aborted SpeciesNotFound
       end).

(** [mapSpeciesProduct], lines 1032-1050. *)
Definition mapSpeciesProduct (nspecies : nat)
           (species_names : list String.string)
           (allcontainers : list WarpXParticleContainer)
  : Run (list WarpXParticleContainer) :=
  run_loop_from 0 nspecies
    (fun i containers =>
       run_bind (at_index containers i)
                (fun pc =>
                   if do_field_ionization pc then
                     run_bind (getSpeciesID nspecies species_names
                                            (ionization_product_name pc))
                              (fun i_product =>
                                 if Nat.eqb i i_product
                                 then Aborted ProductIsSource
                                 else set_index containers i
                                        (set_ionization_product pc i_product))
                   else Done containers))
    allcontainers.

(** [doContinuousInjection], lines 1015-1026. *)
Definition doContinuousInjection (nspecies nlasers : nat)
           (allcontainers : list WarpXParticleContainer) : Run Z :=
  run_loop_from 0 (nspecies + nlasers)
    (fun i warpx_do_continuous_injection =>
       run_bind (at_index allcontainers i)
                (fun pc =>
                   if do_continuous_injection pc then Done 1%Z
                   else Done warpx_do_continuous_injection))
    0%Z.

(** The species whose lab-frame data is dumped, lines 580-592 of the
    constructor: [map_species_boosted_frame_diags], resized to
    [nspecies] zeros, [nspecies_boosted_frame_diags] and
    [do_boosted_frame_diags], whose value before the loop is
    [do_diags0]. *)
Definition map_boosted_frame_species (nspecies : nat)
           (allcontainers : list WarpXParticleContainer) (do_diags0 : Z)
  : Run (list nat * nat * Z) :=
  run_loop_from 0 nspecies
    (fun i (st : list nat * nat * Z) =>
       let '(map_species, n_diags, do_diags) := st in
       run_bind (at_index allcontainers i)
                (fun pc =>
                   if do_boosted_frame_diags pc then
                     run_bind (set_index map_species n_diags i)
                              (fun map_species' =>
                                 Done (map_species', S n_diags, 1%Z))
                   else Done st))
    (repeat 0%nat nspecies, 0%nat, do_diags0).

(** The species with lab-frame diagnostics, in increasing order. *)
Definition boosted_species (nspecies : nat)
           (allcontainers : list WarpXParticleContainer) : list nat :=
  filter (fun i => match nth_error allcontainers i with
                   | Some pc => do_boosted_frame_diags pc
                   | None => false
                   end)
         (seq 0 nspecies).

End MultiParticleContainer.

(* ================================================================== *)
(** * Concrete inputs of the examples *)
(* ================================================================== *)

(** ** Boundaries and fields *)

(** Only the boundary of axis 0 is PEC. *)
Definition hi0_PEC : GpuArray PEC.FieldBoundaryType :=
  fun d => match d with
           | O => PEC.FieldBoundaryType_PEC
           | _ => PEC.FieldBoundaryType_other
           end.

Definition lo0_PEC : GpuArray PEC.FieldBoundaryType := hi0_PEC.

Definition all_PEC : GpuArray PEC.FieldBoundaryType :=
  fun _ => PEC.FieldBoundaryType_PEC.

Definition no_PEC : GpuArray PEC.FieldBoundaryType :=
  fun _ => PEC.FieldBoundaryType_other.

(** A one-component field over the cells -3 .. 12 of every axis it has,
    whose value at (i, j, k) is [v i]. *)
Definition row_field (v : Z -> R) : Array4 :=
  mkArray4 (mkDim3 (-3) (-3) 0) (mkDim3 13 13 1) 1 (fun i _ _ _ => v i).

Definition line_field (v : Z -> R) : Array4 :=
  mkArray4 (mkDim3 (-3) 0 0) (mkDim3 13 1 1) 1 (fun i _ _ _ => v i).

(** The fab box of [line_field]: cells -3 .. 12. *)
Definition line_box : Box := mkBox [-3] [12].

(** Only the low side of axis 0 is PEC. *)
Definition only_lo0 : GpuArray (GpuArray bool) :=
  fun idim iside => (idim =? 0)%nat && (iside =? 0)%nat.

(** A nodal grid whose low boundary is the node 0: mirrorfac = 2 * 0. *)
Definition mirror_about_0 : GpuArray (GpuArray Z) := fun _ _ => 0.

(** ** Particles and grids *)

(** A particle at z = 3.25 with unit weight, on unit cells from the
    origin, and the zero grid on the line. *)
Definition example_position : nat -> R * R * R := fun _ => (0, 0, 3.25)%R.
Definition unit_weight : nat -> R := fun _ => 1%R.
Definition unit_cells : Real3 := fun _ => 1%R.
Definition origin : Real3 := fun _ => 0%R.
Definition zero_line : Array4 := line_field (fun _ => 0%R).

(** A zero grid of three components (the monopole and mode 1) over the
    cells -3 .. 12 of r and z. *)
Definition rz_grid : Array4 :=
  mkArray4 (mkDim3 (-3) (-3) 0) (mkDim3 13 13 1) 3 (fun _ _ _ _ => 0%R).

Definition rz_inverse : InverseCell :=
  mkInverseCell (1 / 1)%R 0%R (1 / 1)%R (1 / 1 * (1 / 1))%R.

(** A particle at radius 1 and angle 0, and a particle on the axis. *)
Definition at_angle_zero : nat -> R * R * R := fun _ => (1, 0, 0)%R.
Definition on_axis : nat -> R * R * R := fun _ => (0, 0, 0)%R.

(** One tile holding the particles in their order. *)
Definition one_bin : DenseBins := mkDenseBins (fun ip => ip) (fun b => b) 1.

(** One tile holding two particles, visited in the opposite order. *)
Definition swap_bins : DenseBins :=
  mkDenseBins (fun ip => match ip with O => 1%nat | _ => 0%nat end)
              (fun b => match b with O => 0%nat | _ => 2%nat end) 1.

(** A tiling with one tile: the whole box. *)
Definition whole_box : IntVect -> Box -> bool -> IntVect -> Box :=
  fun _ box _ _ => box.

Definition unit_geom : AmrexGeometry := mkAmrexGeometry unit_cells origin [0; 0].
Definition ten_by_ten : Box := mkBox [0; 0] [9; 9].

(** ** Fluid states *)

(** A state of four components (N, NUx, NUy, NUz) over the cells
    -3 .. 12 of the first two axes, whose component [n] at (i, j, k) is
    [v i n]. *)
Definition fluid_state (v : Z -> Z -> R) : Array4 :=
  mkArray4 (mkDim3 (-3) (-3) 0) (mkDim3 13 13 1) 4 (fun i _ _ n => v i n).

Definition state_at_rest : Array4 :=
  fluid_state (fun _ n => if (n =? 0)%Z then 2%R else 0%R).

(** ** Species *)

Section Species_examples.

Import String.

(** Two species: electrons, and ions that ionize into electrons and
    have lab-frame diagnostics. *)
Definition electrons_name : String.string := "electrons"%string.
Definition ions_name : String.string := "ions"%string.

Definition two_species : list String.string := [electrons_name; ions_name].

Definition electrons : MultiParticleContainer.WarpXParticleContainer :=
  MultiParticleContainer.mkContainer false ""%string 0 false false.

Definition ions : MultiParticleContainer.WarpXParticleContainer :=
  MultiParticleContainer.mkContainer true electrons_name 0 false true.

End Species_examples.
(* ================================================================== *)
(** * Loop lemmas *)
(* ================================================================== *)

Lemma for_loop_from_each {St} (body : nat -> St -> Result St) n :
  forall start s, for_loop_from start n body s = for_each (seq start n) body s.
Proof.
  induction n as [|n IH]; intros start s; simpl; [reflexivity|].
  destruct (body start s); simpl; auto.
Qed.

Lemma pure_loop_from_each {St} (body : nat -> St -> St) n :
  forall start s, pure_loop_from start n body s = pure_each (seq start n) body s.
Proof.
  induction n as [|n IH]; intros start s; simpl; auto.
Qed.

Lemma for_each_app {X St} (body : X -> St -> Result St) l1 :
  forall l2 s,
    for_each (l1 ++ l2) body s = (s' <- for_each l1 body s ;; for_each l2 body s').
Proof.
  induction l1 as [|x l1 IH]; intros l2 s; simpl; [reflexivity|].
  destruct (body x s); simpl; auto.
Qed.

Lemma pure_each_app {X St} (body : X -> St -> St) l1 :
  forall l2 s, pure_each (l1 ++ l2) body s = pure_each l2 body (pure_each l1 body s).
Proof.
  induction l1 as [|x l1 IH]; intros l2 s; simpl; auto.
Qed.

Lemma nested_for_each_from {St} (step : nat -> nat -> St -> Result St) d :
  forall start s,
    for_each (seq start d) (fun idim => for_loop 2 (step idim)) s
    = for_each (flat_map (fun idim => [(idim, 0%nat); (idim, 1%nat)]) (seq start d))
               (fun p => step (fst p) (snd p)) s.
Proof.
  induction d as [|d IH]; intros start s; simpl; [reflexivity|].
  unfold for_loop at 1. simpl.
  destruct (step start 0%nat s) as [s1|]; simpl; [|reflexivity].
  destruct (step start 1%nat s1) as [s2|]; simpl; [|reflexivity].
  apply IH.
Qed.

Lemma nested_for_loop_sides {St} (step : nat -> nat -> St -> Result St) d s :
  for_loop d (fun idim => for_loop 2 (step idim)) s
  = for_each (sides d) (fun p => step (fst p) (snd p)) s.
Proof.
  unfold for_loop at 1. rewrite for_loop_from_each. apply nested_for_each_from.
Qed.

Lemma nested_pure_each_from {St} (step : nat -> nat -> St -> St) d :
  forall start s,
    pure_each (seq start d) (fun idim => pure_loop 2 (step idim)) s
    = pure_each (flat_map (fun idim => [(idim, 0%nat); (idim, 1%nat)]) (seq start d))
                (fun p => step (fst p) (snd p)) s.
Proof.
  induction d as [|d IH]; intros start s; simpl; [reflexivity|].
  apply IH.
Qed.

Lemma nested_pure_loop_sides {St} (step : nat -> nat -> St -> St) d s :
  pure_loop d (fun idim => pure_loop 2 (step idim)) s
  = pure_each (sides d) (fun p => step (fst p) (snd p)) s.
Proof.
  unfold pure_loop at 1. rewrite pure_loop_from_each. apply nested_pure_each_from.
Qed.

Lemma in_sides d idim iside :
  In (idim, iside) (sides d) <-> (idim < d)%nat /\ (iside < 2)%nat.
Proof.
  unfold sides. rewrite in_flat_map. split.
  - intros [x [Hx Hin]]. apply in_seq in Hx. simpl in Hin.
    destruct Hin as [E|[E|[]]]; inversion E; subst; lia.
  - intros [Hd Hs]. exists idim. split; [apply in_seq; lia|].
    simpl. destruct iside as [|[|?]]; [auto|auto|lia].
Qed.

(** An invariant of every iteration holds after the loop. *)
Lemma pure_each_inv {X St} (P : St -> Prop) (body : X -> St -> St) l :
  forall s, (forall x s, In x l -> P s -> P (body x s)) -> P s ->
            P (pure_each l body s).
Proof.
  induction l as [|x l IH]; intros s Hstep Hs; simpl; [exact Hs|].
  apply IH; [intros; apply Hstep; simpl; auto|apply Hstep; simpl; auto].
Qed.

(** What one iteration establishes and the others keep holds after the loop. *)
Lemma pure_each_establish {X St} (Q : St -> Prop) (body : X -> St -> St) l x0 :
  In x0 l ->
  (forall x s, In x l -> Q s -> Q (body x s)) ->
  (forall s, Q (body x0 s)) ->
  forall s, Q (pure_each l body s).
Proof.
  induction l as [|x l IH]; intros Hin Hkeep Hest s; simpl; [destruct Hin|].
  destruct Hin as [->|Hin].
  - apply pure_each_inv; [intros; apply Hkeep; simpl; auto|apply Hest].
  - apply IH; auto. intros; apply Hkeep; simpl; auto.
Qed.

(** When every other iteration leaves the state alone, the loop is the
    one iteration that does not. *)
Lemma pure_each_idle {X St} (body : X -> St -> St) l :
  (forall x s, In x l -> body x s = s) ->
  forall s, pure_each l body s = s.
Proof.
  induction l as [|x l IH]; intros Hid s; simpl; [reflexivity|].
  rewrite Hid by (simpl; auto). apply IH. intros; apply Hid; simpl; auto.
Qed.

Lemma pure_each_single {X St} (body : X -> St -> St) l x0 :
  NoDup l -> In x0 l ->
  (forall x s, In x l -> x <> x0 -> body x s = s) ->
  forall s, pure_each l body s = body x0 s.
Proof.
  induction l as [|x l IH]; intros Hnd Hin Hid s; simpl; [destruct Hin|].
  inversion Hnd as [|? ? Hx Hnd']; subst.
  destruct Hin as [->|Hin].
  - apply pure_each_idle. intros y s' Hy. apply Hid; [simpl; auto|].
    intros ->. contradiction.
  - rewrite Hid; [|simpl; auto|intros ->; contradiction].
    apply IH; auto. intros; apply Hid; simpl; auto.
Qed.

Lemma for_each_idle {X St} (body : X -> St -> Result St) l :
  (forall x s, In x l -> body x s = Ok s) ->
  forall s, for_each l body s = Ok s.
Proof.
  induction l as [|x l IH]; intros Hid s; simpl; [reflexivity|].
  rewrite Hid by (simpl; auto). simpl. apply IH. intros; apply Hid; simpl; auto.
Qed.

Lemma for_each_single {X St} (body : X -> St -> Result St) l x0 :
  NoDup l -> In x0 l ->
  (forall x s, In x l -> x <> x0 -> body x s = Ok s) ->
  forall s, for_each l body s = body x0 s.
Proof.
  induction l as [|x l IH]; intros Hnd Hin Hid s; simpl; [destruct Hin|].
  inversion Hnd as [|? ? Hx Hnd']; subst.
  destruct Hin as [->|Hin].
  - destruct (body x0 s) as [s'|f]; simpl; [|reflexivity].
    apply for_each_idle. intros y s'' Hy. apply Hid; [simpl; auto|].
    intros ->. contradiction.
  - rewrite Hid; [|simpl; auto|intros ->; contradiction]. simpl.
    apply IH; auto. intros; apply Hid; simpl; auto.
Qed.

Lemma NoDup_sides_from d :
  forall start,
    NoDup (flat_map (fun idim => [(idim, 0%nat); (idim, 1%nat)]) (seq start d)).
Proof.
  induction d as [|d IH]; intros start; simpl; [constructor|].
  assert (Hfresh : forall iside,
             ~ In (start, iside)
                  (flat_map (fun idim => [(idim, 0%nat); (idim, 1%nat)])
                            (seq (S start) d))).
  { intros iside Hin. apply in_flat_map in Hin. destruct Hin as [x [Hx Hin]].
    apply in_seq in Hx. simpl in Hin.
    destruct Hin as [E|[E|[]]]; inversion E; lia. }
  constructor.
  - intros [E|Hin]; [inversion E|exact (Hfresh _ Hin)].
  - constructor; [apply Hfresh|apply IH].
Qed.

Lemma NoDup_sides d : NoDup (sides d).
Proof. apply NoDup_sides_from. Qed.

Lemma for_each_ext {X St} (body1 body2 : X -> St -> Result St) l :
  (forall x s, In x l -> body1 x s = body2 x s) ->
  forall s, for_each l body1 s = for_each l body2 s.
Proof.
  induction l as [|x l IH]; intros Hext s; simpl; [reflexivity|].
  rewrite Hext by (simpl; auto). destruct (body2 x s); simpl; [|reflexivity].
  apply IH. intros; apply Hext; simpl; auto.
Qed.

(** A loop whose iterations cannot fault under an invariant, followed in
    step by a pure loop over a ghost value. *)
Lemma for_each_sim {X St A} (Rel : St -> A -> Prop)
      (body : X -> St -> Result St) (gbody : X -> A -> A) l :
  (forall x s a, In x l -> Rel s a ->
                 exists s', body x s = Ok s' /\ Rel s' (gbody x a)) ->
  forall s a, Rel s a ->
              exists s', for_each l body s = Ok s' /\ Rel s' (pure_each l gbody a).
Proof.
  induction l as [|x l IH]; intros Hstep s a Hrel; simpl.
  - exists s. auto.
  - destruct (Hstep x s a) as (s1 & E & Hrel1); [simpl; auto|exact Hrel|].
    rewrite E. simpl. apply IH; [|exact Hrel1].
    intros; apply Hstep; simpl; auto.
Qed.

Lemma for_each_inv {X St} (Inv : St -> Prop) (body : X -> St -> Result St) l :
  (forall x s, In x l -> Inv s -> exists s', body x s = Ok s' /\ Inv s') ->
  forall s, Inv s -> exists s', for_each l body s = Ok s' /\ Inv s'.
Proof.
  intros Hstep s Hs.
  destruct (for_each_sim (fun s (_ : unit) => Inv s) body (fun _ u => u) l)
    with (s := s) (a := tt) as (s' & E & H); auto.
  eauto.
Qed.

Lemma for_each_establish {X St} (Inv Q : St -> Prop)
      (body : X -> St -> Result St) l x0 :
  In x0 l ->
  (forall x s, In x l -> Inv s ->
               exists s', body x s = Ok s' /\ Inv s' /\ (Q s -> Q s')) ->
  (forall s, Inv s -> exists s', body x0 s = Ok s' /\ Q s') ->
  forall s, Inv s -> exists s', for_each l body s = Ok s' /\ Inv s' /\ Q s'.
Proof.
  induction l as [|x l IH]; intros Hin Hkeep Hest s Hs; simpl; [destruct Hin|].
  destruct (Hkeep x s) as (s1 & E & Hinv1 & HQ1); [simpl; auto|exact Hs|].
  rewrite E. simpl. destruct Hin as [->|Hin].
  - destruct (Hest s Hs) as (s1' & E' & HQ). rewrite E in E'.
    injection E' as <-.
    destruct (for_each_inv (fun s => Inv s /\ Q s) body l) with (s := s1)
      as (s' & Erun & Hinv' & HQ'); auto.
    + intros y t Hy [Ht HQt].
      destruct (Hkeep y t) as (t' & Et & Hinvt & HQt'); [simpl; auto|exact Ht|].
      exists t'. auto.
    + exists s'. auto.
  - apply IH; auto. intros; apply Hkeep; simpl; auto.
Qed.

(* ================================================================== *)
(** * Array4 and IntVect lemmas *)
(* ================================================================== *)

Lemma same_cell_refl i j k n : same_cell i j k n i j k n = true.
Proof. unfold same_cell. rewrite !Z.eqb_refl. reflexivity. Qed.

Lemma same_cell_true i j k n i' j' k' n' :
  same_cell i j k n i' j' k' n' = true <-> i = i' /\ j = j' /\ k = k' /\ n = n'.
Proof.
  unfold same_cell. rewrite !andb_true_iff, !Z.eqb_eq. tauto.
Qed.

Lemma same_cell_false i j k n i' j' k' n' :
  same_cell i j k n i' j' k' n' = false <-> ~ (i = i' /\ j = j' /\ k = k' /\ n = n').
Proof.
  rewrite <- same_cell_true.
  destruct (same_cell i j k n i' j' k' n'); intuition congruence.
Qed.

Lemma Array4_contains_update a i j k n v i' j' k' n' :
  Array4_contains (Array4_update a i j k n v) i' j' k' n'
  = Array4_contains a i' j' k' n'.
Proof. reflexivity. Qed.

Lemma Array4_at_update_same a iv n v :
  Array4_at (Array4_update a (iv_i iv) (iv_j iv) (iv_k iv) n v) iv n = v.
Proof. unfold Array4_at; simpl. rewrite same_cell_refl. reflexivity. Qed.

Lemma same_extent_refl a : same_extent a a.
Proof. repeat split. Qed.

Lemma same_extent_update a b i j k n v :
  same_extent a b -> same_extent (Array4_update a i j k n v) b.
Proof. intros H. exact H. Qed.

Lemma same_extent_contains a b i j k n :
  same_extent a b -> Array4_contains a i j k n = Array4_contains b i j k n.
Proof.
  intros (Hb & He & Hn). unfold Array4_contains. rewrite Hb, He, Hn. reflexivity.
Qed.

Lemma Array4_equiv_refl a : Array4_equiv a a.
Proof. repeat split. Qed.

Lemma IntVect_eqb_eq a : forall b, IntVect_eqb a b = true <-> a = b.
Proof.
  induction a as [|x a IH]; intros [|y b]; simpl; split; intros H;
    try reflexivity; try discriminate.
  - apply andb_true_iff in H. destruct H as [Hx Hab].
    apply Z.eqb_eq in Hx. apply IH in Hab. congruence.
  - inversion H; subst. rewrite Z.eqb_refl. simpl. apply IH. reflexivity.
Qed.

Lemma IntVect_eqb_neq a b : IntVect_eqb a b = false <-> a <> b.
Proof.
  rewrite <- IntVect_eqb_eq. destruct (IntVect_eqb a b); intuition congruence.
Qed.

Lemma iv_set_length iv : forall d v, length (iv_set iv d v) = length iv.
Proof.
  induction iv as [|x iv IH]; intros [|d] v; simpl; auto.
Qed.

Lemma iv_get_set_same iv : forall d v, (d < length iv)%nat -> iv_get (iv_set iv d v) d = v.
Proof.
  unfold iv_get. induction iv as [|x iv IH]; intros [|d] v H; simpl in *;
    try lia; auto. apply IH. lia.
Qed.

Lemma iv_get_set_other iv : forall d d' v, d <> d' -> iv_get (iv_set iv d v) d' = iv_get iv d'.
Proof.
  unfold iv_get. induction iv as [|x iv IH]; intros [|d] [|d'] v H; simpl;
    try reflexivity; try congruence. apply IH. congruence.
Qed.

(** Distinct index vectors of at most three components are distinct cells. *)
Lemma iv_cell_inj (a b : IntVect) :
  length a = length b -> (length a <= 3)%nat ->
  iv_i a = iv_i b -> iv_j a = iv_j b -> iv_k a = iv_k b -> a = b.
Proof.
  unfold iv_i, iv_j, iv_k, iv_get. intros Hl H3 Hi Hj Hk.
  destruct a as [|a0 [|a1 [|a2 [|? ?]]]], b as [|b0 [|b1 [|b2 [|? ?]]]];
    simpl in *; try lia; congruence.
Qed.

Lemma iv_cell_neq (a b : IntVect) n m :
  length a = length b -> (length a <= 3)%nat -> a <> b ->
  same_cell (iv_i a) (iv_j a) (iv_k a) n (iv_i b) (iv_j b) (iv_k b) m = false.
Proof.
  intros Hl H3 Hne. apply same_cell_false. intros (Hi & Hj & Hk & _).
  apply Hne. apply iv_cell_inj; auto.
Qed.

Lemma SPACEDIM_le_3 g : (AMREX_SPACEDIM g <= 3)%nat.
Proof. destruct g; simpl; lia. Qed.

Lemma iv_set_neq iv d v :
  (d < length iv)%nat -> v <> iv_get iv d -> iv_set iv d v <> iv.
Proof.
  intros Hd Hv E. assert (H := iv_get_set_same iv d v Hd).
  rewrite E in H. congruence.
Qed.

(* ================================================================== *)
(** * PEC boundary kernels: WarpX_PEC.H *)
(* ================================================================== *)

Section PEC_fields.

Import PEC.

Variable g : Geometry.
Variables dom_lo dom_hi ijk_vec is_nodal : IntVect.
Variables fbndry_lo fbndry_hi : GpuArray FieldBoundaryType.
Variable icomp n : Z.

Lemma SetEfieldOnPEC_side_keeps_flag idim iside st :
  OnPECBoundary st = true ->
  OnPECBoundary (SetEfieldOnPEC_side g icomp dom_lo dom_hi ijk_vec is_nodal
                                     fbndry_lo fbndry_hi idim iside st) = true.
Proof.
  intros H. unfold SetEfieldOnPEC_side.
  repeat match goal with
         | |- context [if ?c then _ else _] => destruct c
         | |- context [match ?c with _ => _ end] => destruct c
         end; simpl; auto.
Qed.

Lemma SetEfieldOnPEC_boundary_flag idim iside :
  (idim < AMREX_SPACEDIM g)%nat -> (iside < 2)%nat ->
  side_is_PEC fbndry_lo fbndry_hi idim iside = true ->
  get_cell_count_to_boundary dom_lo dom_hi ijk_vec is_nodal idim iside = 0 ->
  iv_get is_nodal idim = 1 ->
  is_tangent_to_PEC g icomp idim = true ->
  forall st0,
    OnPECBoundary
      (pure_loop (AMREX_SPACEDIM g)
         (fun idim => pure_loop 2
            (fun iside =>
               SetEfieldOnPEC_side g icomp dom_lo dom_hi ijk_vec is_nodal
                                   fbndry_lo fbndry_hi idim iside)) st0) = true.
Proof.
  intros Hd Hs Hpec Hig Hnodal Htan st0.
  rewrite nested_pure_loop_sides.
  apply pure_each_establish with (x0 := (idim, iside)).
  - apply in_sides; auto.
  - intros [i s] st _ H. apply SetEfieldOnPEC_side_keeps_flag, H.
  - intros st. simpl. unfold SetEfieldOnPEC_side.
    unfold side_is_PEC in Hpec. rewrite Hpec, Hig, Htan, Hnodal. reflexivity.
Qed.

(** C3. A tangential electric-field component at a cell exactly on a
    PEC boundary (guard-cell depth 0) along an axis on which the array is
    node-staggered is set to exactly 0 by SetEfieldOnPEC, whatever its
    value before, in every dimensionality; no other cell is written. *)
Theorem SetEfieldOnPEC_zero_on_boundary (Efield : Array4) idim iside :
  (idim < AMREX_SPACEDIM g)%nat -> (iside < 2)%nat ->
  side_is_PEC fbndry_lo fbndry_hi idim iside = true ->
  get_cell_count_to_boundary dom_lo dom_hi ijk_vec is_nodal idim iside = 0 ->
  iv_get is_nodal idim = 1 ->
  is_tangent_to_PEC g icomp idim = true ->
  in_extent Efield ijk_vec n ->
  SetEfieldOnPEC g icomp dom_lo dom_hi ijk_vec n Efield is_nodal
                 fbndry_lo fbndry_hi
  = Ok (Array4_update Efield (iv_i ijk_vec) (iv_j ijk_vec) (iv_k ijk_vec) n 0%R)
  /\ Array4_at (Array4_update Efield (iv_i ijk_vec) (iv_j ijk_vec)
                              (iv_k ijk_vec) n 0%R) ijk_vec n = 0%R.
Proof.
  intros Hd Hs Hpec Hig Hnodal Htan Hin. split.
  - unfold SetEfieldOnPEC, apply_mirror.
    rewrite (SetEfieldOnPEC_boundary_flag idim iside) by assumption.
    unfold Array4_write_iv, Array4_write. rewrite Hin. reflexivity.
  - apply Array4_at_update_same.
Qed.

(** ** A guard cell beyond exactly one PEC boundary *)

Variables idim0 iside0 : nat.
Hypothesis Hlen : length ijk_vec = AMREX_SPACEDIM g.
Hypothesis Hd0 : (idim0 < AMREX_SPACEDIM g)%nat.
Hypothesis Hs0 : (iside0 < 2)%nat.
Hypothesis Hpec0 : side_is_PEC fbndry_lo fbndry_hi idim0 iside0 = true.
Hypothesis Hig0 :
  get_cell_count_to_boundary dom_lo dom_hi ijk_vec is_nodal idim0 iside0 = 1.
Hypothesis Hnodal0 : iv_get is_nodal idim0 = 0 \/ iv_get is_nodal idim0 = 1.
Hypothesis Hsingle :
  forall idim iside,
    (idim < AMREX_SPACEDIM g)%nat -> (iside < 2)%nat ->
    (idim, iside) <> (idim0, iside0) ->
    beyond_PEC dom_lo dom_hi ijk_vec is_nodal fbndry_lo fbndry_hi idim iside = false.

Local Abbreviation mirror0 :=
  (guard_mirror dom_lo dom_hi ijk_vec is_nodal idim0 iside0).

Lemma mirror0_index_neq :
  mirror_index dom_lo dom_hi is_nodal idim0 iside0 1 <> iv_get ijk_vec idim0.
Proof.
  unfold mirror_index. unfold get_cell_count_to_boundary in Hig0.
  destruct (iside0 =? 0)%nat; lia.
Qed.

Lemma mirror0_cell_neq n' :
  same_cell (iv_i ijk_vec) (iv_j ijk_vec) (iv_k ijk_vec) n
            (iv_i mirror0) (iv_j mirror0) (iv_k mirror0) n' = false.
Proof.
  apply same_cell_false. intros (Hi & Hj & Hk & _).
  assert (Hget : iv_get mirror0 idim0 = iv_get ijk_vec idim0).
  { assert (H3 : (idim0 < 3)%nat) by (destruct g; simpl in Hd0; lia).
    unfold iv_i, iv_j, iv_k in *.
    destruct idim0 as [|[|[|?]]]; try lia; congruence. }
  unfold guard_mirror in Hget. rewrite iv_get_set_same in Hget by lia.
  exact (mirror0_index_neq Hget).
Qed.

Lemma SetEfieldOnPEC_single_state :
  (forall idim iside,
      (idim < AMREX_SPACEDIM g)%nat -> (iside < 2)%nat ->
      on_PEC (is_tangent_to_PEC g icomp) dom_lo dom_hi ijk_vec is_nodal
             fbndry_lo fbndry_hi idim iside = false) ->
  pure_loop (AMREX_SPACEDIM g)
    (fun idim => pure_loop 2
       (fun iside =>
          SetEfieldOnPEC_side g icomp dom_lo dom_hi ijk_vec is_nodal
                              fbndry_lo fbndry_hi idim iside))
    (mkMirrorState ijk_vec false false 1%R)
  = mkMirrorState mirror0 false true
      (mirror_sign g icomp (is_tangent_to_PEC g icomp idim0)
                   ijk_vec mirror0 is_nodal idim0 iside0).
Proof.
  intros Hon. rewrite nested_pure_loop_sides.
  rewrite (pure_each_single _ _ (idim0, iside0)).
  - simpl. unfold SetEfieldOnPEC_side.
    unfold side_is_PEC in Hpec0. rewrite Hpec0, Hig0. simpl.
    unfold mirror_sign, is_radial_high, radial_scale, guard_mirror, mirror_index.
    f_equal.
    destruct (is_tangent_to_PEC g icomp idim0), g; simpl; try lra;
      destruct ((icomp =? 0) && (idim0 =? 0)%nat && (iside0 =? 1)%nat); lra.
  - apply NoDup_sides.
  - apply in_sides; auto.
  - intros [i s] st Hin Hne. apply in_sides in Hin. destruct Hin as [Hi Hs].
    specialize (Hsingle i s Hi Hs Hne). specialize (Hon i s Hi Hs).
    unfold beyond_PEC, on_PEC, side_is_PEC in *. simpl.
    unfold SetEfieldOnPEC_side.
    destruct (if (s =? 0)%nat then is_boundary_PEC fbndry_lo i
              else is_boundary_PEC fbndry_hi i); [|reflexivity].
    simpl in *. rewrite Hsingle.
    destruct (get_cell_count_to_boundary dom_lo dom_hi ijk_vec is_nodal i s =? 0);
      [|reflexivity].
    simpl in Hon. rewrite Hon. reflexivity.
Qed.

Lemma SetBfieldOnPEC_single_state :
  (forall idim iside,
      (idim < AMREX_SPACEDIM g)%nat -> (iside < 2)%nat ->
      on_PEC (is_normal_to_PEC g icomp) dom_lo dom_hi ijk_vec is_nodal
             fbndry_lo fbndry_hi idim iside = false) ->
  pure_loop (AMREX_SPACEDIM g)
    (fun idim => pure_loop 2
       (fun iside =>
          SetBfieldOnPEC_side g icomp dom_lo dom_hi ijk_vec is_nodal
                              fbndry_lo fbndry_hi idim iside))
    (mkMirrorState ijk_vec false false 1%R)
  = mkMirrorState mirror0 false true
      (mirror_sign g icomp (is_normal_to_PEC g icomp idim0)
                   ijk_vec mirror0 is_nodal idim0 iside0).
Proof.
  intros Hon. rewrite nested_pure_loop_sides.
  rewrite (pure_each_single _ _ (idim0, iside0)).
  - simpl. unfold SetBfieldOnPEC_side.
    unfold side_is_PEC in Hpec0. rewrite Hpec0, Hig0. simpl.
    unfold mirror_sign, is_radial_high, radial_scale, guard_mirror, mirror_index.
    f_equal.
    destruct (is_normal_to_PEC g icomp idim0), g; simpl; try lra;
      destruct ((icomp =? 0) && (idim0 =? 0)%nat && (iside0 =? 1)%nat); lra.
  - apply NoDup_sides.
  - apply in_sides; auto.
  - intros [i s] st Hin Hne. apply in_sides in Hin. destruct Hin as [Hi Hs].
    specialize (Hsingle i s Hi Hs Hne). specialize (Hon i s Hi Hs).
    unfold beyond_PEC, on_PEC, side_is_PEC in *. simpl.
    unfold SetBfieldOnPEC_side.
    destruct (if (s =? 0)%nat then is_boundary_PEC fbndry_lo i
              else is_boundary_PEC fbndry_hi i); [|reflexivity].
    simpl in *. rewrite Hsingle.
    destruct (get_cell_count_to_boundary dom_lo dom_hi ijk_vec is_nodal i s =? 0);
      [|reflexivity].
    simpl in Hon. rewrite Hon. reflexivity.
Qed.

(** The final assignment, applied once and then once more. *)
Lemma apply_mirror_guard_twice (field : Array4) (sg : R) :
  in_extent field ijk_vec n -> in_extent field mirror0 n ->
  let st := mkMirrorState mirror0 false true sg in
  let field' := Array4_update field (iv_i ijk_vec) (iv_j ijk_vec) (iv_k ijk_vec) n
                              (sg * Array4_at field mirror0 n)%R in
  apply_mirror ijk_vec n field st = Ok field'
  /\ Array4_at field' ijk_vec n = (sg * Array4_at field mirror0 n)%R
  /\ exists field'', apply_mirror ijk_vec n field' st = Ok field''
                     /\ Array4_equiv field'' field'.
Proof.
  intros Hin Hmir st field'.
  assert (H1 : apply_mirror ijk_vec n field st = Ok field').
  { unfold apply_mirror, st; simpl.
    unfold Array4_read_iv, Array4_read. rewrite Hmir. simpl.
    unfold Array4_write_iv, Array4_write. rewrite Hin. reflexivity. }
  split; [exact H1|]. split; [apply Array4_at_update_same|].
  eexists. split.
  - unfold apply_mirror, st; simpl.
    unfold Array4_read_iv, Array4_read. unfold field' at 1.
    rewrite Array4_contains_update, Hmir. simpl.
    unfold Array4_write_iv, Array4_write. unfold field' at 1.
    rewrite Array4_contains_update, Hin. reflexivity.
  - repeat split. intros i j k m. unfold field'. simpl.
    destruct (same_cell (iv_i ijk_vec) (iv_j ijk_vec) (iv_k ijk_vec) n i j k m);
      [|reflexivity].
    rewrite mirror0_cell_neq. reflexivity.
Qed.

(** C4 (amended). A guard cell at depth 1 beyond exactly one PEC
    boundary, and on no PEC boundary itself: after SetEfieldOnPEC
    (SetBfieldOnPEC) its value is sign * (the value at the mirror cell),
    the mirror index being dom_lo + ig - (1 - is_nodal) on the low side and
    dom_hi + 1 - ig on the high side; sign is -1 for a tangential (E) /
    normal (B) component and +1 otherwise, times, in the RZ build for the
    radial component beyond the high radial boundary, rmirror / rguard.
    Applying the kernel a second time faults nowhere and leaves every
    value as it is. *)
Theorem PEC_guard_mirror_single_boundary (Efield Bfield : Array4) :
  in_extent Efield ijk_vec n -> in_extent Efield mirror0 n ->
  in_extent Bfield ijk_vec n -> in_extent Bfield mirror0 n ->
  ((forall idim iside,
       (idim < AMREX_SPACEDIM g)%nat -> (iside < 2)%nat ->
       on_PEC (is_tangent_to_PEC g icomp) dom_lo dom_hi ijk_vec is_nodal
              fbndry_lo fbndry_hi idim iside = false) ->
   exists E',
     SetEfieldOnPEC g icomp dom_lo dom_hi ijk_vec n Efield is_nodal
                    fbndry_lo fbndry_hi = Ok E'
     /\ Array4_at E' ijk_vec n
        = (mirror_sign g icomp (is_tangent_to_PEC g icomp idim0)
                       ijk_vec mirror0 is_nodal idim0 iside0
           * Array4_at Efield mirror0 n)%R
     /\ exists E'',
         SetEfieldOnPEC g icomp dom_lo dom_hi ijk_vec n E' is_nodal
                        fbndry_lo fbndry_hi = Ok E''
         /\ Array4_equiv E'' E')
  /\
  ((forall idim iside,
       (idim < AMREX_SPACEDIM g)%nat -> (iside < 2)%nat ->
       on_PEC (is_normal_to_PEC g icomp) dom_lo dom_hi ijk_vec is_nodal
              fbndry_lo fbndry_hi idim iside = false) ->
   exists B',
     SetBfieldOnPEC g icomp dom_lo dom_hi ijk_vec n Bfield is_nodal
                    fbndry_lo fbndry_hi = Ok B'
     /\ Array4_at B' ijk_vec n
        = (mirror_sign g icomp (is_normal_to_PEC g icomp idim0)
                       ijk_vec mirror0 is_nodal idim0 iside0
           * Array4_at Bfield mirror0 n)%R
     /\ exists B'',
         SetBfieldOnPEC g icomp dom_lo dom_hi ijk_vec n B' is_nodal
                        fbndry_lo fbndry_hi = Ok B''
         /\ Array4_equiv B'' B').
Proof.
  intros HE1 HE2 HB1 HB2. split; intros Hon.
  - unfold SetEfieldOnPEC. rewrite (SetEfieldOnPEC_single_state Hon).
    destruct (apply_mirror_guard_twice Efield
                (mirror_sign g icomp (is_tangent_to_PEC g icomp idim0)
                             ijk_vec mirror0 is_nodal idim0 iside0) HE1 HE2)
      as (Hrun & Hval & E'' & Hrun' & Heq).
    eexists. split; [exact Hrun|]. split; [exact Hval|].
    exists E''. split; [exact Hrun'|exact Heq].
  - unfold SetBfieldOnPEC. rewrite (SetBfieldOnPEC_single_state Hon).
    destruct (apply_mirror_guard_twice Bfield
                (mirror_sign g icomp (is_normal_to_PEC g icomp idim0)
                             ijk_vec mirror0 is_nodal idim0 iside0) HB1 HB2)
      as (Hrun & Hval & B'' & Hrun' & Heq).
    eexists. split; [exact Hrun|]. split; [exact Hval|].
    exists B''. split; [exact Hrun'|exact Heq].
Qed.

End PEC_fields.

(** C4, the claim as stated, fails in the RZ build: the radial component
    (icomp = 0) one cell beyond the high radial PEC boundary is normal to
    it, so the claimed sign is +1, and the kernel stores
    rmirror / rguard = 3.5 / 4.5 times the mirror value. *)
Lemma PEC_guard_mirror_claimed_sign_fails :
  ~ (forall g icomp dom_lo dom_hi ijk_vec is_nodal fbndry_lo fbndry_hi n
            Efield idim0 iside0,
        length ijk_vec = AMREX_SPACEDIM g ->
        (idim0 < AMREX_SPACEDIM g)%nat -> (iside0 < 2)%nat ->
        PEC.side_is_PEC fbndry_lo fbndry_hi idim0 iside0 = true ->
        PEC.get_cell_count_to_boundary dom_lo dom_hi ijk_vec is_nodal
                                       idim0 iside0 = 1 ->
        (iv_get is_nodal idim0 = 0 \/ iv_get is_nodal idim0 = 1) ->
        (forall idim iside,
            (idim < AMREX_SPACEDIM g)%nat -> (iside < 2)%nat ->
            (idim, iside) <> (idim0, iside0) ->
            PEC.beyond_PEC dom_lo dom_hi ijk_vec is_nodal fbndry_lo fbndry_hi
                           idim iside = false) ->
        (forall idim iside,
            (idim < AMREX_SPACEDIM g)%nat -> (iside < 2)%nat ->
            PEC.on_PEC (PEC.is_tangent_to_PEC g icomp) dom_lo dom_hi ijk_vec
                       is_nodal fbndry_lo fbndry_hi idim iside = false) ->
        in_extent Efield ijk_vec n ->
        in_extent Efield
                  (iv_set ijk_vec idim0
                          (PEC.mirror_index dom_lo dom_hi is_nodal idim0 iside0 1))
                  n ->
        exists E',
          PEC.SetEfieldOnPEC g icomp dom_lo dom_hi ijk_vec n Efield is_nodal
                             fbndry_lo fbndry_hi = Ok E'
          /\ Array4_at E' ijk_vec n
             = (PEC.sign_as_claimed (PEC.is_tangent_to_PEC g icomp idim0)
                * Array4_at Efield
                            (iv_set ijk_vec idim0
                                    (PEC.mirror_index dom_lo dom_hi is_nodal
                                                      idim0 iside0 1)) n)%R).
Proof.
  intros H.
  specialize (H DIM_RZ 0 [0; 0] [3; 3] [4; 1] [0; 1] no_PEC hi0_PEC 0
                (row_field (fun _ => 9%R)) 0%nat 1%nat).
  destruct H as (E' & Hrun & Hval); try reflexivity; try (simpl; lia).
  - left; reflexivity.
  - intros idim iside Hd Hs Hne. simpl in Hd.
    destruct idim as [|[|?]], iside as [|[|?]]; try lia; try reflexivity.
    congruence.
  - intros idim iside Hd Hs. simpl in Hd.
    destruct idim as [|[|?]], iside as [|[|?]]; try lia; reflexivity.
  - unfold PEC.SetEfieldOnPEC, pure_loop in Hrun. simpl in Hrun.
    unfold PEC.apply_mirror in Hrun. simpl in Hrun.
    injection Hrun as <-. 
    unfold Array4_at, iv_get in Hval. simpl in Hval. lra.
Qed.

(** Beyond two PEC boundaries at once the signs multiply: in the XZ
    build, Ey (icomp = 1) is tangential to the low x and to the low z
    boundary, and the corner guard cell (-1, -1) receives + the value of
    the cell (1, 1), mirrored along both axes. *)
Lemma SetEfieldOnPEC_corner_sign :
  exists E',
    PEC.SetEfieldOnPEC DIM_XZ 1 [0; 0] [9; 9] [-1; -1] 0
                       (row_field (fun i => IZR (i + 8))) [1; 1] all_PEC no_PEC
    = Ok E'
    /\ Array4_at E' [-1; -1] 0 = 9%R
    /\ Array4_at (row_field (fun i => IZR (i + 8))) [1; 1] 0 = 9%R
    /\ PEC.is_tangent_to_PEC DIM_XZ 1 0 = true
    /\ PEC.is_tangent_to_PEC DIM_XZ 1 1 = true.
Proof.
  eexists. split; [reflexivity|].
  unfold Array4_at, iv_i, iv_j, iv_k, iv_get. simpl. repeat split; lra.
Qed.

(* ================================================================== *)
(** * PEC kernels for deposited sources and the Neumann variant *)
(* ================================================================== *)

Section PEC_sources.

Import PEC.

Variable g : Geometry.
Variable n : Z.
Variable ijk_vec : IntVect.
Variable mirrorfac : GpuArray (GpuArray Z).
Variable psign : GpuArray (GpuArray R).
Variable tangent_to_bndy : GpuArray bool.
Variable fabbox : Box.
Variable field0 : Array4.

Hypothesis Hlen : length ijk_vec = AMREX_SPACEDIM g.
Hypothesis Hin : in_extent field0 ijk_vec n.
Hypothesis Hcov : covers g field0 fabbox n.

Lemma mirror_of_length idim iside :
  length (mirror_of ijk_vec mirrorfac idim iside) = length ijk_vec.
Proof. apply iv_set_length. Qed.

Lemma mirror_in_extent idim iside :
  Box_contains g fabbox (mirror_of ijk_vec mirrorfac idim iside) = true ->
  in_extent field0 (mirror_of ijk_vec mirrorfac idim iside) n.
Proof.
  intros Hb. apply Hcov; [|exact Hb]. rewrite mirror_of_length. exact Hlen.
Qed.

Lemma inward_in_extent idim iside v :
  Box_contains g fabbox (iv_set (mirror_of ijk_vec mirrorfac idim iside) idim v)
  = true ->
  in_extent field0 (iv_set (mirror_of ijk_vec mirrorfac idim iside) idim v) n.
Proof.
  intros Hb. apply Hcov; [|exact Hb].
  rewrite iv_set_length, mirror_of_length. exact Hlen.
Qed.

Lemma mirror_cell_neq idim iside m :
  mirror_of ijk_vec mirrorfac idim iside <> ijk_vec ->
  same_cell (iv_i ijk_vec) (iv_j ijk_vec) (iv_k ijk_vec) n
            (iv_i (mirror_of ijk_vec mirrorfac idim iside))
            (iv_j (mirror_of ijk_vec mirrorfac idim iside))
            (iv_k (mirror_of ijk_vec mirrorfac idim iside)) m = false.
Proof.
  intros Hne. apply iv_cell_neq.
  - symmetry. apply mirror_of_length.
  - rewrite Hlen. apply SPACEDIM_le_3.
  - congruence.
Qed.

(** The state of step 1: the extent and every cell but [(ijk_vec, n)] are
    those of [field0], and the cell holds the running value. *)
Local Abbreviation folding := (fold_invariant n ijk_vec field0).

Lemma folding_write f acc v :
  folding f acc ->
  exists f', Array4_write_iv f ijk_vec n v = Ok f' /\ folding f' v.
Proof.
  intros (Hext & Hrest & Hacc).
  unfold Array4_write_iv, Array4_write.
  rewrite (same_extent_contains _ _ _ _ _ _ Hext). rewrite Hin.
  eexists. split; [reflexivity|]. split; [exact Hext|]. split.
  - intros i j k m Hc. simpl. rewrite Hc. apply Hrest, Hc.
  - apply Array4_at_update_same.
Qed.

Lemma RhoOrJ_fold_side_sim is_pec idim iside f acc :
  folding f acc ->
  exists f',
    RhoOrJ_fold_side g n ijk_vec mirrorfac psign is_pec fabbox idim iside f = Ok f'
    /\ folding f' (fold_side_value g n ijk_vec mirrorfac psign is_pec fabbox
                                   field0 idim iside acc).
Proof.
  intros Hf. unfold RhoOrJ_fold_side, fold_side_value.
  destruct (negb (is_pec idim iside)); [exists f; auto|].
  cbv zeta.
  destruct (IntVect_eqb ijk_vec (mirror_of ijk_vec mirrorfac idim iside)) eqn:Eeq.
  - apply folding_write with (acc := acc), Hf.
  - destruct (Box_contains g fabbox (mirror_of ijk_vec mirrorfac idim iside)) eqn:Ebox;
      [|exists f; auto].
    apply IntVect_eqb_neq in Eeq.
    pose proof Hf as (Hext & Hrest & Hacc).
    unfold Array4_read_iv, Array4_read.
    rewrite !(same_extent_contains _ _ _ _ _ _ Hext).
    rewrite Hin. simpl. rewrite (mirror_in_extent _ _ Ebox). simpl.
    rewrite (Hrest _ _ _ _ (mirror_cell_neq idim iside n (not_eq_sym Eeq))).
    unfold Array4_at in Hacc. rewrite Hacc.
    apply folding_write with (acc := acc), Hf.
Qed.

Lemma RhoOrJ_fold_phase is_pec :
  exists f1,
    for_loop (AMREX_SPACEDIM g)
      (fun idim => for_loop 2
         (fun iside =>
            RhoOrJ_fold_side g n ijk_vec mirrorfac psign is_pec fabbox idim iside))
      field0 = Ok f1
    /\ folding f1 (folded_value g n ijk_vec mirrorfac psign is_pec fabbox field0).
Proof.
  rewrite nested_for_loop_sides. unfold folded_value.
  rewrite nested_pure_loop_sides.
  apply for_each_sim with (Rel := folding).
  - intros [idim iside] f acc _ Hf. simpl. apply RhoOrJ_fold_side_sim, Hf.
  - split; [apply same_extent_refl|]. split; [reflexivity|reflexivity].
Qed.

(** The state of step 2: the extent is that of [field0] and the cell
    still holds the folded value [V]. *)
Local Abbreviation imaging := (image_invariant n ijk_vec field0).
Local Abbreviation image_of := (image_value tangent_to_bndy).

Lemma RhoOrJ_image_side_step is_pec V idim iside f :
  imaging V f ->
  (is_pec idim iside = true
   /\ mirror_of ijk_vec mirrorfac idim iside <> ijk_vec
   /\ Box_contains g fabbox (mirror_of ijk_vec mirrorfac idim iside) = true
   /\ RhoOrJ_image_side g n ijk_vec mirrorfac is_pec tangent_to_bndy fabbox
                        idim iside f
      = Ok (Array4_update f
              (iv_i (mirror_of ijk_vec mirrorfac idim iside))
              (iv_j (mirror_of ijk_vec mirrorfac idim iside))
              (iv_k (mirror_of ijk_vec mirrorfac idim iside)) n
              (image_of V idim)))
  \/ ((is_pec idim iside = false
       \/ mirror_of ijk_vec mirrorfac idim iside = ijk_vec
       \/ Box_contains g fabbox (mirror_of ijk_vec mirrorfac idim iside) = false)
      /\ RhoOrJ_image_side g n ijk_vec mirrorfac is_pec tangent_to_bndy fabbox
                           idim iside f = Ok f).
Proof.
  intros (Hext & HV). unfold RhoOrJ_image_side.
  destruct (is_pec idim iside); simpl; [|right; auto].
  destruct (IntVect_eqb ijk_vec (mirror_of ijk_vec mirrorfac idim iside)) eqn:Eeq.
  { apply IntVect_eqb_eq in Eeq. right. simpl. auto. }
  apply IntVect_eqb_neq in Eeq. simpl.
  destruct (Box_contains g fabbox (mirror_of ijk_vec mirrorfac idim iside)) eqn:Ebox;
    [|right; auto].
  left. repeat split; auto.
  unfold Array4_read_iv, Array4_read.
  rewrite (same_extent_contains _ _ _ _ _ _ Hext), Hin. simpl.
  unfold Array4_at in HV. rewrite HV. unfold image_value.
  pose proof (mirror_in_extent _ _ Ebox) as Hm. unfold in_extent in Hm.
  rewrite <- (same_extent_contains _ _ _ _ _ _ Hext) in Hm.
  unfold Array4_write_iv, Array4_write.
  destruct (tangent_to_bndy idim); rewrite Hm; reflexivity.
Qed.

Lemma imaging_update V f idim iside v :
  imaging V f ->
  mirror_of ijk_vec mirrorfac idim iside <> ijk_vec ->
  imaging V (Array4_update f
               (iv_i (mirror_of ijk_vec mirrorfac idim iside))
               (iv_j (mirror_of ijk_vec mirrorfac idim iside))
               (iv_k (mirror_of ijk_vec mirrorfac idim iside)) n v).
Proof.
  intros (Hext & HV) Hne. split; [exact Hext|].
  unfold Array4_at. simpl.
  rewrite iv_cell_neq; [exact HV| | |exact Hne].
  - apply mirror_of_length.
  - rewrite mirror_of_length, Hlen. apply SPACEDIM_le_3.
Qed.

(** Two sides with the same mirror cell mirror along the same axis. *)
Lemma mirror_of_same_axis idim iside idim' iside' :
  mirror_of ijk_vec mirrorfac idim iside <> ijk_vec ->
  mirror_of ijk_vec mirrorfac idim' iside'
  = mirror_of ijk_vec mirrorfac idim iside ->
  idim' = idim.
Proof.
  intros Hne E. destruct (Nat.eq_dec idim' idim) as [|Hd]; [assumption|].
  exfalso. apply Hne. unfold mirror_of in *.
  assert (Hg : iv_get (iv_set ijk_vec idim (mirrorfac idim iside - iv_get ijk_vec idim)) idim
               = iv_get ijk_vec idim).
  { rewrite <- E. apply iv_get_set_other. exact Hd. }
  clear E Hne Hd.
  revert Hg. generalize (mirrorfac idim iside - iv_get ijk_vec idim). intros v.
  unfold iv_get. clear. revert idim.
  induction ijk_vec as [|x l IH]; intros [|d] H; simpl in *; try reflexivity.
  - congruence.
  - f_equal. apply IH. exact H.
Qed.

Lemma RhoOrJ_image_phase is_pec V f1 idim0 iside0 :
  imaging V f1 ->
  (idim0 < AMREX_SPACEDIM g)%nat -> (iside0 < 2)%nat ->
  is_pec idim0 iside0 = true ->
  mirror_of ijk_vec mirrorfac idim0 iside0 <> ijk_vec ->
  Box_contains g fabbox (mirror_of ijk_vec mirrorfac idim0 iside0) = true ->
  exists f2,
    for_loop (AMREX_SPACEDIM g)
      (fun idim => for_loop 2
         (fun iside =>
            RhoOrJ_image_side g n ijk_vec mirrorfac is_pec tangent_to_bndy
                              fabbox idim iside))
      f1 = Ok f2
    /\ imaging V f2
    /\ Array4_at f2 (mirror_of ijk_vec mirrorfac idim0 iside0) n
       = image_of V idim0.
Proof.
  intros Hf1 Hd0 Hs0 Hpec0 Hne0 Hbox0.
  rewrite nested_for_loop_sides.
  apply for_each_establish with (x0 := (idim0, iside0)) (Inv := imaging V);
    [apply in_sides; auto| | |exact Hf1].
  - intros [idim iside] f _ Hf. simpl.
    destruct (RhoOrJ_image_side_step is_pec V idim iside f Hf)
      as [(Hp & Hne & Hb & E)|(_ & E)]; rewrite E; eexists; (split; [reflexivity|]).
    + split; [apply imaging_update; assumption|].
      intros HQ. unfold Array4_at in *. simpl.
      destruct (same_cell (iv_i (mirror_of ijk_vec mirrorfac idim iside))
                          (iv_j (mirror_of ijk_vec mirrorfac idim iside))
                          (iv_k (mirror_of ijk_vec mirrorfac idim iside)) n
                          (iv_i (mirror_of ijk_vec mirrorfac idim0 iside0))
                          (iv_j (mirror_of ijk_vec mirrorfac idim0 iside0))
                          (iv_k (mirror_of ijk_vec mirrorfac idim0 iside0)) n)
               eqn:Ecell; [|exact HQ].
      apply same_cell_true in Ecell. destruct Ecell as (Hi & Hj & Hk & _).
      assert (Em : mirror_of ijk_vec mirrorfac idim iside
                   = mirror_of ijk_vec mirrorfac idim0 iside0).
      { apply iv_cell_inj; auto.
        - rewrite !mirror_of_length. reflexivity.
        - rewrite mirror_of_length, Hlen. apply SPACEDIM_le_3. }
      rewrite (mirror_of_same_axis idim0 iside0 idim iside Hne0 Em). reflexivity.
    + split; [exact Hf|auto].
  - intros f Hf. simpl.
    destruct (RhoOrJ_image_side_step is_pec V idim0 iside0 f Hf)
      as [(Hp & Hne & Hb & E)|([Hp|[Hm|Hb]] & E)]; try congruence.
    rewrite E. eexists. split; [reflexivity|]. apply Array4_at_update_same.
Qed.

Lemma RhoOrJ_image_phase_runs is_pec V f1 :
  imaging V f1 ->
  exists f2,
    for_loop (AMREX_SPACEDIM g)
      (fun idim => for_loop 2
         (fun iside =>
            RhoOrJ_image_side g n ijk_vec mirrorfac is_pec tangent_to_bndy
                              fabbox idim iside))
      f1 = Ok f2
    /\ imaging V f2.
Proof.
  intros Hf1. rewrite nested_for_loop_sides.
  apply for_each_inv with (Inv := imaging V); [|exact Hf1].
  intros [idim iside] f _ Hf. simpl.
  destruct (RhoOrJ_image_side_step is_pec V idim iside f Hf)
    as [(Hp & Hne & Hb & E)|(_ & E)]; rewrite E; eexists; (split; [reflexivity|]).
  - apply imaging_update; assumption.
  - exact Hf.
Qed.

(** C5. SetRhoOrJfieldFromPEC folds, then images.  Step 1 leaves in the
    cell the fold, over the PEC sides in order, of the values deposited
    before the call: a side on which the cell is its own mirror sets the
    running value to 0, a side whose mirror guard cell lies in the fab
    box adds psign * (the guard cell's deposited value).  Step 2 then
    overwrites every such guard cell with minus the cell's value after
    all of step 1 when the direction is tangential, and with that value
    itself otherwise. *)
Theorem SetRhoOrJfieldFromPEC_fold_then_image (is_pec : GpuArray (GpuArray bool)) :
  exists field',
    SetRhoOrJfieldFromPEC g n ijk_vec field0 mirrorfac psign is_pec
                          tangent_to_bndy fabbox = Ok field'
    /\ Array4_at field' ijk_vec n
       = folded_value g n ijk_vec mirrorfac psign is_pec fabbox field0
    /\ (forall idim iside acc,
           is_pec idim iside = true ->
           mirror_of ijk_vec mirrorfac idim iside = ijk_vec ->
           fold_side_value g n ijk_vec mirrorfac psign is_pec fabbox field0
                           idim iside acc = 0%R)
    /\ (forall idim iside acc,
           is_pec idim iside = true ->
           mirror_of ijk_vec mirrorfac idim iside <> ijk_vec ->
           Box_contains g fabbox (mirror_of ijk_vec mirrorfac idim iside) = true ->
           fold_side_value g n ijk_vec mirrorfac psign is_pec fabbox field0
                           idim iside acc
           = (acc + psign idim iside
                    * Array4_at field0 (mirror_of ijk_vec mirrorfac idim iside) n)%R)
    /\ (forall idim iside,
           (idim < AMREX_SPACEDIM g)%nat -> (iside < 2)%nat ->
           is_pec idim iside = true ->
           mirror_of ijk_vec mirrorfac idim iside <> ijk_vec ->
           Box_contains g fabbox (mirror_of ijk_vec mirrorfac idim iside) = true ->
           Array4_at field' (mirror_of ijk_vec mirrorfac idim iside) n
           = if tangent_to_bndy idim
             then (- Array4_at field' ijk_vec n)%R
             else Array4_at field' ijk_vec n).
Proof.
  unfold SetRhoOrJfieldFromPEC.
  destruct (RhoOrJ_fold_phase is_pec) as (f1 & E1 & Hext1 & Hrest1 & HV1).
  rewrite E1. simpl.
  set (V := folded_value g n ijk_vec mirrorfac psign is_pec fabbox field0) in *.
  assert (Him1 : imaging V f1) by (split; assumption).
  destruct (RhoOrJ_image_phase_runs is_pec V f1 Him1) as (f2 & E2 & Hext2 & HV2).
  exists f2. split; [exact E2|]. split; [exact HV2|]. split; [|split].
  - intros idim iside acc Hp Hm. unfold fold_side_value. rewrite Hp, Hm. simpl.
    replace (IntVect_eqb ijk_vec ijk_vec) with true; [reflexivity|].
    symmetry. apply IntVect_eqb_eq. reflexivity.
  - intros idim iside acc Hp Hm Hb. unfold fold_side_value. rewrite Hp, Hb. simpl.
    replace (IntVect_eqb ijk_vec (mirror_of ijk_vec mirrorfac idim iside))
      with false; [reflexivity|].
    symmetry. apply IntVect_eqb_neq. congruence.
  - intros idim iside Hd Hs Hp Hm Hb.
    destruct (RhoOrJ_image_phase is_pec V f1 idim iside Him1 Hd Hs Hp Hm Hb)
      as (f2' & E2' & _ & HQ).
    rewrite E2 in E2'. injection E2' as <-.
    rewrite HQ, HV2. reflexivity.
Qed.

(** ** The Neumann variant and the missing mirror *)

Lemma SetNeumannOnPEC_side_runs is_pec idim iside f :
  same_extent f field0 ->
  exists f',
    SetNeumannOnPEC_side g n ijk_vec mirrorfac is_pec fabbox idim iside f = Ok f'
    /\ same_extent f' field0.
Proof.
  intros Hext. unfold SetNeumannOnPEC_side.
  destruct (negb (is_pec idim iside)); [exists f; auto|]. cbv zeta.
  destruct (IntVect_eqb ijk_vec (mirror_of ijk_vec mirrorfac idim iside)).
  - match goal with |- context [Box_contains g fabbox ?iv] =>
      destruct (Box_contains g fabbox iv) eqn:Ebox end; [|exists f; auto].
    unfold Array4_read_iv, Array4_read.
    rewrite (same_extent_contains _ _ _ _ _ _ Hext),
      (inward_in_extent _ _ _ Ebox). simpl.
    unfold Array4_write_iv, Array4_write.
    rewrite (same_extent_contains _ _ _ _ _ _ Hext), Hin.
    eexists; split; [reflexivity|exact Hext].
  - destruct (Box_contains g fabbox (mirror_of ijk_vec mirrorfac idim iside)) eqn:Ebox;
      [|exists f; auto].
    unfold Array4_read_iv, Array4_read.
    rewrite (same_extent_contains _ _ _ _ _ _ Hext), Hin. simpl.
    unfold Array4_write_iv, Array4_write.
    rewrite (same_extent_contains _ _ _ _ _ _ Hext),
      (mirror_in_extent _ _ Ebox).
    eexists; split; [reflexivity|exact Hext].
Qed.

Lemma clear_side_other is_pec idim0 iside0 idim iside :
  (idim, iside) <> (idim0, iside0) ->
  clear_side is_pec idim0 iside0 idim iside = is_pec idim iside.
Proof.
  intros Hne. unfold clear_side.
  destruct (idim =? idim0)%nat eqn:Ed, (iside =? iside0)%nat eqn:Es; simpl;
    try reflexivity.
  apply Nat.eqb_eq in Ed, Es. congruence.
Qed.

Lemma clear_side_same is_pec idim0 iside0 :
  clear_side is_pec idim0 iside0 idim0 iside0 = false.
Proof. unfold clear_side. rewrite !Nat.eqb_refl. reflexivity. Qed.

Lemma side_eq_dec (x y : nat * nat) : {x = y} + {x <> y}.
Proof. decide equality; apply Nat.eq_dec. Qed.

Lemma RhoOrJ_fold_side_missing is_pec idim iside f :
  Box_contains g fabbox ijk_vec = true ->
  Box_contains g fabbox (mirror_of ijk_vec mirrorfac idim iside) = false ->
  RhoOrJ_fold_side g n ijk_vec mirrorfac psign is_pec fabbox idim iside f = Ok f.
Proof.
  intros Hijk Hm. unfold RhoOrJ_fold_side.
  destruct (negb (is_pec idim iside)); [reflexivity|]. cbv zeta.
  destruct (IntVect_eqb ijk_vec (mirror_of ijk_vec mirrorfac idim iside)) eqn:E.
  - apply IntVect_eqb_eq in E. rewrite <- E in Hm. congruence.
  - rewrite Hm. reflexivity.
Qed.

Lemma RhoOrJ_image_side_missing is_pec idim iside f :
  Box_contains g fabbox (mirror_of ijk_vec mirrorfac idim iside) = false ->
  RhoOrJ_image_side g n ijk_vec mirrorfac is_pec tangent_to_bndy fabbox
                    idim iside f = Ok f.
Proof.
  intros Hm. unfold RhoOrJ_image_side.
  destruct (negb (is_pec idim iside)); [reflexivity|]. cbv zeta.
  rewrite Hm, andb_false_r. reflexivity.
Qed.

Lemma SetNeumannOnPEC_side_missing is_pec idim iside f :
  Box_contains g fabbox (Neumann_partner ijk_vec mirrorfac idim iside) = false ->
  SetNeumannOnPEC_side g n ijk_vec mirrorfac is_pec fabbox idim iside f = Ok f.
Proof.
  unfold Neumann_partner, SetNeumannOnPEC_side. cbv zeta. intros Hm.
  destruct (negb (is_pec idim iside)); [reflexivity|].
  destruct (IntVect_eqb ijk_vec (mirror_of ijk_vec mirrorfac idim iside));
    rewrite Hm; reflexivity.
Qed.

(** C6. A mirror outside the fab box is a silent no-op.  For a cell of the
    fab box, on an array that covers the box, SetRhoOrJfieldFromPEC and
    SetNeumannOnPEC return without a fault for every configuration; an
    axis and side whose mirror index (for the Neumann kernel, the index
    it tests: the adjacent cell when the cell is its own mirror) falls
    outside the fab box contributes nothing, the kernel computing what it
    computes with that side switched off; and when that is so for every
    PEC side the field is returned as it was. *)
Theorem PEC_missing_mirror_is_skipped (is_pec : GpuArray (GpuArray bool)) :
  Box_contains g fabbox ijk_vec = true ->
  (exists field',
      SetRhoOrJfieldFromPEC g n ijk_vec field0 mirrorfac psign is_pec
                            tangent_to_bndy fabbox = Ok field')
  /\ (exists field',
         SetNeumannOnPEC g n ijk_vec field0 mirrorfac is_pec fabbox = Ok field')
  /\ (forall idim0 iside0,
         Box_contains g fabbox (mirror_of ijk_vec mirrorfac idim0 iside0) = false ->
         SetRhoOrJfieldFromPEC g n ijk_vec field0 mirrorfac psign is_pec
                               tangent_to_bndy fabbox
         = SetRhoOrJfieldFromPEC g n ijk_vec field0 mirrorfac psign
                                 (clear_side is_pec idim0 iside0)
                                 tangent_to_bndy fabbox)
  /\ (forall idim0 iside0,
         Box_contains g fabbox (Neumann_partner ijk_vec mirrorfac idim0 iside0)
         = false ->
         SetNeumannOnPEC g n ijk_vec field0 mirrorfac is_pec fabbox
         = SetNeumannOnPEC g n ijk_vec field0 mirrorfac
                           (clear_side is_pec idim0 iside0) fabbox)
  /\ ((forall idim iside,
          (idim < AMREX_SPACEDIM g)%nat -> (iside < 2)%nat ->
          is_pec idim iside = true ->
          Box_contains g fabbox (mirror_of ijk_vec mirrorfac idim iside) = false) ->
      SetRhoOrJfieldFromPEC g n ijk_vec field0 mirrorfac psign is_pec
                            tangent_to_bndy fabbox = Ok field0)
  /\ ((forall idim iside,
          (idim < AMREX_SPACEDIM g)%nat -> (iside < 2)%nat ->
          is_pec idim iside = true ->
          Box_contains g fabbox (Neumann_partner ijk_vec mirrorfac idim iside)
          = false) ->
      SetNeumannOnPEC g n ijk_vec field0 mirrorfac is_pec fabbox = Ok field0).
Proof.
  intros Hijk. repeat split.
  - unfold SetRhoOrJfieldFromPEC.
    destruct (RhoOrJ_fold_phase is_pec) as (f1 & E1 & Hext1 & Hrest1 & HV1).
    rewrite E1. simpl.
    destruct (RhoOrJ_image_phase_runs is_pec _ f1 (conj Hext1 HV1))
      as (f2 & E2 & _).
    exists f2. exact E2.
  - unfold SetNeumannOnPEC. rewrite nested_for_loop_sides.
    destruct (for_each_inv (fun f => same_extent f field0)
                (fun p => SetNeumannOnPEC_side g n ijk_vec mirrorfac is_pec fabbox
                                               (fst p) (snd p))
                (sides (AMREX_SPACEDIM g))) with (s := field0) as (f' & E & _).
    + intros [idim iside] f _ Hf. apply SetNeumannOnPEC_side_runs, Hf.
    + apply same_extent_refl.
    + exists f'. exact E.
  - intros idim0 iside0 Hm. unfold SetRhoOrJfieldFromPEC.
    rewrite !nested_for_loop_sides.
    rewrite (for_each_ext
               (fun p => RhoOrJ_fold_side g n ijk_vec mirrorfac psign is_pec fabbox
                                          (fst p) (snd p))
               (fun p => RhoOrJ_fold_side g n ijk_vec mirrorfac psign
                                          (clear_side is_pec idim0 iside0) fabbox
                                          (fst p) (snd p))).
    2:{ intros [i s] f _. simpl.
        destruct (side_eq_dec (i, s) (idim0, iside0)) as [E|Hne].
        - inversion E; subst. rewrite !RhoOrJ_fold_side_missing; auto.
        - unfold RhoOrJ_fold_side. rewrite clear_side_other; auto. }
    match goal with |- bind ?m _ = bind ?m _ => destruct m as [f1|]; simpl end;
      [|reflexivity].
    rewrite !nested_for_loop_sides. apply for_each_ext. intros [i s] f _. simpl.
    destruct (side_eq_dec (i, s) (idim0, iside0)) as [E|Hne].
    + inversion E; subst. rewrite !RhoOrJ_image_side_missing; auto.
    + unfold RhoOrJ_image_side. rewrite clear_side_other; auto.
  - intros idim0 iside0 Hm. unfold SetNeumannOnPEC.
    rewrite !nested_for_loop_sides.
    apply for_each_ext. intros [i s] f _. simpl.
    destruct (side_eq_dec (i, s) (idim0, iside0)) as [E|Hne].
    + inversion E; subst. rewrite !SetNeumannOnPEC_side_missing; auto.
    + unfold SetNeumannOnPEC_side. rewrite clear_side_other; auto.
  - intros Hall. unfold SetRhoOrJfieldFromPEC. rewrite !nested_for_loop_sides.
    rewrite for_each_idle; simpl.
    + rewrite nested_for_loop_sides.
      apply for_each_idle. intros [i s] f Hp. apply in_sides in Hp.
      simpl. destruct (is_pec i s) eqn:Ep.
      * apply RhoOrJ_image_side_missing. apply Hall; tauto.
      * unfold RhoOrJ_image_side. rewrite Ep. reflexivity.
    + intros [i s] f Hp. apply in_sides in Hp.
      simpl. destruct (is_pec i s) eqn:Ep.
      * apply RhoOrJ_fold_side_missing; auto. apply Hall; tauto.
      * unfold RhoOrJ_fold_side. rewrite Ep. reflexivity.
  - intros Hall. unfold SetNeumannOnPEC. rewrite !nested_for_loop_sides.
    apply for_each_idle. intros [i s] f Hp. apply in_sides in Hp.
    simpl. destruct (is_pec i s) eqn:Ep.
    + apply SetNeumannOnPEC_side_missing. apply Hall; tauto.
    + unfold SetNeumannOnPEC_side. rewrite Ep. reflexivity.
Qed.

(** C8 (amended). SetNeumannOnPEC applies the mirror rule with no sign.
    The pass is the steps of the axes and sides in order.  On any field of
    the array's extent, the step of a PEC axis and side does this: a cell
    that is its own mirror takes the value of the adjacent cell one step
    inward when that cell lies in the fab box; any other cell is copied,
    unchanged, into its mirror guard cell when the guard cell lies in the
    fab box; otherwise the field is left as it was.  The step of an axis
    and side that is not PEC leaves the field as it was, so with one PEC
    axis and side the pass is that side's step. *)
Theorem SetNeumannOnPEC_mirror_rule (is_pec : GpuArray (GpuArray bool)) :
  SetNeumannOnPEC g n ijk_vec field0 mirrorfac is_pec fabbox
  = for_each (sides (AMREX_SPACEDIM g))
             (fun p => SetNeumannOnPEC_side g n ijk_vec mirrorfac is_pec fabbox
                                            (fst p) (snd p))
             field0
  /\ (forall idim iside f,
         same_extent f field0 -> is_pec idim iside = true ->
         let iv_mirror := mirror_of ijk_vec mirrorfac idim iside in
         let inward :=
             iv_set iv_mirror idim
                    (iv_get iv_mirror idim + (if (iside =? 0)%nat then 1 else -1)) in
         let step := SetNeumannOnPEC_side g n ijk_vec mirrorfac is_pec fabbox
                                          idim iside f in
         (iv_mirror = ijk_vec -> Box_contains g fabbox inward = true ->
          step = Ok (Array4_update f (iv_i ijk_vec) (iv_j ijk_vec) (iv_k ijk_vec) n
                                   (Array4_at f inward n)))
         /\ (iv_mirror = ijk_vec -> Box_contains g fabbox inward = false ->
             step = Ok f)
         /\ (iv_mirror <> ijk_vec -> Box_contains g fabbox iv_mirror = true ->
             step = Ok (Array4_update f (iv_i iv_mirror) (iv_j iv_mirror)
                                      (iv_k iv_mirror) n (Array4_at f ijk_vec n)))
         /\ (iv_mirror <> ijk_vec -> Box_contains g fabbox iv_mirror = false ->
             step = Ok f))
  /\ (forall idim iside f,
         is_pec idim iside = false ->
         SetNeumannOnPEC_side g n ijk_vec mirrorfac is_pec fabbox idim iside f
         = Ok f)
  /\ (forall idim0 iside0,
         (idim0 < AMREX_SPACEDIM g)%nat -> (iside0 < 2)%nat ->
         (forall idim iside,
             (idim < AMREX_SPACEDIM g)%nat -> (iside < 2)%nat ->
             (idim, iside) <> (idim0, iside0) -> is_pec idim iside = false) ->
         SetNeumannOnPEC g n ijk_vec field0 mirrorfac is_pec fabbox
         = SetNeumannOnPEC_side g n ijk_vec mirrorfac is_pec fabbox
                                idim0 iside0 field0).
Proof.
  split; [apply nested_for_loop_sides|].
  split; [|split].
  - intros idim iside f Hext Hpec iv_mirror inward step.
    unfold step, SetNeumannOnPEC_side. rewrite Hpec. cbv zeta. simpl negb.
    fold iv_mirror. fold inward. cbv iota.
    repeat split.
    + intros Hm Hb.
      replace (IntVect_eqb ijk_vec iv_mirror) with true
        by (symmetry; apply IntVect_eqb_eq; congruence).
      rewrite Hb. unfold Array4_read_iv, Array4_read.
      pose proof (inward_in_extent _ _ _ Hb) as Hinw. fold iv_mirror inward in Hinw.
      rewrite (same_extent_contains _ _ _ _ _ _ Hext), Hinw. simpl.
      unfold Array4_write_iv, Array4_write.
      rewrite (same_extent_contains _ _ _ _ _ _ Hext), Hin. reflexivity.
    + intros Hm Hb.
      replace (IntVect_eqb ijk_vec iv_mirror) with true
        by (symmetry; apply IntVect_eqb_eq; congruence).
      rewrite Hb. reflexivity.
    + intros Hm Hb.
      replace (IntVect_eqb ijk_vec iv_mirror) with false
        by (symmetry; apply IntVect_eqb_neq; congruence).
      rewrite Hb. unfold Array4_read_iv, Array4_read.
      rewrite (same_extent_contains _ _ _ _ _ _ Hext), Hin. simpl.
      unfold Array4_write_iv, Array4_write.
      pose proof (mirror_in_extent _ _ Hb) as Hmir. fold iv_mirror in Hmir.
      rewrite (same_extent_contains _ _ _ _ _ _ Hext), Hmir. reflexivity.
    + intros Hm Hb.
      replace (IntVect_eqb ijk_vec iv_mirror) with false
        by (symmetry; apply IntVect_eqb_neq; congruence).
      rewrite Hb. reflexivity.
  - intros idim iside f Hpec. unfold SetNeumannOnPEC_side. rewrite Hpec.
    reflexivity.
  - intros idim0 iside0 Hd0 Hs0 Hothers.
    unfold SetNeumannOnPEC. rewrite nested_for_loop_sides.
    rewrite (for_each_single _ _ (idim0, iside0));
      [reflexivity|apply NoDup_sides|apply in_sides; auto|].
    intros [i s] f Hp Hne. apply in_sides in Hp. simpl.
    unfold SetNeumannOnPEC_side. rewrite (Hothers i s); tauto.
Qed.

End PEC_sources.

(** ** Examples on a one-dimensional nodal grid *)

Lemma line_field_covers v : covers DIM_1D_Z (line_field v) line_box 0.
Proof.
  intros iv Hl Hb. destruct iv as [|x [|? ?]]; simpl in Hl; try discriminate.
  unfold Box_contains in Hb. simpl in Hb. unfold iv_get in Hb. simpl in Hb.
  rewrite andb_true_r in Hb. apply andb_true_iff in Hb. destruct Hb as [H1 H2].
  apply Z.leb_le in H1, H2.
  unfold in_extent, Array4_contains, iv_i, iv_j, iv_k, iv_get. simpl.
  rewrite !andb_true_r.
  apply andb_true_iff. split; [apply Z.leb_le|apply Z.ltb_lt]; lia.
Qed.

(** C8, the claim as stated, fails: the guard cell receives the value of
    the interior cell it mirrors, not the value on the boundary.  On the
    line with values 0, 1, 2, ... at the nodes 0, 1, 2, ... and the PEC
    boundary at node 0, the kernel at cell 2 stores 2 in the guard cell
    -2, while the boundary cell 0 holds 0 before the pass and, once the
    kernel has run at the cells 0, 1 and 2, holds 1. *)
Lemma SetNeumannOnPEC_guard_is_not_boundary_value :
  (exists field',
      for_each [[0]; [1]; [2]]
               (fun ijk_vec f =>
                  PEC.SetNeumannOnPEC DIM_1D_Z 0 ijk_vec f mirror_about_0 only_lo0
                                      line_box)
               (line_field IZR) = Ok field'
      /\ Array4_at field' [-2] 0 = 2%R
      /\ Array4_at field' [0] 0 = 1%R
      /\ Array4_at (line_field IZR) [0] 0 = 0%R)
  /\
  ~ (forall g n ijk_vec field mirrorfac is_pec fabbox idim0 iside0 boundary field',
        length ijk_vec = AMREX_SPACEDIM g ->
        Box_contains g fabbox ijk_vec = true ->
        covers g field fabbox n ->
        (idim0 < AMREX_SPACEDIM g)%nat -> (iside0 < 2)%nat ->
        is_pec idim0 iside0 = true ->
        (forall idim iside,
            (idim < AMREX_SPACEDIM g)%nat -> (iside < 2)%nat ->
            (idim, iside) <> (idim0, iside0) -> is_pec idim iside = false) ->
        PEC.mirror_of ijk_vec mirrorfac idim0 iside0 <> ijk_vec ->
        Box_contains g fabbox (PEC.mirror_of ijk_vec mirrorfac idim0 iside0) = true ->
        (exists b, boundary = iv_set ijk_vec idim0 b) ->
        PEC.mirror_of boundary mirrorfac idim0 iside0 = boundary ->
        Box_contains g fabbox boundary = true ->
        PEC.SetNeumannOnPEC g n ijk_vec field mirrorfac is_pec fabbox = Ok field' ->
        Array4_at field' (PEC.mirror_of ijk_vec mirrorfac idim0 iside0) n
        = Array4_at field' boundary n
        \/ Array4_at field' (PEC.mirror_of ijk_vec mirrorfac idim0 iside0) n
           = Array4_at field boundary n).
Proof.
  split.
  { eexists. split; [reflexivity|].
    unfold Array4_at, iv_i, iv_j, iv_k, iv_get. simpl. repeat split; lra. }
  intros H.
  specialize (H DIM_1D_Z 0 [2] (line_field IZR) mirror_about_0 only_lo0 line_box
                0%nat 0%nat [0]
                (Array4_update (line_field IZR) (-2) 0 0 0 2%R)).
  assert (Hval : Array4_at (Array4_update (line_field IZR) (-2) 0 0 0 2%R) [-2] 0
                 = Array4_at (Array4_update (line_field IZR) (-2) 0 0 0 2%R) [0] 0
                 \/ Array4_at (Array4_update (line_field IZR) (-2) 0 0 0 2%R) [-2] 0
                    = Array4_at (line_field IZR) [0] 0).
  { apply H; try reflexivity; try (simpl; lia).
    - apply line_field_covers.
    - intros idim iside Hd Hs Hne. simpl in Hd.
      destruct idim as [|?], iside as [|[|?]]; try lia; try reflexivity.
      congruence.
    - discriminate.
    - exists 0. reflexivity. }
  unfold Array4_at, iv_i, iv_j, iv_k, iv_get in Hval. simpl in Hval.
  destruct Hval; lra.
Qed.

Lemma SetEfieldOnPEC_zero_on_boundary_witness :
  PEC.SetEfieldOnPEC DIM_1D_Z 0 [0] [9] [0] 0 (line_field (fun _ => 5%R)) [1]
                     lo0_PEC no_PEC
  = Ok (Array4_update (line_field (fun _ => 5%R)) 0 0 0 0 0%R)
  /\ Array4_at (Array4_update (line_field (fun _ => 5%R)) 0 0 0 0 0%R) [0] 0 = 0%R.
Proof.
  apply (SetEfieldOnPEC_zero_on_boundary
           DIM_1D_Z [0] [9] [0] [1] lo0_PEC no_PEC 0 0
           (line_field (fun _ => 5%R)) 0%nat 0%nat);
    try reflexivity; simpl; lia.
Defined.

Lemma PEC_guard_mirror_single_boundary_witness :
  (exists E',
      PEC.SetEfieldOnPEC DIM_XZ 1 [0; 0] [9; 9] [-1; 4] 0 (row_field IZR) [1; 1]
                         lo0_PEC no_PEC = Ok E'
      /\ Array4_at E' [-1; 4] 0
         = Rmult (PEC.mirror_sign DIM_XZ 1 true [-1; 4] [1; 4] [1; 1] 0 0)
                 (Array4_at (row_field IZR) [1; 4] 0)
      /\ exists E'',
          PEC.SetEfieldOnPEC DIM_XZ 1 [0; 0] [9; 9] [-1; 4] 0 E' [1; 1]
                             lo0_PEC no_PEC = Ok E''
          /\ Array4_equiv E'' E')
  /\ (exists B',
         PEC.SetBfieldOnPEC DIM_XZ 1 [0; 0] [9; 9] [-1; 4] 0 (row_field IZR) [1; 1]
                            lo0_PEC no_PEC = Ok B'
         /\ Array4_at B' [-1; 4] 0
            = Rmult (PEC.mirror_sign DIM_XZ 1 false [-1; 4] [1; 4] [1; 1] 0 0)
                    (Array4_at (row_field IZR) [1; 4] 0)
         /\ exists B'',
             PEC.SetBfieldOnPEC DIM_XZ 1 [0; 0] [9; 9] [-1; 4] 0 B' [1; 1]
                                lo0_PEC no_PEC = Ok B''
             /\ Array4_equiv B'' B').
Proof.
  assert (Hsingle : forall idim iside : nat,
             (idim < AMREX_SPACEDIM DIM_XZ)%nat -> (iside < 2)%nat ->
             (idim, iside) <> (0%nat, 0%nat) ->
             PEC.beyond_PEC [0; 0] [9; 9] [-1; 4] [1; 1] lo0_PEC no_PEC idim iside
             = false).
  { intros idim iside Hd Hs Hne. simpl in Hd.
    destruct idim as [|[|?]], iside as [|[|?]]; try lia; try reflexivity.
    congruence. }
  destruct (PEC_guard_mirror_single_boundary
              DIM_XZ [0; 0] [9; 9] [-1; 4] [1; 1] lo0_PEC no_PEC 1 0 0%nat 0%nat
              eq_refl ltac:(simpl; lia) ltac:(lia) eq_refl eq_refl
              (or_intror eq_refl) Hsingle (row_field IZR) (row_field IZR)
              eq_refl eq_refl eq_refl eq_refl) as [HE HB].
  split; [apply HE|apply HB]; intros idim iside Hd Hs; simpl in Hd;
    destruct idim as [|[|?]], iside as [|[|?]]; try lia; reflexivity.
Defined.

Lemma SetRhoOrJfieldFromPEC_fold_then_image_witness :
  exists field',
    PEC.SetRhoOrJfieldFromPEC DIM_1D_Z 0 [1] (line_field IZR) mirror_about_0
                              (fun _ _ => (-1)%R) only_lo0 (fun _ => false)
                              line_box = Ok field'
    /\ Array4_at field' [1] 0
       = PEC.folded_value DIM_1D_Z 0 [1] mirror_about_0 (fun _ _ => (-1)%R)
                          only_lo0 line_box (line_field IZR)
    /\ Array4_at field' [-1] 0 = Array4_at field' [1] 0.
Proof.
  destruct (SetRhoOrJfieldFromPEC_fold_then_image
              DIM_1D_Z 0 [1] mirror_about_0 (fun _ _ => (-1)%R) (fun _ => false)
              line_box (line_field IZR) eq_refl eq_refl (line_field_covers IZR)
              only_lo0) as (field' & Hrun & Hcell & _ & _ & Hguard).
  exists field'. split; [exact Hrun|]. split; [exact Hcell|].
  apply (Hguard 0%nat 0%nat); try reflexivity; try (simpl; lia). discriminate.
Defined.

Lemma PEC_missing_mirror_is_skipped_witness :
  (exists field',
      PEC.SetRhoOrJfieldFromPEC DIM_1D_Z 0 [7] (line_field IZR) mirror_about_0
                                (fun _ _ => (-1)%R) only_lo0 (fun _ => false)
                                line_box = Ok field')
  /\ PEC.SetRhoOrJfieldFromPEC DIM_1D_Z 0 [7] (line_field IZR) mirror_about_0
                               (fun _ _ => (-1)%R) only_lo0 (fun _ => false)
                               line_box = Ok (line_field IZR)
  /\ PEC.SetNeumannOnPEC DIM_1D_Z 0 [7] (line_field IZR) mirror_about_0
                         only_lo0 line_box = Ok (line_field IZR).
Proof.
  destruct (PEC_missing_mirror_is_skipped
              DIM_1D_Z 0 [7] mirror_about_0 (fun _ _ => (-1)%R) (fun _ => false)
              line_box (line_field IZR) eq_refl eq_refl (line_field_covers IZR)
              only_lo0 eq_refl) as (Hrun & _ & _ & _ & Hrho & Hneu).
  split; [exact Hrun|]. split; [apply Hrho|apply Hneu];
    intros idim iside Hd Hs Hp; simpl in Hd;
    destruct idim as [|?], iside as [|[|?]]; try lia; try discriminate;
    reflexivity.
Defined.

Lemma SetNeumannOnPEC_mirror_rule_witness :
  PEC.SetNeumannOnPEC DIM_1D_Z 0 [2] (line_field IZR) mirror_about_0 only_lo0
                      line_box
  = Ok (Array4_update (line_field IZR) (-2) 0 0 0 (Array4_at (line_field IZR) [2] 0))
  /\ PEC.SetNeumannOnPEC DIM_1D_Z 0 [0] (line_field IZR) mirror_about_0 only_lo0
                         line_box
     = Ok (Array4_update (line_field IZR) 0 0 0 0 (Array4_at (line_field IZR) [1] 0)).
Proof.
  assert (Hothers : forall idim iside : nat,
             (idim < AMREX_SPACEDIM DIM_1D_Z)%nat -> (iside < 2)%nat ->
             (idim, iside) <> (0%nat, 0%nat) -> only_lo0 idim iside = false).
  { intros idim iside Hd Hs Hne. simpl in Hd.
    destruct idim as [|?], iside as [|[|?]]; try lia; try reflexivity.
    congruence. }
  split.
  - destruct (SetNeumannOnPEC_mirror_rule
                DIM_1D_Z 0 [2] mirror_about_0 line_box (line_field IZR)
                eq_refl eq_refl (line_field_covers IZR) only_lo0)
      as (_ & Hstep & _ & Hone).
    rewrite (Hone 0%nat 0%nat ltac:(simpl; lia) ltac:(lia) Hothers).
    destruct (Hstep 0%nat 0%nat (line_field IZR)
                    (same_extent_refl _) eq_refl) as (_ & _ & Hguard & _).
    apply Hguard; [discriminate|reflexivity].
  - destruct (SetNeumannOnPEC_mirror_rule
                DIM_1D_Z 0 [0] mirror_about_0 line_box (line_field IZR)
                eq_refl eq_refl (line_field_covers IZR) only_lo0)
      as (_ & Hstep & _ & Hone).
    rewrite (Hone 0%nat 0%nat ltac:(simpl; lia) ltac:(lia) Hothers).
    destruct (Hstep 0%nat 0%nat (line_field IZR)
                    (same_extent_refl _) eq_refl) as (Hon & _ & _ & _).
    apply Hon; reflexivity.
Defined.

(* ================================================================== *)
(** * Charge deposition: ChargeDeposition.H *)
(* ================================================================== *)

Local Open Scope R_scope.

(** ** The kernel as a list of atomic additions *)

Lemma for_each_map {X Y St} (f : X -> Y) (body : Y -> St -> Result St) l :
  forall s, for_each (map f l) body s = for_each l (fun x => body (f x)) s.
Proof.
  induction l as [|x l IH]; intros s; simpl; [reflexivity|].
  destruct (body (f x) s); simpl; auto.
Qed.

Lemma for_loop_each {St} (body : nat -> St -> Result St) n s :
  for_loop n body s = for_each (seq 0 n) body s.
Proof. apply for_loop_from_each. Qed.

Lemma scatter_app l1 l2 buf :
  scatter (l1 ++ l2) buf = (b <- scatter l1 buf ;; scatter l2 b).
Proof. apply for_each_app. Qed.

Lemma scatter_cons d l buf :
  scatter (d :: l) buf
  = (b <- AddNoRet buf (dep_i d) (dep_j d) (dep_k d) (dep_n d) (dep_v d) ;;
     scatter l b).
Proof. reflexivity. Qed.

Lemma for_each_scatter {X} (f : X -> list Deposit) l :
  forall buf,
    for_each l (fun x b => scatter (f x) b) buf = scatter (flat_map f l) buf.
Proof.
  induction l as [|x l IH]; intros buf; simpl; [reflexivity|].
  rewrite scatter_app. destruct (scatter (f x) buf); simpl; auto.
Qed.

Lemma for_each_AddNoRet {X} (f : X -> Deposit) l buf :
  for_each l (fun x b => AddNoRet b (dep_i (f x)) (dep_j (f x)) (dep_k (f x))
                                  (dep_n (f x)) (dep_v (f x))) buf
  = scatter (map f l) buf.
Proof. unfold scatter. rewrite for_each_map. reflexivity. Qed.

Lemma Cpow_succ xy0 m : (1 <= m)%nat -> Cpow xy0 (S m) = Cmul (Cpow xy0 m) xy0.
Proof. destruct m; [lia|reflexivity]. Qed.

Lemma mode_loop_scatter (i j : Z) (sx_ix sz_iz wq : R) (xy0 : Complex) cnt :
  forall start buf,
    (1 <= start)%nat ->
    for_loop_from start cnt
      (fun imode (st : Array4 * Complex) =>
         let (b, xy) := st in
         b1 <- AddNoRet b i j 0 (2 * Z.of_nat imode - 1)
                        (2 * sx_ix * sz_iz * wq * fst xy) ;;
         b2 <- AddNoRet b1 i j 0 (2 * Z.of_nat imode)
                        (2 * sx_ix * sz_iz * wq * snd xy) ;;
         Ok (b2, Cmul xy xy0))
      (buf, Cpow xy0 start)
    = (b <- scatter
              (flat_map
                 (fun imode =>
                    [mkDeposit i j 0 (2 * Z.of_nat imode - 1)
                               (2 * sx_ix * sz_iz * wq * fst (Cpow xy0 imode));
                     mkDeposit i j 0 (2 * Z.of_nat imode)
                               (2 * sx_ix * sz_iz * wq * snd (Cpow xy0 imode))])
                 (seq start cnt)) buf ;;
       Ok (b, Cpow xy0 (start + cnt))).
Proof.
  induction cnt as [|cnt IH]; intros start buf Hs.
  - simpl. rewrite Nat.add_0_r. reflexivity.
  - cbn [for_loop_from seq flat_map app]. rewrite scatter_cons.
    cbn [dep_i dep_j dep_k dep_n dep_v].
    destruct (AddNoRet buf i j 0 (2 * Z.of_nat start - 1)
                       (2 * sx_ix * sz_iz * wq * fst (Cpow xy0 start))) as [b1|];
      [|reflexivity].
    cbn [bind]. rewrite scatter_cons. cbn [dep_i dep_j dep_k dep_n dep_v].
    destruct (AddNoRet b1 i j 0 (2 * Z.of_nat start)
                       (2 * sx_ix * sz_iz * wq * snd (Cpow xy0 start))) as [b2|];
      [|reflexivity].
    cbn [bind]. rewrite <- Cpow_succ by exact Hs.
    rewrite IH by lia. replace (S start + cnt)%nat with (start + S cnt)%nat by lia.
    reflexivity.
Qed.

Lemma deposit_modes_scatter n_modes i j sx_ix sz_iz wq xy0 buf :
  deposit_modes n_modes i j sx_ix sz_iz wq xy0 buf
  = scatter (mode_deposits n_modes i j sx_ix sz_iz wq xy0) buf.
Proof.
  unfold deposit_modes, mode_deposits.
  change xy0 with (Cpow xy0 1) at 1.
  rewrite mode_loop_scatter by lia.
  destruct (scatter _ buf); reflexivity.
Qed.

Lemma deposit_particle_scatter g depos_order GetPosition wp ion_lev rho_type
      inv xyzmin lo q n_modes ip buf :
  deposit_particle g depos_order GetPosition wp ion_lev rho_type inv xyzmin lo
                   q n_modes ip buf
  = (l <- particle_deposits g depos_order GetPosition wp ion_lev rho_type inv
                            xyzmin lo q n_modes ip ;;
     scatter l buf).
Proof.
  unfold deposit_particle, particle_deposits.
  destruct (GetPosition ip) as [[xp yp] zp].
  destruct g; cbv zeta.
  - destruct (shape_along depos_order _ _) as [k sz]. cbn [bind].
    rewrite for_loop_each.
    apply (for_each_AddNoRet
             (fun iz => mkDeposit (d3x lo + k + Z.of_nat iz) 0 0 0 _)).
  - destruct (shape_along depos_order (iv_get rho_type 0) _) as [i sx].
    destruct (shape_along depos_order _ _) as [k sz]. cbn [bind].
    rewrite for_loop_each. rewrite <- for_each_scatter.
    apply for_each_ext. intros iz b _. rewrite for_loop_each.
    apply (for_each_AddNoRet
             (fun ix => mkDeposit (d3x lo + i + Z.of_nat ix)
                                  (d3y lo + k + Z.of_nat iz) 0 0 _)).
  - destruct (rz_direction xp yp) as [xy0|]; [|reflexivity]. cbn [bind].
    destruct (shape_along depos_order (iv_get rho_type 0) _) as [i sx].
    destruct (shape_along depos_order _ _) as [k sz]. cbn [bind].
    rewrite for_loop_each. rewrite <- for_each_scatter.
    apply for_each_ext. intros iz b _. rewrite for_loop_each.
    rewrite <- for_each_scatter.
    apply for_each_ext. intros ix b' _. rewrite scatter_cons.
    cbn [dep_i dep_j dep_k dep_n dep_v].
    destruct (AddNoRet b' _ _ 0 0 _); [|reflexivity]. cbn [bind].
    apply deposit_modes_scatter.
  - destruct (shape_along depos_order (iv_get rho_type 0) _) as [i sx].
    destruct (shape_along depos_order (iv_get rho_type 1) _) as [j sy].
    destruct (shape_along depos_order _ _) as [k sz]. cbn [bind].
    rewrite for_loop_each. rewrite <- for_each_scatter.
    apply for_each_ext. intros iz b _. rewrite for_loop_each.
    rewrite <- for_each_scatter.
    apply for_each_ext. intros iy b' _. rewrite for_loop_each.
    apply (for_each_AddNoRet
             (fun ix => mkDeposit (d3x lo + i + Z.of_nat ix)
                                  (d3y lo + j + Z.of_nat iy)
                                  (d3z lo + k + Z.of_nat iz) 0 _)).
Qed.

(** ** What a list of additions does to an array *)

Lemma added_nil i j k n : added [] i j k n = 0.
Proof. reflexivity. Qed.

Lemma added_cons d l i j k n :
  added (d :: l) i j k n
  = (if same_cell (dep_i d) (dep_j d) (dep_k d) (dep_n d) i j k n
     then dep_v d else 0) + added l i j k n.
Proof. reflexivity. Qed.

Lemma added_app l1 l2 i j k n :
  added (l1 ++ l2) i j k n = added l1 i j k n + added l2 i j k n.
Proof.
  induction l1 as [|d l1 IH]; simpl; [lra|].
  unfold added in *. simpl. rewrite IH. lra.
Qed.

Lemma scatter_ok l :
  forall buf,
    forallb (deposit_in buf) l = true ->
    exists buf',
      scatter l buf = Ok buf'
      /\ same_extent buf' buf
      /\ forall i j k n, a_data buf' i j k n = a_data buf i j k n + added l i j k n.
Proof.
  induction l as [|d l IH]; intros buf Hall.
  - exists buf. split; [reflexivity|]. split; [apply same_extent_refl|].
    intros. unfold added. simpl. lra.
  - simpl in Hall. apply andb_true_iff in Hall. destruct Hall as [Hd Hl].
    rewrite scatter_cons. unfold AddNoRet. unfold deposit_in in Hd. rewrite Hd.
    cbn [bind].
    destruct (IH (Array4_update buf (dep_i d) (dep_j d) (dep_k d) (dep_n d)
                                (a_data buf (dep_i d) (dep_j d) (dep_k d) (dep_n d)
                                 + dep_v d)))
      as (buf' & E & Hext & Hdata).
    { exact Hl. }
    exists buf'. split; [exact E|]. split; [exact Hext|].
    intros i j k n. rewrite Hdata, added_cons. simpl.
    destruct (same_cell (dep_i d) (dep_j d) (dep_k d) (dep_n d) i j k n) eqn:Ec.
    + apply same_cell_true in Ec. destruct Ec as (-> & -> & -> & ->). lra.
    + lra.
Qed.

Lemma scatter_inv l :
  forall buf buf', scatter l buf = Ok buf' -> forallb (deposit_in buf) l = true.
Proof.
  induction l as [|d l IH]; intros buf buf' E; [reflexivity|].
  rewrite scatter_cons in E. unfold AddNoRet in E. simpl.
  unfold deposit_in at 1.
  destruct (Array4_contains buf (dep_i d) (dep_j d) (dep_k d) (dep_n d));
    [|discriminate].
  cbn [bind] in E. apply IH in E. simpl. exact E.
Qed.

Lemma scatter_fault l :
  forall buf f, scatter l buf = Err f -> f = OutOfRange.
Proof.
  induction l as [|d l IH]; intros buf f E; [discriminate|].
  rewrite scatter_cons in E. unfold AddNoRet in E.
  destruct (Array4_contains buf (dep_i d) (dep_j d) (dep_k d) (dep_n d)).
  - cbn [bind] in E. eapply IH, E.
  - simpl in E. congruence.
Qed.

(** ** Sums *)

Lemma Rsum_nil : Rsum [] = 0.
Proof. reflexivity. Qed.

Lemma Rsum_cons x l : Rsum (x :: l) = x + Rsum l.
Proof. reflexivity. Qed.

Lemma Rsum_app l1 l2 : Rsum (l1 ++ l2) = Rsum l1 + Rsum l2.
Proof.
  induction l1 as [|x l1 IH]; cbn [app].
  - rewrite Rsum_nil. lra.
  - rewrite !Rsum_cons, IH. lra.
Qed.

Lemma Rsum_map_plus {X} (f h : X -> R) l :
  Rsum (map (fun x => f x + h x) l) = Rsum (map f l) + Rsum (map h l).
Proof.
  induction l as [|x l IH]; cbn [map].
  - rewrite Rsum_nil. lra.
  - rewrite !Rsum_cons, IH. lra.
Qed.

Lemma Rsum_map_ext {X} (f h : X -> R) l :
  (forall x, In x l -> f x = h x) -> Rsum (map f l) = Rsum (map h l).
Proof.
  induction l as [|x l IH]; intros H; cbn [map]; [reflexivity|].
  rewrite !Rsum_cons, H by (simpl; auto).
  rewrite IH; [reflexivity|]. intros; apply H; simpl; auto.
Qed.

Lemma Rsum_map_zero {X} (l : list X) : Rsum (map (fun _ => 0) l) = 0.
Proof.
  induction l as [|x l IH]; cbn [map]; [reflexivity|].
  rewrite Rsum_cons, IH. lra.
Qed.

Lemma Rsum_map_scale {X} (f : X -> R) c l :
  Rsum (map (fun x => f x * c) l) = Rsum (map f l) * c.
Proof.
  induction l as [|x l IH]; cbn [map].
  - rewrite Rsum_nil. lra.
  - rewrite !Rsum_cons, IH. lra.
Qed.

Lemma Rsum_flat_map {X} (f : X -> list R) l :
  Rsum (flat_map f l) = Rsum (map (fun x => Rsum (f x)) l).
Proof.
  induction l as [|x l IH]; cbn [flat_map map]; [reflexivity|].
  rewrite Rsum_app, Rsum_cons, IH. reflexivity.
Qed.

Lemma Rsum_nth_from (l : list R) :
  forall start pre,
    length pre = start ->
    Rsum (map (fun i => nth i (pre ++ l) 0) (seq start (length l))) = Rsum l.
Proof.
  induction l as [|x l IH]; intros start pre Hp; cbn [length seq map];
    [reflexivity|].
  rewrite !Rsum_cons. rewrite app_nth2 by lia.
  replace (start - length pre)%nat with 0%nat by lia. cbn [nth].
  f_equal. specialize (IH (S start) (pre ++ [x])).
  rewrite <- app_assoc in IH. simpl in IH. apply IH.
  rewrite length_app. simpl. lia.
Qed.

Lemma Rsum_nth (l : list R) :
  Rsum (map (fun i => nth i l 0) (seq 0 (length l))) = Rsum l.
Proof. apply (Rsum_nth_from l 0%nat []). reflexivity. Qed.

(** The sum of an indicator over a duplicate-free list. *)
Lemma Rsum_indicator {X} (eqb : X -> X -> bool) (x0 : X) (v : R) l :
  (forall x, eqb x x0 = true <-> x = x0) ->
  NoDup l ->
  Rsum (map (fun x => if eqb x x0 then v else 0) l)
  = if existsb (fun x => eqb x x0) l then v else 0.
Proof.
  intros Heq. induction l as [|x l IH]; intros Hnd; cbn [map existsb];
    [reflexivity|].
  inversion Hnd as [|? ? Hx Hnd']; subst. rewrite Rsum_cons, IH by assumption.
  destruct (eqb x x0) eqn:E; cbn [orb]; [|lra].
  apply Heq in E. subst x.
  destruct (existsb (fun x => eqb x x0) l) eqn:Ex; [|lra].
  apply existsb_exists in Ex. destruct Ex as (y & Hy & Ey).
  apply Heq in Ey. subst y. contradiction.
Qed.

Lemma In_Zrange lo hi x : In x (Zrange lo hi) <-> (lo <= x < hi)%Z.
Proof.
  unfold Zrange. rewrite in_map_iff. split.
  - intros (t & <- & Ht). apply in_seq in Ht. lia.
  - intros H. exists (Z.to_nat (x - lo)). split; [lia|].
    apply in_seq. lia.
Qed.

Lemma NoDup_Zrange lo hi : NoDup (Zrange lo hi).
Proof.
  unfold Zrange. apply Finite.Injective_map_NoDup; [|apply seq_NoDup].
  intros a b H. lia.
Qed.

Lemma Rsum_Zrange_indicator lo hi x0 v :
  Rsum (map (fun x => if (x =? x0)%Z then v else 0) (Zrange lo hi))
  = if ((lo <=? x0) && (x0 <? hi))%Z then v else 0.
Proof.
  rewrite (Rsum_indicator Z.eqb x0 v);
    [|intros x; apply Z.eqb_eq|apply NoDup_Zrange].
  destruct (existsb (fun x => (x =? x0)%Z) (Zrange lo hi)) eqn:Ex.
  - apply existsb_exists in Ex. destruct Ex as (y & Hy & Ey).
    apply Z.eqb_eq in Ey. subst y. apply In_Zrange in Hy.
    replace ((lo <=? x0) && (x0 <? hi))%Z with true; [reflexivity|].
    symmetry. apply andb_true_iff. split; [apply Z.leb_le|apply Z.ltb_lt]; lia.
  - destruct ((lo <=? x0) && (x0 <? hi))%Z eqn:Eb; [|reflexivity].
    apply andb_true_iff in Eb. destruct Eb as [H1 H2].
    apply Z.leb_le in H1. apply Z.ltb_lt in H2.
    assert (Hin : In x0 (Zrange lo hi)) by (apply In_Zrange; lia).
    assert (Ht : existsb (fun x => (x =? x0)%Z) (Zrange lo hi) = true).
    { apply existsb_exists. exists x0. split; [exact Hin|apply Z.eqb_refl]. }
    congruence.
Qed.

Lemma total_of_plus b e f h :
  total_of b e (fun i j k => f i j k + h i j k) = total_of b e f + total_of b e h.
Proof.
  unfold total_of. rewrite <- Rsum_map_plus. apply Rsum_map_ext. intros k _.
  rewrite <- Rsum_map_plus. apply Rsum_map_ext. intros j _.
  apply Rsum_map_plus.
Qed.

Lemma total_of_ext b e f h :
  (forall i j k, f i j k = h i j k) -> total_of b e f = total_of b e h.
Proof.
  intros H. unfold total_of. apply Rsum_map_ext. intros k _.
  apply Rsum_map_ext. intros j _. apply Rsum_map_ext. intros i _. apply H.
Qed.

Lemma total_of_zero b e : total_of b e (fun _ _ _ => 0) = 0.
Proof.
  unfold total_of.
  rewrite (Rsum_map_ext _ (fun _ => 0)); [apply Rsum_map_zero|].
  intros k _. rewrite (Rsum_map_ext _ (fun _ => 0)); [apply Rsum_map_zero|].
  intros j _. apply Rsum_map_zero.
Qed.

Lemma total_of_indicator b e i0 j0 k0 v :
  ((d3x b <=? i0) && (i0 <? d3x e) && (d3y b <=? j0) && (j0 <? d3y e)
   && (d3z b <=? k0) && (k0 <? d3z e))%Z = true ->
  total_of b e (fun i j k => if ((i0 =? i) && (j0 =? j) && (k0 =? k))%Z then v else 0)
  = v.
Proof.
  intros H. rewrite !andb_true_iff in H.
  destruct H as [[[[[Hx1 Hx2] Hy1] Hy2] Hz1] Hz2].
  unfold total_of.
  rewrite (Rsum_map_ext _ (fun k => if (k =? k0)%Z then v else 0)).
  { rewrite Rsum_Zrange_indicator, Hz1, Hz2. reflexivity. }
  intros k _.
  rewrite (Rsum_map_ext _ (fun j => if (j =? j0)%Z
                                    then (if (k =? k0)%Z then v else 0) else 0)).
  { rewrite Rsum_Zrange_indicator, Hy1, Hy2. reflexivity. }
  intros j _.
  rewrite (Rsum_map_ext _ (fun i => if (i =? i0)%Z
                                    then (if (j =? j0)%Z
                                          then (if (k =? k0)%Z then v else 0)
                                          else 0) else 0)).
  { rewrite Rsum_Zrange_indicator, Hx1, Hx2. reflexivity. }
  intros i _. rewrite (Z.eqb_sym i0 i), (Z.eqb_sym j0 j), (Z.eqb_sym k0 k).
  destruct (i =? i0)%Z, (j =? j0)%Z, (k =? k0)%Z; reflexivity.
Qed.

(** The sum, over the cells of the array, of what in-range additions add
    to component [n]: the sum of the values added to that component. *)
Lemma total_added a n l :
  forallb (deposit_in a) l = true ->
  total_of (a_begin a) (a_end a) (fun i j k => added l i j k n)
  = Rsum (map (to_component n) l).
Proof.
  induction l as [|d l IH]; intros Hall.
  - cbn [map]. rewrite Rsum_nil. apply total_of_zero.
  - simpl in Hall. apply andb_true_iff in Hall. destruct Hall as [Hd Hl].
    cbn [map]. rewrite Rsum_cons, <- IH by exact Hl.
    rewrite (total_of_ext _ _ _
               (fun i j k =>
                  (if ((dep_i d =? i) && (dep_j d =? j) && (dep_k d =? k))%Z
                   then (if (dep_n d =? n)%Z then dep_v d else 0) else 0)
                  + added l i j k n)).
    2:{ intros i j k. rewrite added_cons. unfold same_cell.
        destruct ((dep_i d =? i) && (dep_j d =? j) && (dep_k d =? k))%Z,
                 (dep_n d =? n)%Z; reflexivity. }
    rewrite total_of_plus. f_equal.
    apply total_of_indicator.
    unfold deposit_in, Array4_contains in Hd.
    rewrite !andb_true_iff in Hd. rewrite !andb_true_iff. tauto.
Qed.

Lemma Array4_total_of a n :
  Array4_total a n = total_of (a_begin a) (a_end a) (fun i j k => a_data a i j k n).
Proof. reflexivity. Qed.

Lemma scatter_total l buf buf' n :
  scatter l buf = Ok buf' ->
  Array4_total buf' n
  = Array4_total buf n
    + Rsum (map (to_component n) l).
Proof.
  intros E. pose proof (scatter_inv _ _ _ E) as Hall.
  destruct (scatter_ok l buf Hall) as (b & E' & (Hb & He & _) & Hdata).
  rewrite E in E'. injection E' as <-.
  rewrite !Array4_total_of, Hb, He.
  rewrite (total_of_ext _ _ _ _ (fun i j k => Hdata i j k n)).
  rewrite total_of_plus. f_equal. apply (total_added buf n l Hall).
Qed.

(** ** The shape factors: partition of unity *)

Lemma Compute_shape_factor_unity depos_order xmid :
  (depos_order <= 3)%nat ->
  length (snd (Compute_shape_factor depos_order xmid)) = S depos_order
  /\ Rsum (snd (Compute_shape_factor depos_order xmid)) = 1.
Proof.
  intros H. destruct depos_order as [|[|[|[|?]]]]; try lia;
    unfold Compute_shape_factor; cbv zeta; cbn [snd length]; (split; [reflexivity|]);
    rewrite ?Rsum_cons, Rsum_nil.
  - lra.
  - lra.
  - generalize (xmid - IZR (floor (xmid + 0.5))). intros x. nra.
  - generalize (xmid - IZR (floor xmid)). intros x. nra.
Qed.

Lemma shape_along_unity depos_order staggering x :
  (depos_order <= 3)%nat ->
  staggering = NODE \/ staggering = CELL ->
  length (snd (shape_along depos_order staggering x)) = S depos_order
  /\ Rsum (snd (shape_along depos_order staggering x)) = 1.
Proof.
  intros H [-> | ->]; unfold shape_along; simpl;
    apply Compute_shape_factor_unity, H.
Qed.

Lemma stencil_sum (s : list R) depos_order :
  length s = S depos_order ->
  Rsum (map (fun i => nth i s 0) (seq 0 (S depos_order))) = Rsum s.
Proof. intros <-. apply Rsum_nth. Qed.

(** ** The direction of the particle in the (x, y) plane *)

Lemma rz_direction_total xp yp :
  exists costheta sintheta,
    rz_direction xp yp = Ok (costheta, sintheta)
    /\ costheta * costheta + sintheta * sintheta = 1
    /\ (sqrt (xp * xp + yp * yp) = 0 -> costheta = 1 /\ sintheta = 0)
    /\ (sqrt (xp * xp + yp * yp) <> 0 ->
        costheta * sqrt (xp * xp + yp * yp) = xp
        /\ sintheta * sqrt (xp * xp + yp * yp) = yp).
Proof.
  unfold rz_direction. cbv zeta.
  assert (Hnn : 0 <= xp * xp + yp * yp) by nra.
  pose proof (sqrt_sqrt _ Hnn) as Hsq.
  set (rp := sqrt (xp * xp + yp * yp)) in *.
  destruct (Rlt_dec 0 rp) as [Hpos|Hnpos].
  - unfold checked_div. destruct (Req_dec_T rp 0) as [E|Hne]; [lra|].
    cbn [bind]. exists (xp / rp), (yp / rp). split; [reflexivity|].
    split; [|split].
    + replace (xp / rp * (xp / rp) + yp / rp * (yp / rp))
        with ((xp * xp + yp * yp) / (rp * rp)) by (field; exact Hne).
      rewrite Hsq. field. nra.
    + intros E. lra.
    + intros _. split; field; exact Hne.
  - exists 1, 0. split; [reflexivity|]. split; [lra|]. split; [auto|].
    intros Hne. exfalso. pose proof (sqrt_pos (xp * xp + yp * yp)). 
    fold rp in H. lra.
Qed.

(** ** Conservation of the deposited charge *)

Lemma Rsum_map_flat_map {X} (f : Deposit -> R) (h : X -> list Deposit) l :
  Rsum (map f (flat_map h l)) = Rsum (map (fun x => Rsum (map f (h x))) l).
Proof.
  induction l as [|x l IH]; cbn [flat_map map]; [reflexivity|].
  rewrite map_app, Rsum_app, Rsum_cons, IH. reflexivity.
Qed.

Lemma mode_deposits_no_monopole n_modes i j sx_ix sz_iz wq xy0 :
  Rsum (map (to_component 0) (mode_deposits n_modes i j sx_ix sz_iz wq xy0)) = 0.
Proof.
  unfold mode_deposits. rewrite Rsum_map_flat_map.
  rewrite (Rsum_map_ext _ (fun _ => 0)); [apply Rsum_map_zero|].
  intros imode Hin. apply in_seq in Hin. cbn [map].
  rewrite !Rsum_cons, Rsum_nil. unfold to_component. cbn [dep_n dep_v].
  replace (2 * Z.of_nat imode - 1 =? 0)%Z with false by (symmetry; apply Z.eqb_neq; lia).
  replace (2 * Z.of_nat imode =? 0)%Z with false by (symmetry; apply Z.eqb_neq; lia).
  lra.
Qed.

Lemma Ok_inj {A} (a b : A) : Ok a = Ok b -> a = b.
Proof. congruence. Qed.

Lemma well_staggered_at g rho_type d :
  (forall d, (d < AMREX_SPACEDIM g)%nat ->
             iv_get rho_type d = NODE \/ iv_get rho_type d = CELL) ->
  (d < AMREX_SPACEDIM g)%nat ->
  iv_get rho_type d = NODE \/ iv_get rho_type d = CELL.
Proof. auto. Qed.

(** The additions of one particle to component 0 sum to its weight [wq]:
    the weights of every axis sum to 1. *)
Lemma particle_deposits_monopole g depos_order GetPosition wp ion_lev rho_type
      inv xyzmin lo q n_modes ip l :
  (depos_order <= 3)%nat ->
  (forall d, (d < AMREX_SPACEDIM g)%nat ->
             iv_get rho_type d = NODE \/ iv_get rho_type d = CELL) ->
  particle_deposits g depos_order GetPosition wp ion_lev rho_type inv xyzmin lo
                    q n_modes ip = Ok l ->
  Rsum (map (to_component 0) l) = deposited_weight wp ion_lev inv q ip.
Proof.
  intros Hord Hstag. unfold particle_deposits, deposited_weight.
  destruct (GetPosition ip) as [[xp yp] zp]. cbv zeta.
  set (wq := match ion_lev with
             | Some lev => q * wp ip * invvol inv * IZR (lev ip)
             | None => q * wp ip * invvol inv
             end).
  destruct g.
  - pose proof (shape_along_unity depos_order _ ((zp - xyzmin 2%nat) * dzi inv) Hord
                  (Hstag (WARPX_ZINDEX DIM_1D_Z) ltac:(unfold WARPX_ZINDEX; simpl; lia))) as [Hlz Hsz].
    destruct (shape_along depos_order _ _) as [k sz]. cbn [snd] in *.
    intros E. apply Ok_inj in E. subst l. rewrite map_map.
    unfold to_component. cbn [dep_n dep_v]. cbn [Z.eqb].
    rewrite Rsum_map_scale, stencil_sum, Hsz by exact Hlz. lra.
  - pose proof (shape_along_unity depos_order _ ((xp - xyzmin 0%nat) * dxi inv) Hord
                  (Hstag 0%nat ltac:(simpl; lia))) as [Hlx Hsx].
    pose proof (shape_along_unity depos_order _ ((zp - xyzmin 2%nat) * dzi inv) Hord
                  (Hstag (WARPX_ZINDEX DIM_XZ) ltac:(unfold WARPX_ZINDEX; simpl; lia))) as [Hlz Hsz].
    destruct (shape_along depos_order (iv_get rho_type 0) _) as [i sx].
    destruct (shape_along depos_order _ _) as [k sz]. cbn [snd] in *.
    intros E. apply Ok_inj in E. subst l. rewrite Rsum_map_flat_map.
    rewrite (Rsum_map_ext _ (fun iz => nth iz sz 0 * wq)).
    { rewrite Rsum_map_scale, stencil_sum, Hsz by exact Hlz. lra. }
    intros iz _. rewrite map_map. unfold to_component. cbn [dep_n dep_v Z.eqb].
    rewrite (Rsum_map_ext _ (fun ix => nth ix sx 0 * (nth iz sz 0 * wq)))
      by (intros; lra).
    rewrite Rsum_map_scale, stencil_sum, Hsx by exact Hlx. lra.
  - destruct (rz_direction xp yp) as [xy0|]; [|discriminate]. cbn [bind].
    pose proof (shape_along_unity depos_order _
                  ((sqrt (xp * xp + yp * yp) - xyzmin 0%nat) * dxi inv) Hord
                  (Hstag 0%nat ltac:(simpl; lia))) as [Hlx Hsx].
    pose proof (shape_along_unity depos_order _ ((zp - xyzmin 2%nat) * dzi inv) Hord
                  (Hstag (WARPX_ZINDEX DIM_RZ) ltac:(unfold WARPX_ZINDEX; simpl; lia))) as [Hlz Hsz].
    destruct (shape_along depos_order (iv_get rho_type 0) _) as [i sx].
    destruct (shape_along depos_order _ _) as [k sz]. cbn [snd] in *.
    intros E. apply Ok_inj in E. subst l. rewrite Rsum_map_flat_map.
    rewrite (Rsum_map_ext _ (fun iz => nth iz sz 0 * wq)).
    { rewrite Rsum_map_scale, stencil_sum, Hsz by exact Hlz. lra. }
    intros iz _. rewrite Rsum_map_flat_map.
    rewrite (Rsum_map_ext _ (fun ix => nth ix sx 0 * (nth iz sz 0 * wq))).
    { rewrite Rsum_map_scale, stencil_sum, Hsx by exact Hlx. lra. }
    intros ix _. cbn [map]. rewrite Rsum_cons, mode_deposits_no_monopole.
    unfold to_component. cbn [dep_n dep_v Z.eqb]. lra.
  - pose proof (shape_along_unity depos_order _ ((xp - xyzmin 0%nat) * dxi inv) Hord
                  (Hstag 0%nat ltac:(simpl; lia))) as [Hlx Hsx].
    pose proof (shape_along_unity depos_order _ ((yp - xyzmin 1%nat) * dyi inv) Hord
                  (Hstag 1%nat ltac:(simpl; lia))) as [Hly Hsy].
    pose proof (shape_along_unity depos_order _ ((zp - xyzmin 2%nat) * dzi inv) Hord
                  (Hstag (WARPX_ZINDEX DIM_3D) ltac:(unfold WARPX_ZINDEX; simpl; lia))) as [Hlz Hsz].
    destruct (shape_along depos_order (iv_get rho_type 0) _) as [i sx].
    destruct (shape_along depos_order (iv_get rho_type 1) _) as [j sy].
    destruct (shape_along depos_order _ _) as [k sz]. cbn [snd] in *.
    intros E. apply Ok_inj in E. subst l. rewrite Rsum_map_flat_map.
    rewrite (Rsum_map_ext _ (fun iz => nth iz sz 0 * wq)).
    { rewrite Rsum_map_scale, stencil_sum, Hsz by exact Hlz. lra. }
    intros iz _. rewrite Rsum_map_flat_map.
    rewrite (Rsum_map_ext _ (fun iy => nth iy sy 0 * (nth iz sz 0 * wq))).
    { rewrite Rsum_map_scale, stencil_sum, Hsy by exact Hly. lra. }
    intros iy _. rewrite map_map. unfold to_component. cbn [dep_n dep_v Z.eqb].
    rewrite (Rsum_map_ext _ (fun ix => nth ix sx 0
                                       * (nth iy sy 0 * (nth iz sz 0 * wq))))
      by (intros; lra).
    rewrite Rsum_map_scale, stencil_sum, Hsx by exact Hlx. lra.
Qed.

Lemma inverse_cell_size_ok g dx :
  cell_volume g dx <> 0 ->
  exists inv, inverse_cell_size g dx = Ok inv
              /\ invvol inv * cell_volume g dx = 1.
Proof.
  intros Hvol. unfold inverse_cell_size, checked_div, cell_volume in *.
  destruct g;
    repeat match goal with
           | |- context [Req_dec_T ?x 0] =>
             destruct (Req_dec_T x 0) as [E|?];
               [exfalso; apply Hvol; rewrite E; ring|]
           end;
    cbn [bind]; eexists; (split; [reflexivity|]); cbn [invvol]; field; auto.
Qed.

Lemma inverse_cell_size_fault g dx f :
  inverse_cell_size g dx = Err f -> cell_volume g dx = 0.
Proof.
  unfold inverse_cell_size, checked_div, cell_volume.
  destruct g;
    repeat match goal with
           | |- context [Req_dec_T ?x 0] =>
             destruct (Req_dec_T x 0) as [E|?]; [intros _; rewrite E; ring|]
           end;
    cbn [bind]; discriminate.
Qed.

Lemma Array4_total_zero a n :
  (forall i j k m, a_data a i j k m = 0) -> Array4_total a n = 0.
Proof.
  intros H. rewrite Array4_total_of.
  rewrite (total_of_ext _ _ _ (fun _ _ _ => 0)); [apply total_of_zero|].
  intros. apply H.
Qed.

(** One particle, deposited by [deposit_particle] into any array it is in
    range of. *)
Lemma deposit_particle_ok g depos_order GetPosition wp ion_lev rho_type inv
      xyzmin lo q n_modes ip buf l :
  particle_deposits g depos_order GetPosition wp ion_lev rho_type inv xyzmin lo
                    q n_modes ip = Ok l ->
  forallb (deposit_in buf) l = true ->
  exists buf',
    deposit_particle g depos_order GetPosition wp ion_lev rho_type inv xyzmin lo
                     q n_modes ip buf = Ok buf'
    /\ same_extent buf' buf
    /\ forall i j k n, a_data buf' i j k n = a_data buf i j k n + added l i j k n.
Proof.
  intros El Hall. rewrite deposit_particle_scatter, El. cbn [bind].
  apply scatter_ok, Hall.
Qed.

Lemma particle_deposits_total g depos_order GetPosition wp ion_lev rho_type inv
      xyzmin lo q n_modes ip :
  g <> DIM_RZ ->
  exists l, particle_deposits g depos_order GetPosition wp ion_lev rho_type inv
                              xyzmin lo q n_modes ip = Ok l.
Proof.
  intros Hg. unfold particle_deposits.
  destruct (GetPosition ip) as [[xp yp] zp]. cbv zeta.
  destruct g; try congruence;
    repeat match goal with
           | |- context [shape_along ?o ?s ?x] => destruct (shape_along o s x)
           end; eexists; reflexivity.
Qed.

Lemma particle_deposits_runs g depos_order GetPosition wp ion_lev rho_type inv
      xyzmin lo q n_modes ip :
  exists l, particle_deposits g depos_order GetPosition wp ion_lev rho_type inv
                              xyzmin lo q n_modes ip = Ok l.
Proof.
  destruct g; try (apply particle_deposits_total; discriminate).
  unfold particle_deposits.
  destruct (GetPosition ip) as [[xp yp] zp]. cbv zeta.
  destruct (rz_direction_total xp yp) as (c & s & E & _). rewrite E. cbn [bind].
  repeat match goal with
         | |- context [shape_along ?o ?s ?x] => destruct (shape_along o s x)
         end; eexists; reflexivity.
Qed.

(** C1. Charge conservation of the direct kernel.  For every
    dimensionality, every order 0..3 and every node- or cell-centred
    staggering, one particle of weight [wp 0] and charge [q], without
    ionization levels, deposited alone on an all-zero grid it is in range
    of: the kernel returns, and the sum of the charge density (component
    0, in the RZ build the monopole) over all cells is
    wq = q * w / cell_volume, so that the sum times the cell volume is
    q * w, wherever the particle sits. *)
Theorem doChargeDepositionShapeN_conserves_charge
        (g : Geometry) (depos_order : nat)
        (GetPosition : nat -> R * R * R) (wp : nat -> R)
        (rho_arr : Array4) (rho_type : IntVect)
        (dx xyzmin : Real3) (lo : Dim3) (q : R) (n_rz_azimuthal_modes : Z) :
  (depos_order <= 3)%nat ->
  (forall d, (d < AMREX_SPACEDIM g)%nat ->
             iv_get rho_type d = NODE \/ iv_get rho_type d = CELL) ->
  cell_volume g dx <> 0 ->
  (forall i j k n, a_data rho_arr i j k n = 0) ->
  stencil_in_range g depos_order GetPosition wp None rho_arr rho_type dx xyzmin
                   lo q n_rz_azimuthal_modes 0 ->
  exists rho',
    doChargeDepositionShapeN g depos_order GetPosition wp None rho_arr rho_type
                             1 dx xyzmin lo q n_rz_azimuthal_modes = Ok rho'
    /\ Array4_total rho' 0 = q * wp 0%nat / cell_volume g dx
    /\ Array4_total rho' 0 * cell_volume g dx = q * wp 0%nat.
Proof.
  intros Hord Hstag Hvol Hzero Hrange.
  destruct (inverse_cell_size_ok g dx Hvol) as (inv & Einv & Hinv).
  destruct (particle_deposits_runs g depos_order GetPosition wp None rho_type inv
                                   xyzmin lo q n_rz_azimuthal_modes 0)
    as (l & El).
  pose proof (Hrange inv l Einv El) as Hall.
  destruct (deposit_particle_ok _ _ _ _ _ _ _ _ _ _ _ _ rho_arr l El Hall)
    as (rho' & Erun & _ & _).
  assert (Etot : Array4_total rho' 0 = q * wp 0%nat * invvol inv).
  { rewrite deposit_particle_scatter, El in Erun. cbn [bind] in Erun.
    rewrite (scatter_total _ _ _ 0%Z Erun).
    rewrite (Array4_total_zero rho_arr 0%Z Hzero).
    rewrite (particle_deposits_monopole _ _ _ _ _ _ _ _ _ _ _ _ _ Hord Hstag El).
    unfold deposited_weight. lra. }
  exists rho'. split; [|split].
  - unfold doChargeDepositionShapeN. rewrite Einv. cbn [bind].
    change (Z.to_nat 1) with 1%nat. unfold for_loop. cbn [for_loop_from].
    rewrite Erun. reflexivity.
  - rewrite Etot. apply Rmult_eq_reg_r with (cell_volume g dx); [|exact Hvol].
    unfold Rdiv. rewrite !Rmult_assoc, Hinv, Rinv_l by exact Hvol. reflexivity.
  - rewrite Etot, Rmult_assoc, Hinv. lra.
Qed.

(** ** The spec's example: ten node-centred cells, one particle at 3.25 *)

Lemma floor_unique (z : Z) (x : R) : IZR z <= x < IZR z + 1 -> floor x = z.
Proof.
  intros [H1 H2]. unfold floor. symmetry. apply Int_part_spec. lra.
Qed.

Lemma example_inverse_cell inv :
  inverse_cell_size DIM_1D_Z unit_cells = Ok inv ->
  inv = mkInverseCell 0 0 (1 / 1) (1 / 1).
Proof.
  unfold inverse_cell_size, checked_div, unit_cells.
  destruct (Req_dec_T 1 0) as [E|_]; [lra|]. cbn [bind]. congruence.
Qed.

Lemma example_deposits inv l :
  inverse_cell_size DIM_1D_Z unit_cells = Ok inv ->
  particle_deposits DIM_1D_Z 1 example_position unit_weight None [NODE] inv
                    origin (mkDim3 0 0 0) 1 0 0 = Ok l ->
  l = [mkDeposit 3 0 0 0 ((1 - (3.25 - 3)) * (1 * 1 * (1 / 1)));
       mkDeposit 4 0 0 0 ((3.25 - 3) * (1 * 1 * (1 / 1)))].
Proof.
  intros Einv El. apply example_inverse_cell in Einv. subst inv.
  unfold particle_deposits, example_position, unit_weight, origin in El.
  cbn [invvol dzi dxi dyi WARPX_ZINDEX AMREX_SPACEDIM Nat.sub iv_get nth] in El.
  unfold shape_along, Compute_shape_factor in El.
  cbn [Z.eqb NODE Pos.eqb] in El.
  rewrite (floor_unique 3) in El by lra.
  apply Ok_inj in El. subst l. cbn [seq map d3x]. cbn [Z.of_nat Pos.of_succ_nat Z.add Pos.add Pos.succ nth].
  repeat f_equal; lra.
Qed.

Lemma doChargeDepositionShapeN_conserves_charge_witness :
  exists rho',
    doChargeDepositionShapeN DIM_1D_Z 1 example_position unit_weight None
                             zero_line [NODE] 1 unit_cells origin
                             (mkDim3 0 0 0) 1 0 = Ok rho'
    /\ Array4_total rho' 0 = 1 * unit_weight 0%nat / cell_volume DIM_1D_Z unit_cells
    /\ Array4_total rho' 0 * cell_volume DIM_1D_Z unit_cells = 1 * unit_weight 0%nat.
Proof.
  apply (doChargeDepositionShapeN_conserves_charge
           DIM_1D_Z 1 example_position unit_weight zero_line [NODE] unit_cells
           origin (mkDim3 0 0 0) 1 0).
  - lia.
  - intros d Hd. simpl in Hd. destruct d; [left; reflexivity|lia].
  - unfold cell_volume, unit_cells. lra.
  - reflexivity.
  - intros inv l Einv El. rewrite (example_deposits inv l Einv El). reflexivity.
Defined.

(** X5. The example of a one-dimensional domain of node-centred cells:
    one particle at 3.25 cells, weight 1, charge 1, order 1.  The direct
    kernel deposits 0.75 at cell 3 and 0.25 at cell 4 and nothing
    elsewhere. *)
Theorem doChargeDepositionShapeN_example_order_1 :
  exists rho',
    doChargeDepositionShapeN DIM_1D_Z 1 example_position unit_weight None
                             zero_line [NODE] 1 unit_cells origin
                             (mkDim3 0 0 0) 1 0 = Ok rho'
    /\ a_data rho' 3 0 0 0 = 0.75
    /\ a_data rho' 4 0 0 0 = 0.25
    /\ forall i j k n, (i, j, k, n) <> (3, 0, 0, 0)%Z ->
                       (i, j, k, n) <> (4, 0, 0, 0)%Z ->
                       a_data rho' i j k n = 0.
Proof.
  destruct (inverse_cell_size_ok DIM_1D_Z unit_cells) as (inv & Einv & _).
  { unfold cell_volume, unit_cells. lra. }
  destruct (particle_deposits_runs DIM_1D_Z 1 example_position unit_weight None
                                   [NODE] inv origin (mkDim3 0 0 0) 1 0 0)
    as (l & El).
  pose proof (example_deposits inv l Einv El) as Hl.
  destruct (scatter_ok l zero_line) as (rho' & Erun & _ & Hdata).
  { rewrite Hl. reflexivity. }
  exists rho'. split.
  - unfold doChargeDepositionShapeN. rewrite Einv. cbn [bind].
    change (Z.to_nat 1) with 1%nat. rewrite for_loop_each.
    cbn [seq for_each]. rewrite deposit_particle_scatter, El. cbn [bind].
    rewrite Erun. reflexivity.
  - rewrite Hl in Hdata.
    split; [|split].
    + rewrite Hdata. unfold added, zero_line, line_field. simpl. lra.
    + rewrite Hdata. unfold added, zero_line, line_field. simpl. lra.
    + intros i j k n H3 H4. rewrite Hdata, !added_cons, added_nil.
      cbn [dep_i dep_j dep_k dep_n dep_v].
      assert (E3 : same_cell 3 0 0 0 i j k n = false).
      { apply same_cell_false. intros (<- & <- & <- & <-). apply H3. reflexivity. }
      assert (E4 : same_cell 4 0 0 0 i j k n = false).
      { apply same_cell_false. intros (<- & <- & <- & <-). apply H4. reflexivity. }
      rewrite E3, E4. unfold zero_line, line_field. simpl. lra.
Qed.

(** ** The azimuthal modes of the RZ build *)

Lemma added_flat_map {X} (h : X -> list Deposit) l i j k n :
  added (flat_map h l) i j k n = Rsum (map (fun x => added (h x) i j k n) l).
Proof.
  induction l as [|x l IH]; cbn [flat_map map]; [reflexivity|].
  rewrite added_app, Rsum_cons, IH. reflexivity.
Qed.

Lemma Rsum_seq_single (f : nat -> R) start len x0 :
  (start <= x0 < start + len)%nat ->
  (forall x, (start <= x < start + len)%nat -> x <> x0 -> f x = 0) ->
  Rsum (map f (seq start len)) = f x0.
Proof.
  intros Hx0 Hz.
  rewrite (Rsum_map_ext _ (fun x => if Nat.eqb x x0 then f x0 else 0)).
  - rewrite (Rsum_indicator Nat.eqb x0 (f x0));
      [|intros x; apply Nat.eqb_eq|apply seq_NoDup].
    replace (existsb (fun x => Nat.eqb x x0) (seq start len)) with true;
      [reflexivity|].
    symmetry. apply existsb_exists. exists x0. split; [apply in_seq; lia|].
    apply Nat.eqb_refl.
  - intros x Hin. apply in_seq in Hin.
    destruct (Nat.eqb x x0) eqn:E.
    + apply Nat.eqb_eq in E. subst. reflexivity.
    + apply Nat.eqb_neq in E. apply Hz; auto.
Qed.

Lemma added_mode_deposits_elsewhere n_modes i j sx_ix sz_iz wq xy0 i' j' k' n' :
  (i, j) <> (i', j') ->
  added (mode_deposits n_modes i j sx_ix sz_iz wq xy0) i' j' k' n' = 0.
Proof.
  intros Hne. unfold mode_deposits. rewrite added_flat_map.
  rewrite (Rsum_map_ext _ (fun _ => 0)); [apply Rsum_map_zero|].
  intros imode _. rewrite !added_cons, added_nil. cbn [dep_i dep_j dep_k dep_n dep_v].
  assert (Hc : forall n0, same_cell i j 0 n0 i' j' k' n' = false).
  { intros n0. apply same_cell_false. intros (-> & -> & _). congruence. }
  rewrite !Hc. lra.
Qed.

Lemma added_mode_deposits n_modes i j sx_ix sz_iz wq xy0 (m : nat) :
  (1 <= m)%nat -> (Z.of_nat m < n_modes)%Z ->
  added (mode_deposits n_modes i j sx_ix sz_iz wq xy0) i j 0 (2 * Z.of_nat m - 1)
  = 2 * sx_ix * sz_iz * wq * fst (Cpow xy0 m)
  /\ added (mode_deposits n_modes i j sx_ix sz_iz wq xy0) i j 0 (2 * Z.of_nat m)
     = 2 * sx_ix * sz_iz * wq * snd (Cpow xy0 m).
Proof.
  intros Hm Hn. unfold mode_deposits. rewrite !added_flat_map.
  assert (Hdiff : forall a b : Z, a <> b -> same_cell i j 0 a i j 0 b = false).
  { intros a b Hab. apply same_cell_false. intros (_ & _ & _ & E). congruence. }
  split.
  - rewrite (Rsum_seq_single _ 1 _ m); [|lia|].
    + rewrite !added_cons, added_nil. cbn [dep_i dep_j dep_k dep_n dep_v].
      rewrite same_cell_refl, Hdiff by lia. lra.
    + intros x Hx Hne. rewrite !added_cons, added_nil.
      cbn [dep_i dep_j dep_k dep_n dep_v].
      rewrite !Hdiff by lia. lra.
  - rewrite (Rsum_seq_single _ 1 _ m); [|lia|].
    + rewrite !added_cons, added_nil. cbn [dep_i dep_j dep_k dep_n dep_v].
      rewrite same_cell_refl, Hdiff by lia. lra.
    + intros x Hx Hne. rewrite !added_cons, added_nil.
      cbn [dep_i dep_j dep_k dep_n dep_v].
      rewrite !Hdiff by lia. lra.
Qed.

(** What the additions of one RZ particle add to the two components of
    mode [m] at the stencil cell (ix0, iz0). *)
Lemma added_RZ_stencil depos_order n_modes (lo : Dim3) i k sx sz wq xy0
      (ix0 iz0 m : nat) :
  (ix0 <= depos_order)%nat -> (iz0 <= depos_order)%nat ->
  (1 <= m)%nat -> (Z.of_nat m < n_modes)%Z ->
  let l :=
      flat_map
        (fun iz => flat_map
           (fun ix =>
              mkDeposit (d3x lo + i + Z.of_nat ix) (d3y lo + k + Z.of_nat iz)
                        0 0 (nth ix sx 0 * nth iz sz 0 * wq)
              :: mode_deposits n_modes
                               (d3x lo + i + Z.of_nat ix)
                               (d3y lo + k + Z.of_nat iz)
                               (nth ix sx 0) (nth iz sz 0) wq xy0)
           (seq 0 (S depos_order)))
        (seq 0 (S depos_order)) in
  added l (d3x lo + i + Z.of_nat ix0) (d3y lo + k + Z.of_nat iz0) 0
        (2 * Z.of_nat m - 1)
  = 2 * nth ix0 sx 0 * nth iz0 sz 0 * wq * fst (Cpow xy0 m)
  /\ added l (d3x lo + i + Z.of_nat ix0) (d3y lo + k + Z.of_nat iz0) 0
           (2 * Z.of_nat m)
     = 2 * nth ix0 sx 0 * nth iz0 sz 0 * wq * snd (Cpow xy0 m).
Proof.
  intros Hix Hiz Hm Hn l. unfold l.
  destruct (added_mode_deposits n_modes (d3x lo + i + Z.of_nat ix0)
                                (d3y lo + k + Z.of_nat iz0)
                                (nth ix0 sx 0) (nth iz0 sz 0) wq xy0 m Hm Hn)
    as [Hcos Hsin].
  assert (Hcell : forall ix iz n0 n1,
             (ix, iz) <> (ix0, iz0) ->
             same_cell (d3x lo + i + Z.of_nat ix) (d3y lo + k + Z.of_nat iz) 0 n0
                       (d3x lo + i + Z.of_nat ix0) (d3y lo + k + Z.of_nat iz0) 0 n1
             = false).
  { intros ix iz n0 n1 Hne. apply same_cell_false. intros (H1 & H2 & _).
    apply Hne. f_equal; lia. }
  assert (Hother : forall ix iz n1,
             (ix, iz) <> (ix0, iz0) ->
             added (mkDeposit (d3x lo + i + Z.of_nat ix) (d3y lo + k + Z.of_nat iz)
                              0 0 (nth ix sx 0 * nth iz sz 0 * wq)
                    :: mode_deposits n_modes (d3x lo + i + Z.of_nat ix)
                                     (d3y lo + k + Z.of_nat iz)
                                     (nth ix sx 0) (nth iz sz 0) wq xy0)
                   (d3x lo + i + Z.of_nat ix0) (d3y lo + k + Z.of_nat iz0) 0 n1 = 0).
  { intros ix iz n1 Hne. rewrite added_cons. cbn [dep_i dep_j dep_k dep_n dep_v].
    rewrite Hcell by exact Hne.
    rewrite added_mode_deposits_elsewhere; [lra|].
    intros E. inversion E. apply Hne. f_equal; lia. }
  assert (Hbase : forall n1, (n1 <> 0)%Z ->
             same_cell (d3x lo + i + Z.of_nat ix0) (d3y lo + k + Z.of_nat iz0) 0 0
                       (d3x lo + i + Z.of_nat ix0) (d3y lo + k + Z.of_nat iz0) 0 n1
             = false).
  { intros n1 Hn1. apply same_cell_false. intros (_ & _ & _ & E). congruence. }
  split.
  - rewrite added_flat_map, (Rsum_seq_single _ 0 _ iz0); [|lia|].
    + rewrite added_flat_map, (Rsum_seq_single _ 0 _ ix0); [|lia|].
      * rewrite added_cons. cbn [dep_i dep_j dep_k dep_n dep_v].
        rewrite Hbase by lia. rewrite Hcos. lra.
      * intros ix _ Hne. apply Hother. congruence.
    + intros iz _ Hne. rewrite added_flat_map.
      rewrite (Rsum_map_ext _ (fun _ => 0)); [apply Rsum_map_zero|].
      intros ix _. apply Hother. congruence.
  - rewrite added_flat_map, (Rsum_seq_single _ 0 _ iz0); [|lia|].
    + rewrite added_flat_map, (Rsum_seq_single _ 0 _ ix0); [|lia|].
      * rewrite added_cons. cbn [dep_i dep_j dep_k dep_n dep_v].
        rewrite Hbase by lia. rewrite Hsin. lra.
      * intros ix _ Hne. apply Hother. congruence.
    + intros iz _ Hne. rewrite added_flat_map.
      rewrite (Rsum_map_ext _ (fun _ => 0)); [apply Rsum_map_zero|].
      intros ix _. apply Hother. congruence.
Qed.

(** De Moivre: the powers the mode loop computes are cos(m theta) and
    sin(m theta). *)
Lemma Cpow_de_Moivre theta (m : nat) :
  Cpow (cos theta, sin theta) m = (cos (INR m * theta), sin (INR m * theta)).
Proof.
  induction m as [|m IH].
  - simpl. rewrite Rmult_0_l, cos_0, sin_0. reflexivity.
  - destruct m as [|m'].
    + simpl. rewrite Rmult_1_l. reflexivity.
    + rewrite Cpow_succ by lia. rewrite IH. unfold Cmul. cbn [fst snd].
      rewrite (S_INR (S m')).
      replace ((INR (S m') + 1) * theta) with (INR (S m') * theta + theta) by ring.
      rewrite cos_plus, sin_plus. f_equal. ring.
Qed.

Lemma Cpow_one_zero (m : nat) : Cpow (1, 0) m = (1, 0).
Proof.
  pose proof (Cpow_de_Moivre 0 m) as H.
  rewrite Rmult_0_r, cos_0, sin_0 in H. exact H.
Qed.

(** One RZ particle, deposited by the body of the particle loop into any
    array it is in range of: the two components of every mode, at every
    stencil cell. *)
Lemma deposit_particle_RZ_modes depos_order GetPosition wp ion_lev rho_type
      inv xyzmin lo q n_modes ip buf xp yp zp i k sx sz :
  GetPosition ip = (xp, yp, zp) ->
  shape_along depos_order (iv_get rho_type 0)
              ((sqrt (xp * xp + yp * yp) - xyzmin 0%nat) * dxi inv) = (i, sx) ->
  shape_along depos_order (iv_get rho_type 1)
              ((zp - xyzmin 2%nat) * dzi inv) = (k, sz) ->
  (forall l, particle_deposits DIM_RZ depos_order GetPosition wp ion_lev rho_type
                               inv xyzmin lo q n_modes ip = Ok l ->
             forallb (deposit_in buf) l = true) ->
  exists buf' xy0,
    deposit_particle DIM_RZ depos_order GetPosition wp ion_lev rho_type inv
                     xyzmin lo q n_modes ip buf = Ok buf'
    /\ rz_direction xp yp = Ok xy0
    /\ forall ix iz m : nat,
        (ix <= depos_order)%nat -> (iz <= depos_order)%nat ->
        (1 <= m)%nat -> (Z.of_nat m < n_modes)%Z ->
        a_data buf' (d3x lo + i + Z.of_nat ix) (d3y lo + k + Z.of_nat iz) 0
               (2 * Z.of_nat m - 1)
        = a_data buf (d3x lo + i + Z.of_nat ix) (d3y lo + k + Z.of_nat iz) 0
                 (2 * Z.of_nat m - 1)
          + 2 * nth ix sx 0 * nth iz sz 0
            * deposited_weight wp ion_lev inv q ip * fst (Cpow xy0 m)
        /\ a_data buf' (d3x lo + i + Z.of_nat ix) (d3y lo + k + Z.of_nat iz) 0
                  (2 * Z.of_nat m)
           = a_data buf (d3x lo + i + Z.of_nat ix) (d3y lo + k + Z.of_nat iz) 0
                    (2 * Z.of_nat m)
             + 2 * nth ix sx 0 * nth iz sz 0
               * deposited_weight wp ion_lev inv q ip * snd (Cpow xy0 m).
Proof.
  intros Epos Esx Esz Hrange.
  destruct (rz_direction_total xp yp) as (c & s & Edir & _).
  assert (El : particle_deposits DIM_RZ depos_order GetPosition wp ion_lev rho_type
                                 inv xyzmin lo q n_modes ip
               = Ok (flat_map
                       (fun iz => flat_map
                          (fun ix =>
                             mkDeposit (d3x lo + i + Z.of_nat ix)
                                       (d3y lo + k + Z.of_nat iz) 0 0
                                       (nth ix sx 0 * nth iz sz 0
                                        * deposited_weight wp ion_lev inv q ip)
                             :: mode_deposits n_modes
                                  (d3x lo + i + Z.of_nat ix)
                                  (d3y lo + k + Z.of_nat iz)
                                  (nth ix sx 0) (nth iz sz 0)
                                  (deposited_weight wp ion_lev inv q ip) (c, s))
                          (seq 0 (S depos_order)))
                       (seq 0 (S depos_order)))).
  { unfold particle_deposits. rewrite Epos. cbv zeta. rewrite Edir. cbn [bind].
    rewrite Esx. change (WARPX_ZINDEX DIM_RZ) with 1%nat. rewrite Esz.
    unfold deposited_weight. destruct ion_lev; reflexivity. }
  destruct (deposit_particle_ok _ _ _ _ _ _ _ _ _ _ _ _ buf _ El (Hrange _ El))
    as (buf' & Erun & _ & Hdata).
  exists buf', (c, s). split; [exact Erun|]. split; [exact Edir|].
  intros ix iz m Hix Hiz Hm Hn. rewrite !Hdata.
  destruct (added_RZ_stencil depos_order n_modes lo i k sx sz
              (deposited_weight wp ion_lev inv q ip) (c, s) ix iz m Hix Hiz Hm Hn)
    as [Hcos Hsin].
  cbv zeta in Hcos, Hsin. rewrite Hcos, Hsin. split; reflexivity.
Qed.

Lemma for_loop_one {St} (body : nat -> St -> Result St) s :
  for_loop 1 body s = body 0%nat s.
Proof. unfold for_loop. cbn [for_loop_from]. destruct (body 0%nat s); reflexivity. Qed.

(** C7. The azimuthal modes of the RZ build.  One particle in range of
    the grid: besides the monopole, every stencil cell (ix, iz) receives,
    for every mode m with 1 <= m < n_rz_azimuthal_modes,
    2 sx[ix] sz[iz] wq Re(xy0^m) into component 2m-1 and
    2 sx[ix] sz[iz] wq Im(xy0^m) into component 2m, where xy0^m is the
    power the loop computes by repeated complex multiplication of the
    unit direction xy0; for a particle at the azimuthal angle theta the
    two are cos(m theta) and sin(m theta), and at theta = 0 they are 1
    and 0. *)
Theorem doChargeDepositionShapeN_RZ_mode_weights
        (depos_order : nat) (GetPosition : nat -> R * R * R) (wp : nat -> R)
        (ion_lev : option (nat -> Z)) (rho_arr : Array4) (rho_type : IntVect)
        (dx xyzmin : Real3) (lo : Dim3) (q : R) (n_rz_azimuthal_modes : Z)
        (inv : InverseCell) (xp yp zp : R) (i k : Z) (sx sz : list R) :
  inverse_cell_size DIM_RZ dx = Ok inv ->
  GetPosition 0%nat = (xp, yp, zp) ->
  shape_along depos_order (iv_get rho_type 0)
              ((sqrt (xp * xp + yp * yp) - xyzmin 0%nat) * dxi inv) = (i, sx) ->
  shape_along depos_order (iv_get rho_type 1)
              ((zp - xyzmin 2%nat) * dzi inv) = (k, sz) ->
  stencil_in_range DIM_RZ depos_order GetPosition wp ion_lev rho_arr rho_type dx
                   xyzmin lo q n_rz_azimuthal_modes 0 ->
  exists rho' xy0,
    doChargeDepositionShapeN DIM_RZ depos_order GetPosition wp ion_lev rho_arr
                             rho_type 1 dx xyzmin lo q n_rz_azimuthal_modes
    = Ok rho'
    /\ rz_direction xp yp = Ok xy0
    /\ (forall ix iz m : nat,
           (ix <= depos_order)%nat -> (iz <= depos_order)%nat ->
           (1 <= m)%nat -> (Z.of_nat m < n_rz_azimuthal_modes)%Z ->
           a_data rho' (d3x lo + i + Z.of_nat ix) (d3y lo + k + Z.of_nat iz) 0
                  (2 * Z.of_nat m - 1)
           = a_data rho_arr (d3x lo + i + Z.of_nat ix) (d3y lo + k + Z.of_nat iz)
                    0 (2 * Z.of_nat m - 1)
             + 2 * nth ix sx 0 * nth iz sz 0
               * deposited_weight wp ion_lev inv q 0 * fst (Cpow xy0 m)
           /\ a_data rho' (d3x lo + i + Z.of_nat ix) (d3y lo + k + Z.of_nat iz) 0
                     (2 * Z.of_nat m)
              = a_data rho_arr (d3x lo + i + Z.of_nat ix)
                       (d3y lo + k + Z.of_nat iz) 0 (2 * Z.of_nat m)
                + 2 * nth ix sx 0 * nth iz sz 0
                  * deposited_weight wp ion_lev inv q 0 * snd (Cpow xy0 m))
    /\ (forall theta,
           0 < sqrt (xp * xp + yp * yp) ->
           xp = sqrt (xp * xp + yp * yp) * cos theta ->
           yp = sqrt (xp * xp + yp * yp) * sin theta ->
           forall m : nat,
             Cpow xy0 m = (cos (INR m * theta), sin (INR m * theta)))
    /\ (0 < xp -> yp = 0 -> forall m : nat, Cpow xy0 m = (1, 0)).
Proof.
  intros Einv Epos Esx Esz Hrange.
  destruct (deposit_particle_RZ_modes
              depos_order GetPosition wp ion_lev rho_type inv xyzmin lo q
              n_rz_azimuthal_modes 0 rho_arr xp yp zp i k sx sz Epos Esx Esz
              (fun l => Hrange inv l Einv))
    as (rho' & xy0 & Erun & Edir & Hmodes).
  exists rho', xy0. split; [|split; [exact Edir|split; [exact Hmodes|]]].
  - unfold doChargeDepositionShapeN. rewrite Einv. cbn [bind].
    change (Z.to_nat 1) with 1%nat. rewrite for_loop_one. exact Erun.
  - destruct (rz_direction_total xp yp) as (c & s & Edir' & _ & _ & Hoff).
    rewrite Edir in Edir'. apply Ok_inj in Edir'. subst xy0.
    assert (Hangle : forall theta,
               0 < sqrt (xp * xp + yp * yp) ->
               xp = sqrt (xp * xp + yp * yp) * cos theta ->
               yp = sqrt (xp * xp + yp * yp) * sin theta ->
               (c, s) = (cos theta, sin theta)).
    { intros theta Hpos Hx Hy.
      destruct Hoff as [Hc Hs]; [lra|].
      set (rp := sqrt (xp * xp + yp * yp)) in *.
      f_equal; apply Rmult_eq_reg_r with rp; lra. }
    split.
    + intros theta Hpos Hx Hy m.
      rewrite (Hangle theta Hpos Hx Hy). apply Cpow_de_Moivre.
    + intros Hxp Hyp m.
      assert (Hrp : sqrt (xp * xp + yp * yp) = xp).
      { subst yp. replace (xp * xp + 0 * 0) with (xp * xp) by ring.
        apply sqrt_square. lra. }
      assert (Hcs : (c, s) = (1, 0)).
      { rewrite (Hangle 0);
          [rewrite cos_0, sin_0; reflexivity
          |rewrite Hrp; lra
          |rewrite Hrp, cos_0; lra
          |rewrite Hrp, sin_0; lra]. }
      rewrite Hcs. apply Cpow_one_zero.
Qed.

(** The cells an RZ particle writes, from the bounds of its stencil. *)
Lemma RZ_deposits_in_range depos_order GetPosition wp ion_lev rho_type
      inv xyzmin lo q n_modes ip buf xp yp zp i k sx sz :
  GetPosition ip = (xp, yp, zp) ->
  shape_along depos_order (iv_get rho_type 0)
              ((sqrt (xp * xp + yp * yp) - xyzmin 0%nat) * dxi inv) = (i, sx) ->
  shape_along depos_order (iv_get rho_type 1)
              ((zp - xyzmin 2%nat) * dzi inv) = (k, sz) ->
  (forall (ix iz : nat) (n : Z),
      (ix <= depos_order)%nat -> (iz <= depos_order)%nat ->
      (0 <= n < Z.max 1 (2 * n_modes - 1))%Z ->
      Array4_contains buf (d3x lo + i + Z.of_nat ix) (d3y lo + k + Z.of_nat iz) 0 n
      = true) ->
  forall l, particle_deposits DIM_RZ depos_order GetPosition wp ion_lev rho_type
                              inv xyzmin lo q n_modes ip = Ok l ->
            forallb (deposit_in buf) l = true.
Proof.
  intros Epos Esx Esz Hcells l. unfold particle_deposits.
  rewrite Epos. cbv zeta. destruct (rz_direction xp yp) as [xy0|]; [|discriminate].
  cbn [bind]. rewrite Esx. change (WARPX_ZINDEX DIM_RZ) with 1%nat. rewrite Esz.
  intros E. apply Ok_inj in E. subst l.
  apply forallb_forall. intros d Hin.
  apply in_flat_map in Hin. destruct Hin as (iz & Hiz & Hin).
  apply in_flat_map in Hin. destruct Hin as (ix & Hix & Hin).
  apply in_seq in Hiz, Hix. unfold deposit_in.
  destruct Hin as [<-|Hin].
  - cbn [dep_i dep_j dep_k dep_n]. apply Hcells; lia.
  - unfold mode_deposits in Hin. apply in_flat_map in Hin.
    destruct Hin as (imode & Him & Hin). apply in_seq in Him.
    destruct Hin as [<-|[<-|[]]]; cbn [dep_i dep_j dep_k dep_n];
      apply Hcells; lia.
Qed.

(** ** No quotient of the kernels has a zero divisor *)

Lemma for_each_fault {X St} (P : Fault -> Prop) (body : X -> St -> Result St) l :
  (forall x s f, body x s = Err f -> P f) ->
  forall s f, for_each l body s = Err f -> P f.
Proof.
  intros Hbody. induction l as [|x l IH]; intros s f E; [discriminate|].
  simpl in E. destruct (body x s) as [s'|f'] eqn:Eb; simpl in E.
  - eapply IH, E.
  - injection E as <-. eapply Hbody, Eb.
Qed.

Lemma for_loop_from_fault {St} (P : Fault -> Prop) (body : nat -> St -> Result St)
      start n s f :
  (forall x s f, body x s = Err f -> P f) ->
  for_loop_from start n body s = Err f -> P f.
Proof.
  intros Hbody E. rewrite for_loop_from_each in E.
  eapply for_each_fault; eauto.
Qed.

Lemma for_loop_fault {St} (P : Fault -> Prop) (body : nat -> St -> Result St)
      n s f :
  (forall x s f, body x s = Err f -> P f) ->
  for_loop n body s = Err f -> P f.
Proof. apply for_loop_from_fault. Qed.

Lemma for_range_fault {St} (P : Fault -> Prop) (body : Z -> St -> Result St)
      lo hi s f :
  (forall x s f, body x s = Err f -> P f) ->
  for_range lo hi body s = Err f -> P f.
Proof.
  intros Hbody. unfold for_range. apply for_loop_fault.
  intros x s' f'. apply Hbody.
Qed.

Lemma deposit_particle_fault g depos_order GetPosition wp ion_lev rho_type inv
      xyzmin lo q n_modes ip buf f :
  deposit_particle g depos_order GetPosition wp ion_lev rho_type inv xyzmin lo
                   q n_modes ip buf = Err f ->
  f = OutOfRange.
Proof.
  rewrite deposit_particle_scatter.
  destruct (particle_deposits_runs g depos_order GetPosition wp ion_lev rho_type
                                   inv xyzmin lo q n_modes ip) as (l & ->).
  cbn [bind]. apply scatter_fault.
Qed.

Lemma addLocalToGlobal_fault bx global local f :
  addLocalToGlobal bx global local = Err f -> f = OutOfRange.
Proof.
  unfold addLocalToGlobal.
  apply for_range_fault with (P := fun f => f = OutOfRange). intros k s1 f1.
  apply for_range_fault with (P := fun f => f = OutOfRange). intros j s2 f2.
  apply for_range_fault with (P := fun f => f = OutOfRange). intros i s3 f3.
  destruct (Array4_contains s3 i j k 0) eqn:Ec; [|discriminate].
  unfold Array4_read. destruct (Array4_contains local i j k 0); cbn [bind].
  - unfold AddNoRet. rewrite Ec. discriminate.
  - congruence.
Qed.

Lemma deposit_tile_fault getTileIndex g depos_order GetPosition wp ion_lev
      rho_type ix_type inv xyzmin lo q n_modes a_bins box geom bin_size bin_id
      rho f :
  deposit_tile getTileIndex g depos_order GetPosition wp ion_lev rho_type ix_type
               inv xyzmin lo q n_modes a_bins box geom bin_size bin_id rho
  = Err f ->
  f = OutOfRange.
Proof.
  unfold deposit_tile. cbv zeta.
  destruct (Nat.eqb _ _); [discriminate|].
  match goal with
  | |- bind ?m _ = _ -> _ => destruct m as [buf|f'] eqn:Eloop
  end; cbn [bind].
  - apply addLocalToGlobal_fault.
  - intros E. injection E as <-.
    revert Eloop. apply for_loop_from_fault with (P := fun f => f = OutOfRange).
    intros x s f0. apply deposit_particle_fault.
Qed.

(** ** Examples in the RZ build: order 0, two modes, unit cells *)

Lemma rz_inverse_cell : inverse_cell_size DIM_RZ unit_cells = Ok rz_inverse.
Proof.
  unfold inverse_cell_size, checked_div, unit_cells.
  destruct (Req_dec_T 1 0) as [E|_]; [lra|]. reflexivity.
Qed.

Lemma rz_inverse_unique inv :
  inverse_cell_size DIM_RZ unit_cells = Ok inv -> inv = rz_inverse.
Proof. rewrite rz_inverse_cell. congruence. Qed.

Lemma shape_order0_node x (z : Z) :
  IZR z <= x + 0.5 < IZR z + 1 -> shape_along 0 NODE x = (z, [1]).
Proof.
  intros H. unfold shape_along, Compute_shape_factor. cbn [Z.eqb NODE Pos.eqb].
  cbv zeta. rewrite (floor_unique z) by exact H. reflexivity.
Qed.

Lemma radius_at_angle_zero : sqrt (1 * 1 + 0 * 0) = 1.
Proof. replace (1 * 1 + 0 * 0) with 1 by ring. apply sqrt_1. Qed.

Lemma radius_on_axis : sqrt (0 * 0 + 0 * 0) = 0.
Proof. replace (0 * 0 + 0 * 0) with 0 by ring. apply sqrt_0. Qed.

Lemma rz_direction_on_axis : rz_direction 0 0 = Ok (1, 0).
Proof.
  unfold rz_direction. cbv zeta. rewrite radius_on_axis.
  destruct (Rlt_dec 0 0) as [H|_]; [lra|reflexivity].
Qed.

Lemma rz_grid_cells (i k : Z) (ix iz : nat) (n : Z) :
  (-3 <= i <= 12)%Z -> (-3 <= k <= 12)%Z ->
  (ix <= 0)%nat -> (iz <= 0)%nat -> (0 <= n < Z.max 1 (2 * 2 - 1))%Z ->
  Array4_contains rz_grid (d3x (mkDim3 0 0 0) + i + Z.of_nat ix)
                  (d3y (mkDim3 0 0 0) + k + Z.of_nat iz) 0 n = true.
Proof.
  intros Hi Hk Hix Hiz Hn. unfold Array4_contains, rz_grid. cbn [a_begin a_end a_ncomp d3x d3y d3z].
  rewrite !andb_true_iff.
  repeat split; try apply Z.leb_le; try apply Z.ltb_lt; lia.
Qed.

Lemma doChargeDepositionShapeN_RZ_mode_weights_witness :
  exists rho',
    doChargeDepositionShapeN DIM_RZ 0 at_angle_zero unit_weight None rz_grid
                             [NODE; NODE] 1 unit_cells origin (mkDim3 0 0 0) 1 2
    = Ok rho'
    /\ a_data rho' 1 0 0 1 = 2
    /\ a_data rho' 1 0 0 2 = 0.
Proof.
  assert (Esx : shape_along 0 (iv_get [NODE; NODE] 0)
                            ((sqrt (1 * 1 + 0 * 0) - origin 0%nat) * dxi rz_inverse)
                = (1%Z, [1])).
  { apply shape_order0_node. rewrite radius_at_angle_zero.
    unfold origin, rz_inverse. cbn [dxi]. lra. }
  assert (Esz : shape_along 0 (iv_get [NODE; NODE] 1)
                            ((0 - origin 2%nat) * dzi rz_inverse)
                = (0%Z, [1])).
  { apply shape_order0_node. unfold origin, rz_inverse. cbn [dzi]. lra. }
  destruct (doChargeDepositionShapeN_RZ_mode_weights
              0 at_angle_zero unit_weight None rz_grid [NODE; NODE] unit_cells
              origin (mkDim3 0 0 0) 1 2 rz_inverse 1 0 0 1%Z 0%Z [1] [1]
              rz_inverse_cell eq_refl Esx Esz)
    as (rho' & xy0 & Erun & _ & Hmodes & _ & Hzero).
  { intros inv l Einv. apply rz_inverse_unique in Einv. subst inv.
    apply (RZ_deposits_in_range 0 at_angle_zero unit_weight None [NODE; NODE]
             rz_inverse origin (mkDim3 0 0 0) 1 2 0 rz_grid 1 0 0 1%Z 0%Z [1] [1]
             eq_refl Esx Esz).
    intros ix iz n Hix Hiz Hn. apply rz_grid_cells; lia. }
  exists rho'. split; [exact Erun|].
  destruct (Hmodes 0%nat 0%nat 1%nat) as [Hcos Hsin]; try lia.
  rewrite (Hzero ltac:(lra) eq_refl 1%nat) in Hcos, Hsin.
  cbn [fst snd nth Z.of_nat Z.mul Z.sub Z.add Z.pos_sub Pos.of_succ_nat d3x d3y
       Pos.mul Pos.add Z.opp Pos.succ Pos.pred_double Z.succ_double Z.pred_double Z.double] in Hcos, Hsin.
  unfold deposited_weight, unit_weight, rz_inverse, rz_grid in Hcos, Hsin.
  cbn [invvol a_data] in Hcos, Hsin.
  split; [rewrite Hcos|rewrite Hsin]; lra.
Defined.

(* ================================================================== *)
(** * The tiled kernel against the direct kernel *)
(* ================================================================== *)

(** ** The order of the additions does not matter *)

Lemma added_Permutation l1 l2 i j k n :
  Permutation l1 l2 -> added l1 i j k n = added l2 i j k n.
Proof.
  induction 1 as [|d l1 l2 _ IH|d1 d2 l|l1 l2 l3 _ IH1 _ IH2].
  - reflexivity.
  - rewrite !added_cons, IH. reflexivity.
  - rewrite !added_cons. lra.
  - congruence.
Qed.

Lemma forallb_Permutation {X} (p : X -> bool) l1 l2 :
  Permutation l1 l2 -> forallb p l1 = true -> forallb p l2 = true.
Proof.
  intros HP H. apply forallb_forall. intros x Hx.
  rewrite forallb_forall in H. apply H.
  apply Permutation_in with l2; [apply Permutation_sym, HP|exact Hx].
Qed.

Lemma Array4_equiv_sym a b : Array4_equiv a b -> Array4_equiv b a.
Proof. intros (H1 & H2 & H3 & H4). repeat split; auto. Qed.

Lemma Array4_equiv_trans a b c :
  Array4_equiv a b -> Array4_equiv b c -> Array4_equiv a c.
Proof.
  intros (H1 & H2 & H3 & H4) (G1 & G2 & G3 & G4).
  split; [congruence|]. split; [congruence|]. split; [congruence|].
  intros. rewrite H4. apply G4.
Qed.

Lemma scatter_Permutation l1 l2 buf b1 :
  Permutation l1 l2 ->
  scatter l1 buf = Ok b1 ->
  exists b2, scatter l2 buf = Ok b2 /\ Array4_equiv b2 b1.
Proof.
  intros HP E1. pose proof (scatter_inv _ _ _ E1) as Hall1.
  destruct (scatter_ok l1 buf Hall1) as (b1' & E1' & (Hb1 & He1 & Hn1) & Hd1).
  rewrite E1 in E1'. apply Ok_inj in E1'. subst b1'.
  destruct (scatter_ok l2 buf (forallb_Permutation _ _ _ HP Hall1))
    as (b2 & E2 & (Hb2 & He2 & Hn2) & Hd2).
  exists b2. split; [exact E2|].
  split; [congruence|]. split; [congruence|]. split; [congruence|].
  intros i j k n. rewrite Hd1, Hd2.
  rewrite (added_Permutation l1 l2 i j k n HP). reflexivity.
Qed.

Lemma deposit_particle_deposits_of g depos_order GetPosition wp ion_lev rho_type
      inv xyzmin lo q n_modes ip buf :
  deposit_particle g depos_order GetPosition wp ion_lev rho_type inv xyzmin lo
                   q n_modes ip buf
  = scatter (deposits_of g depos_order GetPosition wp ion_lev rho_type inv xyzmin
                         lo q n_modes ip) buf.
Proof.
  rewrite deposit_particle_scatter. unfold deposits_of.
  destruct (particle_deposits_runs g depos_order GetPosition wp ion_lev rho_type
                                   inv xyzmin lo q n_modes ip) as (l & ->).
  reflexivity.
Qed.

(** A loop of particle deposits is one scatter of all their additions. *)
Lemma particle_loop_scatter g depos_order GetPosition wp ion_lev rho_type
      inv xyzmin lo q n_modes (index : nat -> nat) l buf :
  for_each l
    (fun ip_orig b =>
       deposit_particle g depos_order GetPosition wp ion_lev rho_type inv xyzmin
                        lo q n_modes (index ip_orig) b) buf
  = scatter
      (flat_map (deposits_of g depos_order GetPosition wp ion_lev rho_type inv
                             xyzmin lo q n_modes) (map index l)) buf.
Proof.
  rewrite <- for_each_scatter, for_each_map.
  apply for_each_ext. intros ip b _. apply deposit_particle_deposits_of.
Qed.

Lemma Permutation_flat_map_deposits {X} (h : X -> list Deposit) l1 l2 :
  Permutation l1 l2 -> Permutation (flat_map h l1) (flat_map h l2).
Proof.
  induction 1 as [|x l1 l2 _ IH|x y l|l1 l2 l3 _ IH1 _ IH2]; cbn [flat_map].
  - constructor.
  - apply Permutation_app_head, IH.
  - rewrite !app_assoc. apply Permutation_app_tail, Permutation_app_comm.
  - eapply Permutation_trans; eauto.
Qed.

(** X1. Without CUDA or HIP the tiled kernel is the direct kernel run
    over the particles in the order of the permutation: when the direct
    kernel returns a grid, the tiled kernel returns a grid with the same
    extent and the same values. *)
Theorem tiled_without_shared_memory_equals_direct
        (getTileIndex : IntVect -> Box -> bool -> IntVect -> Box)
        (max_shared_mem_bytes sizeof_Real : Z)
        (g : Geometry) (depos_order : nat)
        (GetPosition : nat -> R * R * R) (wp : nat -> R)
        (ion_lev : option (nat -> Z)) (rho_arr : Array4)
        (rho_type ix_type : IntVect) (np_to_deposit : Z) (dx xyzmin : Real3)
        (lo : Dim3) (q : R) (n_rz_azimuthal_modes : Z) (a_bins : DenseBins)
        (box : Box) (geom : AmrexGeometry) (a_tbox_max_size bin_size : IntVect)
        (rho_direct : Array4) :
  Permutation (map (permutationPtr a_bins) (seq 0 (Z.to_nat np_to_deposit)))
              (seq 0 (Z.to_nat np_to_deposit)) ->
  doChargeDepositionShapeN g depos_order GetPosition wp ion_lev rho_arr rho_type
                           np_to_deposit dx xyzmin lo q n_rz_azimuthal_modes
  = Ok rho_direct ->
  exists rho_tiled,
    doChargeDepositionSharedShapeN
      false getTileIndex max_shared_mem_bytes sizeof_Real g depos_order
      GetPosition wp ion_lev rho_arr rho_type ix_type np_to_deposit dx xyzmin lo
      q n_rz_azimuthal_modes a_bins box geom a_tbox_max_size bin_size
    = Ok rho_tiled
    /\ Array4_equiv rho_tiled rho_direct.
Proof.
  intros Hperm. unfold doChargeDepositionShapeN, doChargeDepositionSharedShapeN.
  destruct (inverse_cell_size g dx) as [inv|]; [|discriminate]. cbn [bind].
  rewrite !for_loop_each.
  rewrite (particle_loop_scatter _ _ _ _ _ _ _ _ _ _ _ (permutationPtr a_bins)).
  rewrite (particle_loop_scatter _ _ _ _ _ _ _ _ _ _ _ (fun ip => ip)).
  rewrite map_id. intros E.
  eapply scatter_Permutation; [|exact E].
  apply Permutation_flat_map_deposits, Permutation_sym, Hperm.
Qed.

(** The direct kernel returns when every particle is in range. *)
Lemma doChargeDepositionShapeN_runs g depos_order GetPosition wp ion_lev rho_arr
      rho_type np_to_deposit dx xyzmin lo q n_modes :
  cell_volume g dx <> 0 ->
  (forall ip, (ip < Z.to_nat np_to_deposit)%nat ->
              stencil_in_range g depos_order GetPosition wp ion_lev rho_arr
                               rho_type dx xyzmin lo q n_modes ip) ->
  exists rho',
    doChargeDepositionShapeN g depos_order GetPosition wp ion_lev rho_arr
                             rho_type np_to_deposit dx xyzmin lo q n_modes
    = Ok rho'.
Proof.
  intros Hvol Hrange.
  destruct (inverse_cell_size_ok g dx Hvol) as (inv & Einv & _).
  unfold doChargeDepositionShapeN. rewrite Einv. cbn [bind].
  rewrite for_loop_each.
  rewrite (particle_loop_scatter _ _ _ _ _ _ _ _ _ _ _ (fun ip => ip)), map_id.
  destruct (scatter_ok
              (flat_map (deposits_of g depos_order GetPosition wp ion_lev rho_type
                                     inv xyzmin lo q n_modes)
                        (seq 0 (Z.to_nat np_to_deposit))) rho_arr)
    as (rho' & E & _); [|exists rho'; exact E].
  apply forallb_forall. intros d Hd.
  apply in_flat_map in Hd. destruct Hd as (ip & Hip & Hd). apply in_seq in Hip.
  unfold deposits_of in Hd.
  destruct (particle_deposits g depos_order GetPosition wp ion_lev rho_type inv
                              xyzmin lo q n_modes ip) as [l|] eqn:El;
    [|destruct Hd].
  pose proof (Hrange ip ltac:(lia) inv l Einv El) as Hall.
  rewrite forallb_forall in Hall. apply Hall, Hd.
Qed.

Lemma tiled_without_shared_memory_equals_direct_witness :
  exists rho_direct rho_tiled,
    doChargeDepositionShapeN DIM_1D_Z 1 example_position unit_weight None
                             zero_line [NODE] 2 unit_cells origin
                             (mkDim3 0 0 0) 1 0 = Ok rho_direct
    /\ doChargeDepositionSharedShapeN
         false whole_box 49152 8 DIM_1D_Z 1 example_position unit_weight None
         zero_line [NODE] [NODE] 2 unit_cells origin (mkDim3 0 0 0) 1 0
         swap_bins (mkBox [0%Z] [9%Z]) (mkAmrexGeometry unit_cells origin [0%Z])
         [4%Z] [4%Z] = Ok rho_tiled
    /\ Array4_equiv rho_tiled rho_direct.
Proof.
  destruct (doChargeDepositionShapeN_runs
              DIM_1D_Z 1 example_position unit_weight None zero_line [NODE] 2
              unit_cells origin (mkDim3 0 0 0) 1 0) as (rho_direct & Edirect).
  { unfold cell_volume, unit_cells. lra. }
  { intros ip _ inv l Einv El.
    assert (El0 : particle_deposits DIM_1D_Z 1 example_position unit_weight None
                                    [NODE] inv origin (mkDim3 0 0 0) 1 0 0 = Ok l)
      by exact El.
    rewrite (example_deposits inv l Einv El0). reflexivity. }
  destruct (tiled_without_shared_memory_equals_direct
              whole_box 49152 8 DIM_1D_Z 1 example_position unit_weight None
              zero_line [NODE] [NODE] 2 unit_cells origin (mkDim3 0 0 0) 1 0
              swap_bins (mkBox [0%Z] [9%Z])
              (mkAmrexGeometry unit_cells origin [0%Z]) [4%Z] [4%Z] rho_direct)
    as (rho_tiled & Etiled & Hequiv).
  { apply perm_swap. }
  { exact Edirect. }
  exists rho_direct, rho_tiled. auto.
Defined.

(** ** The tiles of the CUDA/HIP build, one component *)



















(** ** The tile buffer has one component *)

(** An RZ particle with a mode beyond the monopole adds to component 1. *)
Lemma RZ_deposits_reach_component_1 depos_order GetPosition wp ion_lev rho_type
      inv xyzmin lo q n_modes ip l :
  (2 <= n_modes)%Z ->
  particle_deposits DIM_RZ depos_order GetPosition wp ion_lev rho_type inv xyzmin
                    lo q n_modes ip = Ok l ->
  exists d, In d l /\ dep_n d = 1%Z.
Proof.
  intros Hn. unfold particle_deposits.
  destruct (GetPosition ip) as [[xp yp] zp]. cbv zeta.
  destruct (rz_direction xp yp) as [xy0|]; [|discriminate]. cbn [bind].
  destruct (shape_along depos_order (iv_get rho_type 0) _) as [i sx].
  destruct (shape_along depos_order _ _) as [k sz].
  intros E. apply Ok_inj in E. subst l.
  eexists. split.
  - apply in_flat_map. exists 0%nat. split; [apply in_seq; lia|].
    apply in_flat_map. exists 0%nat. split; [apply in_seq; lia|].
    right. unfold mode_deposits. apply in_flat_map.
    exists 1%nat. split; [apply in_seq; lia|]. left. reflexivity.
  - reflexivity.
Qed.

Lemma deposit_particle_RZ_one_component depos_order GetPosition wp ion_lev
      rho_type inv xyzmin lo q n_modes ip buf :
  (2 <= n_modes)%Z -> (a_ncomp buf <= 1)%Z ->
  deposit_particle DIM_RZ depos_order GetPosition wp ion_lev rho_type inv xyzmin
                   lo q n_modes ip buf = Err OutOfRange.
Proof.
  intros Hn Hc.
  destruct (deposit_particle DIM_RZ depos_order GetPosition wp ion_lev rho_type
                             inv xyzmin lo q n_modes ip buf) as [buf'|f] eqn:E.
  - exfalso. rewrite deposit_particle_scatter in E.
    destruct (particle_deposits_runs DIM_RZ depos_order GetPosition wp ion_lev
                                     rho_type inv xyzmin lo q n_modes ip)
      as (l & El).
    rewrite El in E. cbn [bind] in E. apply scatter_inv in E.
    destruct (RZ_deposits_reach_component_1 _ _ _ _ _ _ _ _ _ _ _ _ Hn El)
      as (d & Hd & Hn1).
    rewrite forallb_forall in E. specialize (E d Hd).
    unfold deposit_in, Array4_contains in E. rewrite Hn1 in E.
    rewrite !andb_true_iff in E. destruct E as [_ E]. apply Z.ltb_lt in E. lia.
  - f_equal. eapply deposit_particle_fault, E.
Qed.

Lemma for_each_hits_fault {X St} (body : X -> St -> Result St) l x0 f0 :
  In x0 l ->
  (forall s, body x0 s = Err f0) ->
  (forall x s f, body x s = Err f -> f = f0) ->
  forall s, for_each l body s = Err f0.
Proof.
  intros Hin Hx0 Hall.
  induction l as [|x l IH]; intros s; [destruct Hin|].
  simpl. destruct (body x s) as [s'|f] eqn:E; cbn [bind].
  - destruct Hin as [->|Hin]; [rewrite Hx0 in E; discriminate|].
    apply IH, Hin.
  - f_equal. eapply Hall, E.
Qed.

(** A non-empty tile of the RZ build with a mode beyond the monopole:
    the first particle of the tile writes component 1 of the
    one-component buffer. *)
Lemma deposit_tile_RZ_modes_faults getTileIndex depos_order GetPosition wp
      ion_lev rho_type ix_type inv xyzmin lo q n_modes a_bins box geom bin_size
      bin_id rho :
  (2 <= n_modes)%Z ->
  (offsetsPtr a_bins bin_id < offsetsPtr a_bins (S bin_id))%nat ->
  deposit_tile getTileIndex DIM_RZ depos_order GetPosition wp ion_lev rho_type
               ix_type inv xyzmin lo q n_modes a_bins box geom bin_size bin_id rho
  = Err OutOfRange.
Proof.
  intros Hn Hbin. unfold deposit_tile. cbv zeta.
  replace (Nat.eqb (offsetsPtr a_bins bin_id) (offsetsPtr a_bins (S bin_id)))
    with false by (symmetry; apply Nat.eqb_neq; lia).
  destruct (offsetsPtr a_bins (S bin_id) - offsetsPtr a_bins bin_id)%nat
    as [|cnt] eqn:Ecnt; [lia|].
  cbn [for_loop_from].
  rewrite deposit_particle_RZ_one_component; [reflexivity|exact Hn|simpl; lia].
Qed.

(** In the CUDA/HIP build of the RZ geometry, with a mode beyond the
    monopole and a tile that holds a particle, the tiled kernel ends in an
    access outside the tile buffer. *)
Lemma tiled_shared_RZ_modes_faults
      (getTileIndex : IntVect -> Box -> bool -> IntVect -> Box)
      (max_shared_mem_bytes sizeof_Real : Z) (depos_order : nat)
      (GetPosition : nat -> R * R * R) (wp : nat -> R)
      (ion_lev : option (nat -> Z)) (rho_arr : Array4)
      (rho_type ix_type : IntVect) (np_to_deposit : Z) (dx xyzmin : Real3)
      (lo : Dim3) (q : R) (n_rz_azimuthal_modes : Z) (a_bins : DenseBins)
      (box : Box) (geom : AmrexGeometry) (a_tbox_max_size bin_size : IntVect)
      (bin_id : nat) :
  cell_volume DIM_RZ dx <> 0 ->
  (Box_numPts DIM_RZ
     (Box_grow (Box_convert (mkBox (repeat 0%Z (AMREX_SPACEDIM DIM_RZ))
                                   (map (fun x => (x - 1)%Z) a_tbox_max_size))
                            ix_type) (Z.of_nat depos_order))
   * sizeof_Real <= max_shared_mem_bytes)%Z ->
  (2 <= n_rz_azimuthal_modes)%Z ->
  (bin_id < numBins a_bins)%nat ->
  (offsetsPtr a_bins bin_id < offsetsPtr a_bins (S bin_id))%nat ->
  doChargeDepositionSharedShapeN
    true getTileIndex max_shared_mem_bytes sizeof_Real DIM_RZ depos_order
    GetPosition wp ion_lev rho_arr rho_type ix_type np_to_deposit dx xyzmin lo q
    n_rz_azimuthal_modes a_bins box geom a_tbox_max_size bin_size
  = Err OutOfRange.
Proof.
  intros Hvol Hmem Hn Hbin Hne.
  destruct (inverse_cell_size_ok DIM_RZ dx Hvol) as (inv & Einv & _).
  unfold doChargeDepositionSharedShapeN. rewrite Einv. cbn [bind]. cbv zeta.
  apply Z.leb_le in Hmem. rewrite Hmem.
  rewrite for_loop_each.
  apply for_each_hits_fault with (x0 := bin_id).
  - apply in_seq. lia.
  - intros s. apply deposit_tile_RZ_modes_faults; assumption.
  - intros x s f. apply deposit_tile_fault.
Qed.

Lemma direct_at_angle_zero :
  exists rho',
    doChargeDepositionShapeN DIM_RZ 0 at_angle_zero unit_weight None rz_grid
                             [NODE; NODE] 1 unit_cells origin (mkDim3 0 0 0)
                             1 2 = Ok rho'
    /\ a_data rho' 1 0 0 1 = 2.
Proof.
  assert (Esx : shape_along 0 (iv_get [NODE; NODE] 0)
                            ((sqrt (1 * 1 + 0 * 0) - origin 0%nat) * dxi rz_inverse)
                = (1%Z, [1])).
  { apply shape_order0_node. rewrite radius_at_angle_zero.
    unfold origin, rz_inverse. cbn [dxi]. lra. }
  assert (Esz : shape_along 0 (iv_get [NODE; NODE] 1)
                            ((0 - origin 2%nat) * dzi rz_inverse)
                = (0%Z, [1])).
  { apply shape_order0_node. unfold origin, rz_inverse. cbn [dzi]. lra. }
  destruct (deposit_particle_RZ_modes
              0 at_angle_zero unit_weight None [NODE; NODE] rz_inverse origin
              (mkDim3 0 0 0) 1 2 0 rz_grid 1 0 0 1%Z 0%Z [1] [1]
              eq_refl Esx Esz)
    as (rho' & xy0 & Erun & Edir & Hmodes).
  { apply (RZ_deposits_in_range 0 at_angle_zero unit_weight None [NODE; NODE]
             rz_inverse origin (mkDim3 0 0 0) 1 2 0 rz_grid 1 0 0 1%Z 0%Z [1] [1]
             eq_refl Esx Esz).
    intros ix iz n Hix Hiz Hn. apply rz_grid_cells; lia. }
  exists rho'. split.
  - unfold doChargeDepositionShapeN. rewrite rz_inverse_cell. cbn [bind].
    change (Z.to_nat 1) with 1%nat. rewrite for_loop_one. exact Erun.
  - destruct (Hmodes 0%nat 0%nat 1%nat) as [Hcos _]; try lia.
    destruct (rz_direction_total 1 0) as (c & s & Edir' & _ & _ & Hoff).
    rewrite Edir in Edir'. apply Ok_inj in Edir'. subst xy0.
    rewrite radius_at_angle_zero in Hoff. destruct Hoff as [Hc Hs]; [lra|].
    cbn [Cpow fst snd nth Z.of_nat Z.mul Z.sub Z.add Z.pos_sub Pos.of_succ_nat
         d3x d3y Pos.mul Pos.add Z.opp Pos.succ Pos.pred_double Z.succ_double
         Z.pred_double Z.double] in Hcos.
    unfold deposited_weight, unit_weight, rz_inverse, rz_grid in Hcos.
    cbn [invvol a_data] in Hcos. rewrite Hcos. 
    replace c with 1 by lra. lra.
Qed.

(** C2, at the failing input.  RZ build with CUDA or HIP, two azimuthal
    modes, one particle at radius 1 in one tile, a zero grid of three
    components: the direct kernel returns the grid with 2 deposited into
    the cosine component of mode 1 at the particle's cell; the tiled
    kernel, whose tile buffer has one component, ends in an access
    outside the buffer. *)
Theorem tiled_shared_RZ_modes_diverges_from_direct :
  (exists rho',
      doChargeDepositionShapeN DIM_RZ 0 at_angle_zero unit_weight None rz_grid
                               [NODE; NODE] 1 unit_cells origin (mkDim3 0 0 0)
                               1 2 = Ok rho'
      /\ a_data rho' 1 0 0 1 = 2)
  /\ doChargeDepositionSharedShapeN
       true whole_box 49152 8 DIM_RZ 0 at_angle_zero unit_weight None rz_grid
       [NODE; NODE] [NODE; NODE] 1 unit_cells origin (mkDim3 0 0 0) 1 2
       one_bin ten_by_ten unit_geom [4%Z; 4%Z] [4%Z; 4%Z]
     = Err OutOfRange.
Proof.
  split.
  - exact direct_at_angle_zero.
  - apply tiled_shared_RZ_modes_faults with (bin_id := 0%nat).
    + unfold cell_volume, unit_cells. lra.
    + vm_compute. discriminate.
    + lia.
    + simpl. lia.
    + simpl. lia.
Qed.

(** ** A particle on the axis *)

(** Over one particle the direct kernel is the body of its loop, and so
    is the tiled kernel built without CUDA or HIP when the permutation
    sends the particle to itself. *)
Lemma doChargeDepositionShapeN_one_particle g depos_order GetPosition wp ion_lev
      rho_arr rho_type dx xyzmin lo q n_modes inv :
  inverse_cell_size g dx = Ok inv ->
  doChargeDepositionShapeN g depos_order GetPosition wp ion_lev rho_arr rho_type
                           1 dx xyzmin lo q n_modes
  = deposit_particle g depos_order GetPosition wp ion_lev rho_type inv xyzmin lo
                     q n_modes 0 rho_arr.
Proof.
  intros Einv. unfold doChargeDepositionShapeN. rewrite Einv. cbn [bind].
  change (Z.to_nat 1) with 1%nat. apply for_loop_one.
Qed.

Lemma tiled_without_shared_memory_one_particle
      getTileIndex max_shared_mem_bytes sizeof_Real g depos_order GetPosition wp
      ion_lev rho_arr rho_type ix_type dx xyzmin lo q n_modes a_bins box geom
      a_tbox_max_size bin_size inv :
  inverse_cell_size g dx = Ok inv ->
  permutationPtr a_bins 0%nat = 0%nat ->
  doChargeDepositionSharedShapeN
    false getTileIndex max_shared_mem_bytes sizeof_Real g depos_order GetPosition
    wp ion_lev rho_arr rho_type ix_type 1 dx xyzmin lo q n_modes a_bins box geom
    a_tbox_max_size bin_size
  = deposit_particle g depos_order GetPosition wp ion_lev rho_type inv xyzmin lo
                     q n_modes 0 rho_arr.
Proof.
  intros Einv Hperm. unfold doChargeDepositionSharedShapeN. rewrite Einv.
  cbn [bind]. change (Z.to_nat 1) with 1%nat. rewrite for_loop_one, Hperm.
  reflexivity.
Qed.

(** X30. A particle on the axis, at the level of the kernels, over exact
    real arithmetic.  The direction decomposition returns a unit vector
    for every position: it never divides by zero.  In the RZ build, one
    particle with sqrt (xp^2 + yp^2) = 0 in range of the grid: its
    direction is (1, 0), taken without a quotient; the direct kernel, and the tiled kernel
    built without CUDA or HIP, return one and the same grid, in which
    every stencil cell has received, for every mode m with
    1 <= m < n_rz_azimuthal_modes, 2 sx[ix] sz[iz] wq in the cosine
    component 2m-1 and nothing in the sine component 2m: what a particle
    at theta = 0 deposits. *)
Theorem RZ_on_axis_particle_deposits_pure_cosine
        (getTileIndex : IntVect -> Box -> bool -> IntVect -> Box)
        (max_shared_mem_bytes sizeof_Real : Z)
        (depos_order : nat) (GetPosition : nat -> R * R * R) (wp : nat -> R)
        (ion_lev : option (nat -> Z)) (rho_arr : Array4)
        (rho_type ix_type : IntVect) (dx xyzmin : Real3)
        (lo : Dim3) (q : R) (n_rz_azimuthal_modes : Z) (a_bins : DenseBins)
        (box : Box) (geom : AmrexGeometry) (a_tbox_max_size bin_size : IntVect)
        (inv : InverseCell) (xp yp zp : R) (i k : Z) (sx sz : list R) :
  inverse_cell_size DIM_RZ dx = Ok inv ->
  GetPosition 0%nat = (xp, yp, zp) ->
  sqrt (xp * xp + yp * yp) = 0 ->
  shape_along depos_order (iv_get rho_type 0)
              ((sqrt (xp * xp + yp * yp) - xyzmin 0%nat) * dxi inv) = (i, sx) ->
  shape_along depos_order (iv_get rho_type 1)
              ((zp - xyzmin 2%nat) * dzi inv) = (k, sz) ->
  stencil_in_range DIM_RZ depos_order GetPosition wp ion_lev rho_arr rho_type dx
                   xyzmin lo q n_rz_azimuthal_modes 0 ->
  permutationPtr a_bins 0%nat = 0%nat ->
  (forall x y, exists costheta sintheta,
        rz_direction x y = Ok (costheta, sintheta)
        /\ costheta * costheta + sintheta * sintheta = 1)
  /\ rz_direction xp yp = Ok (1, 0)
  /\ exists rho',
      doChargeDepositionShapeN DIM_RZ depos_order GetPosition wp ion_lev rho_arr
                               rho_type 1 dx xyzmin lo q n_rz_azimuthal_modes
      = Ok rho'
      /\ doChargeDepositionSharedShapeN
           false getTileIndex max_shared_mem_bytes sizeof_Real DIM_RZ depos_order
           GetPosition wp ion_lev rho_arr rho_type ix_type 1 dx xyzmin lo q
           n_rz_azimuthal_modes a_bins box geom a_tbox_max_size bin_size
         = Ok rho'
      /\ forall ix iz m : nat,
          (ix <= depos_order)%nat -> (iz <= depos_order)%nat ->
          (1 <= m)%nat -> (Z.of_nat m < n_rz_azimuthal_modes)%Z ->
          a_data rho' (d3x lo + i + Z.of_nat ix) (d3y lo + k + Z.of_nat iz) 0
                 (2 * Z.of_nat m - 1)
          = a_data rho_arr (d3x lo + i + Z.of_nat ix) (d3y lo + k + Z.of_nat iz)
                   0 (2 * Z.of_nat m - 1)
            + 2 * nth ix sx 0 * nth iz sz 0
              * deposited_weight wp ion_lev inv q 0
          /\ a_data rho' (d3x lo + i + Z.of_nat ix) (d3y lo + k + Z.of_nat iz) 0
                    (2 * Z.of_nat m)
             = a_data rho_arr (d3x lo + i + Z.of_nat ix)
                      (d3y lo + k + Z.of_nat iz) 0 (2 * Z.of_nat m).
Proof.
  intros Einv Epos Haxis Esx Esz Hrange Hperm.
  destruct (rz_direction_total xp yp) as (c & s & Edir & _ & Hon & _).
  destruct (Hon Haxis) as [-> ->].
  split.
  { intros x y. destruct (rz_direction_total x y) as (c & s & E & Hunit & _).
    exists c, s. auto. }
  split; [exact Edir|].
  destruct (deposit_particle_RZ_modes
              depos_order GetPosition wp ion_lev rho_type inv xyzmin lo q
              n_rz_azimuthal_modes 0 rho_arr xp yp zp i k sx sz Epos Esx Esz
              (fun l El => Hrange inv l Einv El))
    as (rho' & xy0 & Erun & Edir' & Hmodes).
  rewrite Edir in Edir'. apply Ok_inj in Edir'. subst xy0.
  exists rho'. split; [|split].
  - rewrite (doChargeDepositionShapeN_one_particle _ _ _ _ _ _ _ _ _ _ _ _ inv Einv).
    exact Erun.
  - rewrite (tiled_without_shared_memory_one_particle
               _ _ _ _ _ _ _ _ _ _ _ _ _ _ _ _ _ _ _ _ _ inv Einv Hperm).
    exact Erun.
  - intros ix iz m Hix Hiz Hm Hn.
    destruct (Hmodes ix iz m Hix Hiz Hm Hn) as [Hcos Hsin].
    rewrite Hcos, Hsin, Cpow_one_zero. cbn [fst snd]. split; ring.
Qed.

(** The example: order 0, two modes, unit cells, one particle at the
    origin. *)
Lemma on_axis_shapes :
  shape_along 0 (iv_get [NODE; NODE] 0)
              ((sqrt (0 * 0 + 0 * 0) - origin 0%nat) * dxi rz_inverse)
  = (0%Z, [1])
  /\ shape_along 0 (iv_get [NODE; NODE] 1) ((0 - origin 2%nat) * dzi rz_inverse)
     = (0%Z, [1]).
Proof.
  split.
  - apply shape_order0_node. rewrite radius_on_axis.
    unfold origin, rz_inverse. cbn [dxi]. lra.
  - apply shape_order0_node. unfold origin, rz_inverse. cbn [dzi]. lra.
Qed.

Lemma on_axis_deposits l :
  particle_deposits DIM_RZ 0 on_axis unit_weight None [NODE; NODE] rz_inverse
                    origin (mkDim3 0 0 0) 1 2 0 = Ok l ->
  exists v0 v1 v2,
    l = [mkDeposit 0 0 0 0 v0; mkDeposit 0 0 0 1 v1; mkDeposit 0 0 0 2 v2]
    /\ v0 = 1 /\ v1 = 2 /\ v2 = 0.
Proof.
  destruct on_axis_shapes as [Esx Esz].
  unfold particle_deposits, on_axis. cbv zeta.
  rewrite rz_direction_on_axis. cbn [bind].
  rewrite Esx. change (WARPX_ZINDEX DIM_RZ) with 1%nat. rewrite Esz.
  intros E. apply Ok_inj in E. subst l.
  unfold mode_deposits. change (Z.to_nat (2 - 1)) with 1%nat.
  cbn [seq flat_map map app d3x d3y Z.of_nat Z.add Z.mul Z.sub Z.opp Z.pos_sub
       Pos.of_succ_nat Pos.mul Pos.add Pos.succ Pos.pred_double Z.succ_double
       Z.pred_double Z.double nth Cpow fst snd].
  do 3 eexists. split; [reflexivity|].
  unfold unit_weight, rz_inverse. cbn [invvol]. repeat split; lra.
Qed.

Lemma on_axis_in_range :
  stencil_in_range DIM_RZ 0 on_axis unit_weight None rz_grid [NODE; NODE]
                   unit_cells origin (mkDim3 0 0 0) 1 2 0.
Proof.
  intros inv l Einv El. apply rz_inverse_unique in Einv. subst inv.
  destruct (on_axis_deposits l El) as (v0 & v1 & v2 & -> & _). reflexivity.
Qed.


Lemma RZ_on_axis_particle_deposits_pure_cosine_witness :
  (forall x y, exists costheta sintheta,
        rz_direction x y = Ok (costheta, sintheta)
        /\ costheta * costheta + sintheta * sintheta = 1)
  /\ rz_direction 0 0 = Ok (1, 0)
  /\ exists rho',
      doChargeDepositionShapeN DIM_RZ 0 on_axis unit_weight None rz_grid
                               [NODE; NODE] 1 unit_cells origin (mkDim3 0 0 0)
                               1 2 = Ok rho'
      /\ doChargeDepositionSharedShapeN
           false whole_box 49152 8 DIM_RZ 0 on_axis unit_weight None rz_grid
           [NODE; NODE] [NODE; NODE] 1 unit_cells origin (mkDim3 0 0 0) 1 2
           one_bin ten_by_ten unit_geom [4%Z; 4%Z] [4%Z; 4%Z] = Ok rho'
      /\ forall ix iz m : nat,
          (ix <= 0)%nat -> (iz <= 0)%nat ->
          (1 <= m)%nat -> (Z.of_nat m < 2)%Z ->
          a_data rho' (d3x (mkDim3 0 0 0) + 0 + Z.of_nat ix)
                 (d3y (mkDim3 0 0 0) + 0 + Z.of_nat iz) 0 (2 * Z.of_nat m - 1)
          = a_data rz_grid (d3x (mkDim3 0 0 0) + 0 + Z.of_nat ix)
                   (d3y (mkDim3 0 0 0) + 0 + Z.of_nat iz) 0 (2 * Z.of_nat m - 1)
            + 2 * nth ix [1] 0 * nth iz [1] 0
              * deposited_weight unit_weight None rz_inverse 1 0
          /\ a_data rho' (d3x (mkDim3 0 0 0) + 0 + Z.of_nat ix)
                    (d3y (mkDim3 0 0 0) + 0 + Z.of_nat iz) 0 (2 * Z.of_nat m)
             = a_data rz_grid (d3x (mkDim3 0 0 0) + 0 + Z.of_nat ix)
                      (d3y (mkDim3 0 0 0) + 0 + Z.of_nat iz) 0 (2 * Z.of_nat m).
Proof.
  apply (RZ_on_axis_particle_deposits_pure_cosine
           whole_box 49152 8 0 on_axis unit_weight None rz_grid [NODE; NODE]
           [NODE; NODE] unit_cells origin (mkDim3 0 0 0) 1 2 one_bin ten_by_ten
           unit_geom [4%Z; 4%Z] [4%Z; 4%Z] rz_inverse 0 0 0 0%Z 0%Z [1] [1]).
  - exact rz_inverse_cell.
  - reflexivity.
  - exact radius_on_axis.
  - exact (proj1 on_axis_shapes).
  - exact (proj2 on_axis_shapes).
  - exact on_axis_in_range.
  - reflexivity.
Defined.

Local Close Scope R_scope.

(* ================================================================== *)
(** * Sorting utilities: SortingUtils.cpp *)
(* ================================================================== *)

Lemma vector_set_app {A} (pre : list A) x rest y :
  vector_set (pre ++ x :: rest) (length pre) y = pre ++ y :: rest.
Proof.
  induction pre as [|p pre IH]; simpl; [reflexivity|]. rewrite IH. reflexivity.
Qed.

Lemma fill_integers_from (rest : list Z) :
  forall pre : list Z,
    pure_loop_from (length pre) (length rest)
                   (fun i data => vector_set data i (Z.of_nat i)) (pre ++ rest)
    = pre ++ map Z.of_nat (seq (length pre) (length rest)).
Proof.
  induction rest as [|x rest IH]; intros pre; [reflexivity|].
  cbn [length pure_loop_from seq map]. rewrite vector_set_app.
  specialize (IH (pre ++ [Z.of_nat (length pre)])).
  rewrite length_app, Nat.add_1_r, <- !app_assoc in IH. exact IH.
Qed.

(** X2. fillWithConsecutiveIntegers fills v with 0, 1, ..., v.size() - 1. *)
Lemma fillWithConsecutiveIntegers_iota (v : list Z) :
  fillWithConsecutiveIntegers v = map Z.of_nat (seq 0 (length v)).
Proof. apply (fill_integers_from v []). Qed.

Lemma pure_loop_from_idle {St} (body : nat -> St -> St) n :
  (forall i s, body i s = s) ->
  forall start s, pure_loop_from start n body s = s.
Proof.
  intros Hid. induction n as [|n IH]; intros start s; [reflexivity|].
  cbn [pure_loop_from]. rewrite Hid. apply IH.
Qed.

(** X3. fillWithConsecutiveReal leaves every vector as it found it. *)
Lemma fillWithConsecutiveReal_leaves_vector (v : list R) (begin increment : R)
      (N : Z) :
  fillWithConsecutiveReal v begin increment N = v.
Proof.
  unfold fillWithConsecutiveReal, pure_loop. apply pure_loop_from_idle.
  reflexivity.
Qed.

(** C10, at the failing input.  v = (0, 0, 0), begin = 1,
    increment = 0.5, N = 3: the vector comes back as (0, 0, 0); its
    element 1 is not begin + 1 * increment. *)
Theorem fillWithConsecutiveReal_fills_nothing :
  fillWithConsecutiveReal [0; 0; 0]%R 1%R 0.5%R 3 = [0; 0; 0]%R
  /\ nth 1 (fillWithConsecutiveReal [0; 0; 0]%R 1%R 0.5%R 3) 0%R
     <> (1 + INR 1 * 0.5)%R.
Proof.
  rewrite fillWithConsecutiveReal_leaves_vector. split; [reflexivity|].
  simpl. lra.
Qed.

(* ================================================================== *)
(** * The fluid utilities: limiters, edge values, fluxes *)
(* ================================================================== *)

Section Muscl_limiters.

Import Muscl.

Local Open Scope R_scope.

Lemma Rltb_true a b : a < b -> Rltb a b = true.
Proof. intros H. unfold Rltb. destruct (Rlt_dec a b); [reflexivity|lra]. Qed.

Lemma Rltb_false a b : b <= a -> Rltb a b = false.
Proof. intros H. unfold Rltb. destruct (Rlt_dec a b); [lra|reflexivity]. Qed.

Lemma std_min_Rmin a b : std_min a b = Rmin a b.
Proof.
  unfold std_min, Rltb, Rmin.
  destruct (Rlt_dec b a), (Rle_dec a b); lra.
Qed.

Lemma std_max_Rmax a b : std_max a b = Rmax a b.
Proof.
  unfold std_max, Rltb, Rmax.
  destruct (Rlt_dec a b), (Rle_dec a b); lra.
Qed.

(** Case analysis on the comparisons of a goal, innermost first, leaving
    the consistent cases to linear arithmetic. *)
Ltac plain x :=
  lazymatch x with
  | context [Rle_dec _ _] => fail
  | context [Rlt_dec _ _] => fail
  | context [Rcase_abs _] => fail
  | _ => idtac
  end.

Ltac comparisons :=
  unfold Rmin, Rmax, Rabs;
  repeat (match goal with
          | |- context [Rle_dec ?a ?b] =>
            plain a; plain b; destruct (Rle_dec a b)
          | |- context [Rlt_dec ?a ?b] =>
            plain a; plain b; destruct (Rlt_dec a b)
          | |- context [Rcase_abs ?a] => plain a; destruct (Rcase_abs a)
          end; cbv iota; try (exfalso; lra));
  try lra.

Lemma sign_cases a b :
  a * b <= 0 \/ (0 < a /\ 0 < b) \/ (a < 0 /\ b < 0).
Proof.
  destruct (Rlt_dec 0 a), (Rlt_dec 0 b), (Rlt_dec a 0), (Rlt_dec b 0);
    try lra; try (left; nra); try (right; lra).
Qed.

Lemma minmod_positive a b : 0 < a -> 0 < b -> minmod a b = Rmin a b.
Proof.
  intros Ha Hb. unfold minmod.
  rewrite (Rltb_true 0 a), (Rltb_true 0 b) by lra. apply std_min_Rmin.
Qed.

Lemma minmod_negative a b : a < 0 -> b < 0 -> minmod a b = Rmax a b.
Proof.
  intros Ha Hb. unfold minmod.
  rewrite (Rltb_false 0 a), (Rltb_true a 0), (Rltb_true b 0) by lra.
  apply std_max_Rmax.
Qed.

Lemma minmod_opposite a b : a * b <= 0 -> minmod a b = 0.
Proof.
  intros H. unfold minmod, Rltb.
  destruct (Rlt_dec 0 a), (Rlt_dec 0 b), (Rlt_dec a 0), (Rlt_dec b 0);
    cbn [andb]; try reflexivity; exfalso; nra.
Qed.

Lemma maxmod_positive a b : 0 < a -> 0 < b -> maxmod a b = Rmax a b.
Proof.
  intros Ha Hb. unfold maxmod.
  rewrite (Rltb_true 0 a), (Rltb_true 0 b) by lra. apply std_max_Rmax.
Qed.

Lemma maxmod_negative a b : a < 0 -> b < 0 -> maxmod a b = Rmin a b.
Proof.
  intros Ha Hb. unfold maxmod.
  rewrite (Rltb_false 0 a), (Rltb_true a 0), (Rltb_true b 0) by lra.
  apply std_min_Rmin.
Qed.

Lemma maxmod_opposite a b : a * b <= 0 -> maxmod a b = 0.
Proof.
  intros H. unfold maxmod, Rltb.
  destruct (Rlt_dec 0 a), (Rlt_dec 0 b), (Rlt_dec a 0), (Rlt_dec b 0);
    cbn [andb]; try reflexivity; exfalso; nra.
Qed.

(** X6. The two-slope limiters.  minmod and maxmod of two slopes of
    opposite sign (or one of them zero) are 0; of two slopes of the same
    sign they are the slope of least, respectively greatest, magnitude,
    with that sign.  Both are symmetric and odd. *)
Theorem minmod_maxmod_select (a b : R) :
  (a * b <= 0 -> minmod a b = 0 /\ maxmod a b = 0)
  /\ (0 < a -> 0 < b -> minmod a b = Rmin a b /\ maxmod a b = Rmax a b)
  /\ (a < 0 -> b < 0 -> minmod a b = Rmax a b /\ maxmod a b = Rmin a b)
  /\ minmod a b = minmod b a
  /\ maxmod a b = maxmod b a
  /\ minmod (- a) (- b) = - minmod a b
  /\ maxmod (- a) (- b) = - maxmod a b.
Proof.
  split; [intros; split; [apply minmod_opposite|apply maxmod_opposite]; lra|].
  split; [intros; split; [apply minmod_positive|apply maxmod_positive]; lra|].
  split; [intros; split; [apply minmod_negative|apply maxmod_negative]; lra|].
  destruct (sign_cases a b) as [H|[[Ha Hb]|[Ha Hb]]].
  - rewrite !minmod_opposite, !maxmod_opposite by nra.
    repeat split; lra.
  - rewrite (minmod_positive a b), (minmod_positive b a), (maxmod_positive a b),
      (maxmod_positive b a), (minmod_negative (- a) (- b)),
      (maxmod_negative (- a) (- b)) by lra.
    repeat split; comparisons.
  - rewrite (minmod_negative a b), (minmod_negative b a), (maxmod_negative a b),
      (maxmod_negative b a), (minmod_positive (- a) (- b)),
      (maxmod_positive (- a) (- b)) by lra.
    repeat split; comparisons.
Qed.

Lemma min3_Rmin a b c : min3 a b c = Rmin a (Rmin b c).
Proof. unfold min3. rewrite !std_min_Rmin. reflexivity. Qed.

Lemma max3_Rmax a b c : max3 a b c = Rmax a (Rmax b c).
Proof. unfold max3. rewrite !std_max_Rmax. reflexivity. Qed.

Lemma minmod3_positive a b c :
  0 < a -> 0 < b -> 0 < c -> minmod3 a b c = Rmin a (Rmin b c).
Proof.
  intros Ha Hb Hc. unfold minmod3.
  rewrite (Rltb_true 0 a), (Rltb_true 0 b), (Rltb_true 0 c) by lra.
  apply min3_Rmin.
Qed.

Lemma minmod3_negative a b c :
  a < 0 -> b < 0 -> c < 0 -> minmod3 a b c = Rmax a (Rmax b c).
Proof.
  intros Ha Hb Hc. unfold minmod3.
  rewrite (Rltb_false 0 a), (Rltb_true a 0), (Rltb_true b 0), (Rltb_true c 0)
    by lra.
  apply max3_Rmax.
Qed.

Lemma ave_positive a b :
  0 < a -> 0 < b -> ave a b = Rmin ((a + b) / 2) (Rmin (2 * a) (2 * b)).
Proof.
  intros Ha Hb. unfold ave. rewrite Rltb_true by nra.
  rewrite minmod3_positive by lra. f_equal; [lra|f_equal; lra].
Qed.

Lemma ave_negative a b :
  a < 0 -> b < 0 -> ave a b = Rmax ((a + b) / 2) (Rmax (2 * a) (2 * b)).
Proof.
  intros Ha Hb. unfold ave. rewrite Rltb_true by nra.
  rewrite minmod3_negative by lra. f_equal; [lra|f_equal; lra].
Qed.

Lemma ave_opposite a b : a * b <= 0 -> ave a b = 0.
Proof. intros H. unfold ave. rewrite Rltb_false by lra. reflexivity. Qed.

Lemma ave_adjustable_positive a b :
  0 < a -> 0 < b ->
  ave_adjustable_diff a b
  = Rmin ((a + b) / 2) (Rmin (sigma_adjustable * a) (sigma_adjustable * b)).
Proof.
  intros Ha Hb. unfold ave_adjustable_diff. rewrite Rltb_true by nra.
  rewrite minmod3_positive by (unfold sigma_adjustable; lra). f_equal. lra.
Qed.

Lemma ave_adjustable_negative a b :
  a < 0 -> b < 0 ->
  ave_adjustable_diff a b
  = Rmax ((a + b) / 2) (Rmax (sigma_adjustable * a) (sigma_adjustable * b)).
Proof.
  intros Ha Hb. unfold ave_adjustable_diff. rewrite Rltb_true by nra.
  rewrite minmod3_negative by (unfold sigma_adjustable; lra). f_equal. lra.
Qed.

Lemma ave_adjustable_opposite a b : a * b <= 0 -> ave_adjustable_diff a b = 0.
Proof.
  intros H. unfold ave_adjustable_diff. rewrite Rltb_false by lra. reflexivity.
Qed.

Lemma ave_superbee_positive a b :
  0 < a -> 0 < b -> ave_superbee a b = Rmin (Rmax a b) (Rmin (2 * a) (2 * b)).
Proof.
  intros Ha Hb. unfold ave_superbee. rewrite Rltb_true by nra.
  rewrite maxmod_positive, (minmod_positive (2.0 * a)) by lra.
  rewrite minmod_positive.
  - f_equal. f_equal; lra.
  - comparisons.
  - comparisons.
Qed.

Lemma ave_superbee_negative a b :
  a < 0 -> b < 0 -> ave_superbee a b = Rmax (Rmin a b) (Rmax (2 * a) (2 * b)).
Proof.
  intros Ha Hb. unfold ave_superbee. rewrite Rltb_true by nra.
  rewrite maxmod_negative, (minmod_negative (2.0 * a)) by lra.
  rewrite minmod_negative.
  - f_equal. f_equal; lra.
  - comparisons.
  - comparisons.
Qed.

Lemma ave_superbee_opposite a b : a * b <= 0 -> ave_superbee a b = 0.
Proof.
  intros H. unfold ave_superbee. rewrite Rltb_false by lra. reflexivity.
Qed.

(** X7. The limiters in the order of their diffusivity, over exact real
    arithmetic: for every pair of real slopes the magnitudes of minmod,
    ave_adjustable_diff, ave, ave_superbee and maxmod do not decrease in
    that order.  (In amrex::Real the product a * b of two tiny slopes of
    one sign can underflow to 0; the three averaging limiters then return
    0 and the first inequality fails.) *)
Theorem limiters_ordered_by_diffusivity (a b : R) :
  Rabs (minmod a b) <= Rabs (ave_adjustable_diff a b)
  /\ Rabs (ave_adjustable_diff a b) <= Rabs (ave a b)
  /\ Rabs (ave a b) <= Rabs (ave_superbee a b)
  /\ Rabs (ave_superbee a b) <= Rabs (maxmod a b).
Proof.
  destruct (sign_cases a b) as [H|[[Ha Hb]|[Ha Hb]]].
  - rewrite minmod_opposite, maxmod_opposite, ave_adjustable_opposite,
      ave_opposite, ave_superbee_opposite by lra.
    rewrite Rabs_R0. lra.
  - rewrite minmod_positive, maxmod_positive, ave_adjustable_positive,
      ave_positive, ave_superbee_positive by lra.
    unfold sigma_adjustable. repeat split; comparisons.
  - rewrite minmod_negative, maxmod_negative, ave_adjustable_negative,
      ave_negative, ave_superbee_negative by lra.
    unfold sigma_adjustable. repeat split; comparisons.
Qed.

(** X8. Over exact real arithmetic, the averaging limiters
    ave_adjustable_diff, ave and ave_superbee return 0 for slopes of
    opposite sign, a slope between the two for slopes of one sign (real
    product a * b > 0), the common slope when the two are equal, and do
    not depend on the order of the two.  (In amrex::Real the product of
    two tiny slopes of one sign can underflow to 0, and the limiters then
    return 0.) *)
Theorem averaging_limiters_between_slopes (a b : R) :
  (a * b <= 0 ->
   ave_adjustable_diff a b = 0 /\ ave a b = 0 /\ ave_superbee a b = 0)
  /\ (0 < a * b ->
      Rmin a b <= ave_adjustable_diff a b <= Rmax a b
      /\ Rmin a b <= ave a b <= Rmax a b
      /\ Rmin a b <= ave_superbee a b <= Rmax a b)
  /\ (ave_adjustable_diff a a = a /\ ave a a = a /\ ave_superbee a a = a)
  /\ (ave_adjustable_diff a b = ave_adjustable_diff b a
      /\ ave a b = ave b a /\ ave_superbee a b = ave_superbee b a).
Proof.
  split; [|split; [|split]].
  - intros H.
    rewrite ave_adjustable_opposite, ave_opposite, ave_superbee_opposite by lra.
    auto.
  - intros H. destruct (sign_cases a b) as [H0|[[Ha Hb]|[Ha Hb]]]; [lra| |].
    + rewrite ave_adjustable_positive, ave_positive, ave_superbee_positive by lra.
      unfold sigma_adjustable. repeat split; comparisons.
    + rewrite ave_adjustable_negative, ave_negative, ave_superbee_negative by lra.
      unfold sigma_adjustable. repeat split; comparisons.
  - destruct (sign_cases a a) as [H0|[[Ha _]|[Ha _]]].
    + assert (a = 0) by nra. subst a.
      rewrite ave_adjustable_opposite, ave_opposite, ave_superbee_opposite by lra.
      auto.
    + rewrite ave_adjustable_positive, ave_positive, ave_superbee_positive by lra.
      unfold sigma_adjustable. repeat split; comparisons.
    + rewrite ave_adjustable_negative, ave_negative, ave_superbee_negative by lra.
      unfold sigma_adjustable. repeat split; comparisons.
  - destruct (sign_cases a b) as [H0|[[Ha Hb]|[Ha Hb]]].
    + rewrite !ave_adjustable_opposite, !ave_opposite, !ave_superbee_opposite
        by lra. auto.
    + rewrite !ave_adjustable_positive, !ave_positive, !ave_superbee_positive
        by lra.
      unfold sigma_adjustable. repeat split; comparisons.
    + rewrite !ave_adjustable_negative, !ave_negative, !ave_superbee_negative
        by lra.
      unfold sigma_adjustable. repeat split; comparisons.
Qed.

End Muscl_limiters.

Section Muscl_fluxes.

Import Muscl.

Local Open Scope R_scope.

Ltac plain x :=
  lazymatch x with
  | context [Rle_dec _ _] => fail
  | context [Rlt_dec _ _] => fail
  | context [Rcase_abs _] => fail
  | _ => idtac
  end.

Ltac comparisons :=
  unfold std_min, std_max, Rltb, Rmin, Rmax, Rabs;
  repeat (match goal with
          | |- context [Rle_dec ?a ?b] =>
            plain a; plain b; destruct (Rle_dec a b)
          | |- context [Rlt_dec ?a ?b] =>
            plain a; plain b; destruct (Rlt_dec a b)
          | |- context [Rcase_abs ?a] => plain a; destruct (Rcase_abs a)
          end; cbv iota; try (exfalso; lra));
  try lra.

Lemma checked_div_ok a b : b <> 0 -> checked_div a b = Ok (a / b).
Proof.
  intros H. unfold checked_div. destruct (Req_dec_T b 0); [contradiction|].
  reflexivity.
Qed.

Lemma checked_div_zero a : checked_div a 0 = Err DivideByZero.
Proof.
  unfold checked_div. destruct (Req_dec_T 0 0); [reflexivity|contradiction].
Qed.

Lemma stage2_distance (a b c : R) :
  let m := std_min (b - min3 a b c) (max3 a b c - b) in
  0 <= m
  /\ m <= b - Rmin a (Rmin b c)
  /\ m <= Rmax a (Rmax b c) - b
  /\ ((b <= a /\ b <= c) \/ (a <= b /\ c <= b) -> m = 0).
Proof.
  cbv zeta. unfold min3, max3.
  repeat split; intros; comparisons.
Qed.

(** X9. Stage-2 slope limiting.  For dQ = 0 the quotient |dQ| / dQ has
    no value.  Otherwise the slope returned has the sign of dQ, a
    magnitude of at most |dQ| and of at most sigma times twice the
    distance of b to the least and to the greatest of a, b, c; it is 0
    when b is the least or the greatest of the three. *)
Theorem ave_stage2_limits (dQ a b c : R) :
  (dQ = 0 -> ave_stage2 dQ a b c = Err DivideByZero)
  /\ (dQ <> 0 ->
      exists s,
        ave_stage2 dQ a b c = Ok s
        /\ 0 <= s * dQ
        /\ Rabs s <= Rabs dQ
        /\ Rabs s <= sigma_stage2 * (2 * (b - Rmin a (Rmin b c)))
        /\ Rabs s <= sigma_stage2 * (2 * (Rmax a (Rmax b c) - b))
        /\ ((b <= a /\ b <= c) \/ (a <= b /\ c <= b) -> s = 0)).
Proof.
  split.
  - intros ->. unfold ave_stage2. rewrite checked_div_zero. reflexivity.
  - intros HdQ. unfold ave_stage2. rewrite checked_div_ok by exact HdQ.
    cbn [bind]. eexists. split; [reflexivity|].
    destruct (stage2_distance a b c) as (Hm0 & Hm1 & Hm2 & Hm3).
    set (m := std_min (b - min3 a b c) (max3 a b c - b)) in *.
    replace (Rabs (2.0 * m)) with (2 * m) by (rewrite Rabs_pos_eq; lra).
    assert (Hsig : 0 < sigma_stage2) by (unfold sigma_stage2; lra).
    set (t := std_min (Rabs dQ) (sigma_stage2 * (2 * m))).
    assert (Ht : 0 <= t /\ t <= Rabs dQ /\ t <= sigma_stage2 * (2 * m)).
    { unfold t. rewrite std_min_Rmin. pose proof (Rabs_pos dQ).
      assert (0 <= sigma_stage2 * (2 * m)) by nra.
      repeat split; [apply Rmin_glb; lra|apply Rmin_l|apply Rmin_r]. }
    destruct Ht as (Ht0 & Ht1 & Ht2).
    assert (Hext : (b <= a /\ b <= c) \/ (a <= b /\ c <= b) -> t = 0).
    { intros H. specialize (Hm3 H). rewrite Hm3 in Ht2. lra. }
    clearbody t m.
    destruct (Rlt_dec 0 dQ) as [Hpos|Hneg].
    + replace (Rabs dQ / dQ) with 1
        by (rewrite Rabs_pos_eq by lra; field; lra).
      rewrite Rmult_1_l, (Rabs_pos_eq t) by lra.
      repeat split; first [nra | intros H'; apply Hext, H'].
    + assert (dQ < 0) by lra.
      replace (Rabs dQ / dQ) with (-1)
        by (rewrite Rabs_left by lra; field; lra).
      replace (Rabs (-1 * t)) with t
        by (rewrite Rabs_left1 by lra; lra).
      repeat split; first [nra | intros H'; rewrite (Hext H'); lra].
Qed.

Lemma Array4_read_ok a i j k n :
  Array4_contains a i j k n = true -> Array4_read a i j k n = Ok (a_data a i j k n).
Proof. intros H. unfold Array4_read. rewrite H. reflexivity. Qed.

Lemma Array4_read_outside a i j k n :
  Array4_contains a i j k n = false -> Array4_read a i j k n = Err OutOfRange.
Proof. intros H. unfold Array4_read. rewrite H. reflexivity. Qed.


Lemma gamma_positive s c : 0 <= s -> c <> 0 -> 1 <= 1 + s / (c * c).
Proof.
  intros Hs Hc. assert (0 < c * c) by nra.
  assert (0 <= s / (c * c)).
  { unfold Rdiv. apply Rmult_le_pos; [exact Hs|].
    left. apply Rinv_0_lt_compat. assumption. }
  lra.
Qed.

(** The value of V_calc. *)
Lemma V_calc_value (U : Array4) (i j k comp : Z) (c : R) :
  (0 <= comp <= 2)%Z ->
  (forall n, (1 <= n <= 3)%Z -> Array4_contains U i j k n = true) ->
  c <> 0 ->
  V_calc U i j k comp c
  = Ok (a_data U i j k (comp + 1)
        / sqrt (1 + (a_data U i j k 1 * a_data U i j k 1
                     + a_data U i j k 2 * a_data U i j k 2
                     + a_data U i j k 3 * a_data U i j k 3) / (c * c))).
Proof.
  intros Hcomp Hin Hc. unfold V_calc.
  rewrite (Array4_read_ok U i j k 1), (Array4_read_ok U i j k 2),
          (Array4_read_ok U i j k 3) by (apply Hin; lia).
  cbn [bind].
  set (u1 := a_data U i j k 1). set (u2 := a_data U i j k 2).
  set (u3 := a_data U i j k 3).
  assert (Hs : 0 <= u1 * u1 + u2 * u2 + u3 * u3) by nra.
  assert (Hcc : c * c <> 0) by nra.
  rewrite (checked_div_ok _ _ Hcc). cbn [bind].
  rewrite (Array4_read_ok U i j k (comp + 1)) by (apply Hin; lia).
  cbn [bind].
  pose proof (gamma_positive _ c Hs Hc) as Hg.
  assert (Hsq : 0 < sqrt (1 + (u1 * u1 + u2 * u2 + u3 * u3) / (c * c)))
    by (apply sqrt_lt_R0; lra).
  rewrite checked_div_ok by lra. reflexivity.
Qed.

(** X11. The velocity at the half step, over exact real arithmetic.
    With c <> 0 and the state in the array, V_calc returns u / gamma,
    gamma = sqrt (1 + |u|^2 / c^2) being at least 1, and the speed it
    returns is strictly below |c|; with c = 0 it has no value.  (In
    amrex::Real the sum 1 + |u|^2 / c^2 rounds to |u|^2 / c^2 for a large
    enough momentum, and the speed returned can then equal |c|.) *)
Theorem V_calc_below_light_speed (U : Array4) (i j k comp : Z) (c : R) :
  (0 <= comp <= 2)%Z ->
  (forall n, (1 <= n <= 3)%Z -> Array4_contains U i j k n = true) ->
  (c = 0 -> V_calc U i j k comp c = Err DivideByZero)
  /\ (c <> 0 ->
      exists V,
        V_calc U i j k comp c = Ok V
        /\ V = a_data U i j k (comp + 1)
               / sqrt (1 + (a_data U i j k 1 * a_data U i j k 1
                            + a_data U i j k 2 * a_data U i j k 2
                            + a_data U i j k 3 * a_data U i j k 3) / (c * c))
        /\ Rabs V < Rabs c).
Proof.
  intros Hcomp Hin. split.
  - intros ->. unfold V_calc.
    rewrite (Array4_read_ok U i j k 1), (Array4_read_ok U i j k 2),
            (Array4_read_ok U i j k 3) by (apply Hin; lia).
    cbn [bind]. rewrite Rmult_0_l, checked_div_zero. reflexivity.
  - intros Hc. rewrite (V_calc_value U i j k comp c Hcomp Hin Hc).
    eexists. split; [reflexivity|]. split; [reflexivity|].
    set (u1 := a_data U i j k 1). set (u2 := a_data U i j k 2).
    set (u3 := a_data U i j k 3).
    assert (Hs : 0 <= u1 * u1 + u2 * u2 + u3 * u3) by nra.
    pose proof (gamma_positive _ c Hs Hc) as Hg.
    set (G := 1 + (u1 * u1 + u2 * u2 + u3 * u3) / (c * c)) in *.
    assert (Hsq : 0 < sqrt G) by (apply sqrt_lt_R0; lra).
    set (u := a_data U i j k (comp + 1)).
    assert (Hu : u * u <= u1 * u1 + u2 * u2 + u3 * u3).
    { assert (Hcase : (comp + 1 = 1 \/ comp + 1 = 2 \/ comp + 1 = 3)%Z) by lia.
      unfold u. destruct Hcase as [ -> | [ -> | -> ] ]; fold u1 u2 u3; nra. }
    assert (HG : G * (c * c) = c * c + (u1 * u1 + u2 * u2 + u3 * u3)).
    { unfold G. field. exact Hc. }
    assert (Hss : sqrt G * sqrt G = G) by (apply sqrt_sqrt; lra).
    unfold Rdiv. rewrite Rabs_mult, Rabs_inv, (Rabs_pos_eq (sqrt G)) by lra.
    assert (Hc0 : 0 < Rabs c) by (apply Rabs_pos_lt; exact Hc).
    assert (Hcabs : Rabs c * Rabs c = c * c).
    { rewrite <- Rabs_mult. apply Rabs_pos_eq. nra. }
    assert (Huabs : Rabs u * Rabs u = u * u).
    { rewrite <- Rabs_mult. apply Rabs_pos_eq. nra. }
    assert (H0u : 0 <= Rabs u) by apply Rabs_pos.
    assert (Hlt : Rabs u * Rabs u < (Rabs c * sqrt G) * (Rabs c * sqrt G)).
    { replace ((Rabs c * sqrt G) * (Rabs c * sqrt G))
        with ((Rabs c * Rabs c) * (sqrt G * sqrt G)) by ring.
      rewrite Hss, Hcabs, Huabs. replace (c * c * G) with (G * (c * c)) by ring.
      rewrite HG. nra. }
    assert (H0r : 0 < Rabs c * sqrt G) by (apply Rmult_lt_0_compat; lra).
    assert (Hlt2 : Rabs u < Rabs c * sqrt G) by nra.
    replace (Rabs c) with (Rabs c * sqrt G * / sqrt G) by (field; lra).
    apply Rmult_lt_compat_r; [apply Rinv_0_lt_compat; exact Hsq|exact Hlt2].
Qed.


(** ** Edge values *)

Lemma write_state_ok (U : Array4) (i j k : Z) (v0 v1 v2 v3 : R) :
  (forall n, (0 <= n <= 3)%Z -> Array4_contains U i j k n = true) ->
  exists U',
    write_state U i j k v0 v1 v2 v3 = Ok U'
    /\ same_extent U' U
    /\ a_data U' i j k 0 = v0 /\ a_data U' i j k 1 = v1
    /\ a_data U' i j k 2 = v2 /\ a_data U' i j k 3 = v3
    /\ (forall i' j' k' n',
           (i', j', k') <> (i, j, k) \/ ~ (0 <= n' <= 3)%Z ->
           a_data U' i' j' k' n' = a_data U i' j' k' n').
Proof.
  intros Hin. unfold write_state, Array4_write.
  rewrite (Hin 0%Z) by lia. cbn [bind].
  rewrite Array4_contains_update, (Hin 1%Z) by lia. cbn [bind].
  rewrite !Array4_contains_update, (Hin 2%Z) by lia. cbn [bind].
  rewrite !Array4_contains_update, (Hin 3%Z) by lia.
  eexists. split; [reflexivity|].
  split; [repeat apply same_extent_update; apply same_extent_refl|].
  cbn [Array4_update a_data]. unfold same_cell. rewrite !Z.eqb_refl.
  cbn [andb].
  repeat split; try reflexivity.
  intros i' j' k' n' Hne.
  destruct (Z.eqb_spec i i'), (Z.eqb_spec j j'), (Z.eqb_spec k k');
    cbn [andb]; try reflexivity.
  subst. destruct Hne as [Hne|Hne]; [congruence|].
  destruct (Z.eqb_spec 3 n'), (Z.eqb_spec 2 n'), (Z.eqb_spec 1 n'),
           (Z.eqb_spec 0 n'); try reflexivity; lia.
Qed.


(** X14. The positivity limiter.  With the cells of the box in the
    arrays and a density N >= 0 at the cell, the limiter returns, and
    afterwards the density of the minus edge at a cell of the box and of
    the plus edge at a plus cell of the box is not negative.  When both
    are in the box and one of the two densities was negative, both edges
    hold the cell-centred state (N, Ux, Uy, Uz): the slope is zero. *)
Theorem positivity_limiter_densities_nonnegative
        (g : Geometry) (U_edge_plus U_edge_minus N_arr : Array4) (i j k : Z)
        (box : Box) (Ux Uy Uz : R) (comp : Z) (ijkp : Z * Z * Z)
        (ip jp kp : Z) :
  plus_index_offsets g i j k ijkp comp = (ip, jp, kp) ->
  (Box_contains g box [i; j; k] = true ->
   forall n, (0 <= n <= 3)%Z -> Array4_contains U_edge_minus i j k n = true) ->
  (Box_contains g box [ip; jp; kp] = true ->
   forall n, (0 <= n <= 3)%Z -> Array4_contains U_edge_plus ip jp kp n = true) ->
  Array4_contains N_arr i j k 0 = true ->
  0 <= a_data N_arr i j k 0 ->
  exists Up' Um',
    positivity_limiter g U_edge_plus U_edge_minus N_arr i j k box Ux Uy Uz
                       comp ijkp = Ok (Up', Um')
    /\ (Box_contains g box [i; j; k] = true -> 0 <= a_data Um' i j k 0)
    /\ (Box_contains g box [ip; jp; kp] = true -> 0 <= a_data Up' ip jp kp 0)
    /\ (Box_contains g box [i; j; k] = true ->
        Box_contains g box [ip; jp; kp] = true ->
        a_data U_edge_minus i j k 0 < 0 \/ a_data U_edge_plus ip jp kp 0 < 0 ->
        forall n v,
          In (n, v) [(0%Z, a_data N_arr i j k 0); (1%Z, Ux); (2%Z, Uy);
                     (3%Z, Uz)] ->
          a_data Um' i j k n = v /\ a_data Up' ip jp kp n = v)
    /\ (0 <= a_data U_edge_minus i j k 0 ->
        0 <= a_data U_edge_plus ip jp kp 0 ->
        Up' = U_edge_plus /\ Um' = U_edge_minus).
Proof.
  intros Hoff Hm Hp HN HN0. unfold positivity_limiter. rewrite Hoff. cbv zeta.
  rewrite (Array4_read_ok N_arr i j k 0 HN). cbn [bind].
  destruct (Box_contains g box [i; j; k]) eqn:Ebm;
    destruct (Box_contains g box [ip; jp; kp]) eqn:Ebp; cbn [andb negb].
  - rewrite (Array4_read_ok U_edge_minus i j k 0) by (apply Hm; [reflexivity|lia]).
    cbn [bind].
    rewrite (Array4_read_ok U_edge_plus ip jp kp 0)
      by (apply Hp; [reflexivity|lia]).
    destruct (write_state_ok U_edge_minus i j k (a_data N_arr i j k 0) Ux Uy Uz
                             (Hm eq_refl))
      as (Um' & Em & _ & M0 & M1 & M2 & M3 & _).
    destruct (write_state_ok U_edge_plus ip jp kp (a_data N_arr i j k 0) Ux Uy Uz
                             (Hp eq_refl))
      as (Up' & Ep & _ & P0 & P1 & P2 & P3 & _).
    assert (Hreset :
              exists Up'0 Um'0,
                (Um'1 <- write_state U_edge_minus i j k (a_data N_arr i j k 0)
                                     Ux Uy Uz ;;
                 Up'1 <- write_state U_edge_plus ip jp kp (a_data N_arr i j k 0)
                                     Ux Uy Uz ;;
                 Ok (Up'1, Um'1)) = Ok (Up'0, Um'0)
                /\ Up'0 = Up' /\ Um'0 = Um').
    { rewrite Em. cbn [bind]. rewrite Ep. cbn [bind]. eauto. }
    destruct Hreset as (Up0 & Um0 & Ereset & -> & ->).
    unfold Rltb.
    destruct (Rlt_dec (a_data U_edge_minus i j k 0) 0) as [Hneg|Hpos];
      cbn [bind].
    + rewrite Ereset. exists Up', Um'. split; [reflexivity|].
      split; [intros _; lra|]. split; [intros _; lra|].
      split; [|intros; lra].
      intros _ _ _ n v Hn. cbn [In] in Hn.
      destruct Hn as [E|[E|[E|[E|[]]]]]; inversion E; subst; auto.
    + destruct (Rlt_dec (a_data U_edge_plus ip jp kp 0) 0) as [Hneg'|Hpos'];
        cbn [bind].
      * rewrite Ereset. exists Up', Um'. split; [reflexivity|].
        split; [intros _; lra|]. split; [intros _; lra|].
        split; [|intros; lra].
        intros _ _ _ n v Hn. cbn [In] in Hn.
        destruct Hn as [E|[E|[E|[E|[]]]]]; inversion E; subst; auto.
      * exists U_edge_plus, U_edge_minus. split; [reflexivity|].
        split; [intros _; lra|]. split; [intros _; lra|].
        split; [intros _ _ [H|H]; lra|auto].
  - rewrite (Array4_read_ok U_edge_minus i j k 0) by (apply Hm; [reflexivity|lia]).
    cbn [bind]. unfold Rltb.
    destruct (Rlt_dec (a_data U_edge_minus i j k 0) 0) as [Hneg|Hpos].
    + destruct (write_state_ok U_edge_minus i j k (a_data N_arr i j k 0) Ux Uy
                               Uz (Hm eq_refl))
        as (Um' & Em & _ & M0 & _).
      rewrite Em. cbn [bind]. exists U_edge_plus, Um'. split; [reflexivity|].
      split; [intros _; lra|]. split; [discriminate|].
      split; [discriminate|intros; lra].
    + exists U_edge_plus, U_edge_minus. split; [reflexivity|].
      split; [intros _; lra|]. split; [discriminate|].
      split; [discriminate|auto].
  - rewrite (Array4_read_ok U_edge_plus ip jp kp 0)
      by (apply Hp; [reflexivity|lia]).
    cbn [bind]. unfold Rltb.
    destruct (Rlt_dec (a_data U_edge_plus ip jp kp 0) 0) as [Hneg|Hpos].
    + destruct (write_state_ok U_edge_plus ip jp kp (a_data N_arr i j k 0) Ux Uy
                               Uz (Hp eq_refl))
        as (Up' & Ep & _ & P0 & _).
      rewrite Ep. cbn [bind]. exists Up', U_edge_minus. split; [reflexivity|].
      split; [discriminate|]. split; [intros _; lra|].
      split; [discriminate|intros; lra].
    + exists U_edge_plus, U_edge_minus. split; [reflexivity|].
      split; [discriminate|]. split; [intros _; lra|].
      split; [discriminate|auto].
  - exists U_edge_plus, U_edge_minus. split; [reflexivity|].
    split; [discriminate|]. split; [discriminate|].
    split; [discriminate|auto].
Qed.

(** ** Differences and limited slopes *)




(** ** The velocity of a neighbouring cell *)

Lemma neighbour_U_no_division_by_zero N NU i j k :
  neighbour_U N NU i j k <> Err DivideByZero.
Proof.
  unfold neighbour_U, Array4_read.
  destruct (Array4_contains N i j k 0); [|discriminate]. cbn [bind].
  unfold Rltb. destruct (Rlt_dec 0 (a_data N i j k 0)); [|discriminate].
  destruct (Array4_contains NU i j k 0); [|discriminate]. cbn [bind].
  rewrite checked_div_ok by lra. discriminate.
Qed.

Lemma neighbour_U_value N NU i j k :
  Array4_contains N i j k 0 = true ->
  (0 < a_data N i j k 0 -> Array4_contains NU i j k 0 = true) ->
  neighbour_U N NU i j k
  = Ok (if Rlt_dec 0 (a_data N i j k 0)
        then a_data NU i j k 0 / a_data N i j k 0 else 0).
Proof.
  intros HN HNU. unfold neighbour_U, Array4_read. rewrite HN. cbn [bind].
  unfold Rltb. destruct (Rlt_dec 0 (a_data N i j k 0)) as [Hpos|Hneg];
    [|reflexivity].
  rewrite (HNU Hpos). cbn [bind]. apply checked_div_ok. lra.
Qed.

(** X16. The velocity differences never divide by zero: the quotient
    NU / N of the neighbouring cell is taken only when its density is
    positive, and an empty neighbour counts with velocity 0.  Along z, in
    every geometry: the down difference is U - NU / N at the plus cell
    when N > 0 there and U otherwise, without a read of NU. *)
Theorem velocity_differences_guard_the_quotient
        (g : Geometry) (N NU : Array4) (U : R) (i j k : Z) (ijkp : Z * Z * Z)
        (id jd kd : Z) :
  (forall f, In f [DownDx_U; UpDx_U; DownDy_U; UpDy_U; DownDz_U; UpDz_U] ->
             f g N NU U i j k <> Err DivideByZero)
  /\ (plus_index_offsets g i j k ijkp 2 = (id, jd, kd) ->
      Array4_contains N id jd kd 0 = true ->
      (a_data N id jd kd 0 <= 0 -> DownDz_U g N NU U i j k = Ok U)
      /\ (0 < a_data N id jd kd 0 ->
          Array4_contains NU id jd kd 0 = true ->
          DownDz_U g N NU U i j k
          = Ok (U - a_data NU id jd kd 0 / a_data N id jd kd 0))).
Proof.
  split.
  - intros f Hf. cbn [In] in Hf.
    destruct Hf as [<-|[<-|[<-|[<-|[<-|[<-|[]]]]]]];
      unfold DownDx_U, UpDx_U, DownDy_U, UpDy_U, DownDz_U, UpDz_U;
      destruct g; try discriminate;
      match goal with
      | |- bind (neighbour_U ?a ?b ?x ?y ?z) _ <> _ =>
        pose proof (neighbour_U_no_division_by_zero a b x y z);
        destruct (neighbour_U a b x y z) as [v|[]]; cbn [bind];
        try discriminate; congruence
      end.
  - intros Hoff HN.
    assert (E : DownDz_U g N NU U i j k
                = (U_m <- neighbour_U N NU id jd kd ;; Ok (U - U_m))).
    { unfold DownDz_U. destruct g; cbn in Hoff; inversion Hoff; reflexivity. }
    rewrite E. split.
    + intros Hle. rewrite neighbour_U_value by (auto; intros; lra).
      destruct (Rlt_dec 0 (a_data N id jd kd 0)); [lra|]. cbn [bind].
      f_equal. lra.
    + intros Hpos HNU. rewrite neighbour_U_value by auto.
      destruct (Rlt_dec 0 (a_data N id jd kd 0)); [|lra]. reflexivity.
Qed.

(** ** The flux difference *)

Lemma V_calc_ext U i j k i' j' k' comp c :
  (0 <= comp <= 2)%Z ->
  (forall n, (1 <= n <= 3)%Z -> Array4_contains U i j k n = true) ->
  (forall n, (1 <= n <= 3)%Z -> Array4_contains U i' j' k' n = true) ->
  (forall n, (1 <= n <= 3)%Z -> a_data U i j k n = a_data U i' j' k' n) ->
  c <> 0 ->
  V_calc U i' j' k' comp c = V_calc U i j k comp c.
Proof.
  intros Hcomp Hin Hin' Hsame Hc.
  rewrite !V_calc_value by assumption.
  rewrite !Hsame by lia. reflexivity.
Qed.

Lemma flux_ext (comp : Z) Um Up i j k i' j' k' Vm Vp :
  (forall n, (0 <= n <= 3)%Z -> Array4_contains Um i j k n = true) ->
  (forall n, (0 <= n <= 3)%Z -> Array4_contains Up i j k n = true) ->
  (forall n, (0 <= n <= 3)%Z -> Array4_contains Um i' j' k' n = true) ->
  (forall n, (0 <= n <= 3)%Z -> Array4_contains Up i' j' k' n = true) ->
  (forall n, (0 <= n <= 3)%Z -> a_data Um i j k n = a_data Um i' j' k' n) ->
  (forall n, (0 <= n <= 3)%Z -> a_data Up i j k n = a_data Up i' j' k' n) ->
  let flux := if (comp =? 0)%Z then flux_N
              else if (comp =? 1)%Z then flux_NUx
              else if (comp =? 2)%Z then flux_NUy
              else flux_NUz in
  exists F, flux Um Up i j k Vm Vp = Ok F /\ flux Um Up i' j' k' Vm Vp = Ok F.
Proof.
  intros Hm Hp Hm' Hp' Sm Sp flux. unfold flux.
  destruct (comp =? 0)%Z; [|destruct (comp =? 1)%Z; [|destruct (comp =? 2)%Z]];
    unfold flux_NUx, flux_NUy, flux_NUz, flux_N, flux_NU;
    rewrite !Array4_read_ok by (first [apply Hm|apply Hp|apply Hm'|apply Hp']; lia);
    cbn [bind]; rewrite !Sm, !Sp by lia; eexists; split; reflexivity.
Qed.

(** X17. A uniform flow has no flux difference.  When the state of the
    minus edges and the state of the plus edges are the same at the cell
    and at its plus cell along dir, and c <> 0, dF returns 0 for every
    component. *)
Theorem dF_of_uniform_state_is_zero
        (g : Geometry) (U_minus U_plus : Array4) (i j k : Z) (clight : R)
        (comp dir : Z) (ijkp : Z * Z * Z) (ip jp kp : Z) :
  plus_index_offsets g i j k ijkp dir = (ip, jp, kp) ->
  (0 <= dir <= 2)%Z ->
  clight <> 0 ->
  (forall n, (0 <= n <= 3)%Z ->
             Array4_contains U_minus i j k n = true
             /\ Array4_contains U_plus i j k n = true
             /\ Array4_contains U_minus ip jp kp n = true
             /\ Array4_contains U_plus ip jp kp n = true) ->
  (forall n, (0 <= n <= 3)%Z ->
             a_data U_minus i j k n = a_data U_minus ip jp kp n
             /\ a_data U_plus i j k n = a_data U_plus ip jp kp n) ->
  dF g U_minus U_plus i j k clight comp dir ijkp = Ok 0.
Proof.
  intros Hoff Hdir Hc Hin Hsame. unfold dF. rewrite Hoff.
  rewrite (V_calc_ext U_minus i j k ip jp kp dir clight),
          (V_calc_ext U_plus i j k ip jp kp dir clight);
    try assumption; try (intros n Hn; apply Hin; lia);
    try (intros n Hn; apply Hsame; lia).
  rewrite !V_calc_value; try assumption; try (intros n Hn; apply Hin; lia).
  cbn [bind].
  match goal with
  | |- context [(if (comp =? 0)%Z then _ else _) _ _ i j k ?vm ?vp] =>
    destruct (flux_ext comp U_minus U_plus i j k ip jp kp vm vp)
      as (F & EI & EL)
  end; try (intros n Hn; apply Hin; lia); try (intros n Hn; apply Hsame; lia).
  cbv zeta in EI, EL. rewrite EI. cbn [bind]. rewrite EL. cbn [bind].
  f_equal. lra.
Qed.

(** ** Examples *)

Lemma fluid_state_contains v i j n :
  (-3 <= i < 13)%Z -> (-3 <= j < 13)%Z -> (0 <= n <= 3)%Z ->
  Array4_contains (fluid_state v) i j 0 n = true.
Proof.
  intros Hi Hj Hn. unfold Array4_contains, fluid_state. cbn [a_begin a_end a_ncomp d3x d3y d3z].
  rewrite !andb_true_iff.
  repeat split; try (apply Z.leb_le; lia); apply Z.ltb_lt; lia.
Qed.


Lemma V_calc_below_light_speed_witness :
  exists V,
    V_calc (fluid_state (fun _ _ => 1)) 0 0 0 0 1 = Ok V /\ Rabs V < Rabs 1.
Proof.
  destruct (V_calc_below_light_speed (fluid_state (fun _ _ => 1)) 0 0 0 0 1)
    as [_ H].
  - lia.
  - intros n Hn. apply fluid_state_contains; lia.
  - destruct H as (V & E & _ & Hlt); [lra|]. exists V. auto.
Defined.


Lemma positivity_limiter_densities_nonnegative_witness :
  exists Up' Um',
    positivity_limiter DIM_1D_Z (fluid_state (fun _ _ => -1)) state_at_rest
                       state_at_rest 5 0 0 line_box 0 0 0 2 (0, 0, 0)%Z
    = Ok (Up', Um')
    /\ 0 <= a_data Um' 5 0 0 0 /\ 0 <= a_data Up' 4 0 0 0.
Proof.
  destruct (positivity_limiter_densities_nonnegative
              DIM_1D_Z (fluid_state (fun _ _ => -1)) state_at_rest state_at_rest
              5 0 0 line_box 0 0 0 2 (0, 0, 0)%Z 4 0 0 eq_refl)
    as (Up' & Um' & E & Hm & Hp & _).
  - intros _ n Hn. apply fluid_state_contains; lia.
  - intros _ n Hn. apply fluid_state_contains; lia.
  - reflexivity.
  - unfold state_at_rest, fluid_state. cbn. lra.
  - exists Up', Um'. split; [exact E|]. split; [apply Hm|apply Hp]; reflexivity.
Defined.



Lemma dF_of_uniform_state_is_zero_witness :
  dF DIM_1D_Z state_at_rest state_at_rest 5 0 0 1 0 2 (0, 0, 0)%Z = Ok 0.
Proof.
  apply (dF_of_uniform_state_is_zero
           DIM_1D_Z state_at_rest state_at_rest 5 0 0 1 0 2 (0, 0, 0)%Z 4 0 0
           eq_refl).
  - lia.
  - lra.
  - intros n Hn. repeat split; apply fluid_state_contains; lia.
  - intros n Hn. split; reflexivity.
Defined.

End Muscl_fluxes.

(* ================================================================== *)
(** * The species bookkeeping: MultiParticleContainer *)
(* ================================================================== *)

Section Species.

Import MultiParticleContainer.

(** A loop that keeps an invariant indexed by the iteration. *)
Lemma run_loop_from_inv {St} (Inv : nat -> St -> Prop) (P : Abort -> Prop)
      (body : nat -> St -> Run St) n :
  forall start s,
    Inv start s ->
    (forall i s, (start <= i < start + n)%nat -> Inv i s ->
                 match body i s with
                 | Done s' => Inv (S i) s'
                 | Aborted e => P e
                 end) ->
    match run_loop_from start n body s with
    | Done s' => Inv (start + n)%nat s'
    | Aborted e => P e
    end.
Proof.
  induction n as [|n IH]; intros start s Hs Hbody.
  - cbn. rewrite Nat.add_0_r. exact Hs.
  - cbn [run_loop_from]. pose proof (Hbody start s ltac:(lia) Hs) as Hstep.
    destruct (body start s) as [s1|e]; cbn [run_bind]; [|exact Hstep].
    replace (start + S n)%nat with (S start + n)%nat by lia.
    apply IH; [exact Hstep|].
    intros i s' Hi. apply Hbody. lia.
Qed.

Lemma at_index_Done {A} (v : list A) i :
  (i < length v)%nat -> exists a, at_index v i = Done a /\ nth_error v i = Some a.
Proof.
  intros H. unfold at_index.
  destruct (nth_error v i) as [a|] eqn:E; [eauto|].
  apply nth_error_None in E. lia.
Qed.

Lemma set_index_Done {A} (v : list A) :
  forall i x,
    (i < length v)%nat ->
    exists v',
      set_index v i x = Done v'
      /\ length v' = length v
      /\ nth_error v' i = Some x
      /\ forall j, j <> i -> nth_error v' j = nth_error v j.
Proof.
  induction v as [|y v IH]; intros i x Hi; cbn in Hi; [lia|].
  destruct i as [|i]; cbn [set_index].
  - eexists. split; [reflexivity|]. split; [reflexivity|].
    split; [reflexivity|]. intros [|j] Hj; [congruence|reflexivity].
  - destruct (IH i x ltac:(lia)) as (v' & E & Hlen & Hi' & Hrest).
    rewrite E. cbn [run_bind]. eexists. split; [reflexivity|].
    split; [cbn; lia|]. split; [exact Hi'|].
    intros [|j] Hj; [reflexivity|]. cbn. apply Hrest. lia.
Qed.

(** What getSpeciesID does when the names cover the species. *)
Lemma getSpeciesID_result nspecies species_names product_str :
  (nspecies <= length species_names)%nat ->
  match getSpeciesID nspecies species_names product_str with
  | Done i =>
    (i < nspecies)%nat
    /\ nth_error species_names i = Some product_str
    /\ forall j, (i < j < nspecies)%nat ->
                 nth_error species_names j <> Some product_str
  | Aborted e =>
    e = SpeciesNotFound
    /\ forall j, (j < nspecies)%nat ->
                 nth_error species_names j <> Some product_str
  end.
Proof.
  intros Hlen. unfold getSpeciesID.
  pose (Inv := fun (k : nat) (st : bool * option nat) =>
                 match st with
                 | (true, Some i) =>
                   (i < k)%nat
                   /\ nth_error species_names i = Some product_str
                   /\ forall j, (i < j < k)%nat ->
                                nth_error species_names j <> Some product_str
                 | (false, None) =>
                   forall j, (j < k)%nat ->
                             nth_error species_names j <> Some product_str
                 | _ => False
                 end).
  pose proof (run_loop_from_inv Inv (fun _ => False)
                (fun i (st : bool * option nat) =>
                   run_bind (at_index species_names i)
                            (fun name =>
                               if String.eqb name product_str
                               then Done (true, Some i)
                               else Done st))
                nspecies 0 (false, None)) as Hloop.
  cbn [Nat.add] in Hloop.
  match type of Hloop with
  | _ -> _ -> match ?m with _ => _ end => destruct m as [[found ip]|e]
  end.
  - cbn [run_bind]. 
    assert (HI : Inv nspecies (found, ip)).
    { apply Hloop.
      - intros j Hj. lia.
      - intros i st Hi HInv.
        destruct (at_index_Done species_names i ltac:(lia)) as (name & E & En).
        rewrite E. cbn [run_bind].
        destruct (String.eqb name product_str) eqn:Eq.
        + apply String.eqb_eq in Eq. subst name.
          split; [lia|]. split; [exact En|]. intros j Hj. lia.
        + apply String.eqb_neq in Eq.
          destruct st as [[|] [i0|]]; cbn in HInv |- *; try contradiction.
          * destruct HInv as (H1 & H2 & H3). split; [lia|]. split; [exact H2|].
            intros j Hj. destruct (Nat.eq_dec j i) as [->|Hne].
            -- rewrite En. congruence.
            -- apply H3. lia.
          * intros j Hj. destruct (Nat.eq_dec j i) as [->|Hne].
            -- rewrite En. congruence.
            -- apply HInv. lia. }
    destruct found, ip as [i|]; cbn in HI; try contradiction.
    + exact HI.
    + split; [reflexivity|exact HI].
  - exfalso. apply Hloop.
    + intros j Hj. lia.
    + intros i st Hi HInv.
      destruct (at_index_Done species_names i ltac:(lia)) as (name & E & En).
      rewrite E. cbn [run_bind].
      destruct (String.eqb name product_str) eqn:Eq.
      * apply String.eqb_eq in Eq. subst name.
        split; [lia|]. split; [exact En|]. intros j Hj. lia.
      * apply String.eqb_neq in Eq.
        destruct st as [[|] [i0|]]; cbn in HInv |- *; try contradiction.
        -- destruct HInv as (H1 & H2 & H3). split; [lia|]. split; [exact H2|].
           intros j Hj. destruct (Nat.eq_dec j i) as [->|Hne].
           ++ rewrite En. congruence.
           ++ apply H3. lia.
        -- intros j Hj. destruct (Nat.eq_dec j i) as [->|Hne].
           ++ rewrite En. congruence.
           ++ apply HInv. lia.
Qed.

(** X18. getSpeciesID, with a name for every species: it returns the
    last of the first nspecies indices that carry the name, and ends in
    the assertion "could not find product species ID" exactly when none
    does.  When the names of the species differ from each other, the ID
    of the name of species i is i. *)
Theorem getSpeciesID_finds_the_last_match
        (nspecies : nat) (species_names : list String.string)
        (product_str : String.string) :
  (nspecies <= length species_names)%nat ->
  ((exists i, getSpeciesID nspecies species_names product_str = Done i
              /\ (i < nspecies)%nat
              /\ nth_error species_names i = Some product_str
              /\ forall j, (i < j < nspecies)%nat ->
                           nth_error species_names j <> Some product_str)
   \/ (getSpeciesID nspecies species_names product_str = Aborted SpeciesNotFound
       /\ forall j, (j < nspecies)%nat ->
                    nth_error species_names j <> Some product_str))
  /\ (NoDup (firstn nspecies species_names) ->
      forall i, (i < nspecies)%nat ->
                nth_error species_names i = Some product_str ->
                getSpeciesID nspecies species_names product_str = Done i).
Proof.
  intros Hlen.
  pose proof (getSpeciesID_result nspecies species_names product_str Hlen) as H.
  split.
  - destruct (getSpeciesID nspecies species_names product_str) as [i|e].
    + left. exists i. split; [reflexivity|exact H].
    + right. destruct H as [-> H]. split; [reflexivity|exact H].
  - intros Hnd i Hi Hname.
    destruct (getSpeciesID nspecies species_names product_str) as [i0|e].
    + destruct H as (H1 & H2 & _). f_equal.
      assert (F : forall a, (a < nspecies)%nat ->
                            nth_error (firstn nspecies species_names) a
                            = nth_error species_names a).
      { intros a Ha. rewrite nth_error_firstn.
        replace (a <? nspecies)%nat with true
          by (symmetry; apply Nat.ltb_lt; exact Ha).
        reflexivity. }
      apply (proj1 (NoDup_nth_error (firstn nspecies species_names)) Hnd).
      * rewrite length_firstn. lia.
      * rewrite !F by lia. congruence.
    + destruct H as [_ H]. exfalso. exact (H i Hi Hname).
Qed.

Lemma set_index_app {A} (pre : list A) y rest x :
  set_index (pre ++ y :: rest) (length pre) x = Done (pre ++ x :: rest).
Proof.
  induction pre as [|p pre IH]; cbn [set_index app length]; [reflexivity|].
  rewrite IH. reflexivity.
Qed.

(** X19. mapSpeciesProduct, with names and containers for every
    species.  When it returns, every species with field ionization has
    as ionization_product the ID of a species other than itself that
    carries its product name, and nothing else has changed.  It ends in
    an assertion exactly for a species with field ionization whose
    product name no species carries, or carried last by the species
    itself; it never leaves the vectors. *)
Theorem mapSpeciesProduct_gives_valid_products
        (nspecies : nat) (species_names : list String.string)
        (allcontainers : list WarpXParticleContainer) :
  (nspecies <= length species_names)%nat ->
  (nspecies <= length allcontainers)%nat ->
  match mapSpeciesProduct nspecies species_names allcontainers with
  | Done containers =>
    length containers = length allcontainers
    /\ forall i pc,
        nth_error allcontainers i = Some pc ->
        if (i <? nspecies)%nat && do_field_ionization pc
        then exists p,
            (p < nspecies)%nat /\ p <> i
            /\ nth_error species_names p = Some (ionization_product_name pc)
            /\ nth_error containers i = Some (set_ionization_product pc p)
        else nth_error containers i = Some pc
  | Aborted e =>
    exists i pc,
      (i < nspecies)%nat
      /\ nth_error allcontainers i = Some pc
      /\ do_field_ionization pc = true
      /\ ((e = SpeciesNotFound
           /\ getSpeciesID nspecies species_names (ionization_product_name pc)
              = Aborted SpeciesNotFound)
          \/ (e = ProductIsSource
              /\ getSpeciesID nspecies species_names (ionization_product_name pc)
                 = Done i))
  end.
Proof.
  intros Hnames Hcont. unfold mapSpeciesProduct.
  pose (Inv := fun (k : nat) (cs : list WarpXParticleContainer) =>
                 length cs = length allcontainers
                 /\ forall i pc,
                     nth_error allcontainers i = Some pc ->
                     if (i <? k)%nat && do_field_ionization pc
                     then exists p,
                         (p < nspecies)%nat /\ p <> i
                         /\ nth_error species_names p
                            = Some (ionization_product_name pc)
                         /\ nth_error cs i = Some (set_ionization_product pc p)
                     else nth_error cs i = Some pc).
  pose (P := fun e : Abort =>
               exists i pc,
                 (i < nspecies)%nat
                 /\ nth_error allcontainers i = Some pc
                 /\ do_field_ionization pc = true
                 /\ ((e = SpeciesNotFound
                      /\ getSpeciesID nspecies species_names
                                      (ionization_product_name pc)
                         = Aborted SpeciesNotFound)
                     \/ (e = ProductIsSource
                         /\ getSpeciesID nspecies species_names
                                         (ionization_product_name pc)
                            = Done i))).
  apply (run_loop_from_inv Inv P).
  - split; [reflexivity|]. intros i pc Hpc. cbn [andb Nat.ltb Nat.leb].
    replace (i <? 0)%nat with false by (symmetry; apply Nat.ltb_ge; lia).
    exact Hpc.
  - intros i cs Hi (Hlen & Hcs).
    destruct (at_index_Done cs i ltac:(lia)) as (pc & E & Epc).
    rewrite E. cbn [run_bind].
    assert (Horig : nth_error allcontainers i = Some pc).
    { destruct (nth_error allcontainers i) as [pc0|] eqn:E0.
      - specialize (Hcs i pc0 E0).
        replace (i <? i)%nat with false in Hcs
          by (symmetry; apply Nat.ltb_ge; lia).
        cbn [andb] in Hcs. congruence.
      - apply nth_error_None in E0. lia. }
    destruct (do_field_ionization pc) eqn:Eion.
    + pose proof (getSpeciesID_result nspecies species_names
                    (ionization_product_name pc) Hnames) as Hid.
      destruct (getSpeciesID nspecies species_names (ionization_product_name pc))
        as [p|e] eqn:Eid; cbn [run_bind].
      * destruct (Nat.eqb i p) eqn:Eip.
        -- apply Nat.eqb_eq in Eip. subst p.
           exists i, pc. split; [lia|]. split; [exact Horig|].
           split; [exact Eion|]. right. split; [reflexivity|exact Eid].
        -- apply Nat.eqb_neq in Eip. destruct Hid as (Hp & Hname & _).
           destruct (set_index_Done cs i (set_ionization_product pc p)
                                    ltac:(lia))
             as (cs' & Eset & Hlen' & Hset & Hrest).
           rewrite Eset. split; [congruence|].
           intros j pcj Hj. specialize (Hcs j pcj Hj).
           destruct (Nat.eq_dec j i) as [->|Hne].
           ++ assert (pcj = pc) by congruence. subst pcj.
              replace (i <? S i)%nat with true
                by (symmetry; apply Nat.ltb_lt; lia).
              rewrite Eion. cbn [andb].
              exists p. repeat split; auto.
           ++ rewrite (Hrest j Hne).
              replace (j <? S i)%nat with (j <? i)%nat; [exact Hcs|].
              destruct (j <? i)%nat eqn:E1; symmetry;
                [apply Nat.ltb_lt in E1; apply Nat.ltb_lt; lia
                |apply Nat.ltb_ge in E1; apply Nat.ltb_ge; lia].
      * destruct Hid as [-> _].
        exists i, pc. split; [lia|]. split; [exact Horig|].
        split; [exact Eion|]. left. split; [reflexivity|exact Eid].
    + split; [exact Hlen|].
      intros j pcj Hj. specialize (Hcs j pcj Hj).
      destruct (Nat.eq_dec j i) as [->|Hne].
      * assert (pcj = pc) by congruence. subst pcj.
        rewrite Eion, andb_false_r. exact Epc.
      * replace (j <? S i)%nat with (j <? i)%nat; [exact Hcs|].
        destruct (j <? i)%nat eqn:E1; symmetry;
          [apply Nat.ltb_lt in E1; apply Nat.ltb_lt; lia
          |apply Nat.ltb_ge in E1; apply Nat.ltb_ge; lia].
Qed.

Lemma filter_seq_S (f : nat -> bool) k :
  filter f (seq 0 (S k)) = filter f (seq 0 k) ++ (if f k then [k] else []).
Proof.
  rewrite seq_S, filter_app. cbn [Nat.add filter]. destruct (f k); reflexivity.
Qed.

Lemma filter_seq_length (f : nat -> bool) k :
  (length (filter f (seq 0 k)) <= k)%nat.
Proof.
  pose proof (filter_length_le f (seq 0 k)) as H. rewrite length_seq in H.
  exact H.
Qed.

(** X20. The species whose lab-frame data is dumped.  With a container
    for every species, the loop of the constructor returns: the map
    lists the species with do_boosted_frame_diags in increasing order,
    followed by zeros up to nspecies entries; their number is
    nspecies_boosted_frame_diags; do_boosted_frame_diags is set to 1 when
    there is one and left as it was otherwise.  Every listed ID is below
    nspecies. *)
Theorem map_boosted_frame_species_lists_them
        (nspecies : nat) (allcontainers : list WarpXParticleContainer)
        (do_diags0 : Z) :
  (nspecies <= length allcontainers)%nat ->
  let listed := boosted_species nspecies allcontainers in
  map_boosted_frame_species nspecies allcontainers do_diags0
  = Done (listed ++ repeat 0%nat (nspecies - length listed),
          length listed,
          match listed with [] => do_diags0 | _ => 1%Z end)
  /\ forall isp, In isp listed -> (isp < nspecies)%nat.
Proof.
  intros Hlen listed. split.
  2:{ intros isp Hin. unfold listed, boosted_species in Hin.
      apply filter_In in Hin. destruct Hin as [Hin _]. apply in_seq in Hin. lia. }
  unfold map_boosted_frame_species.
  set (flagged := fun i => match nth_error allcontainers i with
                           | Some pc => do_boosted_frame_diags pc
                           | None => false
                           end).
  pose (Inv := fun (k : nat) (st : list nat * nat * Z) =>
                 let F := filter flagged (seq 0 k) in
                 (k <= nspecies)%nat
                 /\ st = (F ++ repeat 0%nat (nspecies - length F), length F,
                          match F with [] => do_diags0 | _ => 1%Z end)).
  pose proof (run_loop_from_inv Inv (fun _ => False)
                (fun i (st : list nat * nat * Z) =>
                   let '(map_species, n_diags, do_diags) := st in
                   run_bind (at_index allcontainers i)
                            (fun pc =>
                               if do_boosted_frame_diags pc then
                                 run_bind (set_index map_species n_diags i)
                                          (fun map_species' =>
                                             Done (map_species', S n_diags, 1%Z))
                               else Done st))
                nspecies 0
                (repeat 0%nat nspecies, 0%nat, do_diags0)) as Hloop.
  cbn [Nat.add] in Hloop.
  assert (Hstart : Inv 0%nat (repeat 0%nat nspecies, 0%nat, do_diags0)).
  { split; [lia|]. cbn. rewrite Nat.sub_0_r. reflexivity. }
  assert (Hstep : forall i st0,
             (0 <= i < nspecies)%nat -> Inv i st0 ->
             match (let '(map_species, n_diags, do_diags) := st0 in
                    run_bind (at_index allcontainers i)
                             (fun pc =>
                                if do_boosted_frame_diags pc then
                                  run_bind (set_index map_species n_diags i)
                                           (fun map_species' =>
                                              Done (map_species', S n_diags, 1%Z))
                                else Done st0)) with
             | Done s' => Inv (S i) s'
             | Aborted _ => False
             end).
  { intros i st0 Hi [Hk ->].
    destruct (at_index_Done allcontainers i ltac:(lia)) as (pc & E & Epc).
    cbv zeta. rewrite E. cbn [run_bind].
    pose proof (filter_seq_length flagged i) as HF.
    assert (Hfl : flagged i = do_boosted_frame_diags pc)
      by (unfold flagged; rewrite Epc; reflexivity).
    unfold Inv. cbv zeta. rewrite filter_seq_S, Hfl.
    set (F := filter flagged (seq 0 i)) in *.
    destruct (do_boosted_frame_diags pc).
    - replace (nspecies - length F)%nat with (S (nspecies - length F - 1))
        by lia.
      cbn [repeat]. rewrite set_index_app. cbn [run_bind].
      split; [lia|]. rewrite length_app. cbn [length].
      replace (nspecies - (length F + 1))%nat
        with (nspecies - length F - 1)%nat by lia.
      rewrite <- app_assoc. cbn [app].
      replace (S (length F)) with (length F + 1)%nat by lia.
      destruct F; reflexivity.
    - rewrite app_nil_r. split; [lia|reflexivity]. }
  specialize (Hloop Hstart Hstep).
  match type of Hloop with
  | match ?m with _ => _ end => destruct m as [st|e]
  end.
  - destruct Hloop as [_ ->]. reflexivity.
  - contradiction.
Qed.

(** X21. doContinuousInjection returns 1 when one of the first
    nspecies + nlasers containers has do_continuous_injection and 0
    otherwise; with fewer containers than that it leaves the vector. *)
Theorem doContinuousInjection_is_any
        (nspecies nlasers : nat) (allcontainers : list WarpXParticleContainer) :
  ((nspecies + nlasers <= length allcontainers)%nat ->
   doContinuousInjection nspecies nlasers allcontainers
   = Done (if existsb do_continuous_injection
                      (firstn (nspecies + nlasers) allcontainers)
           then 1%Z else 0%Z))
  /\ ((length allcontainers < nspecies + nlasers)%nat ->
      doContinuousInjection nspecies nlasers allcontainers
      = Aborted IndexOutOfBounds).
Proof.
  unfold doContinuousInjection. split; intros Hlen.
  - pose (Inv := fun (k : nat) (v : Z) =>
                   v = if existsb do_continuous_injection
                                  (firstn k allcontainers)
                       then 1%Z else 0%Z).
    pose proof (run_loop_from_inv Inv (fun _ => False)
                  (fun i (v : Z) =>
                     run_bind (at_index allcontainers i)
                              (fun pc =>
                                 if do_continuous_injection pc then Done 1%Z
                                 else Done v))
                  (nspecies + nlasers) 0 0%Z) as Hloop.
    cbn [Nat.add] in Hloop.
    assert (Hstep : forall i s,
               (0 <= i < nspecies + nlasers)%nat -> Inv i s ->
               match run_bind (at_index allcontainers i)
                              (fun pc => if do_continuous_injection pc
                                         then Done 1%Z else Done s) with
               | Done s' => Inv (S i) s'
               | Aborted _ => False
               end).
    { intros i s Hi ->.
      destruct (at_index_Done allcontainers i ltac:(lia)) as (pc & E & Epc).
      rewrite E. cbn [run_bind]. unfold Inv.
      assert (Hf : firstn (S i) allcontainers = firstn i allcontainers ++ [pc]).
      { clear - Epc. revert i Epc.
        induction allcontainers as [|c cs IH]; intros [|i] Epc; cbn in *;
          try discriminate.
        - congruence.
        - f_equal. apply IH, Epc. }
      rewrite Hf, existsb_app. cbn [existsb].
      destruct (do_continuous_injection pc);
        [rewrite !orb_true_r|rewrite !orb_false_r]; reflexivity. }
    match type of Hloop with
    | _ -> _ -> match ?m with _ => _ end => destruct m as [v|e]
    end.
    + f_equal. apply Hloop; [reflexivity|exact Hstep].
    + exfalso. apply Hloop; [reflexivity|exact Hstep].
  - pose (Inv := fun (k : nat) (_ : Z) => (k <= length allcontainers)%nat).
    pose proof (run_loop_from_inv Inv (fun e => e = IndexOutOfBounds)
                  (fun i (v : Z) =>
                     run_bind (at_index allcontainers i)
                              (fun pc =>
                                 if do_continuous_injection pc then Done 1%Z
                                 else Done v))
                  (nspecies + nlasers) 0 0%Z) as Hloop.
    cbn [Nat.add] in Hloop.
    match type of Hloop with
    | _ -> _ -> match ?m with _ => _ end => destruct m as [v|e]
    end.
    + exfalso. assert (H : Inv (nspecies + nlasers)%nat v); [|unfold Inv in H; lia].
      apply Hloop; [unfold Inv; lia|].
      intros i s Hi Hinv. unfold at_index.
      destruct (nth_error allcontainers i) as [pc|] eqn:E; cbn [run_bind].
      * assert (i < length allcontainers)%nat
          by (apply nth_error_Some; congruence).
        destruct (do_continuous_injection pc); unfold Inv; lia.
      * reflexivity.
    + f_equal. apply Hloop; [unfold Inv; lia|].
      intros i s Hi Hinv. unfold at_index.
      destruct (nth_error allcontainers i) as [pc|] eqn:E; cbn [run_bind].
      * assert (i < length allcontainers)%nat
          by (apply nth_error_Some; congruence).
        destruct (do_continuous_injection pc); unfold Inv; lia.
      * reflexivity.
Qed.

(** ** Examples *)

Lemma getSpeciesID_finds_the_last_match_witness :
  getSpeciesID 2 two_species ions_name = Done 1%nat.
Proof.
  destruct (getSpeciesID_finds_the_last_match 2 two_species ions_name)
    as [_ H].
  - cbn. lia.
  - apply H.
    + cbn. repeat constructor; cbn; intuition discriminate.
    + lia.
    + reflexivity.
Defined.

Lemma mapSpeciesProduct_gives_valid_products_witness :
  match mapSpeciesProduct 2 two_species [electrons; ions] with
  | Done containers =>
    length containers = 2%nat
    /\ exists p,
        (p < 2)%nat /\ p <> 1%nat
        /\ nth_error two_species p = Some electrons_name
        /\ nth_error containers 1 = Some (set_ionization_product ions p)
  | Aborted _ => False
  end.
Proof.
  pose proof (mapSpeciesProduct_gives_valid_products
                2 two_species [electrons; ions]
                ltac:(cbn; lia) ltac:(cbn; lia)) as H.
  destruct (mapSpeciesProduct 2 two_species [electrons; ions]) as [cs|e] eqn:E.
  - destruct H as [Hlen H]. split; [exact Hlen|].
    exact (H 1%nat ions eq_refl).
  - cbv in E. discriminate.
Defined.

Lemma map_boosted_frame_species_lists_them_witness :
  map_boosted_frame_species 2 [electrons; ions] 0 = Done ([1; 0]%nat, 1%nat, 1%Z).
Proof.
  destruct (map_boosted_frame_species_lists_them 2 [electrons; ions] 0%Z
                                                 ltac:(cbn; lia)) as [H _].
  exact H.
Defined.

End Species.

(* ================================================================== *)
(** * More on the PEC field kernels *)
(* ================================================================== *)

Section PEC_mirror_rule.

Import PEC PEC_mirror.

Lemma pure_each_ext {X St} (body1 body2 : X -> St -> St) l :
  (forall x s, In x l -> body1 x s = body2 x s) ->
  forall s, pure_each l body1 s = pure_each l body2 s.
Proof.
  induction l as [|x l IH]; intros H s; [reflexivity|].
  cbn [pure_each]. rewrite (H x s (or_introl eq_refl)).
  apply IH. intros y t Hy. apply H. right. exact Hy.
Qed.

Lemma SetEfieldOnPEC_side_mirror g icomp dom_lo dom_hi ijk_vec is_nodal
      fbndry_lo fbndry_hi idim iside st :
  SetEfieldOnPEC_side g icomp dom_lo dom_hi ijk_vec is_nodal fbndry_lo fbndry_hi
                      idim iside st
  = mirror_side (is_tangent_to_PEC g icomp) g icomp dom_lo dom_hi ijk_vec
                is_nodal fbndry_lo fbndry_hi idim iside st.
Proof.
  unfold SetEfieldOnPEC_side, mirror_side, side_is_PEC, mirror_index,
    is_radial_high, radial_scale.
  cbv zeta.
  destruct (if (iside =? 0)%nat then is_boundary_PEC fbndry_lo idim
            else is_boundary_PEC fbndry_hi idim); [|reflexivity].
  destruct (get_cell_count_to_boundary dom_lo dom_hi ijk_vec is_nodal idim iside
            =? 0); [reflexivity|].
  destruct (0 <? get_cell_count_to_boundary dom_lo dom_hi ijk_vec is_nodal idim
                                            iside); [|reflexivity].
  destruct g; reflexivity.
Qed.

Lemma SetBfieldOnPEC_side_mirror g icomp dom_lo dom_hi ijk_vec is_nodal
      fbndry_lo fbndry_hi idim iside st :
  SetBfieldOnPEC_side g icomp dom_lo dom_hi ijk_vec is_nodal fbndry_lo fbndry_hi
                      idim iside st
  = mirror_side (is_normal_to_PEC g icomp) g icomp dom_lo dom_hi ijk_vec
                is_nodal fbndry_lo fbndry_hi idim iside st.
Proof.
  unfold SetBfieldOnPEC_side, mirror_side, side_is_PEC, mirror_index,
    is_radial_high, radial_scale.
  cbv zeta.
  destruct (if (iside =? 0)%nat then is_boundary_PEC fbndry_lo idim
            else is_boundary_PEC fbndry_hi idim); [|reflexivity].
  destruct (get_cell_count_to_boundary dom_lo dom_hi ijk_vec is_nodal idim iside
            =? 0); [reflexivity|].
  destruct (0 <? get_cell_count_to_boundary dom_lo dom_hi ijk_vec is_nodal idim
                                            iside); [|reflexivity].
  destruct g; reflexivity.
Qed.

Lemma SetEfieldOnPEC_mirror g icomp dom_lo dom_hi ijk_vec n Efield is_nodal
      fbndry_lo fbndry_hi :
  SetEfieldOnPEC g icomp dom_lo dom_hi ijk_vec n Efield is_nodal fbndry_lo
                 fbndry_hi
  = apply_mirror ijk_vec n Efield
      (mirror_state (is_tangent_to_PEC g icomp) g icomp dom_lo dom_hi ijk_vec
                    is_nodal fbndry_lo fbndry_hi).
Proof.
  unfold SetEfieldOnPEC, mirror_state. cbv zeta. f_equal.
  rewrite nested_pure_loop_sides. apply pure_each_ext.
  intros [i s] st _. apply SetEfieldOnPEC_side_mirror.
Qed.

Lemma SetBfieldOnPEC_mirror g icomp dom_lo dom_hi ijk_vec n Bfield is_nodal
      fbndry_lo fbndry_hi :
  SetBfieldOnPEC g icomp dom_lo dom_hi ijk_vec n Bfield is_nodal fbndry_lo
                 fbndry_hi
  = apply_mirror ijk_vec n Bfield
      (mirror_state (is_normal_to_PEC g icomp) g icomp dom_lo dom_hi ijk_vec
                    is_nodal fbndry_lo fbndry_hi).
Proof.
  unfold SetBfieldOnPEC, mirror_state. cbv zeta. f_equal.
  rewrite nested_pure_loop_sides. apply pure_each_ext.
  intros [i s] st _. apply SetBfieldOnPEC_side_mirror.
Qed.

Variable inverted : nat -> bool.
Variable g : Geometry.
Variable icomp : Z.
Variables dom_lo dom_hi ijk_vec is_nodal : IntVect.
Variables fbndry_lo fbndry_hi : GpuArray FieldBoundaryType.

Local Abbreviation side :=
  (fun p : nat * nat =>
     mirror_side inverted g icomp dom_lo dom_hi ijk_vec is_nodal fbndry_lo
                 fbndry_hi (fst p) (snd p)).

Local Abbreviation final :=
  (mirror_state inverted g icomp dom_lo dom_hi ijk_vec is_nodal fbndry_lo
                fbndry_hi).

(** The boundary flag, once set, stays. *)
Lemma mirror_state_on_boundary idim iside :
  (idim < AMREX_SPACEDIM g)%nat -> (iside < 2)%nat ->
  on_PEC inverted dom_lo dom_hi ijk_vec is_nodal fbndry_lo fbndry_hi idim iside
  = true ->
  OnPECBoundary final = true.
Proof.
  intros Hd Hs Hon. unfold mirror_state.
  apply pure_each_establish with (x0 := (idim, iside)).
  - apply in_sides; auto.
  - intros [i s] st _ H. cbn [fst snd]. unfold mirror_side.
    repeat match goal with
           | |- context [if ?c then _ else _] => destruct c
           end; cbn; auto.
  - intros st. cbn [fst snd]. unfold mirror_side.
    unfold on_PEC in Hon. rewrite !andb_true_iff in Hon.
    destruct Hon as [[[-> ->] ->] ->]. reflexivity.
Qed.

(** Without a PEC boundary that the cell is on or beyond, the locals
    stay as they start. *)
Lemma mirror_state_idle :
  (forall idim iside,
      (idim < AMREX_SPACEDIM g)%nat -> (iside < 2)%nat ->
      side_is_PEC fbndry_lo fbndry_hi idim iside = true ->
      get_cell_count_to_boundary dom_lo dom_hi ijk_vec is_nodal idim iside < 0) ->
  final = mkMirrorState ijk_vec false false 1%R.
Proof.
  intros Hin. unfold mirror_state. apply pure_each_idle.
  intros [i s] st Hp. apply in_sides in Hp. cbn [fst snd]. unfold mirror_side.
  destruct (side_is_PEC fbndry_lo fbndry_hi i s) eqn:Ep; [|reflexivity].
  specialize (Hin i s ltac:(tauto) ltac:(tauto) Ep). cbv zeta.
  replace (get_cell_count_to_boundary dom_lo dom_hi ijk_vec is_nodal i s =? 0)
    with false by (symmetry; apply Z.eqb_neq; lia).
  replace (0 <? get_cell_count_to_boundary dom_lo dom_hi ijk_vec is_nodal i s)
    with false by (symmetry; apply Z.ltb_ge; lia).
  reflexivity.
Qed.

Hypothesis Hlen : length ijk_vec = AMREX_SPACEDIM g.

Lemma mirror_index_differs idim iside :
  0 < get_cell_count_to_boundary dom_lo dom_hi ijk_vec is_nodal idim iside ->
  (iv_get is_nodal idim = 0 \/ iv_get is_nodal idim = 1) ->
  mirror_index dom_lo dom_hi is_nodal idim iside
               (get_cell_count_to_boundary dom_lo dom_hi ijk_vec is_nodal idim
                                           iside)
  <> iv_get ijk_vec idim.
Proof.
  unfold mirror_index, get_cell_count_to_boundary.
  destruct (iside =? 0)%nat; lia.
Qed.

(** A cell marked as a guard cell has a mirror cell other than itself. *)
Lemma mirror_state_guard_differs :
  (forall idim, (idim < AMREX_SPACEDIM g)%nat ->
                iv_get is_nodal idim = 0 \/ iv_get is_nodal idim = 1) ->
  length (ijk_mirror final) = length ijk_vec
  /\ (GuardCell final = true -> ijk_mirror final <> ijk_vec).
Proof.
  intros Hnodal. unfold mirror_state.
  destruct (pure_each_inv
              (fun st => length (ijk_mirror st) = length ijk_vec
                         /\ (GuardCell st = true ->
                             exists d, (d < AMREX_SPACEDIM g)%nat
                                       /\ iv_get (ijk_mirror st) d
                                          <> iv_get ijk_vec d))
              (fun p : nat * nat =>
                 mirror_side inverted g icomp dom_lo dom_hi ijk_vec is_nodal
                             fbndry_lo fbndry_hi (fst p) (snd p))
              (sides (AMREX_SPACEDIM g))
              (mkMirrorState ijk_vec false false 1%R)) as [Hl H].
  - intros [i s] st Hp [Hl H]. apply in_sides in Hp. cbn [fst snd].
    unfold mirror_side.
    destruct (side_is_PEC fbndry_lo fbndry_hi i s); [|auto]. cbv zeta.
    destruct (get_cell_count_to_boundary dom_lo dom_hi ijk_vec is_nodal i s =? 0).
    { destruct (inverted i && (iv_get is_nodal i =? 1)); cbn; auto. }
    destruct (0 <? get_cell_count_to_boundary dom_lo dom_hi ijk_vec is_nodal i s)
      eqn:Eig; [|auto].
    apply Z.ltb_lt in Eig. cbn [ijk_mirror GuardCell].
    split; [rewrite iv_set_length; exact Hl|].
    intros _. exists i. split; [tauto|].
    rewrite iv_get_set_same by lia.
    apply mirror_index_differs; [exact Eig|apply Hnodal; tauto].
  - cbn. split; [reflexivity|discriminate].
  - split; [exact Hl|]. intros Hg. destruct (H Hg) as (d & _ & Hd).
    congruence.
Qed.

End PEC_mirror_rule.

Section PEC_more.

Import PEC PEC_mirror.

Lemma apply_mirror_frame ijk_vec n field st field' :
  apply_mirror ijk_vec n field st = Ok field' ->
  same_extent field' field
  /\ forall i j k m,
      same_cell (iv_i ijk_vec) (iv_j ijk_vec) (iv_k ijk_vec) n i j k m = false ->
      a_data field' i j k m = a_data field i j k m.
Proof.
  unfold apply_mirror, Array4_write_iv, Array4_write, Array4_read_iv, Array4_read.
  destruct (OnPECBoundary st).
  - destruct (Array4_contains field (iv_i ijk_vec) (iv_j ijk_vec) (iv_k ijk_vec) n);
      [|discriminate].
    intros E. apply Ok_inj in E. subst field'.
    split; [apply same_extent_update, same_extent_refl|].
    intros i j k m Hc. cbn [Array4_update a_data]. rewrite Hc. reflexivity.
  - destruct (GuardCell st).
    + destruct (Array4_contains field (iv_i (ijk_mirror st)) (iv_j (ijk_mirror st))
                                (iv_k (ijk_mirror st)) n); [|discriminate].
      cbn [bind].
      destruct (Array4_contains field (iv_i ijk_vec) (iv_j ijk_vec)
                                (iv_k ijk_vec) n); [|discriminate].
      intros E. apply Ok_inj in E. subst field'.
      split; [apply same_extent_update, same_extent_refl|].
      intros i j k m Hc. cbn [Array4_update a_data]. rewrite Hc. reflexivity.
    + intros E. apply Ok_inj in E. subst field'.
      split; [apply same_extent_refl|reflexivity].
Qed.

Lemma apply_mirror_twice ijk_vec n field st field' :
  length (ijk_mirror st) = length ijk_vec -> (length ijk_vec <= 3)%nat ->
  (GuardCell st = true -> ijk_mirror st <> ijk_vec) ->
  apply_mirror ijk_vec n field st = Ok field' ->
  exists field'',
    apply_mirror ijk_vec n field' st = Ok field'' /\ Array4_equiv field'' field'.
Proof.
  intros Hl H3 Hne.
  unfold apply_mirror, Array4_write_iv, Array4_write, Array4_read_iv, Array4_read.
  destruct (OnPECBoundary st).
  - destruct (Array4_contains field (iv_i ijk_vec) (iv_j ijk_vec) (iv_k ijk_vec) n)
      eqn:Ec; [|discriminate].
    intros E. apply Ok_inj in E. subst field'.
    rewrite Array4_contains_update, Ec. eexists. split; [reflexivity|].
    split; [reflexivity|]. split; [reflexivity|]. split; [reflexivity|].
    intros i j k m. cbn [Array4_update a_data].
    destruct (same_cell (iv_i ijk_vec) (iv_j ijk_vec) (iv_k ijk_vec) n i j k m);
      reflexivity.
  - destruct (GuardCell st).
    + destruct (Array4_contains field (iv_i (ijk_mirror st)) (iv_j (ijk_mirror st))
                                (iv_k (ijk_mirror st)) n) eqn:Em; [|discriminate].
      cbn [bind].
      destruct (Array4_contains field (iv_i ijk_vec) (iv_j ijk_vec)
                                (iv_k ijk_vec) n) eqn:Ec; [|discriminate].
      intros E. apply Ok_inj in E. subst field'.
      rewrite !Array4_contains_update, Em. cbn [bind].
      rewrite Ec. eexists. split; [reflexivity|].
      split; [reflexivity|]. split; [reflexivity|]. split; [reflexivity|].
      intros i j k m. cbn [Array4_update a_data].
      destruct (same_cell (iv_i ijk_vec) (iv_j ijk_vec) (iv_k ijk_vec) n i j k m);
        [|reflexivity].
      rewrite (iv_cell_neq ijk_vec (ijk_mirror st) n n); [reflexivity| | |].
      * congruence.
      * exact H3.
      * intros E. apply (Hne eq_refl). congruence.
    + intros E. apply Ok_inj in E. subst field'.
      exists field. split; [reflexivity|apply Array4_equiv_refl].
Qed.

(** X22. A normal magnetic-field component at a cell exactly on a PEC
    boundary (guard-cell depth 0), along an axis on which the array is
    node-staggered, is set to exactly 0 by SetBfieldOnPEC, whatever its
    value before, in every dimensionality. *)
Theorem SetBfieldOnPEC_zero_on_boundary
        (g : Geometry) (icomp : Z) (dom_lo dom_hi ijk_vec : IntVect) (n : Z)
        (Bfield : Array4) (is_nodal : IntVect)
        (fbndry_lo fbndry_hi : GpuArray FieldBoundaryType) (idim iside : nat) :
  (idim < AMREX_SPACEDIM g)%nat -> (iside < 2)%nat ->
  side_is_PEC fbndry_lo fbndry_hi idim iside = true ->
  get_cell_count_to_boundary dom_lo dom_hi ijk_vec is_nodal idim iside = 0 ->
  iv_get is_nodal idim = 1 ->
  is_normal_to_PEC g icomp idim = true ->
  in_extent Bfield ijk_vec n ->
  SetBfieldOnPEC g icomp dom_lo dom_hi ijk_vec n Bfield is_nodal
                 fbndry_lo fbndry_hi
  = Ok (Array4_update Bfield (iv_i ijk_vec) (iv_j ijk_vec) (iv_k ijk_vec) n 0%R)
  /\ Array4_at (Array4_update Bfield (iv_i ijk_vec) (iv_j ijk_vec)
                              (iv_k ijk_vec) n 0%R) ijk_vec n = 0%R.
Proof.
  intros Hd Hs Hpec Hig Hnodal Hnormal Hin. split.
  - rewrite SetBfieldOnPEC_mirror. unfold apply_mirror.
    rewrite (mirror_state_on_boundary _ _ _ _ _ _ _ _ _ idim iside Hd Hs).
    + unfold Array4_write_iv, Array4_write. rewrite Hin. reflexivity.
    + unfold on_PEC. rewrite Hpec, Hig, Hnormal, Hnodal. reflexivity.
  - apply Array4_at_update_same.
Qed.

(** X23. SetEfieldOnPEC and SetBfieldOnPEC write no cell but their own:
    whatever they return has the extent of the field and its values
    everywhere but at (ijk_vec, n).  For a cell inside every PEC
    boundary of the domain (depth below 0 for each of them) they return
    the field as it was, whatever the extent of the array. *)
Theorem PEC_field_kernels_write_their_cell_only
        (g : Geometry) (icomp : Z) (dom_lo dom_hi ijk_vec : IntVect) (n : Z)
        (field : Array4) (is_nodal : IntVect)
        (fbndry_lo fbndry_hi : GpuArray FieldBoundaryType) :
  (forall field',
      SetEfieldOnPEC g icomp dom_lo dom_hi ijk_vec n field is_nodal fbndry_lo
                     fbndry_hi = Ok field'
      \/ SetBfieldOnPEC g icomp dom_lo dom_hi ijk_vec n field is_nodal fbndry_lo
                        fbndry_hi = Ok field' ->
      same_extent field' field
      /\ forall i j k m,
          same_cell (iv_i ijk_vec) (iv_j ijk_vec) (iv_k ijk_vec) n i j k m = false ->
          a_data field' i j k m = a_data field i j k m)
  /\ ((forall idim iside,
          (idim < AMREX_SPACEDIM g)%nat -> (iside < 2)%nat ->
          side_is_PEC fbndry_lo fbndry_hi idim iside = true ->
          get_cell_count_to_boundary dom_lo dom_hi ijk_vec is_nodal idim iside
          < 0) ->
      SetEfieldOnPEC g icomp dom_lo dom_hi ijk_vec n field is_nodal fbndry_lo
                     fbndry_hi = Ok field
      /\ SetBfieldOnPEC g icomp dom_lo dom_hi ijk_vec n field is_nodal fbndry_lo
                        fbndry_hi = Ok field).
Proof.
  split.
  - intros field' [E|E].
    + rewrite SetEfieldOnPEC_mirror in E. eapply apply_mirror_frame, E.
    + rewrite SetBfieldOnPEC_mirror in E. eapply apply_mirror_frame, E.
  - intros Hin.
    rewrite SetEfieldOnPEC_mirror, SetBfieldOnPEC_mirror.
    rewrite !mirror_state_idle by exact Hin. split; reflexivity.
Qed.

(** X24. SetEfieldOnPEC and SetBfieldOnPEC are idempotent at every cell,
    beyond however many PEC boundaries: applied to the field they have
    returned, they return it again. *)
Theorem PEC_field_kernels_are_idempotent
        (g : Geometry) (icomp : Z) (dom_lo dom_hi ijk_vec : IntVect) (n : Z)
        (field field' : Array4) (is_nodal : IntVect)
        (fbndry_lo fbndry_hi : GpuArray FieldBoundaryType) :
  length ijk_vec = AMREX_SPACEDIM g ->
  (forall idim, (idim < AMREX_SPACEDIM g)%nat ->
                iv_get is_nodal idim = 0 \/ iv_get is_nodal idim = 1) ->
  (SetEfieldOnPEC g icomp dom_lo dom_hi ijk_vec n field is_nodal fbndry_lo
                  fbndry_hi = Ok field' ->
   exists field'',
     SetEfieldOnPEC g icomp dom_lo dom_hi ijk_vec n field' is_nodal fbndry_lo
                    fbndry_hi = Ok field''
     /\ Array4_equiv field'' field')
  /\ (SetBfieldOnPEC g icomp dom_lo dom_hi ijk_vec n field is_nodal fbndry_lo
                     fbndry_hi = Ok field' ->
      exists field'',
        SetBfieldOnPEC g icomp dom_lo dom_hi ijk_vec n field' is_nodal fbndry_lo
                       fbndry_hi = Ok field''
        /\ Array4_equiv field'' field').
Proof.
  intros Hlen Hnodal.
  assert (H3 : (length ijk_vec <= 3)%nat)
    by (rewrite Hlen; apply SPACEDIM_le_3).
  split; intros E.
  - rewrite SetEfieldOnPEC_mirror in E |- *.
    destruct (mirror_state_guard_differs (is_tangent_to_PEC g icomp) g icomp
                dom_lo dom_hi ijk_vec is_nodal fbndry_lo fbndry_hi Hlen Hnodal)
      as [Hl Hne].
    eapply apply_mirror_twice; eauto.
  - rewrite SetBfieldOnPEC_mirror in E |- *.
    destruct (mirror_state_guard_differs (is_normal_to_PEC g icomp) g icomp
                dom_lo dom_hi ijk_vec is_nodal fbndry_lo fbndry_hi Hlen Hnodal)
      as [Hl Hne].
    eapply apply_mirror_twice; eauto.
Qed.

(** The locals of a guard cell at any depth beyond one PEC boundary. *)
Lemma mirror_state_single inverted g icomp dom_lo dom_hi ijk_vec is_nodal
      fbndry_lo fbndry_hi idim0 iside0 :
  length ijk_vec = AMREX_SPACEDIM g ->
  (idim0 < AMREX_SPACEDIM g)%nat -> (iside0 < 2)%nat ->
  side_is_PEC fbndry_lo fbndry_hi idim0 iside0 = true ->
  0 < get_cell_count_to_boundary dom_lo dom_hi ijk_vec is_nodal idim0 iside0 ->
  (forall idim iside,
      (idim < AMREX_SPACEDIM g)%nat -> (iside < 2)%nat ->
      (idim, iside) <> (idim0, iside0) ->
      beyond_PEC dom_lo dom_hi ijk_vec is_nodal fbndry_lo fbndry_hi idim iside
      = false) ->
  (forall idim iside,
      (idim < AMREX_SPACEDIM g)%nat -> (iside < 2)%nat ->
      on_PEC inverted dom_lo dom_hi ijk_vec is_nodal fbndry_lo fbndry_hi
             idim iside = false) ->
  let ig := get_cell_count_to_boundary dom_lo dom_hi ijk_vec is_nodal idim0
                                       iside0 in
  let mirror := iv_set ijk_vec idim0
                       (mirror_index dom_lo dom_hi is_nodal idim0 iside0 ig) in
  mirror_state inverted g icomp dom_lo dom_hi ijk_vec is_nodal fbndry_lo
               fbndry_hi
  = mkMirrorState mirror false true
                  (mirror_sign g icomp (inverted idim0) ijk_vec mirror is_nodal
                               idim0 iside0).
Proof.
  intros Hlen Hd0 Hs0 Hpec0 Hig0 Hsingle Hon ig mirror. unfold mirror_state.
  rewrite (pure_each_single _ _ (idim0, iside0)).
  - cbn [fst snd]. unfold mirror_side. rewrite Hpec0. cbv zeta.
    fold ig. fold mirror.
    replace (ig =? 0) with false by (symmetry; apply Z.eqb_neq; unfold ig; lia).
    replace (0 <? ig) with true by (symmetry; apply Z.ltb_lt; exact Hig0).
    cbn [ijk_mirror OnPECBoundary GuardCell sign]. fold mirror.
    unfold mirror_sign. f_equal.
    destruct (inverted idim0), (is_radial_high g icomp idim0 iside0); lra.
  - apply NoDup_sides.
  - apply in_sides; auto.
  - intros [i s] st Hin Hne. apply in_sides in Hin. destruct Hin as [Hi Hs].
    specialize (Hsingle i s Hi Hs Hne). specialize (Hon i s Hi Hs).
    unfold beyond_PEC, on_PEC in *. cbn [fst snd]. unfold mirror_side.
    destruct (side_is_PEC fbndry_lo fbndry_hi i s); [|reflexivity].
    cbn [andb] in *. cbv zeta. rewrite Hsingle.
    destruct (get_cell_count_to_boundary dom_lo dom_hi ijk_vec is_nodal i s =? 0);
      [|reflexivity].
    cbn [andb] in Hon. rewrite Hon. reflexivity.
Qed.

(** X25. The mirror rule at any depth.  A guard cell at depth ig >= 1
    beyond exactly one PEC boundary, and on no PEC boundary: its mirror
    cell has, along the axis of the boundary, the index
    dom_lo + ig - (1 - is_nodal) on the low side and dom_hi + 1 - ig on
    the high side, which lies within the domain at depth
    1 - ig - is_nodal; after SetEfieldOnPEC (SetBfieldOnPEC) the cell
    holds sign * (the value at the mirror cell), sign being -1 for a
    tangential (normal) component and +1 otherwise, times
    rmirror / rguard for the radial component beyond the high radial
    boundary of the RZ geometry. *)
Theorem PEC_guard_mirror_at_any_depth
        (g : Geometry) (icomp : Z) (dom_lo dom_hi ijk_vec : IntVect) (n : Z)
        (field : Array4) (is_nodal : IntVect)
        (fbndry_lo fbndry_hi : GpuArray FieldBoundaryType)
        (idim0 iside0 : nat) :
  length ijk_vec = AMREX_SPACEDIM g ->
  (idim0 < AMREX_SPACEDIM g)%nat -> (iside0 < 2)%nat ->
  side_is_PEC fbndry_lo fbndry_hi idim0 iside0 = true ->
  0 < get_cell_count_to_boundary dom_lo dom_hi ijk_vec is_nodal idim0 iside0 ->
  (forall idim iside,
      (idim < AMREX_SPACEDIM g)%nat -> (iside < 2)%nat ->
      (idim, iside) <> (idim0, iside0) ->
      beyond_PEC dom_lo dom_hi ijk_vec is_nodal fbndry_lo fbndry_hi idim iside
      = false) ->
  let ig := get_cell_count_to_boundary dom_lo dom_hi ijk_vec is_nodal idim0
                                       iside0 in
  let mirror := iv_set ijk_vec idim0
                       (mirror_index dom_lo dom_hi is_nodal idim0 iside0 ig) in
  in_extent field ijk_vec n -> in_extent field mirror n ->
  get_cell_count_to_boundary dom_lo dom_hi mirror is_nodal idim0 iside0
  = mirror_depth is_nodal idim0 ig
  /\ ((forall idim iside,
          (idim < AMREX_SPACEDIM g)%nat -> (iside < 2)%nat ->
          on_PEC (is_tangent_to_PEC g icomp) dom_lo dom_hi ijk_vec is_nodal
                 fbndry_lo fbndry_hi idim iside = false) ->
      SetEfieldOnPEC g icomp dom_lo dom_hi ijk_vec n field is_nodal fbndry_lo
                     fbndry_hi
      = Ok (Array4_update field (iv_i ijk_vec) (iv_j ijk_vec) (iv_k ijk_vec) n
              (mirror_sign g icomp (is_tangent_to_PEC g icomp idim0) ijk_vec
                           mirror is_nodal idim0 iside0
               * Array4_at field mirror n)%R))
  /\ ((forall idim iside,
          (idim < AMREX_SPACEDIM g)%nat -> (iside < 2)%nat ->
          on_PEC (is_normal_to_PEC g icomp) dom_lo dom_hi ijk_vec is_nodal
                 fbndry_lo fbndry_hi idim iside = false) ->
      SetBfieldOnPEC g icomp dom_lo dom_hi ijk_vec n field is_nodal fbndry_lo
                     fbndry_hi
      = Ok (Array4_update field (iv_i ijk_vec) (iv_j ijk_vec) (iv_k ijk_vec) n
              (mirror_sign g icomp (is_normal_to_PEC g icomp idim0) ijk_vec
                           mirror is_nodal idim0 iside0
               * Array4_at field mirror n)%R)).
Proof.
  intros Hlen Hd0 Hs0 Hpec0 Hig0 Hsingle ig mirror Hin Hmir.
  split; [|split].
  - unfold mirror_depth, get_cell_count_to_boundary, mirror, mirror_index.
    rewrite iv_get_set_same by lia. fold ig.
    destruct (iside0 =? 0)%nat; lia.
  - intros Hon. rewrite SetEfieldOnPEC_mirror.
    rewrite (mirror_state_single _ _ _ _ _ _ _ _ _ idim0 iside0
                                 Hlen Hd0 Hs0 Hpec0 Hig0 Hsingle Hon).
    fold ig. fold mirror. unfold apply_mirror. cbn [OnPECBoundary GuardCell
                                                   ijk_mirror sign].
    unfold Array4_read_iv, Array4_read. rewrite Hmir. cbn [bind].
    unfold Array4_write_iv, Array4_write. rewrite Hin. reflexivity.
  - intros Hon. rewrite SetBfieldOnPEC_mirror.
    rewrite (mirror_state_single _ _ _ _ _ _ _ _ _ idim0 iside0
                                 Hlen Hd0 Hs0 Hpec0 Hig0 Hsingle Hon).
    fold ig. fold mirror. unfold apply_mirror. cbn [OnPECBoundary GuardCell
                                                   ijk_mirror sign].
    unfold Array4_read_iv, Array4_read. rewrite Hmir. cbn [bind].
    unfold Array4_write_iv, Array4_write. rewrite Hin. reflexivity.
Qed.

(** ** Examples *)

Lemma SetBfieldOnPEC_zero_on_boundary_witness :
  SetBfieldOnPEC DIM_1D_Z 2 [0] [9] [0] 0 (line_field (fun _ => 5%R)) [1]
                 lo0_PEC no_PEC
  = Ok (Array4_update (line_field (fun _ => 5%R)) 0 0 0 0 0%R).
Proof.
  apply (SetBfieldOnPEC_zero_on_boundary
           DIM_1D_Z 2 [0] [9] [0] 0 (line_field (fun _ => 5%R)) [1]
           lo0_PEC no_PEC 0%nat 0%nat);
    try reflexivity; cbn; lia.
Defined.

Lemma PEC_field_kernels_are_idempotent_witness :
  exists E' E'',
    SetEfieldOnPEC DIM_XZ 1 [0; 0] [9; 9] [-1; 4] 0 (row_field IZR) [1; 1]
                   lo0_PEC no_PEC = Ok E'
    /\ SetEfieldOnPEC DIM_XZ 1 [0; 0] [9; 9] [-1; 4] 0 E' [1; 1] lo0_PEC no_PEC
       = Ok E''
    /\ Array4_equiv E'' E'.
Proof.
  assert (E : exists E', SetEfieldOnPEC DIM_XZ 1 [0; 0] [9; 9] [-1; 4] 0
                                        (row_field IZR) [1; 1] lo0_PEC no_PEC
                         = Ok E') by (eexists; reflexivity).
  destruct E as [E' E].
  destruct (PEC_field_kernels_are_idempotent
              DIM_XZ 1 [0; 0] [9; 9] [-1; 4] 0 (row_field IZR) E' [1; 1]
              lo0_PEC no_PEC eq_refl) as [H _].
  - intros idim Hd. cbn in Hd.
    destruct idim as [|[|?]]; [right; reflexivity|right; reflexivity|lia].
  - destruct (H E) as (E'' & Erun & Hequiv).
    exists E', E''. split; [exact E|]. split; [exact Erun|exact Hequiv].
Defined.

Lemma PEC_guard_mirror_at_any_depth_witness :
  SetEfieldOnPEC DIM_XZ 1 [0; 0] [9; 9] [-2; 4] 0 (row_field IZR) [1; 1]
                 lo0_PEC no_PEC
  = Ok (Array4_update (row_field IZR) (-2) 4 0 0
          (Rmult (mirror_sign DIM_XZ 1 true [-2; 4] [2; 4] [1; 1] 0 0)
                 (Array4_at (row_field IZR) [2; 4] 0))).
Proof.
  destruct (PEC_guard_mirror_at_any_depth
              DIM_XZ 1 [0; 0] [9; 9] [-2; 4] 0 (row_field IZR) [1; 1]
              lo0_PEC no_PEC 0%nat 0%nat eq_refl)
    as (_ & H & _); try reflexivity; try (cbn; lia).
  - intros idim iside Hd Hs Hne. cbn in Hd.
    destruct idim as [|[|?]], iside as [|[|?]]; try lia; try reflexivity.
    congruence.
  - apply H. intros idim iside Hd Hs. cbn in Hd.
    destruct idim as [|[|?]], iside as [|[|?]]; try lia; reflexivity.
Defined.

End PEC_more.

(* ================================================================== *)
(** * The direct kernel over a batch of particles *)
(* ================================================================== *)

Section Deposition_batches.

Local Open Scope R_scope.

Lemma seq_shift_from (n1 n2 : nat) :
  map (fun ip => (n1 + ip)%nat) (seq 0 n2) = seq n1 n2.
Proof.
  assert (H : forall s, map (fun ip => (n1 + ip)%nat) (seq s n2) = seq (n1 + s) n2).
  { induction n2 as [|n IH]; intros s; cbn [seq map]; [reflexivity|].
    rewrite IH. do 2 f_equal. lia. }
  rewrite H. f_equal. lia.
Qed.

Lemma deposits_of_monopole g depos_order GetPosition wp ion_lev rho_type inv
      xyzmin lo q n_modes ip :
  (depos_order <= 3)%nat ->
  (forall d, (d < AMREX_SPACEDIM g)%nat ->
             iv_get rho_type d = NODE \/ iv_get rho_type d = CELL) ->
  Rsum (map (to_component 0)
            (deposits_of g depos_order GetPosition wp ion_lev rho_type inv xyzmin
                         lo q n_modes ip))
  = deposited_weight wp ion_lev inv q ip.
Proof.
  intros Hord Hstag. unfold deposits_of.
  destruct (particle_deposits_runs g depos_order GetPosition wp ion_lev rho_type
                                   inv xyzmin lo q n_modes ip) as (l & El).
  rewrite El. eapply particle_deposits_monopole; eauto.
Qed.

Lemma deposited_weight_charge g dx inv wp ion_lev q ip :
  invvol inv * cell_volume g dx = 1 ->
  deposited_weight wp ion_lev inv q ip * cell_volume g dx
  = particle_charge q wp ion_lev ip.
Proof.
  intros Hinv. unfold deposited_weight, particle_charge.
  destruct ion_lev as [lev|].
  - transitivity (q * wp ip * IZR (lev ip) * (invvol inv * cell_volume g dx));
      [ring|rewrite Hinv; ring].
  - transitivity (q * wp ip * (invvol inv * cell_volume g dx));
      [ring|rewrite Hinv; ring].
Qed.

(** The direct kernel is one scatter of the additions of its particles,
    which returns when every particle is in range. *)
Lemma doChargeDepositionShapeN_scatter g depos_order GetPosition wp ion_lev
      rho_arr rho_type np_to_deposit dx xyzmin lo q n_modes :
  cell_volume g dx <> 0 ->
  (forall ip, (ip < Z.to_nat np_to_deposit)%nat ->
              stencil_in_range g depos_order GetPosition wp ion_lev rho_arr
                               rho_type dx xyzmin lo q n_modes ip) ->
  exists inv rho',
    inverse_cell_size g dx = Ok inv
    /\ invvol inv * cell_volume g dx = 1
    /\ doChargeDepositionShapeN g depos_order GetPosition wp ion_lev rho_arr
                                rho_type np_to_deposit dx xyzmin lo q n_modes
       = Ok rho'
    /\ scatter (flat_map (deposits_of g depos_order GetPosition wp ion_lev
                                      rho_type inv xyzmin lo q n_modes)
                         (seq 0 (Z.to_nat np_to_deposit))) rho_arr = Ok rho'
    /\ same_extent rho' rho_arr.
Proof.
  intros Hvol Hrange.
  destruct (inverse_cell_size_ok g dx Hvol) as (inv & Einv & Hinv).
  destruct (scatter_ok
              (flat_map (deposits_of g depos_order GetPosition wp ion_lev rho_type
                                     inv xyzmin lo q n_modes)
                        (seq 0 (Z.to_nat np_to_deposit))) rho_arr)
    as (rho' & E & Hext & _).
  { apply forallb_forall. intros d Hd.
    apply in_flat_map in Hd. destruct Hd as (ip & Hip & Hd). apply in_seq in Hip.
    unfold deposits_of in Hd.
    destruct (particle_deposits g depos_order GetPosition wp ion_lev rho_type inv
                                xyzmin lo q n_modes ip) as [l|] eqn:El;
      [|destruct Hd].
    pose proof (Hrange ip ltac:(lia) inv l Einv El) as Hall.
    rewrite forallb_forall in Hall. apply Hall, Hd. }
  exists inv, rho'. repeat split; try assumption; try apply Hext.
  unfold doChargeDepositionShapeN. rewrite Einv. cbn [bind].
  rewrite for_loop_each.
  rewrite (particle_loop_scatter _ _ _ _ _ _ _ _ _ _ _ (fun ip => ip)), map_id.
  exact E.
Qed.

(** X26. Charge conservation of the direct kernel over a batch.  For
    every dimensionality, every order 0..3, every node- or cell-centred
    staggering, any number of particles in range of the grid, with or
    without ionization levels, and any values already on the grid: the
    kernel returns a grid of the same extent, and the sum of component 0
    over all cells, times the cell volume, grows by the sum of the
    charges q * w (times the ionization level) of the particles. *)
Theorem doChargeDepositionShapeN_adds_every_charge
        (g : Geometry) (depos_order : nat)
        (GetPosition : nat -> R * R * R) (wp : nat -> R)
        (ion_lev : option (nat -> Z))
        (rho_arr : Array4) (rho_type : IntVect) (np_to_deposit : Z)
        (dx xyzmin : Real3) (lo : Dim3) (q : R) (n_rz_azimuthal_modes : Z) :
  (depos_order <= 3)%nat ->
  (forall d, (d < AMREX_SPACEDIM g)%nat ->
             iv_get rho_type d = NODE \/ iv_get rho_type d = CELL) ->
  cell_volume g dx <> 0 ->
  (forall ip, (ip < Z.to_nat np_to_deposit)%nat ->
              stencil_in_range g depos_order GetPosition wp ion_lev rho_arr
                               rho_type dx xyzmin lo q n_rz_azimuthal_modes ip) ->
  exists rho',
    doChargeDepositionShapeN g depos_order GetPosition wp ion_lev rho_arr
                             rho_type np_to_deposit dx xyzmin lo q
                             n_rz_azimuthal_modes = Ok rho'
    /\ same_extent rho' rho_arr
    /\ Array4_total rho' 0 * cell_volume g dx
       = Array4_total rho_arr 0 * cell_volume g dx
         + Rsum (map (particle_charge q wp ion_lev)
                     (seq 0 (Z.to_nat np_to_deposit))).
Proof.
  intros Hord Hstag Hvol Hrange.
  destruct (doChargeDepositionShapeN_scatter
              g depos_order GetPosition wp ion_lev rho_arr rho_type np_to_deposit
              dx xyzmin lo q n_rz_azimuthal_modes Hvol Hrange)
    as (inv & rho' & Einv & Hinv & Erun & Escatter & Hext).
  exists rho'. split; [exact Erun|]. split; [exact Hext|].
  rewrite (scatter_total _ _ _ 0%Z Escatter), Rsum_map_flat_map.
  rewrite Rmult_plus_distr_r. f_equal.
  rewrite <- Rsum_map_scale. apply Rsum_map_ext. intros ip _.
  rewrite deposits_of_monopole by assumption.
  apply deposited_weight_charge, Hinv.
Qed.

(** X27. Depositing a batch in two calls.  The direct kernel run over
    n1 + n2 particles is the kernel run over the first n1 followed by the
    kernel run, on the grid the first call returns, over the n2 particles
    that start at index n1; when the first call fails, so does the whole,
    with the same fault. *)
Theorem doChargeDepositionShapeN_in_two_calls
        (g : Geometry) (depos_order : nat)
        (GetPosition : nat -> R * R * R) (wp : nat -> R)
        (ion_lev : option (nat -> Z))
        (rho_arr : Array4) (rho_type : IntVect) (n1 n2 : nat)
        (dx xyzmin : Real3) (lo : Dim3) (q : R) (n_rz_azimuthal_modes : Z) :
  doChargeDepositionShapeN g depos_order GetPosition wp ion_lev rho_arr rho_type
                           (Z.of_nat (n1 + n2)) dx xyzmin lo q
                           n_rz_azimuthal_modes
  = (rho1 <- doChargeDepositionShapeN g depos_order GetPosition wp ion_lev
                                      rho_arr rho_type (Z.of_nat n1) dx xyzmin
                                      lo q n_rz_azimuthal_modes ;;
     doChargeDepositionShapeN g depos_order
                              (fun ip => GetPosition (n1 + ip)%nat)
                              (fun ip => wp (n1 + ip)%nat)
                              (option_map (fun lev ip => lev (n1 + ip)%nat)
                                          ion_lev)
                              rho1 rho_type (Z.of_nat n2) dx xyzmin lo q
                              n_rz_azimuthal_modes).
Proof.
  unfold doChargeDepositionShapeN.
  destruct (inverse_cell_size g dx) as [inv|f]; cbn [bind]; [|reflexivity].
  rewrite !Nat2Z.id, !for_loop_each, seq_app, for_each_app. cbn [Nat.add].
  match goal with
  | |- bind ?m _ = bind ?m' _ => destruct m as [rho1|f]
  end; cbn [bind]; [|reflexivity].
  rewrite <- (seq_shift_from n1 n2), for_each_map, for_loop_each.
  apply for_each_ext. intros ip s _.
  destruct ion_lev; reflexivity.
Qed.

(** ** The totals of the azimuthal modes *)

Lemma mode_deposits_component n_modes i j sx_ix sz_iz wq xy0 (m : nat) :
  (1 <= m)%nat -> (Z.of_nat m < n_modes)%Z ->
  Rsum (map (to_component (2 * Z.of_nat m - 1))
            (mode_deposits n_modes i j sx_ix sz_iz wq xy0))
  = 2 * sx_ix * sz_iz * wq * fst (Cpow xy0 m)
  /\ Rsum (map (to_component (2 * Z.of_nat m))
               (mode_deposits n_modes i j sx_ix sz_iz wq xy0))
     = 2 * sx_ix * sz_iz * wq * snd (Cpow xy0 m).
Proof.
  intros Hm Hn. unfold mode_deposits. rewrite !Rsum_map_flat_map.
  split.
  - rewrite (Rsum_seq_single _ 1 _ m); [|lia|].
    + cbn [map]. rewrite !Rsum_cons, Rsum_nil. unfold to_component.
      cbn [dep_n dep_v]. rewrite Z.eqb_refl.
      replace (2 * Z.of_nat m =? 2 * Z.of_nat m - 1)%Z with false
        by (symmetry; apply Z.eqb_neq; lia).
      lra.
    + intros x Hx Hne. cbn [map]. rewrite !Rsum_cons, Rsum_nil.
      unfold to_component. cbn [dep_n dep_v].
      replace (2 * Z.of_nat x - 1 =? 2 * Z.of_nat m - 1)%Z with false
        by (symmetry; apply Z.eqb_neq; lia).
      replace (2 * Z.of_nat x =? 2 * Z.of_nat m - 1)%Z with false
        by (symmetry; apply Z.eqb_neq; lia).
      lra.
  - rewrite (Rsum_seq_single _ 1 _ m); [|lia|].
    + cbn [map]. rewrite !Rsum_cons, Rsum_nil. unfold to_component.
      cbn [dep_n dep_v]. rewrite Z.eqb_refl.
      replace (2 * Z.of_nat m - 1 =? 2 * Z.of_nat m)%Z with false
        by (symmetry; apply Z.eqb_neq; lia).
      lra.
    + intros x Hx Hne. cbn [map]. rewrite !Rsum_cons, Rsum_nil.
      unfold to_component. cbn [dep_n dep_v].
      replace (2 * Z.of_nat x - 1 =? 2 * Z.of_nat m)%Z with false
        by (symmetry; apply Z.eqb_neq; lia).
      replace (2 * Z.of_nat x =? 2 * Z.of_nat m)%Z with false
        by (symmetry; apply Z.eqb_neq; lia).
      lra.
Qed.

(** The additions of one particle to the two components of mode [m] sum
    to 2 wq Re(xy0^m) and 2 wq Im(xy0^m). *)
Lemma particle_deposits_mode depos_order GetPosition wp ion_lev rho_type inv
      xyzmin lo q n_modes ip l xy0 (m : nat) :
  (depos_order <= 3)%nat ->
  (forall d, (d < AMREX_SPACEDIM DIM_RZ)%nat ->
             iv_get rho_type d = NODE \/ iv_get rho_type d = CELL) ->
  rz_direction (fst (fst (GetPosition ip))) (snd (fst (GetPosition ip)))
  = Ok xy0 ->
  (1 <= m)%nat -> (Z.of_nat m < n_modes)%Z ->
  particle_deposits DIM_RZ depos_order GetPosition wp ion_lev rho_type inv xyzmin
                    lo q n_modes ip = Ok l ->
  Rsum (map (to_component (2 * Z.of_nat m - 1)) l)
  = 2 * deposited_weight wp ion_lev inv q ip * fst (Cpow xy0 m)
  /\ Rsum (map (to_component (2 * Z.of_nat m)) l)
     = 2 * deposited_weight wp ion_lev inv q ip * snd (Cpow xy0 m).
Proof.
  intros Hord Hstag Hdir Hm Hn. unfold particle_deposits, deposited_weight.
  destruct (GetPosition ip) as [[xp yp] zp]. cbn [fst snd] in Hdir. cbv zeta.
  set (wq := match ion_lev with
             | Some lev => q * wp ip * invvol inv * IZR (lev ip)
             | None => q * wp ip * invvol inv
             end).
  rewrite Hdir. cbn [bind].
  pose proof (shape_along_unity depos_order _
                ((sqrt (xp * xp + yp * yp) - xyzmin 0%nat) * dxi inv) Hord
                (Hstag 0%nat ltac:(simpl; lia))) as [Hlx Hsx].
  pose proof (shape_along_unity depos_order _ ((zp - xyzmin 2%nat) * dzi inv) Hord
                (Hstag (WARPX_ZINDEX DIM_RZ) ltac:(unfold WARPX_ZINDEX; simpl; lia)))
    as [Hlz Hsz].
  destruct (shape_along depos_order (iv_get rho_type 0) _) as [i sx].
  destruct (shape_along depos_order _ _) as [k sz]. cbn [snd] in *.
  intros E. apply Ok_inj in E. subst l.
  assert (H0odd : (0 =? 2 * Z.of_nat m - 1)%Z = false) by (apply Z.eqb_neq; lia).
  assert (H0even : (0 =? 2 * Z.of_nat m)%Z = false) by (apply Z.eqb_neq; lia).
  split.
  - rewrite Rsum_map_flat_map.
    rewrite (Rsum_map_ext _ (fun iz => nth iz sz 0 * (2 * wq * fst (Cpow xy0 m)))).
    { rewrite Rsum_map_scale, stencil_sum, Hsz by exact Hlz. lra. }
    intros iz _. rewrite Rsum_map_flat_map.
    rewrite (Rsum_map_ext _ (fun ix => nth ix sx 0
                                       * (nth iz sz 0 * (2 * wq * fst (Cpow xy0 m))))).
    { rewrite Rsum_map_scale, stencil_sum, Hsx by exact Hlx. lra. }
    intros ix _. cbn [map]. rewrite Rsum_cons.
    rewrite (proj1 (mode_deposits_component _ _ _ _ _ _ _ m Hm Hn)).
    unfold to_component at 1. cbn [dep_n dep_v]. rewrite H0odd. lra.
  - rewrite Rsum_map_flat_map.
    rewrite (Rsum_map_ext _ (fun iz => nth iz sz 0 * (2 * wq * snd (Cpow xy0 m)))).
    { rewrite Rsum_map_scale, stencil_sum, Hsz by exact Hlz. lra. }
    intros iz _. rewrite Rsum_map_flat_map.
    rewrite (Rsum_map_ext _ (fun ix => nth ix sx 0
                                       * (nth iz sz 0 * (2 * wq * snd (Cpow xy0 m))))).
    { rewrite Rsum_map_scale, stencil_sum, Hsx by exact Hlx. lra. }
    intros ix _. cbn [map]. rewrite Rsum_cons.
    rewrite (proj2 (mode_deposits_component _ _ _ _ _ _ _ m Hm Hn)).
    unfold to_component at 1. cbn [dep_n dep_v]. rewrite H0even. lra.
Qed.

(** X28. The totals of the azimuthal modes in the RZ build.  For a batch
    of particles in range of the grid, any order 0..3 and any node- or
    cell-centred staggering, and for every mode m with
    1 <= m < n_rz_azimuthal_modes: the sum over all cells of component
    2m-1, times the cell volume, grows by the sum over the particles of
    2 * charge * Re(xy0^m), and that of component 2m by the sum of
    2 * charge * Im(xy0^m), where xy0 is the unit direction of the
    particle in the (x, y) plane. *)
Theorem doChargeDepositionShapeN_RZ_mode_totals
        (depos_order : nat) (GetPosition : nat -> R * R * R) (wp : nat -> R)
        (ion_lev : option (nat -> Z)) (rho_arr : Array4) (rho_type : IntVect)
        (np_to_deposit : Z) (dx xyzmin : Real3) (lo : Dim3) (q : R)
        (n_rz_azimuthal_modes : Z) (xy0 : nat -> Complex) (m : nat) :
  (depos_order <= 3)%nat ->
  (forall d, (d < AMREX_SPACEDIM DIM_RZ)%nat ->
             iv_get rho_type d = NODE \/ iv_get rho_type d = CELL) ->
  cell_volume DIM_RZ dx <> 0 ->
  (forall ip, (ip < Z.to_nat np_to_deposit)%nat ->
              rz_direction (fst (fst (GetPosition ip)))
                           (snd (fst (GetPosition ip))) = Ok (xy0 ip)) ->
  (forall ip, (ip < Z.to_nat np_to_deposit)%nat ->
              stencil_in_range DIM_RZ depos_order GetPosition wp ion_lev rho_arr
                               rho_type dx xyzmin lo q n_rz_azimuthal_modes ip) ->
  (1 <= m)%nat -> (Z.of_nat m < n_rz_azimuthal_modes)%Z ->
  exists rho',
    doChargeDepositionShapeN DIM_RZ depos_order GetPosition wp ion_lev rho_arr
                             rho_type np_to_deposit dx xyzmin lo q
                             n_rz_azimuthal_modes = Ok rho'
    /\ Array4_total rho' (2 * Z.of_nat m - 1) * cell_volume DIM_RZ dx
       = Array4_total rho_arr (2 * Z.of_nat m - 1) * cell_volume DIM_RZ dx
         + Rsum (map (fun ip => 2 * particle_charge q wp ion_lev ip
                                * fst (Cpow (xy0 ip) m))
                     (seq 0 (Z.to_nat np_to_deposit)))
    /\ Array4_total rho' (2 * Z.of_nat m) * cell_volume DIM_RZ dx
       = Array4_total rho_arr (2 * Z.of_nat m) * cell_volume DIM_RZ dx
         + Rsum (map (fun ip => 2 * particle_charge q wp ion_lev ip
                                * snd (Cpow (xy0 ip) m))
                     (seq 0 (Z.to_nat np_to_deposit))).
Proof.
  intros Hord Hstag Hvol Hdir Hrange Hm Hn.
  destruct (doChargeDepositionShapeN_scatter
              DIM_RZ depos_order GetPosition wp ion_lev rho_arr rho_type
              np_to_deposit dx xyzmin lo q n_rz_azimuthal_modes Hvol Hrange)
    as (inv & rho' & Einv & Hinv & Erun & Escatter & Hext).
  assert (Hpart : forall ip,
             In ip (seq 0 (Z.to_nat np_to_deposit)) ->
             Rsum (map (to_component (2 * Z.of_nat m - 1))
                       (deposits_of DIM_RZ depos_order GetPosition wp ion_lev
                                    rho_type inv xyzmin lo q n_rz_azimuthal_modes
                                    ip))
             = 2 * deposited_weight wp ion_lev inv q ip * fst (Cpow (xy0 ip) m)
             /\ Rsum (map (to_component (2 * Z.of_nat m))
                          (deposits_of DIM_RZ depos_order GetPosition wp ion_lev
                                       rho_type inv xyzmin lo q
                                       n_rz_azimuthal_modes ip))
                = 2 * deposited_weight wp ion_lev inv q ip * snd (Cpow (xy0 ip) m)).
  { intros ip Hip. apply in_seq in Hip. unfold deposits_of.
    destruct (particle_deposits_runs DIM_RZ depos_order GetPosition wp ion_lev
                                     rho_type inv xyzmin lo q
                                     n_rz_azimuthal_modes ip) as (l & El).
    rewrite El.
    apply (particle_deposits_mode depos_order GetPosition wp ion_lev rho_type
             inv xyzmin lo q n_rz_azimuthal_modes ip l (xy0 ip) m Hord Hstag
             (Hdir ip ltac:(lia)) Hm Hn El). }
  exists rho'. split; [exact Erun|]. split.
  - rewrite (scatter_total _ _ _ _ Escatter), Rsum_map_flat_map.
    rewrite Rmult_plus_distr_r. f_equal.
    rewrite <- Rsum_map_scale. apply Rsum_map_ext. intros ip Hip.
    rewrite (proj1 (Hpart ip Hip)).
    rewrite <- (deposited_weight_charge DIM_RZ dx inv wp ion_lev q ip Hinv). ring.
  - rewrite (scatter_total _ _ _ _ Escatter), Rsum_map_flat_map.
    rewrite Rmult_plus_distr_r. f_equal.
    rewrite <- Rsum_map_scale. apply Rsum_map_ext. intros ip Hip.
    rewrite (proj2 (Hpart ip Hip)).
    rewrite <- (deposited_weight_charge DIM_RZ dx inv wp ion_lev q ip Hinv). ring.
Qed.

(** ** The tile-size check of the tiled kernel *)

(** X29. With cells of non-zero size, the tiled kernel stops with the
    message that the tile is too big for the shared memory exactly when
    it is built for CUDA or HIP and the points of a tile of the largest
    size, converted to the staggering and grown by the order, times the
    size of a real exceed the shared memory of the device; whatever the
    particles and the bins. *)
Theorem tiled_kernel_tile_size_check
        (use_shared : bool)
        (getTileIndex : IntVect -> Box -> bool -> IntVect -> Box)
        (max_shared_mem_bytes sizeof_Real : Z)
        (g : Geometry) (depos_order : nat)
        (GetPosition : nat -> R * R * R) (wp : nat -> R)
        (ion_lev : option (nat -> Z)) (rho_arr : Array4)
        (rho_type ix_type : IntVect) (np_to_deposit : Z) (dx xyzmin : Real3)
        (lo : Dim3) (q : R) (n_rz_azimuthal_modes : Z) (a_bins : DenseBins)
        (box : Box) (geom : AmrexGeometry) (a_tbox_max_size bin_size : IntVect) :
  cell_volume g dx <> 0 ->
  (doChargeDepositionSharedShapeN
     use_shared getTileIndex max_shared_mem_bytes sizeof_Real g depos_order
     GetPosition wp ion_lev rho_arr rho_type ix_type np_to_deposit dx xyzmin lo
     q n_rz_azimuthal_modes a_bins box geom a_tbox_max_size bin_size
   = Err TileTooBig
   <-> use_shared = true
       /\ (max_shared_mem_bytes
           < Box_numPts g
               (Box_grow (Box_convert (mkBox (repeat 0%Z (AMREX_SPACEDIM g))
                                             (map (fun x => (x - 1)%Z)
                                                  a_tbox_max_size))
                                      ix_type) (Z.of_nat depos_order))
             * sizeof_Real)%Z).
Proof.
  intros Hvol.
  destruct (inverse_cell_size_ok g dx Hvol) as (inv & Einv & _).
  unfold doChargeDepositionSharedShapeN. rewrite Einv. cbn [bind]. cbv zeta.
  destruct use_shared.
  - destruct (Z.leb_spec
                (Box_numPts g
                   (Box_grow (Box_convert (mkBox (repeat 0%Z (AMREX_SPACEDIM g))
                                                 (map (fun x => (x - 1)%Z)
                                                      a_tbox_max_size))
                                          ix_type) (Z.of_nat depos_order))
                 * sizeof_Real)%Z max_shared_mem_bytes) as [Hle|Hlt].
    + split.
      * intros E.
        apply for_loop_fault with (P := fun f => f = OutOfRange) in E;
          [discriminate|].
        intros x s f. apply deposit_tile_fault.
      * intros [_ H]. lia.
    + split; [intros _; split; [reflexivity|exact Hlt]|reflexivity].
  - split.
    + intros E.
      apply for_loop_fault with (P := fun f => f = OutOfRange) in E;
        [discriminate|].
      intros x s f. apply deposit_particle_fault.
    + intros [H _]. discriminate.
Qed.

(** ** Examples *)

Lemma example_in_range wp ion_lev q ip :
  stencil_in_range DIM_1D_Z 1 example_position wp ion_lev zero_line [NODE]
                   unit_cells origin (mkDim3 0 0 0) q 0 ip.
Proof.
  intros inv l Einv El. apply example_inverse_cell in Einv. subst inv.
  unfold particle_deposits, example_position, origin in El.
  cbn [invvol dzi dxi dyi WARPX_ZINDEX AMREX_SPACEDIM Nat.sub iv_get nth] in El.
  unfold shape_along, Compute_shape_factor in El.
  cbn [Z.eqb NODE Pos.eqb] in El.
  rewrite (floor_unique 3) in El by lra.
  apply Ok_inj in El. subst l. reflexivity.
Qed.

Lemma doChargeDepositionShapeN_adds_every_charge_witness :
  exists rho',
    doChargeDepositionShapeN DIM_1D_Z 1 example_position unit_weight
                             (Some (fun _ => 2%Z)) zero_line [NODE] 2 unit_cells
                             origin (mkDim3 0 0 0) 1 0 = Ok rho'
    /\ same_extent rho' zero_line
    /\ Array4_total rho' 0 * cell_volume DIM_1D_Z unit_cells
       = Array4_total zero_line 0 * cell_volume DIM_1D_Z unit_cells
         + Rsum (map (particle_charge 1 unit_weight (Some (fun _ => 2%Z)))
                     (seq 0 (Z.to_nat 2))).
Proof.
  apply (doChargeDepositionShapeN_adds_every_charge
           DIM_1D_Z 1 example_position unit_weight (Some (fun _ => 2%Z))
           zero_line [NODE] 2 unit_cells origin (mkDim3 0 0 0) 1 0).
  - lia.
  - intros d Hd. simpl in Hd. destruct d; [left; reflexivity|lia].
  - unfold cell_volume, unit_cells. lra.
  - intros ip _. apply example_in_range.
Defined.

Lemma doChargeDepositionShapeN_RZ_mode_totals_witness :
  exists rho',
    doChargeDepositionShapeN DIM_RZ 0 on_axis unit_weight None rz_grid
                             [NODE; NODE] 2 unit_cells origin (mkDim3 0 0 0) 1 2
    = Ok rho'
    /\ Array4_total rho' (2 * Z.of_nat 1 - 1) * cell_volume DIM_RZ unit_cells
       = Array4_total rz_grid (2 * Z.of_nat 1 - 1) * cell_volume DIM_RZ unit_cells
         + Rsum (map (fun ip => 2 * particle_charge 1 unit_weight None ip
                                * fst (Cpow (1, 0) 1))
                     (seq 0 (Z.to_nat 2)))
    /\ Array4_total rho' (2 * Z.of_nat 1) * cell_volume DIM_RZ unit_cells
       = Array4_total rz_grid (2 * Z.of_nat 1) * cell_volume DIM_RZ unit_cells
         + Rsum (map (fun ip => 2 * particle_charge 1 unit_weight None ip
                                * snd (Cpow (1, 0) 1))
                     (seq 0 (Z.to_nat 2))).
Proof.
  apply (doChargeDepositionShapeN_RZ_mode_totals
           0 on_axis unit_weight None rz_grid [NODE; NODE] 2 unit_cells origin
           (mkDim3 0 0 0) 1 2 (fun _ => (1, 0)) 1).
  - lia.
  - intros d Hd. simpl in Hd.
    destruct d as [|[|d]]; [left; reflexivity|left; reflexivity|lia].
  - unfold cell_volume, unit_cells. lra.
  - intros ip _. exact rz_direction_on_axis.
  - intros ip _ inv l Einv. apply rz_inverse_unique in Einv. subst inv.
    apply (RZ_deposits_in_range 0 on_axis unit_weight None [NODE; NODE]
             rz_inverse origin (mkDim3 0 0 0) 1 2 ip rz_grid 0 0 0 0%Z 0%Z
             [1] [1] eq_refl).
    + apply shape_order0_node. rewrite radius_on_axis.
      unfold origin, rz_inverse. cbn [dxi]. lra.
    + apply shape_order0_node. unfold origin, rz_inverse. cbn [dzi]. lra.
    + intros ix iz n Hix Hiz Hn. apply rz_grid_cells; lia.
  - lia.
  - lia.
Defined.

Lemma tiled_kernel_tile_size_check_witness :
  doChargeDepositionSharedShapeN
    true whole_box 0 8 DIM_1D_Z 1 example_position unit_weight None zero_line
    [NODE] [NODE] 2 unit_cells origin (mkDim3 0 0 0) 1 0 swap_bins
    (mkBox [0%Z] [9%Z]) (mkAmrexGeometry unit_cells origin [0%Z]) [4%Z] [4%Z]
  = Err TileTooBig.
Proof.
  apply (tiled_kernel_tile_size_check
           true whole_box 0 8 DIM_1D_Z 1 example_position unit_weight None
           zero_line [NODE] [NODE] 2 unit_cells origin (mkDim3 0 0 0) 1 0
           swap_bins (mkBox [0%Z] [9%Z])
           (mkAmrexGeometry unit_cells origin [0%Z]) [4%Z] [4%Z]).
  - unfold cell_volume, unit_cells. lra.
  - split; reflexivity.
Defined.

End Deposition_batches.
